(** * tengen-speech-sdk-go: the client engine of the streaming speech protocol

    A shallow embedding of the message codec ([transport/message.go],
    [protocol/messages.go]), the connection retry loop, the recognition
    session ([stt/session.go], [stt/client.go]), the synthesis session and
    its audio stream ([tts/session.go], [tts/stream.go]), followed by the
    properties of the specification that were checked against them.

    Conventions.
    - A Go [string] is a [string] (a sequence of bytes); a [[]byte] holding
      audio is a [list byte].
    - [encoding/json] and [encoding/base64] belong to the Go standard
      library.  The base64 decoder is written out.  For JSON the model
      starts behind the lexer: a frame is either text that is not JSON
      ([Malformed]) or the JSON value it denotes.
    - [int], [int64] and [time.Duration] are 64-bit two's complement; the
      wrap-around is written out with [wrap64].
    - Goroutines are modelled by the order in which their steps are
      scheduled: a [select] receives its outcome as an input. *)

From Stdlib Require Import ZArith Lia List Bool.
From Stdlib.Strings Require Import String Ascii Byte.
From Stdlib Require Import SpecFloat.
From stdpp Require Import base option list gmap strings pretty.

Import ListNotations.
Local Open Scope string_scope.
Local Open Scope list_scope.
Local Open Scope Z_scope.

(** ** Machine integers *)

Definition int64_min : Z := - 2 ^ 63.
Definition int64_max : Z := 2 ^ 63 - 1.

(** Two's complement reduction of an integer to 64 bits. *)
Definition wrap64 (z : Z) : Z := (z + 2 ^ 63) mod 2 ^ 64 - 2 ^ 63.

Definition in_int64 (z : Z) : bool := (int64_min <=? z) && (z <=? int64_max).

(** ** Errors *)

Inductive error : Type :=
| SyntaxError                          (* json: invalid character ... *)
| UnmarshalTypeError                   (* json: cannot unmarshal X into Go value of type Y *)
| UnsupportedValueError                (* json: unsupported value: NaN, +Inf, -Inf *)
| CorruptInputError                    (* base64: illegal base64 data *)
| ErrNotConnected                      (* transport.ErrNotConnected *)
| ErrConnectionClosed                  (* transport.ErrConnectionClosed *)
| Canceled                             (* context.Canceled *)
| DeadlineExceeded                     (* context.DeadlineExceeded *)
| EOF                                  (* io.EOF *)
| NetError (what : string)             (* a failure reported by the socket library *)
| Errorf (msg : string)                (* fmt.Errorf without a wrapped cause *)
| Wrap (msg : string) (cause : error)  (* fmt.Errorf("msg: %w", cause) *)
| WrapNil (msg : string).              (* the same with a nil cause *)

Inductive result (A : Type) : Type :=
| Ok (a : A)
| Err (e : error).
Arguments Ok {A} a.
Arguments Err {A} e.

Definition is_ok {A} (r : result A) : bool :=
  match r with Ok _ => true | Err _ => false end.

(** ** encoding/base64, [StdEncoding] *)

Module Base64.

Definition byte_of_N (n : N) : byte :=
  match Byte.of_N (n mod 256) with Some b => b | None => x00 end.

(** Value of a character of the standard alphabet. *)
Definition decode_char (c : ascii) : option N :=
  let n := N_of_ascii c in
  if (65 <=? n)%N && (n <=? 90)%N then Some (n - 65)%N
  else if (97 <=? n)%N && (n <=? 122)%N then Some (n - 71)%N
  else if (48 <=? n)%N && (n <=? 57)%N then Some (n + 4)%N
  else if (n =? 43)%N then Some 62%N
  else if (n =? 47)%N then Some 63%N
  else None.

Definition is_pad (c : ascii) : bool := Ascii.eqb c "="%char.

Definition is_newline (c : ascii) : bool :=
  Ascii.eqb c "010"%char || Ascii.eqb c "013"%char.

(** The bytes of one quantum, from the 6-bit values of its characters. *)
Definition quantum3 (a b c d : N) : list byte :=
  let v := (a * 262144 + b * 4096 + c * 64 + d)%N in
  [byte_of_N (v / 65536); byte_of_N (v / 256); byte_of_N v].
Definition quantum2 (a b c : N) : list byte :=
  let v := (a * 262144 + b * 4096 + c * 64)%N in
  [byte_of_N (v / 65536); byte_of_N (v / 256)].
Definition quantum1 (a b : N) : list byte :=
  let v := (a * 262144 + b * 4096)%N in
  [byte_of_N (v / 65536)].

(** Quanta of four characters; padding closes the input.  The decoder is
    not strict: the unused low bits of a padded quantum are ignored. *)
Fixpoint decode_quanta (cs : list ascii) : option (list byte) :=
  match cs with
  | [] => Some []
  | a :: b :: c :: d :: rest =>
      match decode_char a, decode_char b with
      | Some va, Some vb =>
          if is_pad c then
            if is_pad d then
              match rest with [] => Some (quantum1 va vb) | _ => None end
            else None
          else
            match decode_char c with
            | None => None
            | Some vc =>
                if is_pad d then
                  match rest with [] => Some (quantum2 va vb vc) | _ => None end
                else
                  match decode_char d, decode_quanta rest with
                  | Some vd, Some tl => Some (quantum3 va vb vc vd ++ tl)
                  | _, _ => None
                  end
            end
      | _, _ => None
      end
  | _ => None
  end.

(** [base64.StdEncoding.DecodeString]: carriage returns and line feeds
    are skipped wherever they stand. *)
Definition DecodeString (s : string) : result (list byte) :=
  match decode_quanta (List.filter (fun c => negb (is_newline c)) (list_ascii_of_string s)) with
  | Some bs => Ok bs
  | None => Err CorruptInputError
  end.

Definition encode_char (n : N) : ascii :=
  if (n <? 26)%N then ascii_of_N (n + 65)
  else if (n <? 52)%N then ascii_of_N (n + 71)
  else if (n <? 62)%N then ascii_of_N (n - 4)
  else if (n =? 62)%N then "+"%char else "/"%char.

Fixpoint encode_bytes (bs : list byte) : list ascii :=
  match bs with
  | [] => []
  | [x] =>
      let v := (Byte.to_N x * 65536)%N in
      [encode_char (v / 262144); encode_char (v / 4096 mod 64); "="%char; "="%char]
  | [x; y] =>
      let v := (Byte.to_N x * 65536 + Byte.to_N y * 256)%N in
      [encode_char (v / 262144); encode_char (v / 4096 mod 64);
       encode_char (v / 64 mod 64); "="%char]
  | x :: y :: z :: rest =>
      let v := (Byte.to_N x * 65536 + Byte.to_N y * 256 + Byte.to_N z)%N in
      encode_char (v / 262144) :: encode_char (v / 4096 mod 64)
        :: encode_char (v / 64 mod 64) :: encode_char (v mod 64) :: encode_bytes rest
  end.

(** [base64.StdEncoding.EncodeToString]. *)
Definition EncodeToString (bs : list byte) : string :=
  string_of_list_ascii (encode_bytes bs).

End Base64.

(** ** encoding/json, behind the lexer *)

Module Json.

Definition float64 : Type := spec_float.

(** A number literal, by what [strconv] reads from it: [as_int] is
    [ParseInt] in base 10 without a size limit ([None] for a literal with
    a fraction or an exponent), [as_float] is [ParseFloat] (an infinity
    when the literal is out of range). *)
Record number : Type := { as_int : option Z; as_float : float64 }.

#[warnings="-register-all"] Inductive json : Type :=
| JNull
| JBool (b : bool)
| JNum (n : number)
| JStr (s : string)
| JArr (l : list json)
| JObj (kvs : list (string * json)).

(** The bytes of a frame as [json.Unmarshal] sees them after its
    validity scan, which runs over the whole input before anything is
    stored. *)
Inductive frame : Type :=
| Malformed
| Json (j : json).

(** *** Numbers written by [json.Marshal] *)

Definition float64_of_Z (z : Z) : float64 := binary_normalize 53 1024 z 0 false.

(** The integer printed for a float that is written without fraction and
    exponent (an integral value below 1e21). *)
Definition int_literal_of_float (f : float64) : option Z :=
  match f with
  | S754_zero _ => Some 0
  | S754_finite s m e =>
      let mag :=
        if 0 <=? e then Some (Z.pos m * 2 ^ e)
        else if Z.pos m mod 2 ^ (- e) =? 0 then Some (Z.pos m / 2 ^ (- e)) else None in
      match mag with
      | Some v => if v <? 10 ^ 21 then Some (if s then - v else v) else None
      | None => None
      end
  | _ => None
  end.

Definition number_of_int (z : Z) : number :=
  {| as_int := Some z; as_float := float64_of_Z z |}.
Definition number_of_float (f : float64) : number :=
  {| as_int := int_literal_of_float f; as_float := f |}.

Definition float_is_zero (f : float64) : bool :=
  match f with S754_zero _ => true | _ => false end.
Definition float_is_finite (f : float64) : bool :=
  match f with S754_zero _ | S754_finite _ _ _ => true | _ => false end.

(** *** Field names *)

Definition upper (c : ascii) : ascii :=
  let n := N_of_ascii c in
  if (97 <=? n)%N && (n <=? 122)%N then ascii_of_N (n - 32) else c.

(** [foldName]: keys are compared without case.  Besides the ASCII
    letters two runes fold onto an ASCII letter: U+017F (bytes C5 BF) onto
    S and U+212A (bytes E2 84 AA) onto K. *)
Fixpoint foldName (s : string) : string :=
  match s with
  | EmptyString => EmptyString
  | String c rest =>
      match N_of_ascii c, rest with
      | 197%N, String d r =>
          if (N_of_ascii d =? 191)%N then String "S" (foldName r)
          else String c (foldName rest)
      | 226%N, String d (String e r) =>
          if (N_of_ascii d =? 132)%N && (N_of_ascii e =? 170)%N
          then String "K" (foldName r)
          else String c (foldName rest)
      | _, _ => String (upper c) (foldName rest)
      end
  end.

(** *** Decoding into a struct *)

(** Storing a JSON value into a field; [None] is an
    [UnmarshalTypeError]. *)
Definition setter (T : Type) : Type := json -> T -> option T.
Definition fields (T : Type) : Type := list (string * setter T).

Fixpoint find_field {T} (fs : fields T) (key : string) : option (setter T) :=
  match fs with
  | [] => None
  | (name, st) :: fs' =>
      if String.eqb (foldName key) (foldName name) then Some st
      else find_field fs' key
  end.

(** The members of an object in their order: a later member overwrites
    an earlier one, unknown keys are skipped.  After a type error the
    library goes on decoding and returns the error at the end; the
    callers drop the value in that case, so the model stops there. *)
Fixpoint decode_members {T} (fs : fields T) (kvs : list (string * json)) (acc : T)
  : option T :=
  match kvs with
  | [] => Some acc
  | (k, v) :: rest =>
      match find_field fs k with
      | None => decode_members fs rest acc
      | Some st =>
          match st v acc with
          | Some acc' => decode_members fs rest acc'
          | None => None
          end
      end
  end.

Definition set_string {T} (upd : string -> T -> T) : setter T :=
  fun j t =>
    match j with
    | JStr s => Some (upd s t)
    | JNull => Some t
    | _ => None
    end.

Definition set_int {T} (upd : Z -> T -> T) : setter T :=
  fun j t =>
    match j with
    | JNum n =>
        match as_int n with
        | Some z => if in_int64 z then Some (upd z t) else None
        | None => None
        end
    | JNull => Some t
    | _ => None
    end.

Definition set_float {T} (upd : float64 -> T -> T) : setter T :=
  fun j t =>
    match j with
    | JNum n => if float_is_finite (as_float n) then Some (upd (as_float n) t) else None
    | JNull => Some t
    | _ => None
    end.

Definition set_struct {T U} (fs : fields U) (get : T -> U) (upd : U -> T -> T) : setter T :=
  fun j t =>
    match j with
    | JObj kvs =>
        match decode_members fs kvs (get t) with
        | Some u => Some (upd u t)
        | None => None
        end
    | JNull => Some t
    | _ => None
    end.

(** [json.Unmarshal(data, &v)] for a struct [v] that starts as [zero]. *)
Definition Unmarshal {T} (fs : fields T) (zero : T) (data : frame) : result T :=
  match data with
  | Malformed => Err SyntaxError
  | Json JNull => Ok zero
  | Json (JObj kvs) =>
      match decode_members fs kvs zero with
      | Some v => Ok v
      | None => Err UnmarshalTypeError
      end
  | Json _ => Err UnmarshalTypeError
  end.

(** *** Encoding a struct *)

Definition omit_string (key s : string) : list (string * json) :=
  if String.eqb s "" then [] else [(key, JStr s)].
Definition omit_int (key : string) (z : Z) : list (string * json) :=
  if z =? 0 then [] else [(key, JNum (number_of_int z))].
Definition omit_float (key : string) (f : float64) : result (list (string * json)) :=
  if float_is_zero f then Ok []
  else if float_is_finite f then Ok [(key, JNum (number_of_float f))]
  else Err UnsupportedValueError.

End Json.

(** ** protocol/messages.go *)

Module Protocol.
Import Json.

Definition MessageType : Type := string.

Definition MessageTypeSessionConfig : MessageType := "session.config".
Definition MessageTypeAudioAppend : MessageType := "audio.append".
Definition MessageTypeTextAppend : MessageType := "text.append".
Definition MessageTypeInputCommit : MessageType := "input.commit".
Definition MessageTypeSessionEnd : MessageType := "session.end".
Definition MessageTypeSessionReady : MessageType := "session.ready".
Definition MessageTypeSessionConfigDone : MessageType := "session.config_done".
Definition MessageTypeTranscriptPartial : MessageType := "transcript.partial".
Definition MessageTypeTranscriptFinal : MessageType := "transcript.final".
Definition MessageTypeAudioDelta : MessageType := "audio.delta".
Definition MessageTypeAudioDone : MessageType := "audio.done".
Definition MessageTypeInputDone : MessageType := "input.done".
Definition MessageTypeProcessing : MessageType := "processing".
Definition MessageTypeError : MessageType := "error".

Record SessionParams : Type := {
  Provider : string;
  Language : string;
  SampleRate : Z;
  AudioFormat : string;
  VoiceID : string;
  Speed : float64;
  Pitch : float64;
  Volume : float64
}.

Record SessionConfig : Type := {
  SessionConfig_Type : MessageType;
  SessionConfig_Session : SessionParams
}.

Record AudioAppend : Type := { AudioAppend_Type : MessageType; AudioAppend_Audio : string }.
Record TextAppend : Type := { TextAppend_Type : MessageType; TextAppend_Text : string }.
Record InputCommit : Type := { InputCommit_Type : MessageType }.
Record SessionEnd : Type := { SessionEnd_Type : MessageType }.
Record SessionReady : Type := { SessionReady_Type : MessageType; SessionID : string }.
Record SessionConfigDone : Type := { SessionConfigDone_Type : MessageType }.
Record TranscriptPartial : Type := {
  TranscriptPartial_Type : MessageType;
  TranscriptPartial_Text : string
}.
Record TranscriptFinal : Type := {
  TranscriptFinal_Type : MessageType;
  TranscriptFinal_Text : string;
  StartTime : Z;
  EndTime : Z
}.
Record AudioDelta : Type := { AudioDelta_Type : MessageType; AudioDelta_Audio : string }.
Record AudioDone : Type := { AudioDone_Type : MessageType }.
Record InputDone : Type := { InputDone_Type : MessageType }.
Record Processing : Type := { Processing_Type : MessageType }.
Record ErrorMessage : Type := {
  ErrorMessage_Type : MessageType;
  Code : string;
  Message : string
}.

Definition ErrorCodeAuthError : string := "AUTH_ERROR".

(** The value behind the [interface{}] that the codec passes around: a
    pointer to one of the message structs. *)
Inductive message : Type :=
| MSessionConfig (m : SessionConfig)
| MAudioAppend (m : AudioAppend)
| MTextAppend (m : TextAppend)
| MInputCommit (m : InputCommit)
| MSessionEnd (m : SessionEnd)
| MSessionReady (m : SessionReady)
| MSessionConfigDone (m : SessionConfigDone)
| MTranscriptPartial (m : TranscriptPartial)
| MTranscriptFinal (m : TranscriptFinal)
| MAudioDelta (m : AudioDelta)
| MAudioDone (m : AudioDone)
| MInputDone (m : InputDone)
| MProcessing (m : Processing)
| MErrorMessage (m : ErrorMessage).

Definition zero_float : float64 := S754_zero false.

Definition zero_SessionParams : SessionParams :=
  {| Provider := ""; Language := ""; SampleRate := 0; AudioFormat := "";
     VoiceID := ""; Speed := zero_float; Pitch := zero_float; Volume := zero_float |}.

Definition NewSessionReady (sessionID : string) : SessionReady :=
  {| SessionReady_Type := MessageTypeSessionReady; SessionID := sessionID |}.
Definition NewSessionConfigDone : SessionConfigDone :=
  {| SessionConfigDone_Type := MessageTypeSessionConfigDone |}.
Definition NewTranscriptPartial (text : string) : TranscriptPartial :=
  {| TranscriptPartial_Type := MessageTypeTranscriptPartial; TranscriptPartial_Text := text |}.
Definition NewAudioDelta (audioBase64 : string) : AudioDelta :=
  {| AudioDelta_Type := MessageTypeAudioDelta; AudioDelta_Audio := audioBase64 |}.
Definition NewAudioDone : AudioDone := {| AudioDone_Type := MessageTypeAudioDone |}.
Definition NewError (code msg : string) : ErrorMessage :=
  {| ErrorMessage_Type := MessageTypeError; Code := code; Message := msg |}.

(** *** The struct tags, as decoders and encoders *)

Definition SessionParams_fields : fields SessionParams :=
  [ ("provider", set_string (fun v p =>
       {| Provider := v; Language := Language p; SampleRate := SampleRate p;
          AudioFormat := AudioFormat p; VoiceID := VoiceID p; Speed := Speed p;
          Pitch := Pitch p; Volume := Volume p |}));
    ("language", set_string (fun v p =>
       {| Provider := Provider p; Language := v; SampleRate := SampleRate p;
          AudioFormat := AudioFormat p; VoiceID := VoiceID p; Speed := Speed p;
          Pitch := Pitch p; Volume := Volume p |}));
    ("sample_rate", set_int (fun v p =>
       {| Provider := Provider p; Language := Language p; SampleRate := v;
          AudioFormat := AudioFormat p; VoiceID := VoiceID p; Speed := Speed p;
          Pitch := Pitch p; Volume := Volume p |}));
    ("audio_format", set_string (fun v p =>
       {| Provider := Provider p; Language := Language p; SampleRate := SampleRate p;
          AudioFormat := v; VoiceID := VoiceID p; Speed := Speed p;
          Pitch := Pitch p; Volume := Volume p |}));
    ("voice_id", set_string (fun v p =>
       {| Provider := Provider p; Language := Language p; SampleRate := SampleRate p;
          AudioFormat := AudioFormat p; VoiceID := v; Speed := Speed p;
          Pitch := Pitch p; Volume := Volume p |}));
    ("speed", set_float (fun v p =>
       {| Provider := Provider p; Language := Language p; SampleRate := SampleRate p;
          AudioFormat := AudioFormat p; VoiceID := VoiceID p; Speed := v;
          Pitch := Pitch p; Volume := Volume p |}));
    ("pitch", set_float (fun v p =>
       {| Provider := Provider p; Language := Language p; SampleRate := SampleRate p;
          AudioFormat := AudioFormat p; VoiceID := VoiceID p; Speed := Speed p;
          Pitch := v; Volume := Volume p |}));
    ("volume", set_float (fun v p =>
       {| Provider := Provider p; Language := Language p; SampleRate := SampleRate p;
          AudioFormat := AudioFormat p; VoiceID := VoiceID p; Speed := Speed p;
          Pitch := Pitch p; Volume := v |})) ].

Definition SessionConfig_fields : fields SessionConfig :=
  [ ("type", set_string (fun v m =>
       {| SessionConfig_Type := v; SessionConfig_Session := SessionConfig_Session m |}));
    ("session", set_struct SessionParams_fields SessionConfig_Session (fun v m =>
       {| SessionConfig_Type := SessionConfig_Type m; SessionConfig_Session := v |})) ].

Definition AudioAppend_fields : fields AudioAppend :=
  [ ("type", set_string (fun v m =>
       {| AudioAppend_Type := v; AudioAppend_Audio := AudioAppend_Audio m |}));
    ("audio", set_string (fun v m =>
       {| AudioAppend_Type := AudioAppend_Type m; AudioAppend_Audio := v |})) ].

Definition TextAppend_fields : fields TextAppend :=
  [ ("type", set_string (fun v m =>
       {| TextAppend_Type := v; TextAppend_Text := TextAppend_Text m |}));
    ("text", set_string (fun v m =>
       {| TextAppend_Type := TextAppend_Type m; TextAppend_Text := v |})) ].

Definition InputCommit_fields : fields InputCommit :=
  [ ("type", set_string (fun v _ => {| InputCommit_Type := v |})) ].
Definition SessionEnd_fields : fields SessionEnd :=
  [ ("type", set_string (fun v _ => {| SessionEnd_Type := v |})) ].

Definition SessionReady_fields : fields SessionReady :=
  [ ("type", set_string (fun v m => {| SessionReady_Type := v; SessionID := SessionID m |}));
    ("session_id", set_string (fun v m =>
       {| SessionReady_Type := SessionReady_Type m; SessionID := v |})) ].

Definition TranscriptPartial_fields : fields TranscriptPartial :=
  [ ("type", set_string (fun v m =>
       {| TranscriptPartial_Type := v; TranscriptPartial_Text := TranscriptPartial_Text m |}));
    ("text", set_string (fun v m =>
       {| TranscriptPartial_Type := TranscriptPartial_Type m; TranscriptPartial_Text := v |})) ].

Definition TranscriptFinal_fields : fields TranscriptFinal :=
  [ ("type", set_string (fun v m =>
       {| TranscriptFinal_Type := v; TranscriptFinal_Text := TranscriptFinal_Text m;
          StartTime := StartTime m; EndTime := EndTime m |}));
    ("text", set_string (fun v m =>
       {| TranscriptFinal_Type := TranscriptFinal_Type m; TranscriptFinal_Text := v;
          StartTime := StartTime m; EndTime := EndTime m |}));
    ("start_time", set_int (fun v m =>
       {| TranscriptFinal_Type := TranscriptFinal_Type m;
          TranscriptFinal_Text := TranscriptFinal_Text m;
          StartTime := v; EndTime := EndTime m |}));
    ("end_time", set_int (fun v m =>
       {| TranscriptFinal_Type := TranscriptFinal_Type m;
          TranscriptFinal_Text := TranscriptFinal_Text m;
          StartTime := StartTime m; EndTime := v |})) ].

Definition AudioDelta_fields : fields AudioDelta :=
  [ ("type", set_string (fun v m =>
       {| AudioDelta_Type := v; AudioDelta_Audio := AudioDelta_Audio m |}));
    ("audio", set_string (fun v m =>
       {| AudioDelta_Type := AudioDelta_Type m; AudioDelta_Audio := v |})) ].

Definition AudioDone_fields : fields AudioDone :=
  [ ("type", set_string (fun v _ => {| AudioDone_Type := v |})) ].
Definition InputDone_fields : fields InputDone :=
  [ ("type", set_string (fun v _ => {| InputDone_Type := v |})) ].
Definition Processing_fields : fields Processing :=
  [ ("type", set_string (fun v _ => {| Processing_Type := v |})) ].

Definition ErrorMessage_fields : fields ErrorMessage :=
  [ ("type", set_string (fun v m =>
       {| ErrorMessage_Type := v; Code := Code m; Message := Message m |}));
    ("code", set_string (fun v m =>
       {| ErrorMessage_Type := ErrorMessage_Type m; Code := v; Message := Message m |}));
    ("message", set_string (fun v m =>
       {| ErrorMessage_Type := ErrorMessage_Type m; Code := Code m; Message := v |})) ].

(** [json.Marshal] of [SessionParams]: every field is [omitempty]. *)
Definition Marshal_SessionParams (p : SessionParams) : result json :=
  match omit_float "speed" (Speed p), omit_float "pitch" (Pitch p),
        omit_float "volume" (Volume p) with
  | Ok sp, Ok pi, Ok vo =>
      Ok (JObj (omit_string "provider" (Provider p) ++ omit_string "language" (Language p)
                ++ omit_int "sample_rate" (SampleRate p)
                ++ omit_string "audio_format" (AudioFormat p)
                ++ omit_string "voice_id" (VoiceID p) ++ sp ++ pi ++ vo))
  | _, _, _ => Err UnsupportedValueError
  end.

(** [json.Marshal] of a message. *)
Definition Marshal (msg : message) : result json :=
  match msg with
  | MSessionConfig m =>
      match Marshal_SessionParams (SessionConfig_Session m) with
      | Ok ps => Ok (JObj [("type", JStr (SessionConfig_Type m)); ("session", ps)])
      | Err e => Err e
      end
  | MAudioAppend m =>
      Ok (JObj [("type", JStr (AudioAppend_Type m)); ("audio", JStr (AudioAppend_Audio m))])
  | MTextAppend m =>
      Ok (JObj [("type", JStr (TextAppend_Type m)); ("text", JStr (TextAppend_Text m))])
  | MInputCommit m => Ok (JObj [("type", JStr (InputCommit_Type m))])
  | MSessionEnd m => Ok (JObj [("type", JStr (SessionEnd_Type m))])
  | MSessionReady m =>
      Ok (JObj [("type", JStr (SessionReady_Type m)); ("session_id", JStr (SessionID m))])
  | MSessionConfigDone m => Ok (JObj [("type", JStr (SessionConfigDone_Type m))])
  | MTranscriptPartial m =>
      Ok (JObj [("type", JStr (TranscriptPartial_Type m));
                ("text", JStr (TranscriptPartial_Text m))])
  | MTranscriptFinal m =>
      Ok (JObj ([("type", JStr (TranscriptFinal_Type m));
                 ("text", JStr (TranscriptFinal_Text m))]
                ++ omit_int "start_time" (StartTime m) ++ omit_int "end_time" (EndTime m)))
  | MAudioDelta m =>
      Ok (JObj [("type", JStr (AudioDelta_Type m)); ("audio", JStr (AudioDelta_Audio m))])
  | MAudioDone m => Ok (JObj [("type", JStr (AudioDone_Type m))])
  | MInputDone m => Ok (JObj [("type", JStr (InputDone_Type m))])
  | MProcessing m => Ok (JObj [("type", JStr (Processing_Type m))])
  | MErrorMessage m =>
      Ok (JObj [("type", JStr (ErrorMessage_Type m)); ("code", JStr (Code m));
                ("message", JStr (Message m))])
  end.

(** The struct [Message], of which only the tag is read (the name [Message]
    is taken by the field of [ErrorMessage]). *)
Record Message_ : Type := { Message_Type : MessageType }.

Definition Message_fields : fields Message_ :=
  [ ("type", set_string (fun v _ => {| Message_Type := v |})) ].

(** [protocol.ParseMessage]: the tag of a frame. *)
Definition ParseMessage (data : frame) : result MessageType :=
  match Unmarshal Message_fields {| Message_Type := "" |} data with
  | Err e => Err e
  | Ok msg => Ok (Message_Type msg)
  end.

Definition ParseSessionConfig (data : frame) : result SessionConfig :=
  Unmarshal SessionConfig_fields
    {| SessionConfig_Type := ""; SessionConfig_Session := zero_SessionParams |} data.

Definition ParseAudioAppend (data : frame) : result AudioAppend :=
  Unmarshal AudioAppend_fields {| AudioAppend_Type := ""; AudioAppend_Audio := "" |} data.

Definition ParseTextAppend (data : frame) : result TextAppend :=
  Unmarshal TextAppend_fields {| TextAppend_Type := ""; TextAppend_Text := "" |} data.

End Protocol.

(** ** transport/message.go *)

Module Codec.
Import Json Protocol.

Record RawMessage : Type := { RawMessage_Type : MessageType }.

Definition RawMessage_fields : fields RawMessage :=
  [ ("type", set_string (fun v _ => {| RawMessage_Type := v |})) ].

Definition ParseMessageType (data : frame) : result MessageType :=
  match Unmarshal RawMessage_fields {| RawMessage_Type := "" |} data with
  | Err e => Err (Wrap "parse message type" e)
  | Ok raw => Ok (RawMessage_Type raw)
  end.

(** The second [json.Unmarshal] of [ParseMessage], into the struct chosen
    by the tag. *)
Definition parse_body {T} (fs : fields T) (zero : T) (inj : T -> message) (data : frame)
  : result message :=
  match Unmarshal fs zero data with
  | Err e => Err (Wrap "parse message body" e)
  | Ok m => Ok (inj m)
  end.

Definition ParseMessage (data : frame) : result message :=
  match ParseMessageType data with
  | Err e => Err e
  | Ok msgType =>
      if String.eqb msgType MessageTypeSessionReady then
        parse_body SessionReady_fields {| SessionReady_Type := ""; SessionID := "" |}
          MSessionReady data
      else if String.eqb msgType MessageTypeTranscriptPartial then
        parse_body TranscriptPartial_fields
          {| TranscriptPartial_Type := ""; TranscriptPartial_Text := "" |}
          MTranscriptPartial data
      else if String.eqb msgType MessageTypeTranscriptFinal then
        parse_body TranscriptFinal_fields
          {| TranscriptFinal_Type := ""; TranscriptFinal_Text := "";
             StartTime := 0; EndTime := 0 |}
          MTranscriptFinal data
      else if String.eqb msgType MessageTypeAudioDelta then
        parse_body AudioDelta_fields {| AudioDelta_Type := ""; AudioDelta_Audio := "" |}
          MAudioDelta data
      else if String.eqb msgType MessageTypeAudioDone then
        parse_body AudioDone_fields {| AudioDone_Type := "" |} MAudioDone data
      else if String.eqb msgType MessageTypeInputDone then
        parse_body InputDone_fields {| InputDone_Type := "" |} MInputDone data
      else if String.eqb msgType MessageTypeProcessing then
        parse_body Processing_fields {| Processing_Type := "" |} MProcessing data
      else if String.eqb msgType MessageTypeError then
        parse_body ErrorMessage_fields
          {| ErrorMessage_Type := ""; Code := ""; Message := "" |} MErrorMessage data
      else if String.eqb msgType MessageTypeSessionConfig then
        parse_body SessionConfig_fields
          {| SessionConfig_Type := ""; SessionConfig_Session := zero_SessionParams |}
          MSessionConfig data
      else if String.eqb msgType MessageTypeAudioAppend then
        parse_body AudioAppend_fields {| AudioAppend_Type := ""; AudioAppend_Audio := "" |}
          MAudioAppend data
      else if String.eqb msgType MessageTypeTextAppend then
        parse_body TextAppend_fields {| TextAppend_Type := ""; TextAppend_Text := "" |}
          MTextAppend data
      else if String.eqb msgType MessageTypeInputCommit then
        parse_body InputCommit_fields {| InputCommit_Type := "" |} MInputCommit data
      else if String.eqb msgType MessageTypeSessionEnd then
        parse_body SessionEnd_fields {| SessionEnd_Type := "" |} MSessionEnd data
      else Err (Errorf ("unknown message type: " +:+ msgType))
  end.

(** The members of an object that decode into the field [Type]: those
    whose key is [type] up to case. *)
Definition names_type (kv : string * json) : bool :=
  String.eqb (foldName (fst kv)) (foldName "type").

Definition type_members (kvs : list (string * json)) : list json :=
  map snd (List.filter names_type kvs).

Definition string_or_null (j : json) : bool :=
  match j with
  | JStr _ | JNull => true
  | _ => false
  end.

(** The last string of a list of values, [acc] when there is none. *)
Fixpoint last_string (js : list json) (acc : string) : string :=
  match js with
  | [] => acc
  | JStr s :: rest => last_string rest s
  | _ :: rest => last_string rest acc
  end.

Definition object_or_null (j : json) : bool :=
  match j with
  | JObj _ | JNull => true
  | _ => false
  end.

(** The tag that belongs to a variant, and the tag a value carries. *)
Definition tag_of (m : message) : MessageType :=
  match m with
  | MSessionConfig _ => MessageTypeSessionConfig
  | MAudioAppend _ => MessageTypeAudioAppend
  | MTextAppend _ => MessageTypeTextAppend
  | MInputCommit _ => MessageTypeInputCommit
  | MSessionEnd _ => MessageTypeSessionEnd
  | MSessionReady _ => MessageTypeSessionReady
  | MSessionConfigDone _ => MessageTypeSessionConfigDone
  | MTranscriptPartial _ => MessageTypeTranscriptPartial
  | MTranscriptFinal _ => MessageTypeTranscriptFinal
  | MAudioDelta _ => MessageTypeAudioDelta
  | MAudioDone _ => MessageTypeAudioDone
  | MInputDone _ => MessageTypeInputDone
  | MProcessing _ => MessageTypeProcessing
  | MErrorMessage _ => MessageTypeError
  end.

Definition GetType (m : message) : MessageType :=
  match m with
  | MSessionConfig x => SessionConfig_Type x
  | MAudioAppend x => AudioAppend_Type x
  | MTextAppend x => TextAppend_Type x
  | MInputCommit x => InputCommit_Type x
  | MSessionEnd x => SessionEnd_Type x
  | MSessionReady x => SessionReady_Type x
  | MSessionConfigDone x => SessionConfigDone_Type x
  | MTranscriptPartial x => TranscriptPartial_Type x
  | MTranscriptFinal x => TranscriptFinal_Type x
  | MAudioDelta x => AudioDelta_Type x
  | MAudioDone x => AudioDone_Type x
  | MInputDone x => InputDone_Type x
  | MProcessing x => Processing_Type x
  | MErrorMessage x => ErrorMessage_Type x
  end.

(** A float that [json.Marshal] writes and [json.Unmarshal] reads back
    bit for bit: finite, and not the negative zero that [omitempty] drops. *)
Definition plain_float (f : float64) : bool :=
  match f with
  | S754_zero s => negb s
  | S754_finite _ _ _ => true
  | _ => false
  end.

(** The numbers of a message fit their Go types. *)
Definition representable (m : message) : bool :=
  match m with
  | MSessionConfig x =>
      let p := SessionConfig_Session x in
      in_int64 (SampleRate p) && plain_float (Speed p) && plain_float (Pitch p)
      && plain_float (Volume p)
  | MTranscriptFinal x => in_int64 (StartTime x) && in_int64 (EndTime x)
  | _ => true
  end.

Definition EncodeMessage (msg : message) : result frame :=
  match Marshal msg with
  | Ok j => Ok (Json j)
  | Err e => Err e
  end.

Definition NewSessionConfig (params : SessionParams) : SessionConfig :=
  {| SessionConfig_Type := MessageTypeSessionConfig; SessionConfig_Session := params |}.
Definition NewAudioAppend (audioBase64 : string) : AudioAppend :=
  {| AudioAppend_Type := MessageTypeAudioAppend; AudioAppend_Audio := audioBase64 |}.
Definition NewTextAppend (text : string) : TextAppend :=
  {| TextAppend_Type := MessageTypeTextAppend; TextAppend_Text := text |}.
Definition NewInputCommit : InputCommit := {| InputCommit_Type := MessageTypeInputCommit |}.
Definition NewSessionEnd : SessionEnd := {| SessionEnd_Type := MessageTypeSessionEnd |}.

(** Sample frames of the server. *)
Definition ready_frame (id : string) : frame :=
  Json (JObj [("type", JStr "session.ready"); ("session_id", JStr id)]).

Definition partial_frame (text : string) : frame :=
  Json (JObj [("type", JStr "transcript.partial"); ("text", JStr text)]).

Definition error_frame (code msg : string) : frame :=
  Json (JObj [("type", JStr "error"); ("code", JStr code); ("message", JStr msg)]).

Definition IsServerMessage (msgType : MessageType) : bool :=
  String.eqb msgType MessageTypeSessionReady
  || String.eqb msgType MessageTypeTranscriptPartial
  || String.eqb msgType MessageTypeTranscriptFinal
  || String.eqb msgType MessageTypeAudioDelta
  || String.eqb msgType MessageTypeAudioDone
  || String.eqb msgType MessageTypeInputDone
  || String.eqb msgType MessageTypeProcessing
  || String.eqb msgType MessageTypeError.

Definition IsClientMessage (msgType : MessageType) : bool :=
  String.eqb msgType MessageTypeSessionConfig
  || String.eqb msgType MessageTypeAudioAppend
  || String.eqb msgType MessageTypeTextAppend
  || String.eqb msgType MessageTypeInputCommit
  || String.eqb msgType MessageTypeSessionEnd.

Definition IsErrorMessage (msgType : MessageType) : bool :=
  String.eqb msgType MessageTypeError.

End Codec.

(** ** Channels *)

Module Chan.

(** A buffered channel: the values in flight, oldest first. *)
Record chan (A : Type) : Type := { cap : nat; buf : list A; closed : bool }.
Arguments cap {A} c.
Arguments buf {A} c.
Arguments closed {A} c.

Definition make {A} (n : nat) : chan A := {| cap := n; buf := []; closed := false |}.

(** A send can proceed at once when the buffer has room. *)
Definition has_room {A} (c : chan A) : bool := Nat.ltb (length (buf c)) (cap c).

Definition push {A} (x : A) (c : chan A) : chan A :=
  {| cap := cap c; buf := buf c ++ [x]; closed := closed c |}.

Definition close {A} (c : chan A) : chan A :=
  {| cap := cap c; buf := buf c; closed := true |}.

Inductive received (A : Type) : Type :=
| Got (x : A) (c : chan A)     (* v, ok := <-c with ok = true *)
| Drained                      (* ok = false: closed and empty *)
| Blocked.                     (* open and empty: the receiver waits *)
Arguments Got {A} x c.
Arguments Drained {A}.
Arguments Blocked {A}.

Definition recv {A} (c : chan A) : received A :=
  match buf c with
  | x :: rest => Got x {| cap := cap c; buf := rest; closed := closed c |}
  | [] => if closed c then Drained else Blocked
  end.

End Chan.

(** ** transport: the connection *)

Module Transport.
Import Json Protocol Codec.

(** [time.Duration]: nanoseconds in an [int64]. *)
Definition Duration : Type := Z.
Definition Millisecond : Duration := 1000000.
Definition Second : Duration := 1000000000.

(** [time.Time]: [None] is the zero time. *)
Definition Time : Type := option Z.

Record Config : Type := {
  URL : string;
  ConnectTimeout : Duration;
  ReadTimeout : Duration;
  WriteTimeout : Duration;
  PingInterval : Duration;
  ReconnectBackoff : Duration;
  MaxReconnects : Z
}.

Definition DefaultConfig : Config :=
  {| URL := ""; ConnectTimeout := 10 * Second; ReadTimeout := 60 * Second;
     WriteTimeout := 10 * Second; PingInterval := 30 * Second;
     ReconnectBackoff := 1 * Second; MaxReconnects := 3 |}.

(** What was written on the socket. *)
Inductive written : Type :=
| TextMessage (j : json)     (* ws.WriteJSON *)
| CloseMessage.              (* ws.WriteControl(websocket.CloseMessage, ...) *)

(** The socket of the websocket library: writes fail once it is broken. *)
Record WebSocket : Type := { broken : bool }.

Record Conn : Type := {
  config : Config;
  ws : option WebSocket;
  closeCh : bool;              (* true once closeCh is closed *)
  closeOnce : bool;            (* true once closeOnce has run *)
  connected : bool;
  connectStartAt : Time;
  connectedAt : Time;
  wire : list written          (* history: everything written on the socket *)
}.

Definition NewConn (cfg : Config) : Conn :=
  {| config := cfg; ws := None; closeCh := false; closeOnce := false; connected := false;
     connectStartAt := None; connectedAt := None; wire := [] |}.

(** The outcome of [dialer.DialContext]. *)
Inductive dial_result : Type :=
| DialOk
| DialErr (e : error) (status : option Z).

(** [Connect], given the clock readings and the outcome of the dial. *)
Definition Connect (t0 t1 : Z) (d : dial_result) (c : Conn) : Conn * result unit :=
  if connected c then (c, Ok tt)
  else
    let c0 := {| config := config c; ws := ws c; closeCh := closeCh c;
                 closeOnce := closeOnce c; connected := connected c;
                 connectStartAt := Some t0; connectedAt := connectedAt c;
                 wire := wire c |} in
    match d with
    | DialErr e (Some st) =>
        (c0, Err (Wrap ("websocket connect failed, status: " +:+ pretty st) e))
    | DialErr e None => (c0, Err (Wrap "websocket connect failed" e))
    | DialOk =>
        ({| config := config c; ws := Some {| broken := false |}; closeCh := closeCh c;
            closeOnce := closeOnce c; connected := true;
            connectStartAt := Some t0; connectedAt := Some t1; wire := wire c |}, Ok tt)
    end.

(** One turn of the loop of [ConnectWithRetry] as the environment decides
    it: whether the caller's context ends the wait before the timer does
    (and with which error), and what the dial does. *)
Record attempt : Type := {
  cancel : option error;
  at_start : Z;
  at_end : Z;
  dial : dial_result
}.

Inductive retry_event : Type :=
| Waited (d : Duration)        (* time.After(d) fired *)
| Dialed.                      (* c.Connect was called *)

Inductive retry_return : Type :=
| Returned (e : option error)  (* the value returned; [None] is nil *)
| Waiting.                     (* the script of attempts ran out first *)

(** The loop [for i := 0; i <= MaxReconnects; i++]. *)
Fixpoint retry_loop (env : list attempt) (i : Z) (backoff : Duration)
  (lastErr : option error) (c : Conn) (log : list retry_event)
  : Conn * retry_return * list retry_event :=
  if i <=? MaxReconnects (config c) then
    match env with
    | [] => (c, Waiting, log)
    | a :: env' =>
        let waited :=
          if 0 <? i then
            match cancel a with
            | Some e => Err e
            | None => Ok (wrap64 (backoff * 2), log ++ [Waited backoff])
            end
          else Ok (backoff, log) in
        match waited with
        | Err e => (c, Returned (Some e), log)
        | Ok (backoff', log') =>
            match Connect (at_start a) (at_end a) (dial a) c with
            | (c', Ok _) => (c', Returned None, log' ++ [Dialed])
            | (c', Err e) =>
                retry_loop env' (wrap64 (i + 1)) backoff' (Some e) c' (log' ++ [Dialed])
            end
        end
    end
  else
    let msg := "connect failed after " +:+ pretty (MaxReconnects (config c)) +:+ " retries" in
    (c, Returned (Some (match lastErr with
                        | Some e => Wrap msg e
                        | None => WrapNil msg
                        end)), log).

Definition ConnectWithRetry (env : list attempt) (c : Conn)
  : Conn * retry_return * list retry_event :=
  retry_loop env 0 (ReconnectBackoff (config c)) None c [].

(** The time slept in [time.After]: a duration that is not positive fires
    at once. *)
Fixpoint time_waited (log : list retry_event) : Z :=
  match log with
  | [] => 0
  | Waited d :: rest => Z.max 0 d + time_waited rest
  | Dialed :: rest => time_waited rest
  end.

Definition dials (log : list retry_event) : nat :=
  length (List.filter (fun e => match e with Dialed => true | _ => false end) log).

Definition waits (log : list retry_event) : list Duration :=
  flat_map (fun e => match e with Waited d => [d] | _ => [] end) log.

(** [backoff *= 2]. *)
Definition double (d : Duration) : Duration := wrap64 (d * 2).

(** The wait before retry [k], counted from 1: the base doubled [k - 1]
    times. *)
Definition backoff_before (base : Duration) (k : nat) : Duration :=
  Nat.iter (k - 1) double base.

(** An attempt whose dial fails while the caller's context stays alive. *)
Definition failing (a : attempt) : bool :=
  match cancel a, dial a with
  | None, DialErr _ _ => true
  | _, _ => false
  end.

(** What [Connect] returns for the outcome of a dial. *)
Definition connect_error (d : dial_result) : option error :=
  match d with
  | DialErr e (Some st) => Some (Wrap ("websocket connect failed, status: " +:+ pretty st) e)
  | DialErr e None => Some (Wrap "websocket connect failed" e)
  | DialOk => None
  end.

(** The log of the retries [first], [first + 1], ... ([n] of them): each
    waits, then dials. *)
Definition retries_log (base : Duration) (first n : nat) : list retry_event :=
  flat_map (fun k => [Waited (backoff_before base k); Dialed]) (seq first n).

(** The error of the last failed attempt of [fs], [dflt] if none
    failed. *)
Definition last_error (fs : list attempt) (dflt : option error) : option error :=
  fold_left
    (fun acc a => match connect_error (dial a) with Some e => Some e | None => acc end)
    fs dflt.

(** The text of the error returned when every attempt failed. *)
Definition retry_message (c : Conn) : string :=
  "connect failed after " +:+ pretty (MaxReconnects (config c)) +:+ " retries".

(** Sample environments: a dial that is refused, one that is accepted,
    and a configuration that allows forty retries. *)
Definition refused : attempt :=
  {| cancel := None; at_start := 0; at_end := 0;
     dial := DialErr (NetError "connection refused") None |}.

Definition accepted : attempt :=
  {| cancel := None; at_start := 0; at_end := 1; dial := DialOk |}.

Definition patient : Config :=
  {| URL := "ws://localhost:8080/ws/stt?provider=tengen"; ConnectTimeout := 10 * Second;
     ReadTimeout := 60 * Second; WriteTimeout := 10 * Second; PingInterval := 30 * Second;
     ReconnectBackoff := 1 * Second; MaxReconnects := 40 |}.

Definition with_wire (c : Conn) (w : list written) : Conn :=
  {| config := config c; ws := ws c; closeCh := closeCh c; closeOnce := closeOnce c;
     connected := connected c; connectStartAt := connectStartAt c;
     connectedAt := connectedAt c; wire := w |}.

(** [SendJSON]: the frame reaches the socket only on a live connection. *)
Definition SendJSON (v : message) (c : Conn) : Conn * result unit :=
  match connected c, ws c with
  | true, Some w =>
      if broken w then (c, Err (NetError "write"))
      else
        match Marshal v with
        | Ok j => (with_wire c (wire c ++ [TextMessage j]), Ok tt)
        | Err e => (c, Err e)
        end
  | _, _ => (c, Err ErrNotConnected)
  end.

(** What the caller of [Receive] gets from its [select]. *)
Inductive received : Type :=
| CtxDone (e : error)          (* <-ctx.Done() *)
| CloseSignal                  (* <-c.closeCh *)
| ErrorRead (e : error)        (* err := <-c.errorCh *)
| MessageRead (data : frame).  (* msg := <-c.readCh *)

Definition Receive (sel : received) : result frame :=
  match sel with
  | CtxDone e => Err e
  | CloseSignal => Err ErrConnectionClosed
  | ErrorRead e => Err e
  | MessageRead msg => Ok msg
  end.

(** [Close]: [closeCh] is closed under [closeOnce]; the socket is released
    whenever it is still held. *)
Definition Close (c : Conn) : Conn :=
  let closeCh' := if closeOnce c then closeCh c else true in
  match ws c with
  | Some w =>
      {| config := config c; ws := None; closeCh := closeCh'; closeOnce := true;
         connected := false; connectStartAt := connectStartAt c;
         connectedAt := connectedAt c;
         wire := if broken w then wire c else wire c ++ [CloseMessage] |}
  | None =>
      {| config := config c; ws := None; closeCh := closeCh'; closeOnce := true;
         connected := connected c; connectStartAt := connectStartAt c;
         connectedAt := connectedAt c; wire := wire c |}
  end.

(** The socket is held and takes writes. *)
Definition writable (c : Conn) : bool :=
  match ws c with
  | Some w => negb (broken w)
  | None => false
  end.

(** [SendJSON] reaches the socket. *)
Definition live (c : Conn) : bool := connected c && writable c.

(** The frames on a wire that the peer reads as session.end. *)
Definition is_session_end (w : written) : bool :=
  match w with
  | TextMessage j =>
      match ParseMessageType (Json j) with
      | Ok t => String.eqb t MessageTypeSessionEnd
      | Err _ => false
      end
  | CloseMessage => false
  end.

Definition session_ends (w : list written) : nat := length (List.filter is_session_end w).

Definition session_end_frame : written :=
  TextMessage (JObj [("type", JStr MessageTypeSessionEnd)]).

(** What the teardown of a session writes on the connection [c]: the
    session.end frame if [SendJSON] reaches the socket, then the close
    message of [Close] if the socket takes it. *)
Definition teardown_frames (c : Conn) : list written :=
  (if live c then [session_end_frame] else [])
  ++ (if writable c then [CloseMessage] else []).

(** The read loop ends: a normal closure from the peer closes [closeCh]
    under the same [closeOnce], any other failure leaves it alone; either
    way the connection is no longer connected. *)
Definition readLoop_exit (normal : bool) (c : Conn) : Conn :=
  {| config := config c; ws := ws c;
     closeCh := if normal then (if closeOnce c then closeCh c else true) else closeCh c;
     closeOnce := if normal then true else closeOnce c;
     connected := false; connectStartAt := connectStartAt c;
     connectedAt := connectedAt c; wire := wire c |}.

(** A connection after a dial that was accepted. *)
Definition live_conn : Conn := fst (fst (ConnectWithRetry [accepted] (NewConn DefaultConfig))).

(** [t.Sub(u)]: the difference, held at the ends of [Duration]. *)
Definition Time_Sub (t u : Z) : Duration :=
  Z.max int64_min (Z.min int64_max (t - u)).

Definition ConnectDuration (c : Conn) : Duration :=
  match connectedAt c, connectStartAt c with
  | Some t1, Some t0 => Time_Sub t1 t0
  | _, _ => 0
  end.

Definition ConnectedAt (c : Conn) : Time := connectedAt c.
Definition IsConnected (c : Conn) : bool := connected c.

(** The calls made on a connection after [Close], other than a new
    [Connect]: a send, one more [Close], the end of the read loop. *)
Inductive conn_call : Type :=
| CallSendJSON (v : message)
| CallClose
| ReadLoopEnds (normal : bool).

Definition conn_after (k : conn_call) (c : Conn) : Conn :=
  match k with
  | CallSendJSON v => fst (SendJSON v c)
  | CallClose => Close c
  | ReadLoopEnds normal => readLoop_exit normal c
  end.

End Transport.

(** ** sync.Once *)

Inductive once : Type :=
| Fresh        (* Do has not been called *)
| Busy         (* a caller is inside the function; other callers wait *)
| Spent.       (* the function has returned *)

(** The goroutine of [messageLoop] of a session. *)
Inductive loop_status : Type :=
| NotStarted
| Looping
| Stopped.

(** A step of the teardown in [Close], for the history kept in the
    session. *)
Inductive teardown : Type :=
| MarkedClosed                 (* s.closed = true *)
| SentSessionEnd               (* s.conn.SendJSON(session.end) *)
| WaitedForPeer                (* the select on CloseChan and the 2 s timer *)
| Cancelled                    (* s.cancel(), synthesis only *)
| ClosedCloseCh                (* close(s.closeCh) *)
| ClosedConn                   (* s.conn.Close() *)
| ReleasedStream.              (* the current stream is completed, synthesis only *)

(** The part of a session that only [start] and [Close] write. *)
Record control : Type := {
  c_ID : string;
  c_ready : bool;
  c_closed : bool;
  c_closeOnce : once;
  c_closeCh : bool;
  c_history : list teardown;
  c_fault : bool
}.

(** The statements of the teardown, as they act on that part. *)
Definition ctl_once (o : once) (c : control) : control :=
  {| c_ID := c_ID c; c_ready := c_ready c; c_closed := c_closed c; c_closeOnce := o;
     c_closeCh := c_closeCh c; c_history := c_history c; c_fault := c_fault c |}.

Definition ctl_note (t : teardown) (c : control) : control :=
  {| c_ID := c_ID c; c_ready := c_ready c; c_closed := c_closed c;
     c_closeOnce := c_closeOnce c; c_closeCh := c_closeCh c;
     c_history := c_history c ++ [t]; c_fault := c_fault c |}.

Definition ctl_closed (c : control) : control :=
  {| c_ID := c_ID c; c_ready := c_ready c; c_closed := true;
     c_closeOnce := c_closeOnce c; c_closeCh := c_closeCh c;
     c_history := c_history c; c_fault := c_fault c |}.

Definition ctl_closeCh (c : control) : control :=
  {| c_ID := c_ID c; c_ready := c_ready c; c_closed := c_closed c;
     c_closeOnce := c_closeOnce c; c_closeCh := true;
     c_history := c_history c; c_fault := c_fault c || c_closeCh c |}.

(** ** stt: events, session, whole-file recognition *)

Module Stt.
Import Json Protocol Codec Transport.

Inductive EventType : Type :=
| EventReady
| EventPartial
| EventFinal
| EventError
| EventInputDone
| EventProcessing
| EventClosed.

Record RecognitionEvent : Type := {
  Type_ : EventType;
  Event_SessionID : string;
  Text : string;
  IsFinal : bool;
  StartTime : Duration;
  EndTime : Duration;
  Error : option error
}.

Definition NewReadyEvent (sessionID : string) : RecognitionEvent :=
  {| Type_ := EventReady; Event_SessionID := sessionID; Text := ""; IsFinal := false;
     StartTime := 0; EndTime := 0; Error := None |}.
Definition NewPartialEvent (text : string) : RecognitionEvent :=
  {| Type_ := EventPartial; Event_SessionID := ""; Text := text; IsFinal := false;
     StartTime := 0; EndTime := 0; Error := None |}.
Definition NewFinalEvent (text : string) (startTime endTime : Duration) : RecognitionEvent :=
  {| Type_ := EventFinal; Event_SessionID := ""; Text := text; IsFinal := true;
     StartTime := startTime; EndTime := endTime; Error := None |}.
Definition NewErrorEvent (err : error) : RecognitionEvent :=
  {| Type_ := EventError; Event_SessionID := ""; Text := ""; IsFinal := false;
     StartTime := 0; EndTime := 0; Error := Some err |}.
Definition NewInputDoneEvent : RecognitionEvent :=
  {| Type_ := EventInputDone; Event_SessionID := ""; Text := ""; IsFinal := false;
     StartTime := 0; EndTime := 0; Error := None |}.
Definition NewProcessingEvent : RecognitionEvent :=
  {| Type_ := EventProcessing; Event_SessionID := ""; Text := ""; IsFinal := false;
     StartTime := 0; EndTime := 0; Error := None |}.
Definition NewClosedEvent : RecognitionEvent :=
  {| Type_ := EventClosed; Event_SessionID := ""; Text := ""; IsFinal := false;
     StartTime := 0; EndTime := 0; Error := None |}.

Record Config : Type := {
  GatewayURL : string;
  Config_Provider : string;
  APIKey : string;
  Config_Language : string;
  Config_SampleRate : Z;
  Config_AudioFormat : string;
  ConnectTimeout : Duration;
  ReadTimeout : Duration;
  WriteTimeout : Duration;
  ReconnectBackoff : Duration;
  MaxReconnects : Z
}.

Record StreamOptions : Type := {
  Language : string;
  SampleRate : Z;
  AudioFormat : string
}.

Record Session : Type := {
  ID : string;
  Provider : string;
  conn : Conn;
  config : Config;
  opts : StreamOptions;
  eventsCh : Chan.chan RecognitionEvent;
  closeCh : bool;              (* true once closeCh is closed *)
  closeOnce : once;
  ready : bool;
  closed : bool;
  (* not fields of the Go struct: *)
  loop : loop_status;          (* the goroutine started by start *)
  history : list teardown;     (* teardown steps taken so far *)
  fault : bool                 (* a closed channel was closed again *)
}.

Definition newSession (c : Conn) (cfg : Config) (o : StreamOptions) : Session :=
  {| ID := ""; Provider := Config_Provider cfg; conn := c; config := cfg; opts := o;
     eventsCh := Chan.make 100; closeCh := false; closeOnce := Fresh;
     ready := false; closed := false; loop := NotStarted; history := []; fault := false |}.

Definition with_conn (s : Session) (c : Conn) : Session :=
  {| ID := ID s; Provider := Provider s; conn := c; config := config s; opts := opts s;
     eventsCh := eventsCh s; closeCh := closeCh s; closeOnce := closeOnce s;
     ready := ready s; closed := closed s; loop := loop s; history := history s;
     fault := fault s |}.

Definition with_events (s : Session) (ch : Chan.chan RecognitionEvent) : Session :=
  {| ID := ID s; Provider := Provider s; conn := conn s; config := config s; opts := opts s;
     eventsCh := ch; closeCh := closeCh s; closeOnce := closeOnce s;
     ready := ready s; closed := closed s; loop := loop s; history := history s;
     fault := fault s |}.

Definition with_loop (s : Session) (l : loop_status) : Session :=
  {| ID := ID s; Provider := Provider s; conn := conn s; config := config s; opts := opts s;
     eventsCh := eventsCh s; closeCh := closeCh s; closeOnce := closeOnce s;
     ready := ready s; closed := closed s; loop := l; history := history s;
     fault := fault s |}.

Definition with_once (s : Session) (o : once) : Session :=
  {| ID := ID s; Provider := Provider s; conn := conn s; config := config s; opts := opts s;
     eventsCh := eventsCh s; closeCh := closeCh s; closeOnce := o;
     ready := ready s; closed := closed s; loop := loop s; history := history s;
     fault := fault s |}.

Definition note (s : Session) (t : teardown) : Session :=
  {| ID := ID s; Provider := Provider s; conn := conn s; config := config s; opts := opts s;
     eventsCh := eventsCh s; closeCh := closeCh s; closeOnce := closeOnce s;
     ready := ready s; closed := closed s; loop := loop s; history := history s ++ [t];
     fault := fault s |}.

(** [sendEvent]: a send that never waits.  When the buffer has room and
    [closeCh] is closed both cases are ready and the runtime picks one:
    [tie] is that pick ([true] for the close case). *)
Definition sendEvent (tie : bool) (event : RecognitionEvent) (s : Session) : Session :=
  if Chan.has_room (eventsCh s) then
    if closeCh s && tie then s
    else with_events s (Chan.push event (eventsCh s))
  else s.

(** The bound on the wait for the first frame. *)
Definition waitReady_timeout (s : Session) : Duration :=
  if ConnectTimeout (config s) =? 0 then 10 * Second else ConnectTimeout (config s).

Definition waitReady (tie : bool) (sel : received) (s : Session) : Session * result unit :=
  match Receive sel with
  | Err e => (s, Err (Wrap "wait session.ready" e))
  | Ok data =>
      match ParseMessageType data with
      | Err e => (s, Err (Wrap "parse session.ready" e))
      | Ok msgType =>
          if negb (String.eqb msgType MessageTypeSessionReady) then
            (s, Err (Errorf ("expected session.ready, got " +:+ msgType)))
          else
            match ParseMessage data with
            | Ok (MSessionReady rdy) =>
                let s1 :=
                  {| ID := SessionID rdy; Provider := Provider s; conn := conn s;
                     config := config s; opts := opts s; eventsCh := eventsCh s;
                     closeCh := closeCh s; closeOnce := closeOnce s;
                     ready := true; closed := closed s; loop := loop s;
                     history := history s; fault := fault s |} in
                (sendEvent tie (NewReadyEvent (ID s1)) s1, Ok tt)
            | Ok _ => (s, Err (Errorf "interface conversion"))
            | Err e => (s, Err (Wrap "parse session.ready body" e))
            end
      end
  end.

Definition sendConfig (s : Session) : Session * result unit :=
  let params :=
    {| Protocol.Provider := Provider s; Protocol.Language := Language (opts s);
       Protocol.SampleRate := SampleRate (opts s);
       Protocol.AudioFormat := AudioFormat (opts s); VoiceID := "";
       Speed := zero_float; Pitch := zero_float; Volume := zero_float |} in
  let (c, r) := SendJSON (MSessionConfig (NewSessionConfig params)) (conn s) in
  (with_conn s c, r).

(** [start]: the handshake, the configuration, then the message loop is
    started. *)
Definition start (tie : bool) (sel : received) (s : Session) : Session * result unit :=
  match waitReady tie sel s with
  | (s1, Err e) => (s1, Err e)
  | (s1, Ok _) =>
      match sendConfig s1 with
      | (s2, Err e) => (s2, Err e)
      | (s2, Ok _) => (with_loop s2 Looping, Ok tt)
      end
  end.

Definition handlePartial (tie : bool) (data : frame) (s : Session) : Session :=
  match ParseMessage data with
  | Ok (MTranscriptPartial partial) =>
      sendEvent tie (NewPartialEvent (TranscriptPartial_Text partial)) s
  | _ => s
  end.

Definition handleFinal (tie : bool) (data : frame) (s : Session) : Session :=
  match ParseMessage data with
  | Ok (MTranscriptFinal final) =>
      let startTime := wrap64 (Protocol.StartTime final * Millisecond) in
      let endTime := wrap64 (Protocol.EndTime final * Millisecond) in
      sendEvent tie (NewFinalEvent (TranscriptFinal_Text final) startTime endTime) s
  | _ => s
  end.

(** The cause carried by the event of an error frame. *)
Definition server_error (code msg : string) : error :=
  Errorf ("[" +:+ code +:+ "] " +:+ msg).

Definition handleError (tie : bool) (data : frame) (s : Session) : Session :=
  match ParseMessage data with
  | Ok (MErrorMessage errMsg) =>
      sendEvent tie (NewErrorEvent (server_error (Code errMsg) (Message errMsg))) s
  | _ => s
  end.

Definition handleMessage (tie : bool) (data : frame) (s : Session) : Session :=
  match ParseMessageType data with
  | Err _ => s
  | Ok msgType =>
      if String.eqb msgType MessageTypeTranscriptPartial then handlePartial tie data s
      else if String.eqb msgType MessageTypeTranscriptFinal then handleFinal tie data s
      else if String.eqb msgType MessageTypeInputDone then sendEvent tie NewInputDoneEvent s
      else if String.eqb msgType MessageTypeProcessing then sendEvent tie NewProcessingEvent s
      else if String.eqb msgType MessageTypeError then handleError tie data s
      else s
  end.

(** The tags on which the switch of [handleMessage] has a case. *)
Definition dispatches : list MessageType :=
  [MessageTypeTranscriptPartial; MessageTypeTranscriptFinal; MessageTypeInputDone;
   MessageTypeProcessing; MessageTypeError].

(** What the [select] of [messageLoop] yields. *)
Inductive selected : Type :=
| Done                         (* <-ctx.Done() *)
| CloseSig                     (* <-s.closeCh *)
| ConnError (e : error)        (* err := <-s.conn.ErrorChan() *)
| Inbound (data : frame).      (* data := <-s.conn.ReceiveChan() *)

(** The deferred function of [messageLoop]. *)
Definition loop_exit (tie : bool) (s : Session) : Session :=
  let s1 := sendEvent tie NewClosedEvent s in
  with_loop (with_events s1 (Chan.close (eventsCh s1))) Stopped.

(** One turn of [messageLoop]; [tie] and [tie'] settle the selects of the
    sends it makes. *)
Definition loop_turn (tie tie' : bool) (sel : selected) (s : Session) : Session :=
  match loop s with
  | Looping =>
      match sel with
      | Done => loop_exit tie s
      | CloseSig => loop_exit tie s
      | ConnError e => loop_exit tie' (sendEvent tie (NewErrorEvent e) s)
      | Inbound data => handleMessage tie data s
      end
  | _ => s
  end.

Fixpoint messageLoop (sels : list (bool * bool * selected)) (s : Session) : Session :=
  match sels with
  | [] => s
  | (tie, tie', sel) :: rest => messageLoop rest (loop_turn tie tie' sel s)
  end.

Definition Send (audio : list byte) (s : Session) : Session * result unit :=
  if closed s then (s, Err (Errorf "session closed"))
  else if negb (ready s) then (s, Err (Errorf "session not ready"))
  else
    let encoded := Base64.EncodeToString audio in
    let (c, r) := SendJSON (MAudioAppend (NewAudioAppend encoded)) (conn s) in
    (with_conn s c, r).

Definition Commit (s : Session) : Session * result unit :=
  if closed s then (s, Err (Errorf "session closed"))
  else
    let (c, r) := SendJSON (MInputCommit NewInputCommit) (conn s) in
    (with_conn s c, r).

(** The function run under [closeOnce], one statement at a time. *)
Definition mark_closed (s : Session) : Session :=
  note {| ID := ID s; Provider := Provider s; conn := conn s; config := config s;
          opts := opts s; eventsCh := eventsCh s; closeCh := closeCh s;
          closeOnce := closeOnce s; ready := ready s; closed := true; loop := loop s;
          history := history s; fault := fault s |} MarkedClosed.

Definition send_end (s : Session) : Session :=
  note (with_conn s (fst (SendJSON (MSessionEnd NewSessionEnd) (conn s)))) SentSessionEnd.

Definition await_peer (s : Session) : Session := note s WaitedForPeer.

Definition close_closeCh (s : Session) : Session :=
  note {| ID := ID s; Provider := Provider s; conn := conn s; config := config s;
          opts := opts s; eventsCh := eventsCh s; closeCh := true;
          closeOnce := closeOnce s; ready := ready s; closed := closed s; loop := loop s;
          history := history s; fault := fault s || closeCh s |} ClosedCloseCh.

Definition close_conn (s : Session) : Session :=
  note (with_conn s (Transport.Close (conn s))) ClosedConn.

Definition teardown_steps : list (Session -> Session) :=
  [mark_closed; send_end; await_peer; close_closeCh; close_conn].

(** [Close], called with no other call of it in progress. *)
Definition Close (s : Session) : Session :=
  match closeOnce s with
  | Fresh => with_once (fold_left (fun acc f => f acc) teardown_steps (with_once s Busy)) Spent
  | _ => s
  end.

Definition IsReady (s : Session) : bool := ready s && negb (closed s).
Definition IsClosed (s : Session) : bool := closed s.

End Stt.

(** ** stt/client.go: the event loop of RecognizeFile and RecognizeBytes *)

Module SttClient.
Import Transport Stt.

Definition recognizeIdleTimeout : Duration := 10 * Second.

Record Segment : Type := {
  Segment_Text : string;
  Segment_IsFinal : bool;
  Segment_StartTime : Duration;
  Segment_EndTime : Duration
}.

Record RecognitionResult : Type := {
  Result_Text : string;
  Segments : list Segment;
  Result_Duration : Duration;
  Result_Error : option error
}.

(** The variables of the loop.  [idleTimer] is the instant at which the
    timer fires, [None] while it is stopped. *)
Record loop_state : Type := {
  committed : bool;
  sendDoneCh : bool;           (* false once the variable is set to nil *)
  idleTimer : option Z;
  texts : list string;
  result : RecognitionResult
}.

(** Before the loop: an empty result, and a timer that was created,
    stopped and drained. *)
Definition loop_init : loop_state :=
  {| committed := false; sendDoneCh := true; idleTimer := None; texts := [];
     result := {| Result_Text := ""; Segments := []; Result_Duration := 0;
                  Result_Error := None |} |}.

(** The case taken by the [select] of the loop. *)
Inductive selected : Type :=
| CtxDone                            (* <-ctx.Done() *)
| SendDone (err : option error)      (* err := <-sendDoneCh *)
| Event (e : RecognitionEvent)       (* event, ok := <-session.Events(), ok *)
| EventsClosed                       (* the same with ok = false *)
| IdleFired.                         (* <-idleTimer.C *)

Inductive turn : Type :=
| Continue (st : loop_state)
| Break (st : loop_state)            (* break loop *)
| Return (e : error)                 (* return nil, err *)
| Impossible.                        (* the select cannot take this case now *)

Definition arm (now : Z) (st : loop_state) : loop_state :=
  {| committed := committed st; sendDoneCh := sendDoneCh st;
     idleTimer := Some (now + recognizeIdleTimeout); texts := texts st;
     result := result st |}.

Definition on_event (e : RecognitionEvent) (st : loop_state) : turn :=
  match Type_ e with
  | EventFinal =>
      Continue
        {| committed := committed st; sendDoneCh := sendDoneCh st;
           idleTimer := idleTimer st; texts := texts st ++ [Text e];
           result :=
             {| Result_Text := Result_Text (result st);
                Segments := Segments (result st)
                  ++ [{| Segment_Text := Text e; Segment_IsFinal := true;
                         Segment_StartTime := StartTime e;
                         Segment_EndTime := EndTime e |}];
                Result_Duration := Result_Duration (result st);
                Result_Error := Result_Error (result st) |} |}
  | EventError =>
      Continue
        {| committed := committed st; sendDoneCh := sendDoneCh st;
           idleTimer := idleTimer st; texts := texts st;
           result :=
             {| Result_Text := Result_Text (result st);
                Segments := Segments (result st);
                Result_Duration := Result_Duration (result st);
                Result_Error := Error e |} |}
  | EventInputDone => Break st
  | EventClosed => Break st
  | _ => Continue st
  end.

(** One turn of the loop at the instant [now]. *)
Definition loop_turn (now : Z) (sel : selected) (st : loop_state) : turn :=
  match sel with
  | CtxDone => Break st
  | SendDone err =>
      if sendDoneCh st then
        match err with
        | Some e => Return (Wrap "send audio" e)
        | None =>
            Continue
              (arm now {| committed := true; sendDoneCh := false;
                          idleTimer := idleTimer st; texts := texts st;
                          result := result st |})
        end
      else Impossible
  | Event e => on_event e (if committed st then arm now st else st)
  | EventsClosed => Break st
  | IdleFired =>
      match idleTimer st with
      | Some deadline =>
          if deadline <=? now then
            Break {| committed := committed st; sendDoneCh := sendDoneCh st;
                     idleTimer := None; texts := texts st; result := result st |}
          else Impossible
      | None => Impossible
      end
  end.

(** [time.Since(start)] saturates at the ends of [Duration]. *)
Definition since (start now : Z) : Duration :=
  Z.max int64_min (Z.min int64_max (now - start)).

(** After the loop: the text is joined and the call returns
    [result, result.Error]. *)
Definition finish (start now : Z) (st : loop_state) : RecognitionResult * option error :=
  ({| Result_Text := String.concat "" (texts st); Segments := Segments (result st);
      Result_Duration := since start now; Result_Error := Result_Error (result st) |},
   Result_Error (result st)).

Inductive outcome : Type :=
| Returned (r : option RecognitionResult) (e : option error)
| Selecting (st : loop_state)        (* the call is still in its select *)
| Unrealisable.                      (* the script asks for an impossible case *)

(** The loop over a script of timed cases. *)
Fixpoint recognize_loop (start : Z) (script : list (Z * selected)) (st : loop_state)
  : outcome :=
  match script with
  | [] => Selecting st
  | (now, sel) :: rest =>
      match loop_turn now sel st with
      | Continue st' => recognize_loop start rest st'
      | Break st' => let (r, e) := finish start now st' in Returned (Some r) e
      | Return e => Returned None (Some e)
      | Impossible => Unrealisable
      end
  end.

(** An event after which the loop goes on. *)
Definition keeps_going (e : RecognitionEvent) : bool :=
  match Type_ e with
  | EventInputDone | EventClosed => false
  | _ => true
  end.

Definition segment_of (e : RecognitionEvent) : Segment :=
  {| Segment_Text := Text e; Segment_IsFinal := true;
     Segment_StartTime := StartTime e; Segment_EndTime := EndTime e |}.

(** The final transcripts among a run of events, in order. *)
Definition finals (evs : list (Z * RecognitionEvent)) : list RecognitionEvent :=
  List.filter (fun e => match Type_ e with EventFinal => true | _ => false end) (map snd evs).

(** The error carried by the last error event, [dflt] if there is none. *)
Definition error_after (evs : list (Z * RecognitionEvent)) (dflt : option error) : option error :=
  fold_left (fun acc te => match Type_ (snd te) with EventError => Error (snd te) | _ => acc end)
    evs dflt.

(** The instant of the last of [evs], [t0] if there is none. *)
Definition last_instant (t0 : Z) (evs : list (Z * RecognitionEvent)) : Z :=
  fold_left (fun _ te => fst te) evs t0.

Definition as_script (evs : list (Z * RecognitionEvent)) : list (Z * selected) :=
  map (fun te => (fst te, Event (snd te))) evs.

(** The state after a run of events that keep the loop going. *)
Definition absorbed (evs : list (Z * RecognitionEvent)) (st : loop_state) : loop_state :=
  {| committed := committed st; sendDoneCh := sendDoneCh st;
     idleTimer := if committed st
                  then match evs with
                       | [] => idleTimer st
                       | _ => Some (last_instant 0 evs + recognizeIdleTimeout)
                       end
                  else idleTimer st;
     texts := texts st ++ map Text (finals evs);
     result := {| Result_Text := Result_Text (result st);
                  Segments := Segments (result st) ++ map segment_of (finals evs);
                  Result_Duration := Result_Duration (result st);
                  Result_Error := error_after evs (Result_Error (result st)) |} |}.

(** The result returned when the loop is left at [t] after the events
    [evs]. *)
Definition recognized (start t : Z) (evs : list (Z * RecognitionEvent)) : RecognitionResult :=
  {| Result_Text := String.concat "" (map Text (finals evs));
     Segments := map segment_of (finals evs);
     Result_Duration := since start t;
     Result_Error := error_after evs None |}.

Definition auth_failed : RecognitionEvent :=
  NewErrorEvent (server_error "AUTH_ERROR" "invalid api key").

End SttClient.

(** ** tts/stream.go *)

Module TtsStream.
Import Transport.

Record AudioChunk : Type := {
  Data : list byte;
  Sequence : Z;
  IsDone : bool;
  Error : option error
}.

(** The fields [sessionCloser] and [session] are kept outside the
    record.  They are nil in every stream made by
    [Session.SynthesizeStream]; the client facade sets them to the session
    of the stream, and [TtsApi.program] records for which streams it did;
    [Close_from] below takes the closer into account. *)
Record AudioStream : Type := {
  chunksCh : Chan.chan AudioChunk;
  buffer : list byte;
  closed : bool;
  closeCh : bool;              (* true once closeCh is closed *)
  closeOnce : once;
  chunkChClosed : bool;
  totalSize : Z;
  err : option error
}.

Definition newAudioStream : AudioStream :=
  {| chunksCh := Chan.make 100; buffer := []; closed := false; closeCh := false;
     closeOnce := Fresh; chunkChClosed := false; totalSize := 0; err := None |}.

(** [bytes.Buffer.Read] into a slice of length [n]: the bytes copied, the
    error, and what stays in the buffer. *)
Definition buffer_Read (n : nat) (b : list byte) : list byte * option error * list byte :=
  match b with
  | [] => if Nat.eqb n 0 then ([], None, []) else ([], Some EOF, [])
  | _ => (firstn n b, None, skipn n b)
  end.

Inductive read_result : Type :=
| ReadWaits                                           (* blocked on the channel *)
| ReadReturns (p : list byte) (e : option error) (s : AudioStream).

Definition with_buffer (s : AudioStream) (b : list byte) : AudioStream :=
  {| chunksCh := chunksCh s; buffer := b; closed := closed s; closeCh := closeCh s;
     closeOnce := closeOnce s; chunkChClosed := chunkChClosed s;
     totalSize := totalSize s; err := err s |}.

Definition with_chunksCh (s : AudioStream) (c : Chan.chan AudioChunk) : AudioStream :=
  {| chunksCh := c; buffer := buffer s; closed := closed s; closeCh := closeCh s;
     closeOnce := closeOnce s; chunkChClosed := chunkChClosed s;
     totalSize := totalSize s; err := err s |}.

Definition mark_closed (s : AudioStream) : AudioStream :=
  {| chunksCh := chunksCh s; buffer := buffer s; closed := true; closeCh := closeCh s;
     closeOnce := closeOnce s; chunkChClosed := chunkChClosed s;
     totalSize := totalSize s; err := err s |}.

(** [Read] with a slice of length [n]. *)
Definition Read (n : nat) (s : AudioStream) : read_result :=
  if Nat.ltb 0 (length (buffer s)) then
    let '(p, e, rest) := buffer_Read n (buffer s) in ReadReturns p e (with_buffer s rest)
  else if closed s then ReadReturns [] (Some EOF) s
  else
    match Chan.recv (chunksCh s) with
    | Chan.Blocked => ReadWaits
    | Chan.Drained => ReadReturns [] (Some EOF) (mark_closed s)
    | Chan.Got chunk ch =>
        let s1 := with_chunksCh s ch in
        if IsDone chunk then ReadReturns [] (Some EOF) (mark_closed s1)
        else
          match Error chunk with
          | Some e => ReadReturns [] (Some e) s1
          | None =>
              let s2 :=
                {| chunksCh := chunksCh s1; buffer := buffer s1 ++ Data chunk;
                   closed := closed s1; closeCh := closeCh s1; closeOnce := closeOnce s1;
                   chunkChClosed := chunkChClosed s1;
                   totalSize := wrap64 (totalSize s1 + Z.of_nat (length (Data chunk)));
                   err := err s1 |} in
              let '(p, e, rest) := buffer_Read n (buffer s2) in
              ReadReturns p e (with_buffer s2 rest)
          end
    end.

Inductive push_result : Type :=
| Pushed (s : AudioStream)     (* returns true *)
| Refused                      (* returns false *)
| PushWaits.                   (* blocked: the buffer is full, closeCh is open *)

(** [pushChunk] up to the point where it returns or its select blocks;
    [tie] settles the select when both cases are ready.  On [PushWaits]
    the caller stays parked in the select with its chunk: what wakes it,
    and how, is [wake] below. *)
Definition pushChunk (tie : bool) (chunk : AudioChunk) (s : AudioStream) : push_result :=
  if chunkChClosed s then Refused
  else if Chan.has_room (chunksCh s) then
    if closeCh s && tie then Refused
    else Pushed (with_chunksCh s (Chan.push chunk (chunksCh s)))
  else if closeCh s then Refused
  else PushWaits.

Definition pushData (tie : bool) (data : list byte) (seq : Z) (s : AudioStream)
  : push_result :=
  pushChunk tie {| Data := data; Sequence := seq; IsDone := false; Error := None |} s.

(** The body shared by [pushDone] and [pushError]: a last chunk is sent if
    the buffer has room, the channel is closed, then [closeCh]. *)
Definition seal (last : AudioChunk) (s : AudioStream) : AudioStream :=
  let ch :=
    if chunkChClosed s then chunksCh s
    else Chan.close (if Chan.has_room (chunksCh s) then Chan.push last (chunksCh s)
                     else chunksCh s) in
  {| chunksCh := ch; buffer := buffer s; closed := closed s; closeCh := true;
     closeOnce := Spent; chunkChClosed := true; totalSize := totalSize s; err := err s |}.

Definition pushDone (s : AudioStream) : AudioStream :=
  match closeOnce s with
  | Fresh => seal {| Data := []; Sequence := 0; IsDone := true; Error := None |} s
  | _ => s
  end.

Definition pushError (e : error) (s : AudioStream) : AudioStream :=
  let s1 :=
    {| chunksCh := chunksCh s; buffer := buffer s; closed := closed s; closeCh := closeCh s;
       closeOnce := closeOnce s; chunkChClosed := chunkChClosed s;
       totalSize := totalSize s; err := Some e |} in
  match closeOnce s1 with
  | Fresh => seal {| Data := []; Sequence := 0; IsDone := false; Error := Some e |} s1
  | _ => s1
  end.

(** What a call of [Close] comes to. *)
Inductive closing : Type :=
| Closed (s : AudioStream)        (* Close has returned *)
| CallsCloser (s : AudioStream)   (* inside Do, at s.sessionCloser.Close() *)
| CloseWaits.                     (* Do waits for the call in progress *)

(** [Close]; [closer] says whether [sessionCloser] is set.  The function
    passed to [Do] marks the stream closed, closes the two channels and
    then calls the closer: the [Once] of the stream is busy until that
    call returns. *)
Definition Close_from (closer : bool) (s : AudioStream) : closing :=
  match closeOnce s with
  | Fresh =>
      let shut (o : once) :=
        {| chunksCh := if chunkChClosed s then chunksCh s else Chan.close (chunksCh s);
           buffer := buffer s; closed := true; closeCh := true; closeOnce := o;
           chunkChClosed := true; totalSize := totalSize s; err := err s |} in
      if closer then CallsCloser (shut Busy) else Closed (shut Spent)
  | Busy => CloseWaits
  | Spent => Closed s
  end.

(** [Close] of a stream whose [sessionCloser] is nil, as the streams of
    [Session.SynthesizeStream] are until the client sets it: the stream
    that the call leaves.  What it does to a sender parked in
    [pushChunk] is [wake] below. *)
Definition Close (s : AudioStream) : AudioStream :=
  match Close_from false s with
  | Closed s' => s'
  | CallsCloser s' => s'
  | CloseWaits => s
  end.

Definition TotalSize (s : AudioStream) : Z := totalSize s.
Definition IsClosed (s : AudioStream) : bool := closed s.

Definition done_chunk : AudioChunk :=
  {| Data := []; Sequence := 0; IsDone := true; Error := None |}.

(** Successive calls of [Read] with slices of the lengths [ns]; [None]
    when one of them waits. *)
Fixpoint read_many (ns : list nat) (s : AudioStream)
  : option (list (list byte * option error) * AudioStream) :=
  match ns with
  | [] => Some ([], s)
  | n :: rest =>
      match Read n s with
      | ReadWaits => None
      | ReadReturns p e s' =>
          match read_many rest s' with
          | Some (rs, s'') => Some ((p, e) :: rs, s'')
          | None => None
          end
      end
  end.

(** A stream whose round is complete at the source: the channel holds the
    chunks [cs] that carry data, then the completion chunk; [total] is the
    number of bytes of the round. *)
Record sealed (total : Z) (cs : list AudioChunk) (s : AudioStream) : Prop := {
  sealed_buf : Chan.buf (chunksCh s) = cs ++ [done_chunk];
  sealed_data : Forall (fun c => IsDone c = false /\ Error c = None /\ Data c <> []) cs;
  sealed_open : closed s = false;
  sealed_count : totalSize s + Z.of_nat (length (concat (map Data cs))) = total;
  sealed_range : 0 <= totalSize s /\ total <= int64_max
}.

(** The bytes that the reader has not seen yet. *)
Definition pending (cs : list AudioChunk) (s : AudioStream) : list byte :=
  buffer s ++ concat (map Data cs).

(** A stream that was read to its end. *)
Definition finished (s : AudioStream) : Prop := buffer s = [] /\ closed s = true.

(** The results of successive reads that deliver [bytes]: reads that
    return data without an error, then, once everything was delivered,
    reads that report the end of the stream. *)
Inductive drained : list byte -> list (list byte * option error) -> Prop :=
| drained_stop bytes : drained bytes []
| drained_data p bytes rs :
    p <> [] -> drained bytes rs -> drained (p ++ bytes) ((p, None) :: rs)
| drained_eof rs :
    Forall (fun r => r = ([], Some EOF)) rs -> drained [] (([], Some EOF) :: rs).

Definition at_eof (rs : list (list byte * option error)) : Prop := In ([], Some EOF) rs.

(** A stream whose round is going on: the channel is open and holds the
    chunks [cs]; [arrived] bytes were pushed so far. *)
Record streaming (arrived : Z) (cs : list AudioChunk) (s : AudioStream) : Prop := {
  streaming_chan : chunksCh s = {| Chan.cap := 100; Chan.buf := cs; Chan.closed := false |};
  streaming_data : Forall (fun c => IsDone c = false /\ Error c = None /\ Data c <> []) cs;
  streaming_flags :
    closed s = false /\ closeCh s = false /\ closeOnce s = Fresh /\ chunkChClosed s = false;
  streaming_count : totalSize s + Z.of_nat (length (concat (map Data cs))) = arrived;
  streaming_range : 0 <= totalSize s
}.

(** The calls made on a stream: by its reader ([Read], [Close]) and by the
    session ([pushData], [pushDone], [pushError]). *)
Inductive stream_op : Type :=
| OpRead (n : nat)
| OpPush (tie : bool) (data : list byte) (seq : Z)
| OpDone
| OpError (e : error)
| OpClose.

(** The calls in their order, with the results of the reads; [None] when
    a call has to wait.  A push that is refused changes nothing. *)
Fixpoint run_ops (ops : list stream_op) (s : AudioStream)
  : option (list (list byte * option error) * AudioStream) :=
  match ops with
  | [] => Some ([], s)
  | OpRead n :: rest =>
      match Read n s with
      | ReadWaits => None
      | ReadReturns p e s' =>
          match run_ops rest s' with
          | Some (rs, s'') => Some ((p, e) :: rs, s'')
          | None => None
          end
      end
  | OpPush tie data seq :: rest =>
      match pushData tie data seq s with
      | Pushed s' => run_ops rest s'
      | Refused => run_ops rest s
      | PushWaits => None
      end
  | OpDone :: rest => run_ops rest (pushDone s)
  | OpError e :: rest => run_ops rest (pushError e s)
  | OpClose :: rest => run_ops rest (Close s)
  end.

(** The bytes handed to [pushData] by the calls. *)
Fixpoint pushed (ops : list stream_op) : Z :=
  match ops with
  | [] => 0
  | OpPush _ data _ :: rest => Z.of_nat (length data) + pushed rest
  | _ :: rest => pushed rest
  end.

(** The bytes of the chunks that wait in the channel. *)
Definition queued (s : AudioStream) : Z :=
  Z.of_nat (length (concat (map Data (Chan.buf (chunksCh s))))).

(** The chunk sent by [pushError]. *)
Definition error_chunk (e : error) : AudioChunk :=
  {| Data := []; Sequence := 0; IsDone := false; Error := Some e |}.

(** A stream of a round in which 100 one-byte chunks arrived and nothing
    was read. *)
Definition full_stream : AudioStream :=
  with_chunksCh newAudioStream
    {| Chan.cap := 100;
       Chan.buf := repeat {| Data := [x01]; Sequence := 1; IsDone := false; Error := None |} 100;
       Chan.closed := false |}.


(** The chunk that [pushData] builds. *)
Definition data_chunk (data : list byte) (seq : Z) : AudioChunk :=
  {| Data := data; Sequence := seq; IsDone := false; Error := None |}.

Definition with_closeOnce (s : AudioStream) (o : once) : AudioStream :=
  {| chunksCh := chunksCh s; buffer := buffer s; closed := closed s; closeCh := closeCh s;
     closeOnce := o; chunkChClosed := chunkChClosed s; totalSize := totalSize s;
     err := err s |}.

(** The call of the closer has returned: the function passed to [Do]
    ends. *)
Definition closer_returned (s : AudioStream) : AudioStream := with_closeOnce s Spent.

(** *** The sender inside [pushChunk] *)

(** A goroutine whose call of [pushChunk] did not return at once. *)
Inductive sender : Type :=
| Parked (chunk : AudioChunk)   (* blocked in the select *)
| Sent                          (* the send was completed: pushChunk returns true *)
| TurnedAway                    (* closeCh was chosen: pushChunk returns false *)
| Panicked.                     (* chunksCh was closed under the send *)

(** What becomes of a sender parked with [chunk] once another goroutine
    has left the stream as [s].  Closing [chunksCh] makes the parked send
    panic with [send on closed channel]; [pushDone], [pushError] and
    [Close] all close [chunksCh] before [closeCh].  Room in the channel
    completes the send, and a closed [closeCh] makes the select return;
    [tie] settles the select when both are ready. *)
Definition wake (tie : bool) (chunk : AudioChunk) (s : AudioStream) : AudioStream * sender :=
  if Chan.closed (chunksCh s) then (s, Panicked)
  else if Chan.has_room (chunksCh s) then
    if closeCh s && tie then (s, TurnedAway)
    else (with_chunksCh s (Chan.push chunk (chunksCh s)), Sent)
  else if closeCh s then (s, TurnedAway)
  else (s, Parked chunk).

End TtsStream.

(** ** tts/session.go *)

Module Tts.
Import Json Protocol Codec Transport TtsStream.

Record SynthesisOptions : Type := {
  VoiceID : string;
  Language : string;
  Speed : float64;
  Pitch : float64;
  Volume : float64;
  SampleRate : Z;
  AudioFormat : string
}.

(** [currentStream] points into [streams], the audio streams that this
    session has made and that are still referenced; [allocated] counts the
    streams made so far. *)
Record Session : Type := {
  ID : string;
  Provider : string;
  conn : Conn;
  opts : SynthesisOptions;
  closeCh : bool;              (* true once closeCh is closed *)
  closeOnce : once;
  ready : bool;
  closed : bool;
  seqNum : Z;
  ctxDone : bool;              (* true once s.cancel() was called *)
  currentStream : option nat;
  roundCount : Z;
  synthesizing : bool;
  commitSentAt : Time;
  firstChunkReceivedAt : Time;
  (* not fields of the Go struct: *)
  streams : gmap nat AudioStream;
  allocated : nat;
  loop : loop_status;          (* the goroutine started by start *)
  history : list teardown;     (* teardown steps taken so far *)
  fault : bool                 (* a closed channel was closed again *)
}.

Definition newSession (c : Conn) (provider : string) (o : SynthesisOptions) : Session :=
  {| ID := ""; Provider := provider; conn := c; opts := o; closeCh := false;
     closeOnce := Fresh; ready := false; closed := false; seqNum := 0; ctxDone := false;
     currentStream := None; roundCount := 0; synthesizing := false;
     commitSentAt := None; firstChunkReceivedAt := None;
     streams := ∅; allocated := 0; loop := NotStarted; history := []; fault := false |}.

Definition with_conn (s : Session) (c : Conn) : Session :=
  {| ID := ID s; Provider := Provider s; conn := c; opts := opts s; closeCh := closeCh s;
     closeOnce := closeOnce s; ready := ready s; closed := closed s;
     seqNum := seqNum s; ctxDone := ctxDone s; currentStream := currentStream s;
     roundCount := roundCount s; synthesizing := synthesizing s;
     commitSentAt := commitSentAt s; firstChunkReceivedAt := firstChunkReceivedAt s;
     streams := streams s; allocated := allocated s; loop := loop s;
     history := history s; fault := fault s |}.

Definition with_once (s : Session) (o : once) : Session :=
  {| ID := ID s; Provider := Provider s; conn := conn s; opts := opts s;
     closeCh := closeCh s; closeOnce := o; ready := ready s; closed := closed s;
     seqNum := seqNum s; ctxDone := ctxDone s; currentStream := currentStream s;
     roundCount := roundCount s; synthesizing := synthesizing s;
     commitSentAt := commitSentAt s; firstChunkReceivedAt := firstChunkReceivedAt s;
     streams := streams s; allocated := allocated s; loop := loop s;
     history := history s; fault := fault s |}.

Definition with_loop (s : Session) (l : loop_status) : Session :=
  {| ID := ID s; Provider := Provider s; conn := conn s; opts := opts s;
     closeCh := closeCh s; closeOnce := closeOnce s; ready := ready s;
     closed := closed s; seqNum := seqNum s; ctxDone := ctxDone s;
     currentStream := currentStream s; roundCount := roundCount s;
     synthesizing := synthesizing s; commitSentAt := commitSentAt s;
     firstChunkReceivedAt := firstChunkReceivedAt s; streams := streams s;
     allocated := allocated s; loop := l; history := history s; fault := fault s |}.

Definition with_streams (s : Session) (m : gmap nat AudioStream) : Session :=
  {| ID := ID s; Provider := Provider s; conn := conn s; opts := opts s;
     closeCh := closeCh s; closeOnce := closeOnce s; ready := ready s;
     closed := closed s; seqNum := seqNum s; ctxDone := ctxDone s;
     currentStream := currentStream s; roundCount := roundCount s;
     synthesizing := synthesizing s; commitSentAt := commitSentAt s;
     firstChunkReceivedAt := firstChunkReceivedAt s; streams := m;
     allocated := allocated s; loop := loop s; history := history s;
     fault := fault s |}.

Definition with_firstChunk (s : Session) (t : Time) : Session :=
  {| ID := ID s; Provider := Provider s; conn := conn s; opts := opts s;
     closeCh := closeCh s; closeOnce := closeOnce s; ready := ready s;
     closed := closed s; seqNum := seqNum s; ctxDone := ctxDone s;
     currentStream := currentStream s; roundCount := roundCount s;
     synthesizing := synthesizing s; commitSentAt := commitSentAt s;
     firstChunkReceivedAt := t; streams := streams s; allocated := allocated s;
     loop := loop s; history := history s; fault := fault s |}.

Definition with_commitSentAt (s : Session) (t : Time) : Session :=
  {| ID := ID s; Provider := Provider s; conn := conn s; opts := opts s;
     closeCh := closeCh s; closeOnce := closeOnce s; ready := ready s;
     closed := closed s; seqNum := seqNum s; ctxDone := ctxDone s;
     currentStream := currentStream s; roundCount := roundCount s;
     synthesizing := synthesizing s; commitSentAt := t;
     firstChunkReceivedAt := firstChunkReceivedAt s; streams := streams s;
     allocated := allocated s; loop := loop s; history := history s;
     fault := fault s |}.

Definition with_seqNum (s : Session) (n : Z) : Session :=
  {| ID := ID s; Provider := Provider s; conn := conn s; opts := opts s;
     closeCh := closeCh s; closeOnce := closeOnce s; ready := ready s;
     closed := closed s; seqNum := n; ctxDone := ctxDone s;
     currentStream := currentStream s; roundCount := roundCount s;
     synthesizing := synthesizing s; commitSentAt := commitSentAt s;
     firstChunkReceivedAt := firstChunkReceivedAt s; streams := streams s;
     allocated := allocated s; loop := loop s; history := history s;
     fault := fault s |}.

(** The assignments [s.currentStream = v; s.synthesizing = b]. *)
Definition with_round (s : Session) (v : option nat) (b : bool) : Session :=
  {| ID := ID s; Provider := Provider s; conn := conn s; opts := opts s;
     closeCh := closeCh s; closeOnce := closeOnce s; ready := ready s;
     closed := closed s; seqNum := seqNum s; ctxDone := ctxDone s;
     currentStream := v; roundCount := roundCount s; synthesizing := b;
     commitSentAt := commitSentAt s; firstChunkReceivedAt := firstChunkReceivedAt s;
     streams := streams s; allocated := allocated s; loop := loop s;
     history := history s; fault := fault s |}.

Definition note (s : Session) (t : teardown) : Session :=
  {| ID := ID s; Provider := Provider s; conn := conn s; opts := opts s;
     closeCh := closeCh s; closeOnce := closeOnce s; ready := ready s;
     closed := closed s; seqNum := seqNum s; ctxDone := ctxDone s;
     currentStream := currentStream s; roundCount := roundCount s;
     synthesizing := synthesizing s; commitSentAt := commitSentAt s;
     firstChunkReceivedAt := firstChunkReceivedAt s; streams := streams s;
     allocated := allocated s; loop := loop s; history := history s ++ [t];
     fault := fault s |}.

Definition waitReady (sel : received) (s : Session) : Session * result unit :=
  match Receive sel with
  | Err e => (s, Err (Wrap "wait session.ready" e))
  | Ok data =>
      match ParseMessageType data with
      | Err e => (s, Err (Wrap "parse session.ready" e))
      | Ok msgType =>
          if negb (String.eqb msgType MessageTypeSessionReady) then
            (s, Err (Errorf ("expected session.ready, got " +:+ msgType)))
          else
            match ParseMessage data with
            | Ok (MSessionReady rdy) =>
                ({| ID := SessionID rdy; Provider := Provider s; conn := conn s;
                   opts := opts s; closeCh := closeCh s; closeOnce := closeOnce s;
                   ready := true; closed := closed s; seqNum := seqNum s;
                   ctxDone := ctxDone s; currentStream := currentStream s;
                   roundCount := roundCount s; synthesizing := synthesizing s;
                   commitSentAt := commitSentAt s;
                   firstChunkReceivedAt := firstChunkReceivedAt s; streams := streams s;
                   allocated := allocated s; loop := loop s; history := history s;
                   fault := fault s |},
                 Ok tt)
            | Ok _ => (s, Err (Errorf "interface conversion"))
            | Err e => (s, Err (Wrap "parse session.ready body" e))
            end
      end
  end.

Definition sendConfig (s : Session) : Session * result unit :=
  let params :=
    {| Protocol.Provider := Provider s; Protocol.VoiceID := VoiceID (opts s);
       Protocol.Language := Language (opts s); Protocol.Speed := Speed (opts s);
       Protocol.Pitch := Pitch (opts s); Protocol.Volume := Volume (opts s);
       Protocol.SampleRate := SampleRate (opts s);
       Protocol.AudioFormat := AudioFormat (opts s) |} in
  let (c, r) := SendJSON (MSessionConfig (NewSessionConfig params)) (conn s) in
  (with_conn s c, r).

Definition start (sel : received) (s : Session) : Session * result unit :=
  match waitReady sel s with
  | (s1, Err e) => (s1, Err e)
  | (s1, Ok _) =>
      match sendConfig s1 with
      | (s2, Err e) => (s2, Err e)
      | (s2, Ok _) => (with_loop s2 Looping, Ok tt)
      end
  end.

(** [handleAudioDelta] at the instant [now], when it returns; [None]
    when the push into the stream waits for room: the loop is then parked
    in [pushChunk], as [TtsApi.handleAudioDelta] has it. *)
Definition handleAudioDelta (tie : bool) (now : Z) (data : frame) (s : Session)
  : option Session :=
  let s1 :=
    match firstChunkReceivedAt s with
    | None => with_firstChunk s (Some now)
    | Some _ => s
    end in
  match ParseMessage data with
  | Ok (MAudioDelta delta) =>
      match Base64.DecodeString (AudioDelta_Audio delta) with
      | Err _ => Some s1
      | Ok audioData =>
          let s2 := with_seqNum s1 (wrap64 (seqNum s1 + 1)) in
          match currentStream s2 with
          | None => Some s2
          | Some h =>
              match streams s2 !! h with
              | None => Some s2
              | Some stream =>
                  match pushData tie audioData (seqNum s2) stream with
                  | Pushed stream' => Some (with_streams s2 (<[h := stream']> (streams s2)))
                  | Refused => Some s2
                  | PushWaits => None
                  end
              end
          end
      end
  | _ => Some s1
  end.

(** The current stream is detached, then [f] is applied to it. *)
Definition detach (f : AudioStream -> AudioStream) (s : Session) : Session :=
  let s1 := with_round s None false in
  match currentStream s with
  | None => s1
  | Some h => with_streams s1 (alter f h (streams s1))
  end.

Definition server_error (code msg : string) : error :=
  Errorf ("[" +:+ code +:+ "] " +:+ msg).

Definition handleError (data : frame) (s : Session) : Session :=
  match ParseMessage data with
  | Ok (MErrorMessage errMsg) =>
      detach (pushError (server_error (Code errMsg) (Message errMsg))) s
  | _ => s
  end.

Definition handleAudioDone (s : Session) : Session := detach pushDone s.

Definition handleStreamError (e : error) (s : Session) : Session := detach (pushError e) s.

Definition handleMessage (tie : bool) (now : Z) (data : frame) (s : Session)
  : option Session :=
  match ParseMessageType data with
  | Err _ => Some s
  | Ok msgType =>
      if String.eqb msgType MessageTypeAudioDelta then handleAudioDelta tie now data s
      else if String.eqb msgType MessageTypeAudioDone then Some (handleAudioDone s)
      else if String.eqb msgType MessageTypeError then Some (handleError data s)
      else Some s
  end.

(** The tags on which the switch of [handleMessage] has a case. *)
Definition dispatches : list MessageType :=
  [MessageTypeAudioDelta; MessageTypeAudioDone; MessageTypeError].

(** What the [select] of [messageLoop] yields. *)
Inductive selected : Type :=
| Done                         (* <-ctx.Done() *)
| SessionDone                  (* <-s.ctx.Done() *)
| CloseSig                     (* <-s.closeCh *)
| ConnError (e : error)        (* err := <-s.conn.ErrorChan() *)
| Inbound (data : frame).      (* data := <-s.conn.ReceiveChan() *)

(** One turn of [messageLoop]. *)
Definition loop_turn (tie : bool) (now : Z) (sel : selected) (s : Session)
  : option Session :=
  match loop s with
  | Looping =>
      match sel with
      | Done | SessionDone | CloseSig => Some (with_loop s Stopped)
      | ConnError e => Some (with_loop (handleStreamError e s) Stopped)
      | Inbound data => handleMessage tie now data s
      end
  | _ => Some s
  end.

Fixpoint messageLoop (sels : list (bool * Z * selected)) (s : Session) : option Session :=
  match sels with
  | [] => Some s
  | (tie, now, sel) :: rest =>
      match loop_turn tie now sel s with
      | Some s' => messageLoop rest s'
      | None => None
      end
  end.

Definition errSynthesisInProgress : error :=
  Errorf "synthesis in progress, wait for current round to complete".

(** [SynthesizeStream] at the instant [now]; the stream is returned by its
    place in [streams].  A stream whose round could not be started is no
    longer referenced and leaves [streams]. *)
Definition SynthesizeStream (text : string) (now : Z) (s : Session)
  : Session * result nat :=
  if closed s then (s, Err (Errorf "session closed"))
  else if negb (ready s) then (s, Err (Errorf "session not ready"))
  else if synthesizing s then (s, Err errSynthesisInProgress)
  else
    let h := allocated s in
    let s1 :=
      {| ID := ID s; Provider := Provider s; conn := conn s; opts := opts s;
         closeCh := closeCh s; closeOnce := closeOnce s; ready := ready s;
         closed := closed s; seqNum := seqNum s; ctxDone := ctxDone s;
         currentStream := Some h; roundCount := wrap64 (roundCount s + 1);
         synthesizing := true; commitSentAt := commitSentAt s;
         firstChunkReceivedAt := None; streams := <[h := newAudioStream]> (streams s);
         allocated := S h; loop := loop s; history := history s; fault := fault s |} in
    match SendJSON (MTextAppend (NewTextAppend text)) (conn s1) with
    | (c, Err e) =>
        (with_streams (with_round (with_conn s1 c) None false) (delete h (streams s1)),
         Err (Wrap "send text" e))
    | (c, Ok _) =>
        let s2 := with_commitSentAt (with_conn s1 c) (Some now) in
        match SendJSON (MInputCommit NewInputCommit) (conn s2) with
        | (c', Err e) =>
            (with_streams (with_round (with_conn s2 c') None false) (delete h (streams s2)),
             Err (Wrap "commit" e))
        | (c', Ok _) => (with_conn s2 c', Ok h)
        end
    end.

Definition RoundCount (s : Session) : Z := roundCount s.
Definition IsSynthesizing (s : Session) : bool := synthesizing s.

Definition SendText (text : string) (s : Session) : Session * result unit :=
  if closed s then (s, Err (Errorf "session closed"))
  else if negb (ready s) then (s, Err (Errorf "session not ready"))
  else
    let (c, r) := SendJSON (MTextAppend (NewTextAppend text)) (conn s) in
    (with_conn s c, r).

Definition Commit (now : Z) (s : Session) : Session * result unit :=
  if closed s then (s, Err (Errorf "session closed"))
  else
    let s1 := with_commitSentAt s (Some now) in
    let (c, r) := SendJSON (MInputCommit NewInputCommit) (conn s1) in
    (with_conn s1 c, r).

(** The function run under [closeOnce], one statement at a time. *)
Definition mark_closed (s : Session) : Session :=
  note
    {| ID := ID s; Provider := Provider s; conn := conn s; opts := opts s;
       closeCh := closeCh s; closeOnce := closeOnce s; ready := ready s; closed := true;
       seqNum := seqNum s; ctxDone := ctxDone s; currentStream := currentStream s;
       roundCount := roundCount s; synthesizing := synthesizing s;
       commitSentAt := commitSentAt s; firstChunkReceivedAt := firstChunkReceivedAt s;
       streams := streams s; allocated := allocated s; loop := loop s;
       history := history s; fault := fault s |}
    MarkedClosed.

Definition send_end (s : Session) : Session :=
  note (with_conn s (fst (SendJSON (MSessionEnd NewSessionEnd) (conn s)))) SentSessionEnd.

Definition await_peer (s : Session) : Session := note s WaitedForPeer.

Definition cancel (s : Session) : Session :=
  note
    {| ID := ID s; Provider := Provider s; conn := conn s; opts := opts s;
       closeCh := closeCh s; closeOnce := closeOnce s; ready := ready s;
       closed := closed s; seqNum := seqNum s; ctxDone := true;
       currentStream := currentStream s; roundCount := roundCount s;
       synthesizing := synthesizing s; commitSentAt := commitSentAt s;
       firstChunkReceivedAt := firstChunkReceivedAt s; streams := streams s;
       allocated := allocated s; loop := loop s; history := history s; fault := fault s |}
    Cancelled.

Definition close_closeCh (s : Session) : Session :=
  note
    {| ID := ID s; Provider := Provider s; conn := conn s; opts := opts s;
       closeCh := true; closeOnce := closeOnce s; ready := ready s; closed := closed s;
       seqNum := seqNum s; ctxDone := ctxDone s; currentStream := currentStream s;
       roundCount := roundCount s; synthesizing := synthesizing s;
       commitSentAt := commitSentAt s; firstChunkReceivedAt := firstChunkReceivedAt s;
       streams := streams s; allocated := allocated s; loop := loop s;
       history := history s; fault := fault s || closeCh s |}
    ClosedCloseCh.

Definition close_conn (s : Session) : Session :=
  note (with_conn s (Transport.Close (conn s))) ClosedConn.

Definition release_stream (s : Session) : Session :=
  note
    match currentStream s with
    | Some h =>
        with_streams
          {| ID := ID s; Provider := Provider s; conn := conn s; opts := opts s;
             closeCh := closeCh s; closeOnce := closeOnce s; ready := ready s;
             closed := closed s; seqNum := seqNum s; ctxDone := ctxDone s;
             currentStream := None; roundCount := roundCount s;
             synthesizing := synthesizing s; commitSentAt := commitSentAt s;
             firstChunkReceivedAt := firstChunkReceivedAt s; streams := streams s;
             allocated := allocated s; loop := loop s; history := history s;
             fault := fault s |}
          (alter pushDone h (streams s))
    | None => s
    end
    ReleasedStream.

Definition teardown_steps : list (Session -> Session) :=
  [mark_closed; send_end; await_peer; cancel; close_closeCh; close_conn; release_stream].

(** [Close], called with no other call of it in progress. *)
Definition Close (s : Session) : Session :=
  match closeOnce s with
  | Fresh => with_once (fold_left (fun acc f => f acc) teardown_steps (with_once s Busy)) Spent
  | _ => s
  end.

Definition IsReady (s : Session) : bool := ready s && negb (closed s).
Definition IsClosed (s : Session) : bool := closed s.

(** [TTFB] in milliseconds. *)
Definition TTFB (s : Session) : Z :=
  match commitSentAt s, firstChunkReceivedAt s with
  | Some c, Some f => Z.quot (f - c) Millisecond
  | _, _ => 0
  end.

(** The caller's side of a stream, by its place in [streams]. *)
Definition stream_Read (h : nat) (n : nat) (s : Session)
  : option (list byte * option error * Session) :=
  match streams s !! h with
  | None => None
  | Some stream =>
      match Read n stream with
      | ReadWaits => None
      | ReadReturns p e stream' => Some (p, e, with_streams s (<[h := stream']> (streams s)))
      end
  end.

(** [Close] of the stream [h] of a session of [CreateSession]: the
    stream has no closer.  [TtsApi.AudioStream_Close] is the call on a
    stream that may have one. *)
Definition stream_Close (h : nat) (s : Session) : Session :=
  with_streams s (alter TtsStream.Close h (streams s)).

Definition delta_frame (audio : string) : frame :=
  Json (JObj [("type", JStr "audio.delta"); ("audio", JStr audio)]).
Definition done_frame : frame := Json (JObj [("type", JStr "audio.done")]).

(** A move of a round seen from its stream: the message loop handles an
    inbound frame, or the consumer calls [Read]. *)
Inductive round_move : Type :=
| Frame (tie : bool) (now : Z) (data : frame)
| ReadCall (n : nat).

Definition frames_of (moves : list round_move) : list frame :=
  flat_map (fun m => match m with Frame _ _ data => [data] | ReadCall _ => [] end) moves.
Definition sizes_of (moves : list round_move) : list nat :=
  flat_map (fun m => match m with Frame _ _ _ => [] | ReadCall n => [n] end) moves.

(** The moves in their order, with the results of the reads; [None] when
    a move has to wait. *)
Fixpoint run_round (h : nat) (moves : list round_move) (s : Session)
  : option (list (list byte * option error) * Session) :=
  match moves with
  | [] => Some ([], s)
  | Frame tie now data :: rest =>
      match loop_turn tie now (Inbound data) s with
      | Some s' => run_round h rest s'
      | None => None
      end
  | ReadCall n :: rest =>
      match stream_Read h n s with
      | Some (p, e, s') =>
          match run_round h rest s' with
          | Some (rs, s'') => Some ((p, e) :: rs, s'')
          | None => None
          end
      | None => None
      end
  end.

Definition in_round (h : nat) (arrived : Z) (cs : list AudioChunk) (s : Session) : Prop :=
  loop s = Looping /\ currentStream s = Some h
  /\ exists st, streams s !! h = Some st /\ streaming arrived cs st.

Definition after_round (h : nat) (total : Z) (cs : list AudioChunk) (s : Session) : Prop :=
  exists st, streams s !! h = Some st /\ sealed total cs st.

Definition stream_pending (h : nat) (cs : list AudioChunk) (s : Session) : list byte :=
  match streams s !! h with Some st => pending cs st | None => [] end.

Definition decodes (a : string) (d : list byte) : Prop :=
  Base64.DecodeString a = Ok d /\ d <> [].

(** Samples: options, a session after a successful [start], and audio
    payloads. *)
Definition sample_opts : SynthesisOptions :=
  {| VoiceID := "voice-1"; Language := "en-NG";
     Speed := S754_finite false 4503599627370496 (-52);
     Pitch := S754_finite false 4503599627370496 (-52);
     Volume := S754_finite false 4503599627370496 (-52);
     SampleRate := 8000; AudioFormat := "pcm" |}.

Definition idle_session : Session :=
  fst (start (MessageRead (ready_frame "sess-1")) (newSession live_conn "tengen" sample_opts)).

Definition silence (n : nat) : list byte := repeat x00 n.
Definition payload (n : nat) : string := Base64.EncodeToString (silence n).

End Tts.

(** ** Callers of a function guarded by [sync.Once], interleaved *)

Module Concurrent.

Section Callers.

Variable State : Type.
Variable get_once : State -> once.
Variable set_once : State -> once -> State.
(** The guarded function, one statement at a time. *)
Variable body : list (State -> State).

(** Where a caller of [Do] stands. *)
Inductive pc : Type :=
| Calling                      (* about to enter Do *)
| Inside (k : nat)             (* running the function, at statement k *)
| Returned.

Record world : Type := { state : State; callers : list pc }.

(** One step of caller [t].  A caller that finds another one inside the
    function waits: its step changes nothing. *)
Definition step (t : nat) (w : world) : world :=
  match callers w !! t with
  | Some Calling =>
      match get_once (state w) with
      | Fresh => {| state := set_once (state w) Busy; callers := <[t := Inside 0]> (callers w) |}
      | Busy => w
      | Spent => {| state := state w; callers := <[t := Returned]> (callers w) |}
      end
  | Some (Inside k) =>
      match body !! k with
      | Some f => {| state := f (state w); callers := <[t := Inside (S k)]> (callers w) |}
      | None =>
          {| state := set_once (state w) Spent; callers := <[t := Returned]> (callers w) |}
      end
  | _ => w
  end.

(** A schedule names the caller that moves next. *)
Definition run (sched : list nat) (w : world) : world :=
  fold_left (fun acc t => step t acc) sched w.

Definition all_returned (w : world) : bool :=
  forallb (fun p => match p with Returned => true | _ => false end) (callers w).

(** [n] callers about to call [Do] on [s]. *)
Definition begin (n : nat) (s : State) : world :=
  {| state := s; callers := repeat Calling n |}.

(** The statements of the function in sequence. *)
Definition run_body (fs : list (State -> State)) (s : State) : State :=
  fold_left (fun acc f => f acc) fs s.

(** A single call of [Do] that runs without interruption. *)
Definition Do (s : State) : State :=
  match get_once s with
  | Fresh => set_once (run_body body (set_once s Busy)) Spent
  | _ => s
  end.

(** The worlds that [n] callers of [Do] on [s0] can be in: nobody has
    entered yet; one caller is inside the function, at statement [k],
    and the others have not moved; the function has returned. *)
Inductive inv (s0 : State) (n : nat) : world -> Prop :=
| inv_fresh : inv s0 n (begin n s0)
| inv_busy t k :
    (t < n)%nat -> (k <= length body)%nat ->
    inv s0 n {| state := run_body (take k body) (set_once s0 Busy);
                callers := <[t := Inside k]> (repeat Calling n) |}
| inv_spent cs :
    length cs = n -> Forall (fun p => p = Calling \/ p = Returned) cs ->
    (exists t, cs !! t = Some Returned) ->
    inv s0 n {| state := Do s0; callers := cs |}.

(** The steps a caller still has to take. *)
Definition weight (p : pc) : nat :=
  match p with
  | Calling => length body + 2
  | Inside k => length body + 1 - k
  | Returned => 0
  end.

Definition todo (w : world) : nat := list_sum (map weight (callers w)).

End Callers.

Arguments state {State} w.
Arguments callers {State} w.
Arguments step {State} get_once set_once body t w.
Arguments run {State} get_once set_once body sched w.
Arguments all_returned {State} w.
Arguments begin {State} n s.
Arguments run_body {State} fs s.
Arguments Do {State} get_once set_once body s.
Arguments inv {State} get_once set_once body s0 n w.
Arguments weight {State} body p.
Arguments todo {State} body w.

End Concurrent.

(** ** The lives of the sessions *)

Module SttLife.
Import Transport Stt.

(** What can happen to the connection behind the session's back. *)
Inductive conn_event : Type :=
| PeerClosed                   (* the read loop ends on a normal closure *)
| ReadFailed                   (* the read loop ends on another error *)
| SocketBroke.                 (* writes fail from now on *)

Definition conn_change (ev : conn_event) (c : Conn) : Conn :=
  match ev with
  | PeerClosed => readLoop_exit true c
  | ReadFailed => readLoop_exit false c
  | SocketBroke =>
      {| Transport.config := Transport.config c;
         ws := match ws c with Some _ => Some {| broken := true |} | None => None end;
         Transport.closeCh := Transport.closeCh c;
         Transport.closeOnce := Transport.closeOnce c;
         connected := connected c; connectStartAt := connectStartAt c;
         connectedAt := connectedAt c; wire := wire c |}
  end.

(** The consumer takes the next event from [Events()]. *)
Definition take_event (s : Session) : Session :=
  match Chan.recv (eventsCh s) with
  | Chan.Got _ ch => with_events s ch
  | _ => s
  end.

(** The moves of a recognition session: [start] is called on it before
    it is ready, the message loop takes a turn, the caller sends, commits,
    closes or takes an event, the connection changes. *)
Inductive step : Session -> Session -> Prop :=
| started tie sel s : ready s = false -> step s (fst (start tie sel s))
| looped tie tie' sel s : step s (loop_turn tie tie' sel s)
| sent audio s : step s (fst (Send audio s))
| committed s : step s (fst (Commit s))
| session_closed s : step s (Close s)
| consumed s : step s (take_event s)
| conn_moved ev s : step s (with_conn s (conn_change ev (conn s))).

Inductive reachable : Session -> Prop :=
| made c cfg o : reachable (newSession c cfg o)
| moved s s' : reachable s -> step s s' -> reachable s'.

Definition control_of (s : Session) : control :=
  {| c_ID := ID s; c_ready := ready s; c_closed := closed s; c_closeOnce := closeOnce s;
     c_closeCh := closeCh s; c_history := history s; c_fault := fault s |}.

(** The frame is a ready frame that decodes to [rdy]. *)
Definition handshake (data : Json.frame) (rdy : Protocol.SessionReady) : Prop :=
  Codec.ParseMessageType data = Ok Protocol.MessageTypeSessionReady
  /\ Codec.ParseMessage data = Ok (Protocol.MSessionReady rdy).

(** The teardown of [Close], each statement once. *)
Definition teardown_log : list teardown :=
  [MarkedClosed; SentSessionEnd; WaitedForPeer; ClosedCloseCh; ClosedConn].

(** What holds of every recognition session along its life. *)
Record sound (s : Session) : Prop := {
  sound_close :
    (closeOnce s = Fresh /\ closeCh s = false /\ fault s = false /\ history s = []
     /\ closed s = false)
    \/ (closeOnce s = Spent /\ closeCh s = true /\ fault s = false
        /\ history s = teardown_log /\ closed s = true);
  sound_unready : ready s = false -> ID s = "" /\ loop s = NotStarted
}.

(** [n] callers of [Close] on [s], moved by the schedule [sched]. *)
Definition Close_by (n : nat) (sched : list nat) (s : Session) : Concurrent.world Session :=
  Concurrent.run closeOnce with_once teardown_steps sched (Concurrent.begin n s).

(** Samples: a configuration, options, a session before and after a
    successful [start], and that session after the peer has closed the
    connection. *)
Definition sample_config : Config :=
  {| GatewayURL := "ws://localhost:8080"; Config_Provider := "tengen"; APIKey := "";
     Config_Language := "en-NG"; Config_SampleRate := 8000; Config_AudioFormat := "pcm";
     ConnectTimeout := 10 * Second; ReadTimeout := 60 * Second;
     WriteTimeout := 10 * Second; ReconnectBackoff := 1 * Second; MaxReconnects := 3 |}.

Definition sample_opts : StreamOptions :=
  {| Language := "en-NG"; SampleRate := 8000; AudioFormat := "pcm" |}.

Definition new_session : Session := newSession live_conn sample_config sample_opts.

Definition active_session : Session :=
  fst (start false (MessageRead (Codec.ready_frame "sess-1")) new_session).

Definition lost_session : Session :=
  with_conn active_session (conn_change PeerClosed (conn active_session)).

(** The active session after its message loop has handled an error frame
    and then a partial transcript. *)
Definition after_error : Session :=
  messageLoop
    [(false, false, Inbound (Codec.error_frame "AUTH_ERROR" "invalid api key"));
     (false, false, Inbound (Codec.partial_frame "hello"))]
    active_session.

(** What holds of the event channel along the life of a session. *)
Record events_ok (s : Session) : Prop := {
  events_cap : Chan.cap (eventsCh s) = 100%nat;
  events_len : (length (Chan.buf (eventsCh s)) <= 100)%nat;
  events_closed : Chan.closed (eventsCh s) = true <-> loop s = Stopped;
  events_started : loop s <> NotStarted -> ready s = true
}.

End SttLife.

Module TtsLife.
Import Transport TtsStream Tts.

(** The moves of a synthesis session of [CreateSession], each one a
    call that returns: the streams have no closer, and a turn of the
    message loop whose push has to wait is no move.  The sessions of the
    client's [SynthesizeStream], and the loop parked in its push, are in
    [TtsApi]. *)
Inductive step : Session -> Session -> Prop :=
| started sel s : ready s = false -> step s (fst (start sel s))
| looped tie now sel s s' : loop_turn tie now sel s = Some s' -> step s s'
| synthesized text now s : step s (fst (SynthesizeStream text now s))
| text_sent text s : step s (fst (SendText text s))
| committed now s : step s (fst (Commit now s))
| session_closed s : step s (Close s)
| stream_read h n p e s s' : stream_Read h n s = Some (p, e, s') -> step s s'
| stream_closed h s : step s (stream_Close h s)
| conn_moved ev s : step s (with_conn s (SttLife.conn_change ev (conn s))).

Inductive reachable : Session -> Prop :=
| made c provider o : reachable (newSession c provider o)
| moved s s' : reachable s -> step s s' -> reachable s'.

(** A stream on which neither completion nor an error nor a close was
    signalled yet. *)
Definition open_stream (s : Session) (h : nat) : Prop :=
  exists stream, streams s !! h = Some stream /\ TtsStream.closeOnce stream = Fresh.

Definition open_in (m : gmap nat AudioStream) (h : nat) : Prop :=
  exists st, m !! h = Some st /\ TtsStream.closeOnce st = Fresh.

Definition control_of (s : Session) : control :=
  {| c_ID := ID s; c_ready := ready s; c_closed := closed s; c_closeOnce := Tts.closeOnce s;
     c_closeCh := Tts.closeCh s; c_history := history s; c_fault := fault s |}.

(** The round part of a session. *)
Record round : Type := {
  r_current : option nat;
  r_synthesizing : bool;
  r_streams : gmap nat AudioStream
}.

Definition round_of (s : Session) : round :=
  {| r_current := currentStream s; r_synthesizing := synthesizing s; r_streams := streams s |}.

(** What the teardown leaves alone until its last statement. *)
Definition rest_of (s : Session) : round * loop_status * Z :=
  (round_of s, loop s, roundCount s).

(** A move that leaves the round as it is, except that one stream may be
    replaced by a state that is signalled exactly when it was before. *)
Definition kept (s s' : Session) : Prop :=
  currentStream s' = currentStream s /\ synthesizing s' = synthesizing s
  /\ (streams s' = streams s
      \/ exists h st st', streams s !! h = Some st
           /\ TtsStream.closeOnce st' = TtsStream.closeOnce st
           /\ streams s' = <[h := st']> (streams s)).

(** A move that detaches the current stream after signalling it. *)
Definition detached (s s' : Session) : Prop :=
  currentStream s' = None
  /\ exists f, (forall st, TtsStream.closeOnce (f st) <> Fresh)
       /\ streams s' = match currentStream s with
                       | Some h => alter f h (streams s)
                       | None => streams s
                       end.

(** The teardown of [Close], each statement once. *)
Definition teardown_log : list teardown :=
  [MarkedClosed; SentSessionEnd; WaitedForPeer; Cancelled; ClosedCloseCh; ClosedConn;
   ReleasedStream].

(** What holds of every synthesis session along its life. *)
Record sound (s : Session) : Prop := {
  sound_close :
    (Tts.closeOnce s = Fresh /\ Tts.closeCh s = false /\ fault s = false /\ history s = []
     /\ closed s = false)
    \/ (Tts.closeOnce s = Spent /\ Tts.closeCh s = true /\ fault s = false
        /\ history s = teardown_log /\ closed s = true);
  sound_unready : ready s = false -> ID s = "" /\ loop s = NotStarted;
  sound_current :
    forall h, currentStream s = Some h ->
              synthesizing s = true /\ closed s = false /\ ready s = true;
  sound_open : forall h, open_stream s h -> currentStream s = Some h
}.

(** [n] callers of [Close] on [s], moved by the schedule [sched]. *)
Definition Close_by (n : nat) (sched : list nat) (s : Session) : Concurrent.world Session :=
  Concurrent.run Tts.closeOnce with_once teardown_steps sched (Concurrent.begin n s).

(** Samples: a session before its [start], a session with a round in
    flight, and an idle session after the peer has closed the
    connection. *)
Definition new_session : Session := newSession live_conn "tengen" sample_opts.

Definition busy_session : Session := fst (SynthesizeStream "hello" 7 idle_session).

Definition lost_session : Session :=
  with_conn idle_session (SttLife.conn_change SttLife.PeerClosed (conn idle_session)).

(** The session with a round in flight, a quarter of a second after its
    commit, with that instant as the arrival of its first chunk. *)
Definition first_arrival : Z := 7 + 250 * Millisecond.

Definition stamped_session : Session := with_firstChunk busy_session (Some first_arrival).

(** The fields that only [SynthesizeStream], [Commit] and the first
    audio.delta of a round write, and the connection. *)
Definition marks_of (s : Session) : Z * Time * Time * Conn :=
  (roundCount s, commitSentAt s, firstChunkReceivedAt s, conn s).

(** The counter of rounds and the two time stamps. *)
Definition stamps_of (s : Session) : Z * Time * Time :=
  (roundCount s, commitSentAt s, firstChunkReceivedAt s).

End TtsLife.

(** ** net/url, [QueryEscape] *)

Module Url.

(** The characters that [QueryEscape] leaves as they are: letters, digits
    and the marks [-], [_], [.], [~]. *)
Definition unreserved (c : ascii) : bool :=
  let n := N_of_ascii c in
  ((97 <=? n)%N && (n <=? 122)%N) || ((65 <=? n)%N && (n <=? 90)%N)
  || ((48 <=? n)%N && (n <=? 57)%N)
  || (n =? 45)%N || (n =? 95)%N || (n =? 46)%N || (n =? 126)%N.

(** A digit of [0123456789ABCDEF]. *)
Definition upperhex (n : N) : ascii :=
  if (n <? 10)%N then ascii_of_N (48 + n) else ascii_of_N (55 + n).

Fixpoint QueryEscape (s : string) : string :=
  match s with
  | EmptyString => EmptyString
  | String c rest =>
      if unreserved c then String c (QueryEscape rest)
      else if Ascii.eqb c " "%char then String "+"%char (QueryEscape rest)
      else
        let n := N_of_ascii c in
        String "%"%char (String (upperhex (n / 16)) (String (upperhex (n mod 16))
          (QueryEscape rest)))
  end.

End Url.

(** ** stt/options.go and stt/client.go: the client *)

Module SttApi.
Import Json Protocol Codec Transport Stt.

Definition DefaultConfig : Config :=
  {| GatewayURL := "ws://localhost:8080"; Config_Provider := "tengen"; APIKey := "";
     Config_Language := "zh-CN"; Config_SampleRate := 16000; Config_AudioFormat := "pcm";
     ConnectTimeout := 10 * Second; ReadTimeout := 60 * Second;
     WriteTimeout := 10 * Second; ReconnectBackoff := 1 * Second; MaxReconnects := 3 |}.

(** The error of type [configError], by its text. *)
Definition ErrInvalidConfig (message : string) : error :=
  Errorf ("stt config: " +:+ message).

(** [Validate] writes the defaults into the configuration it is called
    on: the configuration after the call is returned with the error. *)
Definition Validate (c : Config) : Config * result unit :=
  if String.eqb (GatewayURL c) "" then (c, Err (ErrInvalidConfig "GatewayURL is required"))
  else if String.eqb (Config_Provider c) "" then
    (c, Err (ErrInvalidConfig "Provider is required"))
  else
    ({| GatewayURL := GatewayURL c; Config_Provider := Config_Provider c; APIKey := APIKey c;
        Config_Language :=
          if String.eqb (Config_Language c) "" then "zh-CN" else Config_Language c;
        Config_SampleRate := if Config_SampleRate c <=? 0 then 16000 else Config_SampleRate c;
        Config_AudioFormat :=
          if String.eqb (Config_AudioFormat c) "" then "pcm" else Config_AudioFormat c;
        ConnectTimeout := ConnectTimeout c; ReadTimeout := ReadTimeout c;
        WriteTimeout := WriteTimeout c; ReconnectBackoff := ReconnectBackoff c;
        MaxReconnects := MaxReconnects c |}, Ok tt).


Record Client : Type := { Client_config : Config }.

(** [NewClient]; [None] is a nil configuration. *)
Definition NewClient (config : option Config) : result Client :=
  let config := match config with Some c => c | None => DefaultConfig end in
  match Validate config with
  | (_, Err e) => Err e
  | (config', Ok _) => Ok {| Client_config := config' |}
  end.

(** The address dialled by [RecognizeStream]. *)
Definition wsURL (cfg : Config) : string :=
  let base := GatewayURL cfg +:+ "/ws/stt?provider=" +:+ Config_Provider cfg in
  if String.eqb (APIKey cfg) "" then base
  else base +:+ "&api_key=" +:+ Url.QueryEscape (APIKey cfg).

Definition connConfig (cfg : Config) : Transport.Config :=
  {| URL := wsURL cfg; Transport.ConnectTimeout := ConnectTimeout cfg;
     Transport.ReadTimeout := ReadTimeout cfg; Transport.WriteTimeout := WriteTimeout cfg;
     PingInterval := 0; Transport.ReconnectBackoff := ReconnectBackoff cfg;
     Transport.MaxReconnects := MaxReconnects cfg |}.

(** What [RecognizeStream] returns; the connection is kept beside the
    error to say what was done to it. *)
Inductive stream_result : Type :=
| Connecting                           (* ConnectWithRetry has not returned yet *)
| Refused (c : Conn) (e : error)       (* return nil, err *)
| Streaming (s : Session).             (* return session, nil *)


(** [audio[i:e]]; [None] when the bounds make the slice expression
    panic. *)
Definition slice (audio : list byte) (i e : Z) : option (list byte) :=
  if (0 <=? i) && (i <=? e) && (e <=? Z.of_nat (length audio))
  then Some (firstn (Z.to_nat (e - i)) (skipn (Z.to_nat i) audio))
  else None.

(** The size of a chunk of 100 ms: [SampleRate * 2 / 10] on [int]. *)
Definition chunkSize (cfg : Config) : Z := Z.quot (wrap64 (Config_SampleRate cfg * 2)) 10.

(** The goroutine of [RecognizeBytes] that sends the audio. *)
Inductive sender_result : Type :=
| Delivered (s : Session) (r : result unit)   (* the value put into sendDoneCh *)
| Panicked (s : Session)                      (* slice bounds out of range *)
| Sending (s : Session).                      (* still in its loop *)

(** The loop [for i := 0; i < len(audio); i += chunkSize], from [i], for
    at most [turns] turns, then the commit. *)
Fixpoint send_chunks (turns : nat) (size i : Z) (audio : list byte) (s : Session)
  : sender_result :=
  match turns with
  | O => Sending s
  | S turns' =>
      if i <? Z.of_nat (length audio) then
        let e := wrap64 (i + size) in
        let e := if e >? Z.of_nat (length audio) then Z.of_nat (length audio) else e in
        match slice audio i e with
        | None => Panicked s
        | Some chunk =>
            match Send chunk s with
            | (s', Err err) => Delivered s' (Err err)
            | (s', Ok _) => send_chunks turns' size (wrap64 (i + size)) audio s'
            end
        end
      else let (s', r) := Commit s in Delivered s' r
  end.

(** The frame that carries a chunk, and the commit frame. *)
Definition audio_frame (chunk : list byte) : written :=
  TextMessage (JObj [("type", JStr MessageTypeAudioAppend);
                     ("audio", JStr (Base64.EncodeToString chunk))]).

Definition commit_frame : written :=
  TextMessage (JObj [("type", JStr MessageTypeInputCommit)]).

End SttApi.

(** ** tts/options.go and tts/client.go: the client *)

Module TtsApi.
Import Json Protocol Codec Transport TtsStream Tts.

Record Config : Type := {
  GatewayURL : string;
  Config_Provider : string;
  APIKey : string;
  Config_VoiceID : string;
  Config_Language : string;
  Config_Speed : float64;
  Config_Pitch : float64;
  Config_Volume : float64;
  Config_SampleRate : Z;
  Config_AudioFormat : string;
  ConnectTimeout : Duration;
  ReadTimeout : Duration;
  WriteTimeout : Duration;
  ReconnectBackoff : Duration;
  MaxReconnects : Z
}.

(** The float [1.0]. *)
Definition one_float : float64 := S754_finite false 4503599627370496 (-52).

Definition DefaultConfig : Config :=
  {| GatewayURL := "ws://localhost:8080"; Config_Provider := "tengen"; APIKey := "";
     Config_VoiceID := ""; Config_Language := ""; Config_Speed := one_float;
     Config_Pitch := one_float; Config_Volume := one_float; Config_SampleRate := 8000;
     Config_AudioFormat := "pcm"; ConnectTimeout := 10 * Second;
     ReadTimeout := 60 * Second; WriteTimeout := 10 * Second;
     ReconnectBackoff := 1 * Second; MaxReconnects := 3 |}.

(** The error of type [configError], by its text. *)
Definition ErrInvalidConfig (message : string) : error :=
  Errorf ("tts config: " +:+ message).

(** [x <= 0] on [float64]: false for a NaN. *)
Definition not_positive (x : float64) : bool := SFleb x (S754_zero false).

(** [Validate] writes the defaults into the configuration it is called
    on: the configuration after the call is returned with the error. *)
Definition Validate (c : Config) : Config * result unit :=
  if String.eqb (GatewayURL c) "" then (c, Err (ErrInvalidConfig "GatewayURL is required"))
  else if String.eqb (Config_Provider c) "" then
    (c, Err (ErrInvalidConfig "Provider is required"))
  else
    ({| GatewayURL := GatewayURL c; Config_Provider := Config_Provider c; APIKey := APIKey c;
        Config_VoiceID := Config_VoiceID c; Config_Language := Config_Language c;
        Config_Speed := if not_positive (Config_Speed c) then one_float else Config_Speed c;
        Config_Pitch := Config_Pitch c;
        Config_Volume := if not_positive (Config_Volume c) then one_float else Config_Volume c;
        Config_SampleRate := Config_SampleRate c; Config_AudioFormat := Config_AudioFormat c;
        ConnectTimeout := ConnectTimeout c; ReadTimeout := ReadTimeout c;
        WriteTimeout := WriteTimeout c; ReconnectBackoff := ReconnectBackoff c;
        MaxReconnects := MaxReconnects c |}, Ok tt).

Definition DefaultSynthesisOptions : SynthesisOptions :=
  {| VoiceID := ""; Language := ""; Speed := one_float; Pitch := one_float;
     Volume := one_float; SampleRate := 8000; AudioFormat := "pcm" |}.

Record Client : Type := { Client_config : Config }.

(** [NewClient]; [None] is a nil configuration. *)
Definition NewClient (config : option Config) : result Client :=
  let config := match config with Some c => c | None => DefaultConfig end in
  match Validate config with
  | (_, Err e) => Err e
  | (config', Ok _) => Ok {| Client_config := config' |}
  end.

(** The address dialled by [createSession]. *)
Definition wsURL (cfg : Config) : string :=
  let base := GatewayURL cfg +:+ "/ws/tts?provider=" +:+ Config_Provider cfg in
  let voiced :=
    if String.eqb (Config_VoiceID cfg) "" then base
    else base +:+ "&voice_id=" +:+ Url.QueryEscape (Config_VoiceID cfg) in
  if String.eqb (APIKey cfg) "" then voiced
  else voiced +:+ "&api_key=" +:+ Url.QueryEscape (APIKey cfg).

Definition connConfig (cfg : Config) : Transport.Config :=
  {| URL := wsURL cfg; Transport.ConnectTimeout := ConnectTimeout cfg;
     Transport.ReadTimeout := ReadTimeout cfg; Transport.WriteTimeout := WriteTimeout cfg;
     PingInterval := 0; Transport.ReconnectBackoff := ReconnectBackoff cfg;
     Transport.MaxReconnects := MaxReconnects cfg |}.

(** What [createSession] returns; the connection is kept beside the error
    to say what was done to it. *)
Inductive session_result : Type :=
| Connecting                           (* ConnectWithRetry has not returned yet *)
| Refused (c : Conn) (e : error)       (* return nil, err *)
| Created (s : Session).               (* return session, nil *)

(** [createSession]: [env] is what the dials meet, [sel] what the
    session's first [Receive] yields. *)
Definition createSession (env : list attempt) (sel : received) (c : Client)
  (opts : SynthesisOptions) : session_result :=
  let conn0 := NewConn (connConfig (Client_config c)) in
  match ConnectWithRetry env conn0 with
  | (_, Waiting, _) => Connecting
  | (conn1, Returned (Some e), _) => Refused conn1 (Wrap "connect to gateway" e)
  | (conn1, Returned None, _) =>
      let session := newSession conn1 (Config_Provider (Client_config c)) opts in
      match start sel session with
      | (s, Err e) => Refused (Transport.Close (conn s)) (Wrap "start session" e)
      | (s, Ok _) => Created s
      end
  end.

(** [CreateSession]; [None] is a nil argument. *)
Definition CreateSession (env : list attempt) (sel : received) (c : Client)
  (opts : option SynthesisOptions) : session_result :=
  createSession env sel c (match opts with Some o => o | None => DefaultSynthesisOptions end).

(** *** The session with the closers of its streams and its message loop *)

(** Where the goroutine of [messageLoop] stands in [pushChunk]. *)
Inductive loop_push : Type :=
| NoPush                                     (* not blocked in pushChunk *)
| ParkedOn (h : nat) (chunk : AudioChunk)    (* blocked in its select, on the stream h *)
| LoopPanicked.                              (* send on closed channel *)

(** A session with what its record leaves out: the streams whose
    [sessionCloser] was set, the closer being the session, and the push
    in which its message loop is blocked. *)
Record program : Type := {
  session : Session;
  closers : list nat;
  pushing : loop_push
}.

Definition with_session (p : program) (s : Session) : program :=
  {| session := s; closers := closers p; pushing := pushing p |}.

Definition with_pushing (p : program) (l : loop_push) : program :=
  {| session := session p; closers := closers p; pushing := l |}.

Definition with_stream (h : nat) (st : AudioStream) (p : program) : program :=
  with_session p (with_streams (session p) (<[h := st]> (streams (session p)))).

(** A session as [CreateSession] returns it: no stream has a closer. *)
Definition bare (s : Session) : program :=
  {| session := s; closers := []; pushing := NoPush |}.

(** [stream.setSessionCloser(session)] on the stream [h]. *)
Definition setSessionCloser (h : nat) (p : program) : program :=
  {| session := session p; closers := h :: closers p; pushing := pushing p |}.

Definition has_closer (h : nat) (p : program) : bool := existsb (Nat.eqb h) (closers p).

(** What the client's [SynthesizeStream] returns: the stream by its place
    in the session that it closes. *)
Inductive stream_result : Type :=
| StreamConnecting
| StreamRefused (c : Conn) (e : error)     (* createSession failed *)
| RoundRefused (s : Session) (e : error)   (* the round failed; the session was closed *)
| Stream (h : nat) (p : program).

(** The options that the client's [SynthesizeStream] builds from the
    configuration. *)
Definition config_options (cfg : Config) : SynthesisOptions :=
  {| VoiceID := Config_VoiceID cfg; Language := ""; Speed := Config_Speed cfg;
     Pitch := Config_Pitch cfg; Volume := Config_Volume cfg;
     SampleRate := Config_SampleRate cfg; AudioFormat := Config_AudioFormat cfg |}.

Definition synthesize_with (env : list attempt) (sel : received) (now : Z)
  (text : string) (c : Client) (opts : SynthesisOptions) : stream_result :=
  match createSession env sel c opts with
  | Connecting => StreamConnecting
  | Refused c' e => StreamRefused c' e
  | Created session =>
      match SynthesizeStream text now session with
      | (s, Err e) => RoundRefused (Close s) e
      | (s, Ok h) => Stream h (setSessionCloser h (bare s))
      end
  end.

(** The client's [SynthesizeStream]. *)
Definition Client_SynthesizeStream (env : list attempt) (sel : received) (now : Z)
  (text : string) (c : Client) : stream_result :=
  synthesize_with env sel now text c (config_options (Client_config c)).

Definition SynthesizeStreamWithOptions (env : list attempt) (sel : received) (now : Z)
  (text : string) (c : Client) (opts : option SynthesisOptions) : stream_result :=
  synthesize_with env sel now text c
    (match opts with Some o => o | None => DefaultSynthesisOptions end).

(** *** The message loop and its blocked push *)

(** [handleAudioDelta], with the sender that it leaves parked when the
    stream has no room: the first chunk is stamped and the sequence number
    counted before the push. *)
Definition handleAudioDelta (tie : bool) (now : Z) (data : frame) (p : program) : program :=
  let s := session p in
  let s1 :=
    match firstChunkReceivedAt s with
    | None => with_firstChunk s (Some now)
    | Some _ => s
    end in
  match ParseMessage data with
  | Ok (MAudioDelta delta) =>
      match Base64.DecodeString (AudioDelta_Audio delta) with
      | Err _ => with_session p s1
      | Ok audioData =>
          let s2 := with_seqNum s1 (wrap64 (seqNum s1 + 1)) in
          match currentStream s2 with
          | None => with_session p s2
          | Some h =>
              match streams s2 !! h with
              | None => with_session p s2
              | Some stream =>
                  match pushData tie audioData (seqNum s2) stream with
                  | Pushed stream' =>
                      with_session p (with_streams s2 (<[h := stream']> (streams s2)))
                  | TtsStream.Refused => with_session p s2
                  | PushWaits =>
                      {| session := s2; closers := closers p;
                         pushing := ParkedOn h (data_chunk audioData (seqNum s2)) |}
                  end
              end
          end
      end
  | _ => with_session p s1
  end.

(** One turn of [messageLoop].  [Tts.loop_turn] gives no session exactly
    when the push of an audio.delta frame has to wait: the loop is then
    parked.  A loop that is parked, or that has panicked, takes no
    turn. *)
Definition loop_turn (tie : bool) (now : Z) (sel : selected) (p : program) : program :=
  match pushing p with
  | NoPush =>
      match Tts.loop_turn tie now sel (session p) with
      | Some s' => with_session p s'
      | None =>
          match sel with
          | Inbound data => handleAudioDelta tie now data p
          | _ => p
          end
      end
  | _ => p
  end.

Definition messageLoop (sels : list (bool * Z * selected)) (p : program) : program :=
  fold_left (fun acc '(tie, now, sel) => loop_turn tie now sel acc) sels p.

(** The parked push of the loop, after another goroutine has acted on
    the streams. *)
Definition wake_loop (tie : bool) (p : program) : program :=
  match pushing p with
  | ParkedOn h chunk =>
      match streams (session p) !! h with
      | Some st =>
          match wake tie chunk st with
          | (st', Sent) => with_pushing (with_stream h st' p) NoPush
          | (_, TurnedAway) => with_pushing p NoPush
          | (_, Panicked) => with_pushing p LoopPanicked
          | (_, Parked _) => p
          end
      | None => p
      end
  | _ => p
  end.

(** *** [Close] of the session and of a stream that closes it *)

(** What a call comes to; the program is left in the state given. *)
Inductive call_result : Type :=
| Returns (p : program)
| Blocks (p : program)      (* waits for ever on a sync.Once whose function is running *)
| Crashes (p : program).    (* the message loop has panicked: send on closed channel *)

Definition outcome (p : program) : call_result :=
  match pushing p with
  | LoopPanicked => Crashes p
  | _ => Returns p
  end.

(** The teardown of [Session.Close] before the current stream is
    released. *)
Definition teardown_head : list (Session -> Session) :=
  [mark_closed; send_end; await_peer; cancel; close_closeCh; close_conn].

(** [Session.Close].  Its last statement calls [pushDone] on the current
    stream, which calls [Do] on the [Once] of that stream: while the
    function guarded by that [Once] is running, [Do] waits for it.  When
    [pushDone] goes through it closes [chunksCh], under the push of the
    message loop if that is parked there. *)
Definition Session_Close (tie : bool) (p : program) : call_result :=
  match Tts.closeOnce (session p) with
  | Fresh =>
      let s1 := fold_left (fun acc f => f acc) teardown_head (with_once (session p) Busy) in
      let waits :=
        match currentStream s1 with
        | Some h =>
            match streams s1 !! h with
            | Some st =>
                match TtsStream.closeOnce st with
                | Busy => true
                | _ => false
                end
            | None => false
            end
        | None => false
        end in
      if waits then Blocks (with_session p s1)
      else outcome (wake_loop tie (with_session p (with_once (release_stream s1) Spent)))
  | Busy => Blocks p
  | Spent => Returns p
  end.

(** [AudioStream.Close] of the stream [h]: with the closer set, the
    function passed to [Do] ends by calling [Session.Close]. *)
Definition AudioStream_Close (tie : bool) (h : nat) (p : program) : call_result :=
  match streams (session p) !! h with
  | None => Returns p
  | Some st =>
      match Close_from (has_closer h p) st with
      | CloseWaits => Blocks p
      | Closed st' => outcome (wake_loop tie (with_stream h st' p))
      | CallsCloser st' =>
          let p1 := wake_loop tie (with_stream h st' p) in
          match pushing p1 with
          | LoopPanicked => Crashes p1
          | _ =>
              match Session_Close tie p1 with
              | Returns p2 =>
                  Returns (with_session p2
                             (with_streams (session p2)
                                (alter closer_returned h (streams (session p2)))))
              | r => r
              end
          end
      end
  end.

(** Samples: a client with the default configuration, and a session of
    [CreateSession] with a round in which 101 one-byte chunks arrived and
    nothing was read. *)
Definition sample_client : Client := {| Client_config := DefaultConfig |}.

Definition flooded : program :=
  messageLoop (repeat (false, 300, Inbound (delta_frame (payload 1))) 101)
    (bare TtsLife.busy_session).

(** The default configuration with a speed that is not a number. *)
Definition nan_config : Config :=
  {| GatewayURL := "ws://localhost:8080"; Config_Provider := "tengen"; APIKey := "";
     Config_VoiceID := ""; Config_Language := ""; Config_Speed := S754_nan;
     Config_Pitch := one_float; Config_Volume := one_float; Config_SampleRate := 8000;
     Config_AudioFormat := "pcm"; ConnectTimeout := 10 * Second;
     ReadTimeout := 60 * Second; WriteTimeout := 10 * Second;
     ReconnectBackoff := 1 * Second; MaxReconnects := 3 |}.

End TtsApi.

(** * Properties *)

(** ** The message codec *)

Module CodecSpec.
Import Json Protocol Codec.

Lemma find_field_raw k v :
  find_field RawMessage_fields k =
  if names_type (k, v) then Some (set_string (fun t _ => {| RawMessage_Type := t |}))
  else None.
Proof. reflexivity. Qed.

(** Decoding into [RawMessage] looks at the type members only. *)
Lemma decode_raw kvs acc :
  decode_members RawMessage_fields kvs acc =
  if forallb string_or_null (type_members kvs)
  then Some {| RawMessage_Type := last_string (type_members kvs) (RawMessage_Type acc) |}
  else None.
Proof.
  revert acc. induction kvs as [|[k v] kvs IH]; intros acc.
  - destruct acc; reflexivity.
  - cbn [decode_members]. rewrite (find_field_raw k v).
    unfold type_members. cbn [List.filter].
    destruct (names_type (k, v)).
    + cbn [map forallb snd last_string].
      destruct v; cbn [string_or_null set_string andb]; try reflexivity;
        rewrite IH; reflexivity.
    + apply IH.
Qed.

Lemma ParseMessageType_object kvs :
  ParseMessageType (Json (JObj kvs)) =
  if forallb string_or_null (type_members kvs)
  then Ok (last_string (type_members kvs) "")
  else Err (Wrap "parse message type" UnmarshalTypeError).
Proof.
  unfold ParseMessageType, Unmarshal. rewrite decode_raw.
  destruct (forallb _ _); reflexivity.
Qed.

Lemma last_string_snoc pre t acc : last_string (pre ++ [JStr t]) acc = t.
Proof.
  revert acc. induction pre as [|j pre IH]; intros acc; [reflexivity|].
  destruct j; cbn [app last_string]; apply IH.
Qed.

Lemma forallb_snoc_string pre t :
  forallb string_or_null (pre ++ [JStr t]) = forallb string_or_null pre.
Proof. rewrite forallb_app. cbn. apply andb_true_r. Qed.

(** C9, as the code has it.  [ParseMessageType] reads the type members of
    the frame and nothing else.  It fails exactly when the bytes are not
    JSON, when the JSON value is neither an object nor null, or when a type
    member holds something other than a string or null; the error is then
    a parse error.  A frame without a type member is accepted with the
    empty tag.  A frame whose last type member is a string, the earlier ones
    being strings or null, yields that string. *)
Theorem ParseMessageType_cases (data : frame) :
  (is_ok (ParseMessageType data) = false <->
     data = Malformed
     \/ (exists j, data = Json j /\ object_or_null j = false)
     \/ (exists kvs, data = Json (JObj kvs)
                     /\ forallb string_or_null (type_members kvs) = false))
  /\ (forall e, ParseMessageType data = Err e ->
        exists cause, e = Wrap "parse message type" cause)
  /\ (forall kvs, data = Json (JObj kvs) -> type_members kvs = [] ->
        ParseMessageType data = Ok "")
  /\ (forall kvs pre t, data = Json (JObj kvs) -> type_members kvs = pre ++ [JStr t] ->
        forallb string_or_null pre = true -> ParseMessageType data = Ok t)
  /\ (forall kvs kvs', data = Json (JObj kvs) -> type_members kvs' = type_members kvs ->
        ParseMessageType (Json (JObj kvs')) = ParseMessageType data).
Proof.
  repeat split.
  - destruct data as [|j]; [auto|].
    destruct j; cbn; intros H; try discriminate H;
      try (right; left; eexists; split; [reflexivity|reflexivity]).
    right; right. exists kvs. split; [reflexivity|].
    rewrite ParseMessageType_object in H.
    destruct (forallb string_or_null (type_members kvs)); [discriminate H|reflexivity].
  - intros [->|[(j & -> & Hj)|(kvs & -> & Hk)]].
    + reflexivity.
    + destruct j; try discriminate Hj; reflexivity.
    + rewrite ParseMessageType_object, Hk. reflexivity.
  - intros e. unfold ParseMessageType.
    destruct (Unmarshal _ _ data); intros [=]; subst; eauto.
  - intros kvs -> Hk. rewrite ParseMessageType_object, Hk. reflexivity.
  - intros kvs pre t -> Hk Hpre.
    rewrite ParseMessageType_object, Hk, forallb_snoc_string, Hpre, last_string_snoc.
    reflexivity.
  - intros kvs kvs' -> Hk. rewrite !ParseMessageType_object, Hk. reflexivity.
Qed.

Lemma ParseMessageType_cases_witness :
  ParseMessageType (Json (JObj [("type", JStr "error"); ("code", JStr "AUTH_ERROR")]))
  = Ok "error".
Proof.
  refine (proj1 (proj2 (proj2 (proj2 (ParseMessageType_cases _)))) _ [] "error" eq_refl _ _);
    vm_compute; reflexivity.
Defined.

(** C9, the claim as written fails: a frame that lacks the type tag is
    not rejected. *)
Lemma ParseMessageType_accepts_untagged :
  type_members [("text", JStr "hello")] = []
  /\ ParseMessageType (Json (JObj [("text", JStr "hello")])) = Ok "".
Proof. split; vm_compute; reflexivity. Qed.

(** [ParseMessage] returns the variant that the tag of the frame names. *)
Lemma ParseMessage_variant data m :
  ParseMessage data = Ok m -> ParseMessageType data = Ok (tag_of m).
Proof.
  unfold ParseMessage. destruct (ParseMessageType data) as [t|e]; [|discriminate].
  unfold parse_body.
  repeat match goal with
  | |- (if String.eqb t ?c then _ else _) = _ -> _ =>
      destruct (String.eqb_spec t c) as [->|_];
        [match goal with
         | |- match ?u with _ => _ end = _ -> _ =>
             destruct u; intros [=]; subst; reflexivity
         end|]
  end.
  discriminate.
Qed.

(** No frame parses to [SessionConfigDone]. *)
Lemma ParseMessage_never_config_done data x : ParseMessage data <> Ok (MSessionConfigDone x).
Proof.
  unfold ParseMessage. destruct (ParseMessageType data) as [t|e]; [|discriminate].
  unfold parse_body.
  repeat match goal with
  | |- (if ?b then _ else _) <> _ => destruct b
  | |- match ?u with _ => _ end <> _ => destruct u
  end; discriminate.
Qed.

(** C8, at the variant the decoder misses: the frame written for
    [session.config_done] is refused as an unknown message type. *)
Theorem session_config_done_not_parsed :
  EncodeMessage (MSessionConfigDone NewSessionConfigDone)
  = Ok (Json (JObj [("type", JStr "session.config_done")]))
  /\ ParseMessage (Json (JObj [("type", JStr "session.config_done")]))
     = Err (Errorf "unknown message type: session.config_done").
Proof. split; vm_compute; reflexivity. Qed.

Ltac split_omit :=
  repeat match goal with
  | |- context [omit_int ?k ?z] =>
      unfold omit_int at 1; destruct (Z.eqb_spec z 0); [subst z|]
  | |- context [omit_string ?k ?z] =>
      unfold omit_string at 1; destruct (String.eqb_spec z ""); [subst z|]
  end.

Ltac split_float H f :=
  unfold omit_float at 1;
  destruct f as [[|]| | |]; try discriminate H; cbn [float_is_zero float_is_finite].

Lemma roundtrip_SessionConfig m :
  GetType (MSessionConfig m) = tag_of (MSessionConfig m) ->
  representable (MSessionConfig m) = true ->
  exists f, EncodeMessage (MSessionConfig m) = Ok f /\ ParseMessage f = Ok (MSessionConfig m).
Proof.
  destruct m as [t [pr la sr af vo sp pi vl]].
  cbn [GetType tag_of SessionConfig_Type representable SessionConfig_Session
       SampleRate Speed Pitch Volume].
  intros -> H. apply andb_prop in H as [H Hv]. apply andb_prop in H as [H Hp].
  apply andb_prop in H as [Hr Hs].
  unfold EncodeMessage.
  cbn [Marshal SessionConfig_Type SessionConfig_Session].
  unfold Marshal_SessionParams.
  cbn [Provider Language SampleRate AudioFormat VoiceID Speed Pitch Volume].
  split_float Hs sp; split_float Hp pi; split_float Hv vl;
    (eexists; split; [reflexivity|]);
    split_omit; cbv -[in_int64 float64_of_Z int_literal_of_float]; rewrite ?Hr; reflexivity.
Qed.

Lemma roundtrip_TranscriptFinal m :
  GetType (MTranscriptFinal m) = tag_of (MTranscriptFinal m) ->
  representable (MTranscriptFinal m) = true ->
  exists f,
    EncodeMessage (MTranscriptFinal m) = Ok f /\ ParseMessage f = Ok (MTranscriptFinal m).
Proof.
  destruct m as [t x a b].
  cbn [GetType tag_of TranscriptFinal_Type representable StartTime EndTime].
  intros -> [Ha Hb]%andb_prop.
  eexists; split; [reflexivity|].
  cbn [Marshal TranscriptFinal_Type TranscriptFinal_Text StartTime EndTime].
  split_omit; cbv -[in_int64 float64_of_Z]; rewrite ?Ha, ?Hb; reflexivity.
Qed.

(** The round trip holds for the thirteen variants that [ParseMessage]
    dispatches on, for a message that carries the tag of its variant and
    whose numbers fit their Go types. *)
Lemma roundtrip_parsed_variants m :
  GetType m = tag_of m -> representable m = true ->
  tag_of m <> MessageTypeSessionConfigDone ->
  exists f, EncodeMessage m = Ok f /\ ParseMessage f = Ok m.
Proof.
  intros Ht Hr Hn. destruct m as [m|m|m|m|m|m|m|m|m|m|m|m|m|m];
    try (now apply roundtrip_SessionConfig);
    try (now apply roundtrip_TranscriptFinal);
    try (now destruct Hn);
    destruct m; cbn in Ht; subst;
    (eexists; split; [reflexivity|vm_compute; reflexivity]).
Qed.

End CodecSpec.

(** ** The retry loop of the connection *)

Module TransportSpec.
Import Transport.

Lemma Connect_fail a c : connected c = false -> failing a = true ->
  exists c' e, Connect (at_start a) (at_end a) (dial a) c = (c', Err e) /\ connect_error (dial a) = Some e
    /\ connected c' = false /\ config c' = config c.
Proof.
  intros Hc Hf. unfold failing in Hf. unfold Connect. rewrite Hc.
  destruct (cancel a); [discriminate|]. destruct (dial a) as [|e [st|]]; [discriminate| |];
  eexists _, _; repeat split.
Qed.

Lemma last_error_cons a fs e dflt : connect_error (dial a) = Some e ->
  last_error (a :: fs) dflt = last_error fs (Some e).
Proof. intros He. unfold last_error. cbn [fold_left]. rewrite He. reflexivity. Qed.

Lemma retry_loop_failing fs : forall rest i k b last c log,
  connected c = false -> Forall (fun a => failing a = true) fs ->
  1 <= i -> i + Z.of_nat (length fs) <= MaxReconnects (config c) + 1 ->
  MaxReconnects (config c) < int64_max ->
  exists c',
    connected c' = false /\ config c' = config c /\
    retry_loop (fs ++ rest) i (Nat.iter k double b) last c log =
    retry_loop rest (i + Z.of_nat (length fs)) (Nat.iter (k + length fs) double b)
      (last_error fs last) c' (log ++ retries_log b (S k) (length fs)).
Proof.
  induction fs as [|a fs IH]; intros rest i k b last c log Hc Hf Hi Hm HM.
  - exists c. repeat split; auto. cbn [app length retries_log seq flat_map].
    rewrite Z.add_0_r, Nat.add_0_r, app_nil_r. reflexivity.
  - inversion Hf as [|? ? Ha Hfs]; subst.
    destruct (Connect_fail a c Hc Ha) as (c1 & e & Hcon & He & Hc1 & Hcfg).
    cbn [length] in Hm.
    destruct (IH rest (i + 1) (S k) b (Some e) c1 ((log ++ [Waited (Nat.iter k double b)]) ++ [Dialed]))
      as (c' & Hc' & Hcfg' & Heq); auto; try lia.
    { rewrite Hcfg. lia. } { rewrite Hcfg. lia. }
    exists c'. split; [exact Hc'|]. split; [congruence|].
    cbn [app retry_loop].
    replace (i <=? MaxReconnects (config c)) with true by (symmetry; apply Z.leb_le; lia).
    replace (0 <? i) with true by (symmetry; apply Z.ltb_lt; lia).
    assert (Hq : cancel a = None) by (unfold failing in Ha; destruct (cancel a); [discriminate|reflexivity]).
    rewrite Hq, Hcon.
    replace (wrap64 (i + 1)) with (i + 1).
    2:{ unfold wrap64. unfold int64_max in HM. rewrite Z.mod_small; lia. }
    change (wrap64 (Nat.iter k double b * 2)) with (double (Nat.iter k double b)).
    rewrite <- Nat.iter_succ.
    rewrite Heq. rewrite (last_error_cons a fs e last He).
    cbn [length retries_log seq flat_map]. unfold backoff_before at 1.
    replace (S k - 1)%nat with k by lia.
    rewrite Nat2Z.inj_succ, Nat.add_succ_r, <- !app_assoc. cbn [app Nat.add].
    f_equal. lia.
Qed.

Lemma retry_loop_stop env i b last c log :
  MaxReconnects (config c) < i ->
  retry_loop env i b last c log =
  (c, Returned (Some (match last with
                      | Some e => Wrap ("connect failed after " +:+ pretty (MaxReconnects (config c)) +:+ " retries") e
                      | None => WrapNil ("connect failed after " +:+ pretty (MaxReconnects (config c)) +:+ " retries")
                      end)), log).
Proof.
  intros H. destruct env; cbn [retry_loop];
  replace (i <=? MaxReconnects (config c)) with false by (symmetry; apply Z.leb_gt; lia); reflexivity.
Qed.

Lemma Connect_ok a c : connected c = false -> dial a = DialOk ->
  exists c', Connect (at_start a) (at_end a) (dial a) c = (c', Ok tt) /\ connected c' = true.
Proof. intros Hc Hd. unfold Connect. rewrite Hc, Hd. eexists; split; reflexivity. Qed.

Lemma iter_double_0 b : Nat.iter 0 double b = b.
Proof. reflexivity. Qed.

(* the first turn, then the retries of fs *)
Lemma ConnectWithRetry_failing a0 fs rest c :
  connected c = false -> Forall (fun a => failing a = true) (a0 :: fs) ->
  0 <= MaxReconnects (config c) < int64_max ->
  Z.of_nat (length (a0 :: fs)) <= MaxReconnects (config c) + 1 ->
  exists c',
    connected c' = false /\ config c' = config c /\
    ConnectWithRetry ((a0 :: fs) ++ rest) c =
    retry_loop rest (Z.of_nat (length (a0 :: fs)))
      (Nat.iter (length fs) double (ReconnectBackoff (config c)))
      (last_error (a0 :: fs) None) c'
      (Dialed :: retries_log (ReconnectBackoff (config c)) 1 (length fs)).
Proof.
  intros Hc Hf HM Hlen. inversion Hf as [|? ? Ha Hfs]; subst.
  destruct (Connect_fail a0 c Hc Ha) as (c1 & e & Hcon & He & Hc1 & Hcfg).
  cbn [length] in Hlen. rewrite Nat2Z.inj_succ in Hlen.
  destruct (retry_loop_failing fs rest 1 0 (ReconnectBackoff (config c)) (Some e) c1 [Dialed]
              Hc1 Hfs ltac:(lia) ltac:(rewrite Hcfg; lia) ltac:(rewrite Hcfg; lia))
    as (c' & Hc' & Hcfg' & Heq).
  exists c'. split; [exact Hc'|]. split; [congruence|].
  unfold ConnectWithRetry. cbn [app retry_loop].
  replace (0 <=? MaxReconnects (config c)) with true by (symmetry; apply Z.leb_le; lia).
  cbn [Z.ltb Z.compare]. rewrite Hcon. cbn [app].
  change (wrap64 (0 + 1)) with 1.
  rewrite iter_double_0 in Heq. rewrite Heq, (last_error_cons a0 fs e None He).
  cbn [length Nat.add app]. rewrite Nat2Z.inj_succ. f_equal. lia.
Qed.

Lemma iter_double_exact b j :
  int64_min <= b * 2 ^ Z.of_nat j <= int64_max -> Nat.iter j double b = b * 2 ^ Z.of_nat j.
Proof.
  induction j as [|j IH]; intros H.
  - cbn. lia.
  - rewrite Nat2Z.inj_succ, Z.pow_succ_r in * by lia.
    rewrite Nat.iter_succ, IH by (unfold int64_min, int64_max in *; lia).
    unfold double, wrap64. unfold int64_min, int64_max in H.
    rewrite Z.mod_small; lia.
Qed.

Lemma waits_retries_log b first n :
  waits (retries_log b first n) = map (backoff_before b) (seq first n)
  /\ dials (retries_log b first n) = n.
Proof.
  unfold retries_log, waits, dials. revert first.
  induction n as [|n IH]; intros first; [split; reflexivity|].
  cbn [seq flat_map map app List.filter length]. destruct (IH (S first)) as [-> ->].
  split; reflexivity.
Qed.

Lemma last_error_failing fs dflt :
  fs <> [] -> Forall (fun a => failing a = true) fs -> exists cause, last_error fs dflt = Some cause.
Proof.
  revert dflt. induction fs as [|a fs IH]; intros dflt Hn Hf; [congruence|].
  inversion Hf as [|? ? Ha Hfs]; subst.
  assert (exists e, connect_error (dial a) = Some e) as [e He].
  { unfold failing in Ha. destruct (cancel a); [discriminate|].
    destruct (dial a) as [|e [st|]]; [discriminate| |]; eexists; reflexivity. }
  rewrite (last_error_cons a fs e dflt He).
  destruct fs as [|a' fs']; [exists e; reflexivity|].
  apply IH; [discriminate|exact Hfs].
Qed.

Lemma Connect_config t0 t1 d c : config (fst (Connect t0 t1 d c)) = config c.
Proof. unfold Connect. destruct (connected c); [reflexivity|]. destruct d as [|e [st|]]; reflexivity. Qed.

Lemma dials_app l1 l2 : dials (l1 ++ l2) = (dials l1 + dials l2)%nat.
Proof. unfold dials. rewrite List.filter_app, length_app. reflexivity. Qed.

Lemma retry_loop_dials env : forall i b last c log,
  0 <= i -> MaxReconnects (config c) < int64_max ->
  Z.of_nat (dials (snd (retry_loop env i b last c log)))
  <= Z.of_nat (dials log) + Z.max 0 (MaxReconnects (config c) + 1 - i).
Proof.
  induction env as [|a env IH]; intros i b last c log Hi HM; cbn [retry_loop].
  - destruct (i <=? MaxReconnects (config c)); cbn [snd]; lia.
  - destruct (Z.leb_spec i (MaxReconnects (config c))) as [Hle|Hgt]; [|cbn [snd]; lia].
    assert (Hw : wrap64 (i + 1) = i + 1).
    { unfold wrap64. unfold int64_max in HM. rewrite Z.mod_small; lia. }
    pose proof (Connect_config (at_start a) (at_end a) (dial a) c) as Hcfg.
    destruct (0 <? i); [destruct (cancel a); [cbn [snd]; lia|]|];
      destruct (Connect (at_start a) (at_end a) (dial a) c) as [c1 [[]|e]];
      cbn [fst] in Hcfg; cbn [snd];
      try (rewrite !dials_app; cbn; lia);
      (etransitivity; [apply IH; [lia|rewrite Hcfg; lia]|]);
      rewrite Hcfg, Hw, !dials_app; cbn; lia.
Qed.

Lemma default_scenario e1 s1 e2 s2 t :
  let fail e s := {| cancel := None; at_start := t; at_end := t; dial := DialErr e s |} in
  let ok := {| cancel := None; at_start := t; at_end := t; dial := DialOk |} in
  exists c',
    ConnectWithRetry [fail e1 s1; fail e2 s2; ok] (NewConn DefaultConfig)
    = (c', Returned None, [Dialed; Waited (1 * Second); Dialed; Waited (2 * Second); Dialed])
    /\ time_waited [Dialed; Waited (1 * Second); Dialed; Waited (2 * Second); Dialed]
       = 3 * Second.
Proof. destruct s1, s2; eexists; split; reflexivity. Qed.

(** C7, as the code has it.  With a connection that is not yet connected
    and a retry budget [MaxReconnects] between 0 and 2^63 - 2:
    a first dial that succeeds returns at once; after [n] failed attempts
    (at most [MaxReconnects]) a successful dial returns nil, and the waits
    before it were, in order, the base doubled 0, 1, ..., [n - 1] times in
    64-bit arithmetic; a cancellation during the wait before the next retry
    returns the context's error without another dial; after
    [MaxReconnects + 1] failed attempts the error wraps the last Connect
    error and names [MaxReconnects]; the doubled base equals
    [base * 2 ^ (k - 1)] whenever that product fits an [int64]; whatever
    the environment does, Connect is called at most [MaxReconnects + 1]
    times; with the default configuration, two failures and a success
    wait 1 s, then 2 s. *)
Theorem ConnectWithRetry_backoff :
  (forall c a rest, connected c = false -> 0 <= MaxReconnects (config c) -> dial a = DialOk ->
     exists c', ConnectWithRetry (a :: rest) c = (c', Returned None, [Dialed])
                /\ connected c' = true)
  /\ (forall c fs a rest,
        connected c = false -> 0 <= MaxReconnects (config c) < int64_max ->
        fs <> [] -> Forall (fun x => failing x = true) fs ->
        Z.of_nat (length fs) <= MaxReconnects (config c) ->
        cancel a = None -> dial a = DialOk ->
        exists c',
          ConnectWithRetry (fs ++ a :: rest) c
          = (c', Returned None,
             Dialed :: retries_log (ReconnectBackoff (config c)) 1 (length fs))
          /\ connected c' = true)
  /\ (forall c fs a rest e,
        connected c = false -> 0 <= MaxReconnects (config c) < int64_max ->
        fs <> [] -> Forall (fun x => failing x = true) fs ->
        Z.of_nat (length fs) <= MaxReconnects (config c) ->
        cancel a = Some e ->
        exists c',
          ConnectWithRetry (fs ++ a :: rest) c
          = (c', Returned (Some e),
             Dialed :: retries_log (ReconnectBackoff (config c)) 1 (length fs - 1)))
  /\ (forall c fs rest,
        connected c = false -> 0 <= MaxReconnects (config c) < int64_max ->
        Forall (fun x => failing x = true) fs ->
        Z.of_nat (length fs) = MaxReconnects (config c) + 1 ->
        exists c' cause,
          last_error fs None = Some cause
          /\ ConnectWithRetry (fs ++ rest) c
             = (c', Returned (Some (Wrap (retry_message c) cause)),
                Dialed :: retries_log (ReconnectBackoff (config c)) 1 (length fs - 1)))
  /\ (forall base n,
        waits (Dialed :: retries_log base 1 n) = map (backoff_before base) (seq 1 n)
        /\ dials (Dialed :: retries_log base 1 n) = S n)
  /\ (forall base k, (1 <= k)%nat ->
        int64_min <= base * 2 ^ Z.of_nat (k - 1) <= int64_max ->
        backoff_before base k = base * 2 ^ Z.of_nat (k - 1))
  /\ (forall c env, 0 <= MaxReconnects (config c) < int64_max ->
        Z.of_nat (dials (snd (ConnectWithRetry env c))) <= MaxReconnects (config c) + 1)
  /\ (forall e1 s1 e2 s2 t,
        let fail e s := {| cancel := None; at_start := t; at_end := t; dial := DialErr e s |} in
        let ok := {| cancel := None; at_start := t; at_end := t; dial := DialOk |} in
        exists c',
          ConnectWithRetry [fail e1 s1; fail e2 s2; ok] (NewConn DefaultConfig)
          = (c', Returned None,
             [Dialed; Waited (1 * Second); Dialed; Waited (2 * Second); Dialed])
          /\ time_waited [Dialed; Waited (1 * Second); Dialed; Waited (2 * Second); Dialed]
             = 3 * Second).
Proof.
  split; [|split; [|split; [|split; [|split; [|split; [|split]]]]]].
  - intros c a rest Hc HM Hd. unfold ConnectWithRetry. cbn [retry_loop].
    replace (0 <=? MaxReconnects (config c)) with true by (symmetry; apply Z.leb_le; lia).
    cbn [Z.ltb Z.compare]. destruct (Connect_ok a c Hc Hd) as (c' & -> & Hc').
    exists c'. split; [reflexivity|exact Hc'].
  - intros c fs a rest Hc HM Hn Hf Hlen Hq Hd.
    destruct fs as [|a0 fs]; [congruence|].
    destruct (ConnectWithRetry_failing a0 fs (a :: rest) c Hc Hf HM ltac:(lia))
      as (c1 & Hc1 & Hcfg & ->).
    cbn [retry_loop]. rewrite Hcfg.
    replace (_ <=? MaxReconnects (config c)) with true by (symmetry; apply Z.leb_le; lia).
    replace (0 <? Z.of_nat (length (a0 :: fs))) with true
      by (symmetry; apply Z.ltb_lt; cbn [length]; lia).
    rewrite Hq. destruct (Connect_ok a c1 Hc1 Hd) as (c' & -> & Hc').
    exists c'. split; [|exact Hc'].
    cbn [length]. unfold retries_log. rewrite seq_S, flat_map_app. cbn [flat_map Nat.add app].
    rewrite <- ?app_assoc. cbn [app].
    unfold backoff_before. replace (S (length fs) - 1)%nat with (length fs) by lia.
    reflexivity.
  - intros c fs a rest e Hc HM Hn Hf Hlen Hq.
    destruct fs as [|a0 fs]; [congruence|].
    destruct (ConnectWithRetry_failing a0 fs (a :: rest) c Hc Hf HM ltac:(lia))
      as (c1 & Hc1 & Hcfg & ->).
    cbn [retry_loop]. rewrite Hcfg.
    replace (_ <=? MaxReconnects (config c)) with true by (symmetry; apply Z.leb_le; lia).
    replace (0 <? Z.of_nat (length (a0 :: fs))) with true
      by (symmetry; apply Z.ltb_lt; cbn [length]; lia).
    rewrite Hq. exists c1. cbn [length]. replace (S (length fs) - 1)%nat with (length fs) by lia.
    reflexivity.
  - intros c fs rest Hc HM Hf Hlen.
    destruct fs as [|a0 fs]; [cbn [length] in Hlen; lia|].
    destruct (ConnectWithRetry_failing a0 fs rest c Hc Hf HM ltac:(lia))
      as (c1 & Hc1 & Hcfg & ->).
    destruct (last_error_failing (a0 :: fs) None ltac:(discriminate) Hf) as [cause Hcause].
    exists c1, cause. split; [exact Hcause|].
    rewrite retry_loop_stop by (rewrite Hcfg; lia).
    rewrite Hcause. unfold retry_message. rewrite Hcfg.
    cbn [length]. replace (S (length fs) - 1)%nat with (length fs) by lia. reflexivity.
  - intros base n. destruct (waits_retries_log base 1 n) as [Hw Hd].
    split; [exact Hw|]. unfold dials in *. cbn [List.filter length]. rewrite Hd. reflexivity.
  - intros base k Hk Hr. unfold backoff_before. apply iter_double_exact. exact Hr.
  - intros c env HM. unfold ConnectWithRetry.
    pose proof (retry_loop_dials env 0 (ReconnectBackoff (config c)) None c []
                  ltac:(lia) ltac:(lia)) as H.
    unfold dials in *. cbn [List.filter length] in H. lia.
  - apply default_scenario.
Qed.

Lemma ConnectWithRetry_backoff_witness :
  exists c',
    ConnectWithRetry ([refused; refused] ++ accepted :: []) (NewConn DefaultConfig)
    = (c', Returned None, Dialed :: retries_log (1 * Second) 1 2)
    /\ connected c' = true.
Proof.
  apply (proj1 (proj2 ConnectWithRetry_backoff) (NewConn DefaultConfig) [refused; refused]).
  - reflexivity.
  - split; [now vm_compute | reflexivity].
  - discriminate.
  - repeat constructor.
  - now vm_compute.
  - reflexivity.
  - reflexivity.
Defined.

(** C7, the claim as written fails: with forty retries allowed and a base
    of one second, the wait before retry 35 is not [base * 2 ^ 34]; the
    doubled duration has wrapped around to a negative value. *)
Lemma backoff_wraps_before_retry_35 :
  nth 34 (waits (snd (ConnectWithRetry (repeat refused 41) (NewConn patient)))) 0
  = -1266874889709551616
  /\ ReconnectBackoff patient * 2 ^ 34 = 17179869184000000000.
Proof. split; vm_compute; reflexivity. Qed.

(** What the teardown of a session leaves on the wire. *)
Lemma wire_teardown c :
  wire (Close (fst (SendJSON (Protocol.MSessionEnd Codec.NewSessionEnd) c))) = wire c ++ teardown_frames c.
Proof.
  unfold SendJSON, Close, teardown_frames, live, writable.
  destruct c as [cfg [[b]|] ch co cn t0 t1 w]; cbn [connected ws wire broken];
    destruct cn; try destruct b; cbn; rewrite ?app_nil_r, <- ?app_assoc; reflexivity.
Qed.

Lemma ws_teardown c : ws (Close (fst (SendJSON (Protocol.MSessionEnd Codec.NewSessionEnd) c))) = None.
Proof. unfold Close. destruct (ws (fst (SendJSON _ c))); reflexivity. Qed.

Lemma session_ends_app w w' : session_ends (w ++ w') = (session_ends w + session_ends w')%nat.
Proof. unfold session_ends. rewrite List.filter_app, length_app. reflexivity. Qed.

Lemma session_ends_teardown c :
  session_ends (wire (Close (fst (SendJSON (Protocol.MSessionEnd Codec.NewSessionEnd) c))))
  = (session_ends (wire c) + if live c then 1 else 0)%nat.
Proof.
  rewrite wire_teardown, session_ends_app. f_equal. unfold teardown_frames.
  destruct (live c), (writable c); vm_compute; reflexivity.
Qed.

End TransportSpec.

(** ** Whole-file recognition: completion by idleness *)

Module SttClientSpec.
Import Transport Stt SttClient.

Lemma absorbed_nil st : absorbed [] st = st.
Proof.
  destruct st as [c s i t [rt rs rd re]]. unfold absorbed. cbn.
  rewrite !app_nil_r. destruct c; reflexivity.
Qed.

Lemma last_instant_cons t0 a evs : last_instant t0 (a :: evs) = last_instant (fst a) evs.
Proof. reflexivity. Qed.

Lemma last_instant_nonempty t0 t1 a evs : last_instant t0 (a :: evs) = last_instant t1 (a :: evs).
Proof. reflexivity. Qed.

Lemma absorb_one t e st :
  keeps_going e = true ->
  exists st', loop_turn t (Event e) st = Continue st' /\
    forall evs, absorbed evs st' = absorbed ((t, e) :: evs) st.
Proof.
  intros Hk. destruct st as [c s i tx [rt rs rd re]].
  unfold keeps_going in Hk. unfold loop_turn, on_event.
  destruct (Type_ e) eqn:Ht; try discriminate Hk;
    (eexists; split; [destruct c; reflexivity|]);
    intros evs; unfold absorbed, finals, error_after;
    cbn [committed sendDoneCh idleTimer texts result Result_Text Segments Result_Duration Result_Error
         map snd fst List.filter fold_left arm];
    rewrite Ht; destruct c; cbn [committed sendDoneCh idleTimer texts result Result_Text Segments Result_Duration Result_Error arm map app];
    rewrite <- ?app_assoc; cbn [app]; destruct evs; reflexivity.
Qed.

Lemma recognize_absorbs start evs : forall rest st,
  Forall (fun te => keeps_going (snd te) = true) evs ->
  recognize_loop start (as_script evs ++ rest) st = recognize_loop start rest (absorbed evs st).
Proof.
  induction evs as [|[t e] evs IH]; intros rest st Hf.
  - rewrite absorbed_nil. reflexivity.
  - inversion Hf as [|? ? Hk Hfs]; subst. cbn [snd] in Hk.
    destruct (absorb_one t e st Hk) as (st' & Hturn & Habs).
    cbn [as_script map app recognize_loop fst snd]. rewrite Hturn.
    fold (as_script evs). rewrite IH by exact Hfs. rewrite Habs. reflexivity.
Qed.

Lemma finals_app a b : finals (a ++ b) = finals a ++ finals b.
Proof. unfold finals. rewrite map_app, List.filter_app. reflexivity. Qed.

Lemma error_after_app a b d : error_after (a ++ b) d = error_after b (error_after a d).
Proof. unfold error_after. apply fold_left_app. Qed.

Lemma error_after_quiet evs d :
  Forall (fun te => Type_ (snd te) <> EventError) evs -> error_after evs d = d.
Proof.
  revert d. induction evs as [|a evs IH]; intros d Hf; [reflexivity|].
  inversion Hf as [|? ? Ha Hfs]; subst. unfold error_after in *. cbn [fold_left].
  destruct (Type_ (snd a)); try congruence; apply IH; exact Hfs.
Qed.

Lemma timer_after_commit tc post st :
  committed st = true ->
  idleTimer (absorbed post (arm tc st)) = Some (last_instant tc post + recognizeIdleTimeout).
Proof.
  intros Hc. unfold absorbed, arm. cbn [committed idleTimer]. rewrite Hc.
  destruct post; reflexivity.
Qed.

(** C5, as the code has it.  Let the events [pre] arrive before the
    commit is reported as sent at [tc], and the events [post] after it,
    none of them being input-done or closed.  Before the commit the idle
    timer cannot fire.  After it the timer cannot fire before 10 s have
    passed since the last of [post] (since [tc] when [post] is empty), and
    when it fires the call returns the final segments and the text
    accumulated so far, together with the error of the last error event;
    without an error event the call succeeds. *)
Theorem idle_completion (start tc t : Z) (pre post : list (Z * RecognitionEvent)) :
  Forall (fun te => keeps_going (snd te) = true) pre ->
  Forall (fun te => keeps_going (snd te) = true) post ->
  let commit := (tc, SendDone None) in
  let deadline := last_instant tc post + recognizeIdleTimeout in
  recognize_loop start (as_script pre ++ [(t, IdleFired)]) loop_init = Unrealisable
  /\ (t < deadline ->
      recognize_loop start (as_script pre ++ commit :: as_script post ++ [(t, IdleFired)])
        loop_init = Unrealisable)
  /\ (deadline <= t ->
      recognize_loop start (as_script pre ++ commit :: as_script post ++ [(t, IdleFired)])
        loop_init
      = Returned (Some (recognized start t (pre ++ post))) (error_after (pre ++ post) None))
  /\ (Forall (fun te => Type_ (snd te) <> EventError) (pre ++ post) ->
      error_after (pre ++ post) None = None).
Proof.
  intros Hpre Hpost commit deadline. repeat split.
  - rewrite recognize_absorbs by exact Hpre. reflexivity.
  - intros Hlt. rewrite recognize_absorbs by exact Hpre.
    unfold commit. cbn [recognize_loop loop_turn absorbed sendDoneCh loop_init].
    match goal with |- recognize_loop _ _ (arm tc ?s) = _ => set (st := s) end.
    rewrite recognize_absorbs by exact Hpost.
    cbn [recognize_loop loop_turn]. rewrite (timer_after_commit tc post st eq_refl).
    fold deadline. replace (deadline <=? t) with false by (symmetry; apply Z.leb_gt; lia).
    reflexivity.
  - intros Hle. rewrite recognize_absorbs by exact Hpre.
    unfold commit. cbn [recognize_loop loop_turn absorbed sendDoneCh loop_init].
    match goal with |- recognize_loop _ _ (arm tc ?s) = _ => set (st := s) end.
    rewrite recognize_absorbs by exact Hpost.
    cbn [recognize_loop loop_turn]. rewrite (timer_after_commit tc post st eq_refl).
    fold deadline. replace (deadline <=? t) with true by (symmetry; apply Z.leb_le; lia).
    unfold finish, recognized, st, absorbed, arm.
    cbn [committed sendDoneCh idleTimer texts result Result_Text Segments Result_Duration
         Result_Error app].
    rewrite finals_app, error_after_app, !map_app. reflexivity.
  - intros Hq. apply error_after_quiet. exact Hq.
Qed.

Lemma idle_completion_witness :
  recognize_loop 0
    (as_script [(0, NewPartialEvent "he")] ++ (1 * Second, SendDone None)
       :: as_script [(2 * Second, NewFinalEvent "hello" 0 (900 * Millisecond))]
       ++ [(12 * Second, IdleFired)])
    loop_init
  = Returned
      (Some (recognized 0 (12 * Second)
               ([(0, NewPartialEvent "he")]
                ++ [(2 * Second, NewFinalEvent "hello" 0 (900 * Millisecond))])))
      (error_after ([(0, NewPartialEvent "he")]
                    ++ [(2 * Second, NewFinalEvent "hello" 0 (900 * Millisecond))]) None).
Proof.
  refine (proj1 (proj2 (proj2 (idle_completion 0 (1 * Second) (12 * Second)
            [(0, NewPartialEvent "he")]
            [(2 * Second, NewFinalEvent "hello" 0 (900 * Millisecond))] _ _))) _).
  - repeat constructor.
  - repeat constructor.
  - now vm_compute.
Defined.

(** C5, the claim as written fails: when an error event arrived after
    the commit, the expiry of the idle timer ends the call with that
    error. *)
Lemma idle_expiry_returns_error :
  recognize_loop 0
    [(0, SendDone None); (1 * Second, Event auth_failed); (11 * Second, IdleFired)]
    loop_init
  = Returned
      (Some {| Result_Text := ""; Segments := []; Result_Duration := 11 * Second;
               Result_Error := Some (Errorf "[AUTH_ERROR] invalid api key") |})
      (Some (Errorf "[AUTH_ERROR] invalid api key")).
Proof. vm_compute. reflexivity. Qed.

End SttClientSpec.

(** ** Reading an audio stream *)

Module TtsStreamSpec.
Import Transport TtsStream.

Lemma Read_finished n s : finished s -> Read n s = ReadReturns [] (Some EOF) s.
Proof. intros [Hb Hc]. unfold Read. rewrite Hb, Hc. reflexivity. Qed.

Lemma firstn_nonempty {A} n (l : list A) : (1 <= n)%nat -> l <> [] -> firstn n l <> [].
Proof. destruct n; [lia|]. destruct l; [congruence|]. discriminate. Qed.

Lemma Read_sealed_end n s total :
  (1 <= n)%nat -> sealed total [] s -> buffer s = [] ->
  exists s', Read n s = ReadReturns [] (Some EOF) s' /\ finished s' /\ totalSize s' = total.
Proof.
  intros Hn [Hbuf _ Hopen Hcount _] Hb. unfold Read, Chan.recv.
  rewrite Hb, Hopen, Hbuf. cbn [length Nat.ltb Nat.leb app IsDone done_chunk].
  eexists. split; [reflexivity|]. split; [split; [exact Hb|reflexivity]|].
  cbn in *. lia.
Qed.

Lemma Read_sealed_data n cs s total :
  (1 <= n)%nat -> sealed total cs s -> pending cs s <> [] ->
  exists p s' cs',
    Read n s = ReadReturns p None s' /\ p <> [] /\ sealed total cs' s'
    /\ pending cs s = p ++ pending cs' s'.
Proof.
  intros Hn [Hbuf Hdata Hopen Hcount [H0 Hmax]] Hp. unfold Read.
  destruct (buffer s) as [|b bs] eqn:Hb.
  - destruct cs as [|c cs']; [exfalso; apply Hp; unfold pending; rewrite Hb; reflexivity|].
    apply Forall_cons_iff in Hdata as [(Hd & He & Hne) Hdata'].
    unfold Chan.recv. rewrite Hopen, Hbuf.
    cbn [length Nat.ltb Nat.leb app]. rewrite Hd, He.
    cbn [with_chunksCh buffer chunksCh closed closeCh closeOnce chunkChClosed totalSize err app].
    rewrite Hb. cbn [app]. unfold buffer_Read.
    destruct (Data c) as [|x xs] eqn:Hx; [congruence|].
    exists (firstn n (x :: xs)), 
      (with_buffer {| chunksCh := {| Chan.cap := Chan.cap (chunksCh s); Chan.buf := cs' ++ [done_chunk]; Chan.closed := Chan.closed (chunksCh s) |};
                      buffer := x :: xs; closed := closed s; closeCh := closeCh s; closeOnce := closeOnce s;
                      chunkChClosed := chunkChClosed s;
                      totalSize := wrap64 (totalSize s + Z.of_nat (length (x :: xs))); err := err s |}
         (skipn n (x :: xs))), cs'.
    split; [reflexivity|]. split; [apply firstn_nonempty; [exact Hn|discriminate]|].
    split.
    + cbn [map concat] in Hcount. rewrite Hx, length_app in Hcount.
      assert (Hw : wrap64 (totalSize s + Z.of_nat (length (x :: xs))) = totalSize s + Z.of_nat (length (x :: xs))).
      { unfold wrap64. unfold int64_max in Hmax. rewrite Z.mod_small; lia. }
      constructor; cbn [with_buffer chunksCh Chan.buf closed totalSize]; auto.
      * rewrite Hw. lia.
      * rewrite Hw. lia.
    + unfold pending. cbn [with_buffer buffer map concat]. rewrite Hb, Hx.
      cbn [app]. rewrite app_assoc, firstn_skipn. reflexivity.
  - cbn [length Nat.ltb Nat.leb buffer_Read].
    exists (firstn n (b :: bs)), (with_buffer s (skipn n (b :: bs))), cs.
    split; [reflexivity|]. split; [apply firstn_nonempty; [exact Hn|discriminate]|].
    split.
    + constructor; cbn [with_buffer chunksCh closed totalSize]; auto.
    + unfold pending. cbn [with_buffer buffer]. rewrite Hb.
      rewrite app_assoc, firstn_skipn. reflexivity.
Qed.

Lemma read_many_finished ns s :
  finished s -> read_many ns s = Some (map (fun _ => ([], Some EOF)) ns, s).
Proof.
  intros Hf. induction ns as [|n ns IH]; [reflexivity|].
  cbn [read_many map]. rewrite (Read_finished n s Hf), IH. reflexivity.
Qed.

Lemma pending_nil total cs s : sealed total cs s -> pending cs s = [] -> cs = [] /\ buffer s = [].
Proof.
  intros [_ Hdata _ _ _] Hp. unfold pending in Hp. apply app_eq_nil in Hp as [Hb Hc].
  split; [|exact Hb]. destruct cs as [|c cs]; [reflexivity|].
  apply Forall_cons_iff in Hdata as [(_ & _ & Hne) _].
  cbn [map concat] in Hc. apply app_eq_nil in Hc as [Hc _]. congruence.
Qed.

Lemma read_many_sealed total ns : forall cs s,
  Forall (fun n => (1 <= n)%nat) ns -> sealed total cs s ->
  exists rs s',
    read_many ns s = Some (rs, s') /\ drained (pending cs s) rs
    /\ length rs = length ns
    /\ (at_eof rs -> finished s' /\ totalSize s' = total)
    /\ (~ at_eof rs ->
        exists cs', sealed total cs' s' /\ pending cs s = concat (map fst rs) ++ pending cs' s').
Proof.
  induction ns as [|n ns IH]; intros cs s Hns Hs.
  - exists [], s. split; [reflexivity|]. split; [apply drained_stop|].
    split; [reflexivity|]. split; [intros []|]. intros _. exists cs. split; [exact Hs|reflexivity].
  - apply Forall_cons_iff in Hns as [Hn Hns]. cbn [read_many].
    destruct (pending cs s) as [|b bs] eqn:Hp.
    + destruct (pending_nil total cs s Hs Hp) as [-> Hb].
      destruct (Read_sealed_end n s total Hn Hs Hb) as (s' & -> & Hf & Ht).
      rewrite (read_many_finished ns s' Hf).
      eexists _, s'. split; [reflexivity|]. split.
      { apply drained_eof. clear. induction ns; cbn [map]; constructor; auto. }
      split; [cbn [length]; rewrite length_map; reflexivity|].
      split; [intros _; split; assumption|]. intros Hno. exfalso. apply Hno. left. reflexivity.
    + destruct (Read_sealed_data n cs s total Hn Hs) as (p & s' & cs' & -> & Hne & Hs' & Hpp).
      { rewrite Hp. discriminate. }
      destruct (IH cs' s' Hns Hs') as (rs & s'' & -> & Hd & Hl & He & Hno).
      exists ((p, None) :: rs), s''. split; [reflexivity|]. rewrite <- Hp, Hpp.
      split; [apply drained_data; assumption|]. split; [cbn [length]; lia|].
      split.
      * intros [Hx|Hin]; [discriminate Hx|]. apply He. exact Hin.
      * intros Hn'. destruct Hno as (cs2 & Hs2 & Hp2); [intros Hin; apply Hn'; right; exact Hin|].
        exists cs2. split; [exact Hs2|]. cbn [map fst concat]. rewrite Hp2, app_assoc. reflexivity.
Qed.

Lemma drained_prefix bytes rs :
  drained bytes rs -> exists rest, bytes = concat (map fst rs) ++ rest.
Proof.
  induction 1 as [bytes|p bytes rs Hp Hd [rest IH]|rs Hf].
  - exists bytes. reflexivity.
  - exists rest. cbn [map fst concat]. rewrite IH at 1. rewrite app_assoc. reflexivity.
  - exists []. cbn [map fst concat app]. symmetry. rewrite app_nil_r.
    induction Hf as [|r rs -> _ IH]; [reflexivity|]. exact IH.
Qed.

Lemma drained_all bytes rs : drained bytes rs -> at_eof rs -> concat (map fst rs) = bytes.
Proof.
  induction 1 as [bytes|p bytes rs Hp Hd IH|rs Hf]; intros He.
  - destruct He.
  - destruct He as [Hx|He]; [discriminate Hx|]. cbn [map fst concat]. rewrite IH by exact He.
    reflexivity.
  - cbn [map fst concat app]. induction Hf as [|r rs -> _ IH]; [reflexivity|]. apply IH.
    left; reflexivity.
Qed.

Lemma drained_reaches_eof bytes rs :
  drained bytes rs -> (length bytes < length rs)%nat -> at_eof rs.
Proof.
  induction 1 as [bytes|p bytes rs Hp Hd IH|rs Hf]; intros Hl.
  - cbn in Hl. lia.
  - right. apply IH. rewrite length_app in Hl. cbn [length] in Hl.
    destruct p; [congruence|]. cbn [length] in Hl. lia.
  - left. reflexivity.
Qed.

Lemma streaming_new : streaming 0 [] newAudioStream.
Proof. constructor; cbn; auto. lia. Qed.

Lemma streaming_push tie d seq arrived cs s :
  streaming arrived cs s -> (length cs < 100)%nat -> d <> [] ->
  exists s',
    pushData tie d seq s = Pushed s' /\ buffer s' = buffer s
    /\ streaming (arrived + Z.of_nat (length d))
         (cs ++ [{| Data := d; Sequence := seq; IsDone := false; Error := None |}]) s'.
Proof.
  intros [Hch Hdata (Hc & Hcc & Ho & Hk) Hcount H0] Hlen Hd.
  unfold pushData, pushChunk. rewrite Hk, Hcc. unfold Chan.has_room. rewrite Hch.
  cbn [Chan.buf Chan.cap andb]. replace (length cs <? 100)%nat with true
    by (symmetry; apply Nat.ltb_lt; exact Hlen).
  eexists. split; [reflexivity|]. split; [reflexivity|].
  constructor; cbn [with_chunksCh chunksCh closed closeCh closeOnce chunkChClosed totalSize
                    Chan.push Chan.cap Chan.buf Chan.closed]; auto.
  - apply Forall_app. split; [exact Hdata|]. constructor; [|constructor]. auto.
  - rewrite map_app, concat_app, length_app. cbn [map concat Data length]. rewrite app_nil_r. lia.
Qed.

Lemma streaming_read n arrived cs s p e s' :
  (1 <= n)%nat -> streaming arrived cs s -> arrived <= int64_max ->
  Read n s = ReadReturns p e s' ->
  e = None /\ p <> [] /\
  exists cs', streaming arrived cs' s' /\ pending cs s = p ++ pending cs' s'
              /\ (length cs' <= length cs)%nat.
Proof.
  intros Hn [Hch Hdata (Hc & Hcc & Ho & Hk) Hcount H0] Hmax. unfold Read.
  destruct (buffer s) as [|b bs] eqn:Hb.
  - cbn [length Nat.ltb Nat.leb]. rewrite Hc. unfold Chan.recv. rewrite Hch. cbn [Chan.buf Chan.closed].
    destruct cs as [|c cs']; [discriminate|].
    apply Forall_cons_iff in Hdata as [(Hd & He & Hne) Hdata'].
    rewrite Hd, He.
    cbn [with_chunksCh buffer chunksCh closed closeCh closeOnce chunkChClosed totalSize err app].
    rewrite Hb. cbn [app]. unfold buffer_Read.
    destruct (Data c) as [|x xs] eqn:Hx; [congruence|].
    intros [= <- <- <-]. split; [reflexivity|].
    split; [apply firstn_nonempty; [exact Hn|discriminate]|].
    exists cs'. cbn [map concat] in Hcount. rewrite Hx, length_app in Hcount.
    assert (Hw : wrap64 (totalSize s + Z.of_nat (length (x :: xs)))
                 = totalSize s + Z.of_nat (length (x :: xs))).
    { unfold wrap64. unfold int64_max in Hmax. rewrite Z.mod_small; lia. }
    split; [|split].
    + constructor; cbn [with_buffer chunksCh closed closeCh closeOnce chunkChClosed totalSize
                        Chan.cap]; auto; cbn [length] in Hw, Hcount |- *; rewrite ?Hw; lia.
    + unfold pending. cbn [with_buffer buffer map concat]. rewrite Hb, Hx.
      cbn [app]. rewrite app_assoc, firstn_skipn. reflexivity.
    + cbn [length]. lia.
  - cbn [length Nat.ltb Nat.leb buffer_Read]. intros [= <- <- <-].
    split; [reflexivity|]. split; [apply firstn_nonempty; [exact Hn|discriminate]|].
    exists cs. split; [|split; [|lia]].
    + constructor; cbn [with_buffer chunksCh closed closeCh closeOnce chunkChClosed totalSize];
        auto.
    + unfold pending. cbn [with_buffer buffer]. rewrite Hb.
      rewrite app_assoc, firstn_skipn. reflexivity.
Qed.

Lemma streaming_seal arrived cs s :
  streaming arrived cs s -> (length cs < 100)%nat -> arrived <= int64_max ->
  sealed arrived cs (pushDone s) /\ buffer (pushDone s) = buffer s.
Proof.
  intros [Hch Hdata (Hc & Hcc & Ho & Hk) Hcount H0] Hlen Hmax.
  unfold pushDone. rewrite Ho. unfold seal. rewrite Hk. unfold Chan.has_room. rewrite Hch.
  cbn [Chan.buf Chan.cap]. replace (length cs <? 100)%nat with true
    by (symmetry; apply Nat.ltb_lt; exact Hlen).
  split; [|reflexivity].
  constructor; cbn [chunksCh closed totalSize Chan.close Chan.push Chan.buf]; auto.
Qed.

End TtsStreamSpec.

(** ** A synthesis round and its audio stream *)

Module TtsRoundSpec.
Import Json Protocol Codec Transport TtsStream Tts TtsStreamSpec.

Lemma SynthesizeStream_ok text now s s1 h :
  SynthesizeStream text now s = (s1, Ok h) ->
  currentStream s1 = Some h /\ streams s1 !! h = Some newAudioStream /\ loop s1 = loop s.
Proof.
  unfold SynthesizeStream.
  destruct (closed s); [discriminate|]. destruct (negb (ready s)); [discriminate|].
  destruct (synthesizing s); [discriminate|].
  destruct (SendJSON _ _) as [c [[]|e]]; [|discriminate].
  destruct (SendJSON _ _) as [c' [[]|e]]; [|discriminate].
  intros [= <- <-]. cbn. rewrite lookup_insert_eq. auto.
Qed.

Lemma ParseMessageType_delta a : ParseMessageType (delta_frame a) = Ok MessageTypeAudioDelta.
Proof. vm_compute. reflexivity. Qed.
Lemma ParseMessage_delta a : ParseMessage (delta_frame a) = Ok (MAudioDelta (NewAudioDelta a)).
Proof. vm_compute. reflexivity. Qed.
Lemma ParseMessageType_done : ParseMessageType done_frame = Ok MessageTypeAudioDone.
Proof. vm_compute. reflexivity. Qed.

Lemma frame_delta tie now a d h arrived cs s :
  in_round h arrived cs s -> Base64.DecodeString a = Ok d -> d <> [] -> (length cs < 100)%nat ->
  exists s' c,
    loop_turn tie now (Inbound (delta_frame a)) s = Some s'
    /\ Data c = d
    /\ in_round h (arrived + Z.of_nat (length d)) (cs ++ [c]) s'
    /\ stream_pending h (cs ++ [c]) s' = stream_pending h cs s ++ d.
Proof.
  intros (Hl & Hcur & st & Hst & Hstr) Hdec Hd Hlen.
  unfold loop_turn. rewrite Hl. unfold handleMessage. rewrite ParseMessageType_delta.
  change (String.eqb MessageTypeAudioDelta MessageTypeAudioDelta) with true. cbv iota.
  unfold handleAudioDelta. rewrite ParseMessage_delta.
  cbn [NewAudioDelta AudioDelta_Audio]. rewrite Hdec.
  set (s1 := match firstChunkReceivedAt s with None => _ | Some _ => _ end).
  assert (H1 : loop s1 = Looping /\ currentStream s1 = Some h /\ streams s1 = streams s).
  { unfold s1. destruct (firstChunkReceivedAt s); cbn; auto. }
  destruct H1 as (Hl1 & Hcur1 & Hs1).
  cbn [with_seqNum currentStream streams seqNum]. rewrite Hcur1, Hs1, Hst.
  destruct (streaming_push tie d (wrap64 (seqNum s1 + 1)) arrived cs st Hstr Hlen Hd)
    as (st' & -> & Hbuf & Hstr').
  eexists _, {| Data := d; Sequence := wrap64 (seqNum s1 + 1); IsDone := false; Error := None |}.
  split; [reflexivity|]. split; [reflexivity|]. split.
  - split; [exact Hl1|]. split; [exact Hcur1|]. exists st'. cbn [with_streams streams].
    rewrite lookup_insert_eq. split; [reflexivity|exact Hstr'].
  - unfold stream_pending. cbn [with_streams streams]. rewrite lookup_insert_eq, Hst.
    unfold pending. rewrite Hbuf, map_app, concat_app. cbn [map concat Data].
    rewrite app_nil_r, app_assoc. reflexivity.
Qed.

Lemma frame_done tie now h arrived cs s :
  in_round h arrived cs s -> (length cs < 100)%nat -> arrived <= int64_max ->
  exists s',
    loop_turn tie now (Inbound done_frame) s = Some s'
    /\ after_round h arrived cs s'
    /\ stream_pending h cs s' = stream_pending h cs s.
Proof.
  intros (Hl & Hcur & st & Hst & Hstr) Hlen Hmax.
  unfold loop_turn. rewrite Hl. unfold handleMessage. rewrite ParseMessageType_done.
  change (String.eqb MessageTypeAudioDone MessageTypeAudioDelta) with false.
  change (String.eqb MessageTypeAudioDone MessageTypeAudioDone) with true. cbv iota.
  eexists. split; [reflexivity|].
  destruct (streaming_seal arrived cs st Hstr Hlen Hmax) as [Hseal Hbuf].
  unfold handleAudioDone, detach. rewrite Hcur.
  split.
  - exists (pushDone st). cbn [with_streams with_round streams].
    rewrite lookup_alter_eq, Hst. split; [reflexivity|exact Hseal].
  - unfold stream_pending. cbn [with_streams with_round streams].
    rewrite lookup_alter_eq, Hst. cbn [fmap option_fmap option_map]. unfold pending. rewrite Hbuf. reflexivity.
Qed.


Lemma read_in_round n h arrived cs s p e s' :
  (1 <= n)%nat -> in_round h arrived cs s -> arrived <= int64_max ->
  stream_Read h n s = Some (p, e, s') ->
  e = None /\ p <> [] /\
  exists cs', in_round h arrived cs' s'
              /\ stream_pending h cs s = p ++ stream_pending h cs' s'
              /\ (length cs' <= length cs)%nat.
Proof.
  intros Hn (Hl & Hcur & st & Hst & Hstr) Hmax. unfold stream_Read. rewrite Hst.
  destruct (Read n st) as [|p0 e0 st'] eqn:Hr; [discriminate|]. intros [= <- <- <-].
  destruct (streaming_read n arrived cs st p0 e0 st' Hn Hstr Hmax Hr)
    as (He & Hp & cs' & Hstr' & Hpend & Hlen).
  split; [exact He|]. split; [exact Hp|]. exists cs'. split; [|split; [|exact Hlen]].
  - split; [exact Hl|]. split; [exact Hcur|]. exists st'. cbn [with_streams streams].
    rewrite lookup_insert_eq. split; [reflexivity|exact Hstr'].
  - unfold stream_pending. cbn [with_streams streams]. rewrite lookup_insert_eq, Hst. exact Hpend.
Qed.

Lemma only_reads moves : frames_of moves = [] -> moves = map ReadCall (sizes_of moves).
Proof.
  induction moves as [|[tie now data|n] moves IH]; intros H; [reflexivity|discriminate H|].
  cbn [sizes_of flat_map app map]. f_equal. apply IH. exact H.
Qed.

Lemma with_streams_same s : with_streams s (streams s) = s.
Proof. destruct s; reflexivity. Qed.

Lemma run_reads h ns : forall s st,
  streams s !! h = Some st ->
  run_round h (map ReadCall ns) s =
  match read_many ns st with
  | Some (rs, st') => Some (rs, with_streams s (<[h := st']> (streams s)))
  | None => None
  end.
Proof.
  induction ns as [|n ns IH]; intros s st Hst.
  - cbn [map run_round read_many]. rewrite insert_id by exact Hst. rewrite with_streams_same.
    reflexivity.
  - cbn [map run_round read_many]. unfold stream_Read. rewrite Hst.
    destruct (Read n st) as [|p e st1]; [reflexivity|].
    rewrite (IH _ st1) by (cbn [with_streams streams]; apply lookup_insert_eq).
    destruct (read_many ns st1) as [[rs st2]|]; [|reflexivity].
    cbn [with_streams streams]. rewrite insert_insert_eq. reflexivity.
Qed.

Lemma reads_after_round h total cs moves s :
  frames_of moves = [] -> Forall (fun n => (1 <= n)%nat) (sizes_of moves) ->
  after_round h total cs s ->
  exists rs s2,
    run_round h moves s = Some (rs, s2) /\ drained (stream_pending h cs s) rs
    /\ length rs = length moves
    /\ (at_eof rs -> exists st, streams s2 !! h = Some st /\ finished st /\ totalSize st = total)
    /\ (~ at_eof rs ->
        exists cs2, after_round h total cs2 s2
                    /\ stream_pending h cs s = concat (map fst rs) ++ stream_pending h cs2 s2).
Proof.
  intros Hfr Hns (st & Hst & Hseal). pose proof (only_reads moves Hfr) as Hm.
  set (ns := sizes_of moves) in *. clearbody ns. subst moves.
  rewrite (run_reads h _ s st Hst).
  destruct (read_many_sealed total ns cs st Hns Hseal)
    as (rs & st' & -> & Hd & Hl & He & Hno).
  eexists _, _. split; [reflexivity|]. unfold stream_pending at 1. rewrite Hst.
  split; [exact Hd|]. split; [rewrite length_map; exact Hl|]. split.
  - intros Hin. exists st'. cbn [with_streams streams]. rewrite lookup_insert_eq.
    split; [reflexivity|]. apply He. exact Hin.
  - intros Hn. destruct (Hno Hn) as (cs2 & Hs2 & Hp2). exists cs2. split.
    + exists st'. cbn [with_streams streams]. rewrite lookup_insert_eq. split; [reflexivity|exact Hs2].
    + unfold stream_pending. cbn [with_streams streams]. rewrite lookup_insert_eq, Hst. exact Hp2.
Qed.

Lemma round_runs h : forall moves payloads ds cs arrived s rs s2,
  in_round h arrived cs s -> Forall2 decodes payloads ds ->
  frames_of moves = map delta_frame payloads ++ [done_frame] ->
  Forall (fun n => (1 <= n)%nat) (sizes_of moves) ->
  (length cs + length payloads < 100)%nat ->
  arrived + Z.of_nat (length (concat ds)) <= int64_max ->
  run_round h moves s = Some (rs, s2) ->
  drained (stream_pending h cs s ++ concat ds) rs
  /\ (at_eof rs ->
      exists st, streams s2 !! h = Some st /\ finished st
                 /\ totalSize st = arrived + Z.of_nat (length (concat ds)))
  /\ (~ at_eof rs ->
      exists cs2, after_round h (arrived + Z.of_nat (length (concat ds))) cs2 s2
                  /\ stream_pending h cs s ++ concat ds
                     = concat (map fst rs) ++ stream_pending h cs2 s2).
Proof.
  induction moves as [|[tie now data|n] moves IH];
    intros payloads ds cs arrived s rs s2 Hin Hdec Hfr Hns Hlen Hmax Hrun.
  - destruct payloads; discriminate Hfr.
  - cbn [frames_of flat_map app] in Hfr. cbn [sizes_of flat_map app] in Hns.
    cbn [run_round] in Hrun.
    destruct payloads as [|a payloads].
    + cbn [map app] in Hfr. injection Hfr as -> Hfr.
      apply Forall2_nil_inv_l in Hdec as ->. cbn [concat length] in *.
      rewrite Z.add_0_r in *. rewrite app_nil_r.
      destruct (frame_done tie now h arrived cs s Hin ltac:(lia) Hmax) as (s' & Hs' & Hafter & Hpend).
      rewrite Hs' in Hrun.
      destruct (reads_after_round h arrived cs moves s' Hfr Hns Hafter)
        as (rs' & s2' & Hrun' & Hd & _ & He & Hno).
      fold (frames_of moves) in Hfr. rewrite Hrun' in Hrun. injection Hrun as <- <-.
      rewrite <- Hpend. auto.
    + cbn [map app] in Hfr. injection Hfr as -> Hfr.
      apply Forall2_cons_inv_l in Hdec as (d & ds' & [Hd Hne] & Hdec & ->).
      cbn [length] in Hlen.
      destruct (frame_delta tie now a d h arrived cs s Hin Hd Hne ltac:(lia))
        as (s' & c & Hs' & Hc & Hin' & Hpend).
      rewrite Hs' in Hrun. cbn [concat] in *. rewrite length_app in *.
      destruct (IH payloads ds' (cs ++ [c]) (arrived + Z.of_nat (length d)) s' rs s2
                  Hin' Hdec Hfr Hns) as (Hdr & He & Hno); [rewrite length_app; cbn [length]; lia|lia|exact Hrun|].
      rewrite Hpend, <- app_assoc in Hdr, Hno.
      replace (arrived + Z.of_nat (length d) + Z.of_nat (length (concat ds')))
        with (arrived + Z.of_nat (length d + length (concat ds'))) in He, Hno by lia.
      auto.
  - cbn [frames_of flat_map app] in Hfr. cbn [sizes_of flat_map app] in Hns.
    apply Forall_cons_iff in Hns as [Hn Hns].
    cbn [run_round] in Hrun.
    destruct (stream_Read h n s) as [[[p e] s']|] eqn:Hread; [|discriminate].
    destruct (run_round h moves s') as [[rs' s2']|] eqn:Hrun'; [|discriminate].
    injection Hrun as <- <-.
    destruct (read_in_round n h arrived cs s p e s' Hn Hin ltac:(lia) Hread)
      as (-> & Hp & cs' & Hin' & Hpend & Hlen').
    destruct (IH payloads ds cs' arrived s' rs' s2' Hin' Hdec Hfr Hns ltac:(lia) Hmax Hrun')
      as (Hdr & He & Hno).
    rewrite Hpend, <- app_assoc. split; [apply drained_data; assumption|]. split.
    + intros [Hx|Hin2]; [discriminate Hx|]. apply He. exact Hin2.
    + intros Hn'. destruct Hno as (cs2 & Ha2 & Hp2); [intros Hin2; apply Hn'; right; exact Hin2|].
      exists cs2. split; [exact Ha2|]. cbn [map fst concat]. rewrite Hp2, app_assoc. reflexivity.
Qed.

Lemma drained_eof_dec bytes rs : drained bytes rs -> at_eof rs \/ ~ at_eof rs.
Proof.
  induction 1 as [bytes|p bytes rs Hp Hd IH|rs Hf].
  - right. intros [].
  - destruct IH as [IH|IH]; [left; right; exact IH|].
    right. intros [Hx|Hin]; [injection Hx as -> _; congruence|auto].
  - left. left. reflexivity.
Qed.

Lemma reads_when_finished h ns s st :
  streams s !! h = Some st -> finished st ->
  exists rs s', run_round h (map ReadCall ns) s = Some (rs, s').
Proof.
  intros Hst Hf. rewrite (run_reads h ns s st Hst), (read_many_finished ns st Hf).
  eexists _, _. reflexivity.
Qed.

(** C6.  A round is started by [SynthesizeStream]; the message loop
    handles three audio.delta frames whose payloads decode to 100, 200 and
    50 bytes, then audio.done, while the consumer calls [Read] with
    non-empty slices at any points in between and after.  The four frames
    are handled without waiting.  The reads return data without an error,
    then the end of the stream: the data are the 350 bytes in their order,
    a read reports the end of the stream only after all of them were
    returned, and it does so at the latest at read number 351; from then on
    [TotalSize] is 350.  Once the frames were handled no later read
    waits. *)
Theorem round_of_350_bytes s text now s1 h a1 a2 a3 d1 d2 d3 moves :
  SynthesizeStream text now s = (s1, Ok h) -> loop s1 = Looping ->
  Base64.DecodeString a1 = Ok d1 -> Base64.DecodeString a2 = Ok d2 ->
  Base64.DecodeString a3 = Ok d3 ->
  length d1 = 100%nat -> length d2 = 200%nat -> length d3 = 50%nat ->
  frames_of moves = [delta_frame a1; delta_frame a2; delta_frame a3; done_frame] ->
  Forall (fun n => (1 <= n)%nat) (sizes_of moves) ->
  (forall tie1 t1 tie2 t2 tie3 t3 tie4 t4,
     exists s2,
       run_round h [Frame tie1 t1 (delta_frame a1); Frame tie2 t2 (delta_frame a2);
                    Frame tie3 t3 (delta_frame a3); Frame tie4 t4 done_frame] s1
       = Some ([], s2))
  /\ (forall rs s2, run_round h moves s1 = Some (rs, s2) ->
        drained (d1 ++ d2 ++ d3) rs
        /\ (350 < length rs -> at_eof rs)%nat
        /\ (at_eof rs ->
            concat (map fst rs) = d1 ++ d2 ++ d3
            /\ length (concat (map fst rs)) = 350%nat
            /\ exists st, streams s2 !! h = Some st /\ finished st /\ TotalSize st = 350)
        /\ (forall ns, Forall (fun n => (1 <= n)%nat) ns ->
            exists rs' s3, run_round h (map ReadCall ns) s2 = Some (rs', s3))).
Proof.
  intros Hsyn Hloop H1 H2 H3 L1 L2 L3 Hfr Hns.
  destruct (SynthesizeStream_ok text now s s1 h Hsyn) as (Hcur & Hst & _).
  assert (Hin : in_round h 0 [] s1).
  { split; [exact Hloop|]. split; [exact Hcur|]. exists newAudioStream.
    split; [exact Hst|apply streaming_new]. }
  assert (Hn1 : d1 <> []) by (intros ->; discriminate L1).
  assert (Hn2 : d2 <> []) by (intros ->; discriminate L2).
  assert (Hn3 : d3 <> []) by (intros ->; discriminate L3).
  assert (Hdec : Forall2 decodes [a1; a2; a3] [d1; d2; d3]).
  { repeat constructor; assumption. }
  assert (Hlen : length (concat [d1; d2; d3]) = 350%nat).
  { cbn [concat]. rewrite !length_app, L1, L2, L3. reflexivity. }
  assert (Hpend : stream_pending h [] s1 ++ concat [d1; d2; d3] = d1 ++ d2 ++ d3).
  { unfold stream_pending. rewrite Hst. cbn. rewrite app_nil_r. reflexivity. }
  split.
  - intros tie1 t1 tie2 t2 tie3 t3 tie4 t4. cbn [run_round].
    destruct (frame_delta tie1 t1 a1 d1 h 0 [] s1 Hin H1 Hn1 ltac:(cbn; lia))
      as (sa & c1 & -> & _ & Hina & _).
    destruct (frame_delta tie2 t2 a2 d2 h _ _ sa Hina H2 Hn2 ltac:(cbn; lia))
      as (sb & c2 & -> & _ & Hinb & _).
    destruct (frame_delta tie3 t3 a3 d3 h _ _ sb Hinb H3 Hn3 ltac:(cbn; lia))
      as (sc & c3 & -> & _ & Hinc & _).
    destruct (frame_done tie4 t4 h _ _ sc Hinc ltac:(cbn; lia))
      as (sd & -> & _ & _).
    { rewrite L1, L2, L3. now vm_compute. }
    exists sd. reflexivity.
  - intros rs s2 Hrun.
    destruct (round_runs h moves [a1; a2; a3] [d1; d2; d3] [] 0 s1 rs s2 Hin Hdec Hfr Hns
                ltac:(cbn; lia) ltac:(rewrite Hlen; now vm_compute) Hrun) as (Hdr & He & Hno).
    rewrite Hpend in Hdr, Hno. rewrite Hlen in He, Hno. cbn [Z.add Z.of_nat] in He, Hno.
    split; [exact Hdr|]. split; [|split].
    + intros Hl. apply (drained_reaches_eof _ _ Hdr). rewrite !length_app, L1, L2, L3.
      cbn. lia.
    + intros Heof. pose proof (drained_all _ _ Hdr Heof) as Hall.
      split; [exact Hall|]. split.
      * rewrite Hall, !length_app, L1, L2, L3. reflexivity.
      * destruct (He Heof) as (st & Hst2 & Hfin & Htot). exists st. auto.
    + intros ns Hns'. destruct (drained_eof_dec _ _ Hdr) as [Heof|Hne].
      * destruct (He Heof) as (st & Hst2 & Hfin & _).
        apply (reads_when_finished h ns s2 st Hst2 Hfin).
      * destruct (Hno Hne) as (cs2 & Hafter & _).
        assert (Hfr' : frames_of (map ReadCall ns) = []).
        { clear. induction ns; [reflexivity|exact IHns]. }
        assert (Hsz : sizes_of (map ReadCall ns) = ns).
        { clear. induction ns; [reflexivity|]. cbn [map sizes_of flat_map app]. f_equal. exact IHns. }
        destruct (reads_after_round h 350 cs2 (map ReadCall ns) s2 Hfr'
                    ltac:(rewrite Hsz; exact Hns') Hafter) as (rs' & s3 & Hr & _).
        exists rs', s3. exact Hr.
Qed.

Lemma round_of_350_bytes_witness :
  let s1 := fst (SynthesizeStream "hello" 7 idle_session) in
  let moves :=
    [Frame false 8 (delta_frame (payload 100)); ReadCall 64;
     Frame false 9 (delta_frame (payload 200)); Frame false 10 (delta_frame (payload 50));
     ReadCall 4096; Frame false 11 done_frame; ReadCall 4096; ReadCall 4096;
     ReadCall 4096] in
  exists rs s2,
    run_round 0 moves s1 = Some (rs, s2)
    /\ drained (silence 100 ++ silence 200 ++ silence 50) rs
    /\ (350 < length rs -> at_eof rs)%nat
    /\ (at_eof rs ->
        concat (map fst rs) = silence 100 ++ silence 200 ++ silence 50
        /\ length (concat (map fst rs)) = 350%nat
        /\ exists st, streams s2 !! 0%nat = Some st /\ finished st /\ TotalSize st = 350)
    /\ (forall ns, Forall (fun n => (1 <= n)%nat) ns ->
        exists rs' s3, run_round 0 (map ReadCall ns) s2 = Some (rs', s3)).
Proof.
  intros s1 moves.
  assert (Hrun : exists rs s2, run_round 0 moves s1 = Some (rs, s2))
    by (vm_compute; eexists; eexists; reflexivity).
  destruct Hrun as (rs & s2 & Hrun). exists rs, s2. split; [exact Hrun|].
  revert rs s2 Hrun.
  refine (proj2 (round_of_350_bytes idle_session "hello" 7 s1 0
                   (payload 100) (payload 200) (payload 50)
                   (silence 100) (silence 200) (silence 50) moves _ _ _ _ _ _ _ _ _ _));
    try (vm_compute; reflexivity).
  unfold moves. cbn [sizes_of flat_map app]. repeat (constructor; [lia|]). constructor.
Defined.

End TtsRoundSpec.

(** ** Callers of a function guarded by [sync.Once] *)

Module ConcurrentSpec.
Import Concurrent.
Section Callers.
Local Open Scope nat_scope.
Variable State : Type.
Variable get_once : State -> once.
Variable set_once : State -> once -> State.
Variable body : list (State -> State).
Hypothesis get_set : forall s o, get_once (set_once s o) = o.
Hypothesis body_keeps_once : Forall (fun f => forall s, get_once (f s) = get_once s) body.


Lemma run_body_app fs gs (s : State) :
  run_body (fs ++ gs) s = run_body gs (run_body fs s).
Proof. unfold run_body. apply fold_left_app. Qed.

Lemma run_body_keeps_once fs (s : State) :
  Forall (fun f => forall s, get_once (f s) = get_once s) fs ->
  get_once (run_body fs s) = get_once s.
Proof.
  intros H. revert s. induction H as [|f fs Hf _ IH]; intros s; [reflexivity|].
  cbn. unfold run_body in IH. rewrite IH. apply Hf.
Qed.

Lemma once_inside k s0 : get_once (run_body (take k body) (set_once s0 Busy)) = Busy.
Proof.
  rewrite run_body_keeps_once; [apply get_set|].
  rewrite <- (take_drop k body) in body_keeps_once.
  apply Forall_app in body_keeps_once. tauto.
Qed.

Lemma once_Do s0 : get_once s0 = Fresh -> get_once (Do get_once set_once body s0) = Spent.
Proof. intros H. unfold Concurrent.Do. rewrite H. apply get_set. Qed.

Lemma lookup_repeat_calling n u : u < n -> repeat Calling n !! u = Some Calling.
Proof.
  revert u. induction n as [|n IH]; intros u Hu; [lia|].
  destruct u as [|u]; [reflexivity|]. cbn. apply IH. lia.
Qed.

Lemma lookup_beyond {A} (l : list A) u : length l <= u -> l !! u = None.
Proof. apply lookup_ge_None_2. Qed.

Lemma step_inv s0 n t w : get_once s0 = Fresh -> inv get_once set_once body s0 n w -> inv get_once set_once body s0 n (step get_once set_once body t w).
Proof.
  intros Hfresh Hw. destruct Hw as [|t0 k Ht0 Hk|cs Hlen Hall Hret].
  - unfold Concurrent.step, begin. cbn [callers state].
    destruct (decide (t < n)) as [Ht|Ht].
    + rewrite lookup_repeat_calling by exact Ht. rewrite Hfresh.
      apply (inv_busy _ get_once set_once body s0 n t 0); [exact Ht|lia].
    + rewrite lookup_beyond by (rewrite repeat_length; lia). constructor.
  - unfold Concurrent.step. cbn [callers state].
    destruct (decide (t = t0)) as [->|Hne].
    + rewrite list_lookup_insert_eq by (rewrite repeat_length; exact Ht0).
      destruct (body !! k) as [f|] eqn:Hf.
      * rewrite list_insert_insert_eq.
        replace (f (run_body (take k body) (set_once s0 Busy)))
          with (run_body (take (S k) body) (set_once s0 Busy)).
        { apply inv_busy; [exact Ht0|]. apply lookup_lt_Some in Hf. lia. }
        rewrite (take_S_r _ _ _ Hf), run_body_app. reflexivity.
      * rewrite list_insert_insert_eq.
        apply lookup_ge_None_1 in Hf.
        rewrite take_ge by lia.
        replace (set_once (run_body body (set_once s0 Busy)) Spent) with (Do get_once set_once body s0)
          by (unfold Concurrent.Do; rewrite Hfresh; reflexivity).
        apply inv_spent.
        -- rewrite length_insert, repeat_length. reflexivity.
        -- apply Forall_insert; [|auto]. apply Forall_forall. intros p Hp.
           apply list_elem_of_In, repeat_spec in Hp. auto.
        -- exists t0. apply list_lookup_insert_eq. rewrite repeat_length. exact Ht0.
    + rewrite list_lookup_insert_ne by congruence.
      destruct (decide (t < n)) as [Ht|Ht].
      * rewrite lookup_repeat_calling by exact Ht. rewrite once_inside.
        apply inv_busy; assumption.
      * rewrite lookup_beyond by (rewrite repeat_length; lia). apply inv_busy; assumption.
  - unfold Concurrent.step. cbn [callers state].
    destruct (cs !! t) as [p|] eqn:Hp; [|apply inv_spent; assumption].
    destruct p as [|k|].
    + rewrite (once_Do s0 Hfresh). apply inv_spent.
      * rewrite length_insert. exact Hlen.
      * apply Forall_insert; auto.
      * exists t. apply list_lookup_insert_eq. apply lookup_lt_Some in Hp. exact Hp.
    + exfalso. rewrite Forall_forall in Hall.
      destruct (Hall (Inside k)) as [H|H]; [|discriminate H|discriminate H].
      apply list_elem_of_lookup. exists t. exact Hp.
    + apply inv_spent; assumption.
Qed.

Lemma run_inv s0 n sched w : get_once s0 = Fresh -> inv get_once set_once body s0 n w -> inv get_once set_once body s0 n (run get_once set_once body sched w).
Proof.
  intros Hfresh. revert w. induction sched as [|t sched IH]; intros w Hw; [exact Hw|].
  cbn. apply IH. apply step_inv; assumption.
Qed.

Lemma run_app sched sched' w : run get_once set_once body (sched ++ sched') w = run get_once set_once body sched' (run get_once set_once body sched w).
Proof. unfold Concurrent.run. apply fold_left_app. Qed.

(** Whatever the schedule, the state is the one before the call, the
    one after some of the statements of the function, or the one after
    the call. *)
Lemma inv_state s0 n w :
  inv get_once set_once body s0 n w ->
  state w = s0
  \/ (exists k, k <= length body
                /\ state w = run_body (take k body) (set_once s0 Busy))
  \/ state w = Do get_once set_once body s0.
Proof. intros [|t k _ Hk|cs _ _ _]; cbn; eauto. Qed.

Lemma all_returned_lookup (w : world State) t p :
  all_returned w = true -> callers w !! t = Some p -> p = Returned.
Proof.
  unfold all_returned. intros H Hp. rewrite forallb_forall in H.
  apply list_elem_of_lookup_2, list_elem_of_In, H in Hp. destruct p; [discriminate|discriminate|reflexivity].
Qed.

(** Once every caller has returned, the function has run once. *)
Lemma inv_returned s0 n w :
  0 < n -> inv get_once set_once body s0 n w -> all_returned w = true -> state w = Do get_once set_once body s0.
Proof.
  intros Hn [|t k Ht _|cs _ _ _] Hall; [| |reflexivity]; exfalso.
  - assert (H := all_returned_lookup _ 0 Calling Hall). cbn in H.
    rewrite lookup_repeat_calling in H by exact Hn. discriminate (H eq_refl).
  - assert (H := all_returned_lookup _ t (Inside k) Hall). cbn in H.
    rewrite list_lookup_insert_eq in H by (rewrite repeat_length; exact Ht).
    discriminate (H eq_refl).
Qed.

Lemma todo_insert (cs : list pc) t p p' :
  cs !! t = Some p ->
  list_sum (map (weight body) (<[t := p']> cs)) + weight body p = list_sum (map (weight body) cs) + weight body p'.
Proof.
  revert t. induction cs as [|c cs IH]; intros t Ht; [discriminate|].
  destruct t as [|t]; cbn [lookup list_lookup] in Ht; cbn [insert list_insert map];
    change (list_sum (?a :: ?l)) with (a + list_sum l).
  - injection Ht as ->. lia.
  - specialize (IH t Ht). unfold insert in *. lia.
Qed.

Lemma not_all_returned (cs : list pc) :
  forallb (fun p => match p with Returned => true | _ => false end) cs = false ->
  exists t p, cs !! t = Some p /\ p <> Returned.
Proof.
  induction cs as [|c cs IH]; [discriminate|]. cbn.
  destruct c; try (intros _; exists 0; eexists; split; [reflexivity|discriminate]).
  intros H. destruct (IH H) as (t & p & Ht & Hp). exists (S t), p. auto.
Qed.

(** While a caller has not returned, some caller can take a step that
    brings the callers nearer to their return. *)
Lemma progress s0 n w :
  get_once s0 = Fresh -> inv get_once set_once body s0 n w -> all_returned w = false ->
  exists t, todo body (step get_once set_once body t w) < todo body w.
Proof.
  intros Hfresh Hw Hall. destruct Hw as [|t k Ht Hk|cs Hlen Hcs Hret].
  - destruct n as [|n]; [discriminate Hall|]. exists 0.
    unfold Concurrent.step, todo, begin. cbn [callers state].
    rewrite lookup_repeat_calling by lia. rewrite Hfresh. cbn [callers].
    pose proof (todo_insert (repeat Calling (S n)) 0 Calling (Inside 0)
                  (lookup_repeat_calling (S n) 0 ltac:(lia))) as H.
    cbn [weight] in H. lia.
  - exists t. unfold Concurrent.step, todo. cbn [callers state].
    assert (Hl : <[t := Inside k]> (repeat Calling n) !! t = Some (Inside k))
      by (apply list_lookup_insert_eq; rewrite repeat_length; exact Ht).
    rewrite Hl. destruct (body !! k) as [f|] eqn:Hf; cbn [callers].
    + pose proof (todo_insert _ t _ (Inside (S k)) Hl) as H.
      apply lookup_lt_Some in Hf. cbn [weight] in H. lia.
    + pose proof (todo_insert _ t _ Returned Hl) as H.
      cbn [weight] in H. lia.
  - unfold all_returned in Hall. cbn [callers] in Hall.
    destruct (not_all_returned cs Hall) as (t & p & Ht & Hp). exists t.
    unfold Concurrent.step, todo. cbn [callers state]. rewrite Ht.
    destruct p as [|k|]; [| |congruence].
    + rewrite (once_Do s0 Hfresh). cbn [callers].
      pose proof (todo_insert cs t _ Returned Ht) as H.
      cbn [weight] in H. lia.
    + exfalso. rewrite Forall_forall in Hcs.
      destruct (Hcs (Inside k)) as [H|H]; [|discriminate H|discriminate H].
      apply list_elem_of_lookup. exists t. exact Ht.
Qed.

(** No schedule leads the callers into a deadlock: from wherever it has
    brought them, they can all return. *)
Lemma completes s0 n w :
  get_once s0 = Fresh -> inv get_once set_once body s0 n w ->
  exists sched, all_returned (run get_once set_once body sched w) = true.
Proof.
  intros Hfresh. remember (todo body w) as m eqn:Hm. revert w Hm.
  induction m as [m IH] using lt_wf_ind. intros w Hm Hw.
  destruct (all_returned w) eqn:Hall; [exists []; exact Hall|].
  destruct (progress s0 n w Hfresh Hw Hall) as [t Ht].
  destruct (IH (todo body (step get_once set_once body t w)) ltac:(lia) (step get_once set_once body t w) eq_refl (step_inv s0 n t w Hfresh Hw))
    as [sched Hs].
  exists (t :: sched). exact Hs.
Qed.

End Callers.
End ConcurrentSpec.

(** ** The recognition session *)

Module SttSessionSpec.
Import Json Protocol Codec Transport Stt SttLife.

Lemma stt_sendEvent_footprint tie e s : exists ch, sendEvent tie e s = with_events s ch.
Proof.
  unfold sendEvent. destruct (Chan.has_room (eventsCh s)); [destruct (closeCh s && tie)|];
    eauto; exists (eventsCh s); destruct s; reflexivity.
Qed.

Lemma stt_handleMessage_footprint tie data s : exists ch, handleMessage tie data s = with_events s ch.
Proof.
  assert (Hid : exists ch, s = with_events s ch) by (exists (eventsCh s); destruct s; reflexivity).
  unfold handleMessage, handlePartial, handleFinal, handleError.
  destruct (ParseMessageType data) as [t|]; [|exact Hid].
  repeat match goal with
  | |- exists ch, (if ?b then _ else _) = _ => destruct b
  | |- exists ch, match ParseMessage data with _ => _ end = _ => destruct (ParseMessage data) as [[]|]
  end; try exact Hid; apply stt_sendEvent_footprint.
Qed.

Lemma stt_control_with_events s ch : control_of (with_events s ch) = control_of s.
Proof. reflexivity. Qed.

Lemma stt_loop_turn_control tie tie' sel s : control_of (loop_turn tie tie' sel s) = control_of s.
Proof.
  unfold loop_turn. destruct (loop s); try reflexivity.
  destruct sel; unfold loop_exit;
    repeat match goal with
    | |- context [sendEvent ?t ?e ?x] =>
        let ch := fresh "ch" in let H := fresh "H" in
        destruct (stt_sendEvent_footprint t e x) as [ch H]; rewrite H; clear H
    end; try reflexivity.
  destruct (stt_handleMessage_footprint tie data s) as [ch ->]. reflexivity.
Qed.

Lemma stt_loop_turn_loop tie tie' sel s : loop s = NotStarted -> loop (loop_turn tie tie' sel s) = NotStarted.
Proof. intros H. unfold loop_turn. rewrite H. exact H. Qed.

Lemma stt_Send_control audio s : control_of (fst (Send audio s)) = control_of s /\ loop (fst (Send audio s)) = loop s.
Proof.
  unfold Send. destruct (closed s); [auto|]. destruct (negb (ready s)); [auto|].
  destruct (SendJSON _ _). auto.
Qed.

Lemma stt_Commit_control s : control_of (fst (Commit s)) = control_of s /\ loop (fst (Commit s)) = loop s.
Proof. unfold Commit. destruct (closed s); [auto|]. destruct (SendJSON _ _). auto. Qed.

Lemma stt_take_event_control s : control_of (take_event s) = control_of s /\ loop (take_event s) = loop s.
Proof. unfold take_event. destruct (Chan.recv _); auto. Qed.

Lemma stt_waitReady_ok tie sel s s' :
  waitReady tie sel s = (s', Ok tt) ->
  exists data rdy, sel = MessageRead data /\ handshake data rdy
                   /\ ID s' = SessionID rdy /\ ready s' = true /\ loop s' = loop s
                   /\ conn s' = conn s.
Proof.
  unfold waitReady. destruct sel as [e| |e|data]; cbn [Receive]; try discriminate.
  destruct (ParseMessageType data) as [t|e] eqn:Ht; [|discriminate].
  destruct (String.eqb_spec t MessageTypeSessionReady) as [->|]; cbn [negb]; [|discriminate].
  destruct (ParseMessage data) as [[]|] eqn:Hp; try discriminate.
  intros [= <-]. exists data, m. split; [reflexivity|]. split; [split; assumption|].
  match goal with |- context [sendEvent ?t ?e ?x] => destruct (stt_sendEvent_footprint t e x) as [ch ->] end.
  cbn. auto.
Qed.

Lemma stt_waitReady_err tie sel s s' e : waitReady tie sel s = (s', Err e) -> s' = s.
Proof.
  unfold waitReady. destruct (Receive sel); [|intros [= <-]; reflexivity].
  destruct (ParseMessageType a); [|intros [= <-]; reflexivity].
  destruct (negb _); [intros [= <-]; reflexivity|].
  destruct (ParseMessage a) as [[]|]; intros [= <-]; reflexivity.
Qed.



(* start: either fails before ready (state unchanged) or sets ready *)
Lemma stt_start_cases tie sel s :
  fst (start tie sel s) = s
  \/ exists data rdy, sel = MessageRead data /\ handshake data rdy
       /\ ID (fst (start tie sel s)) = SessionID rdy /\ ready (fst (start tie sel s)) = true
       /\ c_closed (control_of (fst (start tie sel s))) = closed s
       /\ closeOnce (fst (start tie sel s)) = closeOnce s
       /\ closeCh (fst (start tie sel s)) = closeCh s
       /\ history (fst (start tie sel s)) = history s
       /\ fault (fst (start tie sel s)) = fault s.
Proof.
  unfold start. destruct (waitReady tie sel s) as [s1 [[]|e]] eqn:Hw.
  - right. destruct (stt_waitReady_ok tie sel s s1 Hw) as (data & rdy & -> & Hh & Hid & Hr & _).
    exists data, rdy. split; [reflexivity|]. split; [exact Hh|].
    assert (Hc : closed s1 = closed s /\ closeOnce s1 = closeOnce s /\ closeCh s1 = closeCh s
                 /\ history s1 = history s /\ fault s1 = fault s).
    { revert Hw. unfold waitReady. cbn [Receive].
      destruct (ParseMessageType data); [|discriminate]. destruct (negb _); [discriminate|].
      destruct (ParseMessage data) as [[]|]; try discriminate. intros [= <-].
      match goal with |- context [sendEvent ?t ?e ?x] => destruct (stt_sendEvent_footprint t e x) as [ch ->] end.
      cbn. auto. }
    destruct Hc as (? & ? & ? & ? & ?).
    unfold sendConfig. destruct (SendJSON _ _) as [c [[]|e]]; cbn; auto 10.
  - left. apply stt_waitReady_err in Hw. subst. reflexivity.
Qed.

Lemma stt_control_with_once s o : control_of (with_once s o) = ctl_once o (control_of s).
Proof. reflexivity. Qed.
Lemma stt_control_mark_closed s :
  control_of (mark_closed s) = ctl_note MarkedClosed (ctl_closed (control_of s)).
Proof. reflexivity. Qed.
Lemma stt_control_send_end s : control_of (send_end s) = ctl_note SentSessionEnd (control_of s).
Proof. reflexivity. Qed.
Lemma stt_control_await_peer s : control_of (await_peer s) = ctl_note WaitedForPeer (control_of s).
Proof. reflexivity. Qed.
Lemma stt_control_close_closeCh s :
  control_of (close_closeCh s) = ctl_note ClosedCloseCh (ctl_closeCh (control_of s)).
Proof. reflexivity. Qed.
Lemma stt_control_close_conn s : control_of (close_conn s) = ctl_note ClosedConn (control_of s).
Proof. reflexivity. Qed.

Lemma stt_control_Close s :
  closeOnce s = Fresh ->
  control_of (Close s)
  = ctl_once Spent
      (ctl_note ClosedConn
         (ctl_note ClosedCloseCh
            (ctl_closeCh
               (ctl_note WaitedForPeer
                  (ctl_note SentSessionEnd
                     (ctl_note MarkedClosed (ctl_closed (ctl_once Busy (control_of s))))))))).
Proof.
  intros H. unfold Close. rewrite H. cbn [fold_left teardown_steps].
  rewrite stt_control_with_once, stt_control_close_conn, stt_control_close_closeCh, stt_control_await_peer,
    stt_control_send_end, stt_control_mark_closed, stt_control_with_once. reflexivity.
Qed.

Lemma stt_Close_fresh s :
  closeOnce s = Fresh ->
  control_of (Close s)
  = {| c_ID := ID s; c_ready := ready s; c_closed := true; c_closeOnce := Spent;
       c_closeCh := true; c_history := history s ++ teardown_log;
       c_fault := fault s || closeCh s |}
  /\ loop (Close s) = loop s /\ eventsCh (Close s) = eventsCh s.
Proof.
  intros H. split; [|split].
  - rewrite (stt_control_Close s H).
    change (ID s) with (c_ID (control_of s)). change (ready s) with (c_ready (control_of s)).
    change (history s) with (c_history (control_of s)).
    change (fault s) with (c_fault (control_of s)).
    change (closeCh s) with (c_closeCh (control_of s)).
    generalize (control_of s) as c. intros c. destruct c as [i r cl o ch hi f].
    cbv [ctl_once ctl_note ctl_closed ctl_closeCh c_ID c_ready c_closed c_closeOnce c_closeCh
         c_history c_fault teardown_log].
    rewrite <- !app_assoc. reflexivity.
  - unfold Close. rewrite H. reflexivity.
  - unfold Close. rewrite H. reflexivity.
Qed.

Lemma stt_Close_again s : closeOnce s <> Fresh -> Close s = s.
Proof. unfold Close. destruct (closeOnce s); congruence. Qed.

Lemma stt_sound_same_control s s' :
  control_of s' = control_of s -> (loop s = NotStarted -> loop s' = NotStarted) ->
  sound s -> sound s'.
Proof.
  intros Hc Hl [Hclose Hun].
  injection Hc as Hid Hr Hcl Ho Hch Hh Hf.
  constructor.
  - rewrite Ho, Hch, Hf, Hh, Hcl. exact Hclose.
  - rewrite Hr, Hid. intros H. destruct (Hun H). auto.
Qed.

Lemma stt_step_sound s s' : step s s' -> sound s -> sound s'.
Proof.
  intros Hstep Hs. destruct Hstep as [tie sel s Hr|tie tie' sel s|audio s|s|s|s|ev s].
  - destruct (stt_start_cases tie sel s) as [->|(data & rdy & _ & _ & Hid & Hrd & Hcl & Ho & Hch & Hh & Hf)];
      [exact Hs|].
    destruct Hs as [Hclose Hun]. constructor.
    + cbn [control_of c_closed] in Hcl. rewrite Ho, Hch, Hf, Hh, Hcl. exact Hclose.
    + rewrite Hrd. discriminate.
  - apply (stt_sound_same_control s); [apply stt_loop_turn_control|apply stt_loop_turn_loop|exact Hs].
  - destruct (stt_Send_control audio s) as [Hc Hl].
    apply (stt_sound_same_control s); [exact Hc|rewrite Hl; auto|exact Hs].
  - destruct (stt_Commit_control s) as [Hc Hl].
    apply (stt_sound_same_control s); [exact Hc|rewrite Hl; auto|exact Hs].
  - destruct Hs as [[(Ho & Hch & Hf & Hh & Hcl)|(Ho & Hch & Hf & Hh & Hcl)] Hun].
    + destruct (stt_Close_fresh s Ho) as (Hc & Hl & _).
      injection Hc as Hid' Hr' Hcl' Ho' Hch' Hh' Hf'. constructor.
      * right. rewrite Ho', Hch', Hf', Hh', Hcl', Hh, Hf, Hch. repeat split; reflexivity.
      * rewrite Hr', Hid', Hl. exact Hun.
    + rewrite stt_Close_again by (rewrite Ho; discriminate). constructor; [right; repeat split; assumption|exact Hun].
  - destruct (stt_take_event_control s) as [Hc Hl].
    apply (stt_sound_same_control s); [exact Hc|rewrite Hl; auto|exact Hs].
  - apply (stt_sound_same_control s); [reflexivity|auto|exact Hs].
Qed.

Lemma stt_reachable_sound s : reachable s -> sound s.
Proof.
  induction 1 as [c cfg o|s s' _ IH Hstep].
  - constructor; [left; repeat split; reflexivity|intros _; split; reflexivity].
  - apply (stt_step_sound s s' Hstep IH).
Qed.





(** *** Close *)

Lemma stt_Close_iter n s : Nat.iter (S n) Close s = Close s.
Proof.
  induction n as [|n IH]; [reflexivity|].
  rewrite Nat.iter_succ, IH. apply stt_Close_again.
  unfold Close. destruct (closeOnce s) eqn:H; cbn; congruence.
Qed.

Lemma stt_conn_with_once s o : conn (with_once s o) = conn s.
Proof. reflexivity. Qed.
Lemma stt_conn_mark_closed s : conn (mark_closed s) = conn s.
Proof. reflexivity. Qed.
Lemma stt_conn_send_end s :
  conn (send_end s) = fst (SendJSON (MSessionEnd NewSessionEnd) (conn s)).
Proof. reflexivity. Qed.
Lemma stt_conn_await_peer s : conn (await_peer s) = conn s.
Proof. reflexivity. Qed.
Lemma stt_conn_close_closeCh s : conn (close_closeCh s) = conn s.
Proof. reflexivity. Qed.
Lemma stt_conn_close_conn s : conn (close_conn s) = Transport.Close (conn s).
Proof. reflexivity. Qed.

Lemma stt_conn_Close s :
  closeOnce s = Fresh ->
  conn (Close s) = Transport.Close (fst (SendJSON (MSessionEnd NewSessionEnd) (conn s))).
Proof.
  intros H. unfold Close. rewrite H. cbn [fold_left teardown_steps].
  rewrite stt_conn_with_once, stt_conn_close_conn, stt_conn_close_closeCh,
    stt_conn_await_peer, stt_conn_send_end, stt_conn_mark_closed, stt_conn_with_once.
  reflexivity.
Qed.

Lemma stt_Close_is_Do s : Close s = Concurrent.Do closeOnce with_once teardown_steps s.
Proof. reflexivity. Qed.

Lemma stt_body_keeps_once :
  Forall (fun f : Session -> Session => forall s, closeOnce (f s) = closeOnce s) teardown_steps.
Proof. repeat (constructor; [intros s; reflexivity|]). constructor. Qed.

(** The teardown after its first [k] statements. *)
Lemma stt_teardown_prefix k s :
  (k <= length teardown_steps)%nat ->
  history (Concurrent.run_body (take k teardown_steps) (with_once s Busy))
  = history s ++ take k teardown_log
  /\ (closeCh s = false ->
      fault (Concurrent.run_body (take k teardown_steps) (with_once s Busy)) = fault s).
Proof.
  intros Hk.
  change (history s) with (c_history (control_of s)).
  change (fault s) with (c_fault (control_of s)).
  change (closeCh s) with (c_closeCh (control_of s)).
  change (history ?x) with (c_history (control_of x)).
  change (fault ?x) with (c_fault (control_of x)).
  do 6 (destruct k as [|k]; [
    cbn [take teardown_steps teardown_log Concurrent.run_body fold_left];
    rewrite ?stt_control_close_conn, ?stt_control_close_closeCh, ?stt_control_await_peer,
      ?stt_control_send_end, ?stt_control_mark_closed, ?stt_control_with_once;
    generalize (control_of s) as c; intros c; destruct c as [i r cl o ch hi f];
    cbv [ctl_once ctl_note ctl_closed ctl_closeCh c_ID c_ready c_closed c_closeOnce c_closeCh
         c_history c_fault];
    rewrite <- ?app_assoc, ?app_nil_r; split; [reflexivity|];
    intros ->; rewrite ?orb_false_r; reflexivity |]).
  cbn in Hk. lia.
Qed.

(** Whatever the schedule of [n] callers of [Close] on a session that
    was not closed before: no statement of the teardown is taken twice,
    nothing faults, the callers can all return, and when they have the
    session is the one that a single call of [Close] leaves. *)
Lemma stt_Close_concurrent n sched s :
  reachable s -> closeOnce s = Fresh ->
  (exists k, history (Concurrent.state (Close_by n sched s)) = take k teardown_log)
  /\ fault (Concurrent.state (Close_by n sched s)) = false
  /\ ((0 < n)%nat -> Concurrent.all_returned (Close_by n sched s) = true ->
      Concurrent.state (Close_by n sched s) = Close s)
  /\ exists sched', Concurrent.all_returned (Close_by n (sched ++ sched') s) = true.
Proof.
  intros Hreach Hfresh.
  assert (Hinv : Concurrent.inv closeOnce with_once teardown_steps s n (Close_by n sched s)).
  { apply ConcurrentSpec.run_inv;
      [reflexivity|exact stt_body_keeps_once|exact Hfresh|constructor]. }
  destruct (stt_reachable_sound s Hreach) as [[(_ & Hch & Hf & Hh & _)|(Ho & _)] _];
    [|congruence].
  assert (Hdone : history (Close s) = teardown_log /\ fault (Close s) = false).
  { destruct (stt_Close_fresh s Hfresh) as (Hc & _). injection Hc as _ _ _ _ _ Hh' Hf'.
    rewrite Hh', Hf', Hh, Hf, Hch. auto. }
  split; [|split; [|split]].
  - destruct (ConcurrentSpec.inv_state _ _ _ _ _ _ _ Hinv) as [ -> | [ (k & Hk & ->) | -> ] ].
    + exists 0%nat. exact Hh.
    + exists k. rewrite (proj1 (stt_teardown_prefix k s Hk)), Hh. reflexivity.
    + exists (length teardown_log). rewrite <- stt_Close_is_Do. apply Hdone.
  - destruct (ConcurrentSpec.inv_state _ _ _ _ _ _ _ Hinv) as [ -> | [ (k & Hk & ->) | -> ] ].
    + exact Hf.
    + rewrite (proj2 (stt_teardown_prefix k s Hk) Hch). exact Hf.
    + rewrite <- stt_Close_is_Do. apply Hdone.
  - intros Hn Hall. rewrite stt_Close_is_Do.
    apply (ConcurrentSpec.inv_returned _ _ _ _ s n _ Hn Hinv Hall).
  - destruct (ConcurrentSpec.completes _ closeOnce with_once teardown_steps
                ltac:(reflexivity) stt_body_keeps_once s n _ Hfresh Hinv) as [sched' Hs].
    exists sched'. unfold Close_by. rewrite ConcurrentSpec.run_app. exact Hs.
Qed.

(** Along the life of a session nothing has faulted, and the teardown
    has not run or has run once. *)
Lemma stt_closed_state s :
  reachable s ->
  fault s = false
  /\ ((closeOnce s = Fresh /\ history s = [] /\ closed s = false)
      \/ (closeOnce s = Spent /\ history s = teardown_log /\ closed s = true
          /\ Close s = s)).
Proof.
  intros Hreach.
  destruct (stt_reachable_sound s Hreach)
    as [[(Ho & Hch & Hf & Hh & Hcl)|(Ho & Hch & Hf & Hh & Hcl)] _].
  - auto 10.
  - split; [exact Hf|]. right. repeat (split; [assumption|]).
    apply stt_Close_again. congruence.
Qed.

(** The first call of [Close]. *)
Lemma stt_Close_result s :
  reachable s -> closeOnce s = Fresh ->
  history (Close s) = teardown_log /\ fault (Close s) = false
  /\ closed (Close s) = true /\ closeCh (Close s) = true
  /\ closeOnce (Close s) = Spent
  /\ ws (conn (Close s)) = None
  /\ wire (conn (Close s)) = wire (conn s) ++ teardown_frames (conn s)
  /\ session_ends (wire (conn (Close s)))
     = (session_ends (wire (conn s)) + if live (conn s) then 1 else 0)%nat.
Proof.
  intros Hreach Hfresh.
  destruct (stt_reachable_sound s Hreach) as [[(_ & Hch & Hf & Hh & _)|(Ho & _)] _];
    [|congruence].
  destruct (stt_Close_fresh s Hfresh) as (Hc & _).
  injection Hc as _ _ Hcl' Ho' Hch' Hh' Hf'.
  rewrite Hh', Hf', Hcl', Ho', Hch', Hh, Hf, Hch, (stt_conn_Close s Hfresh).
  repeat (split; [reflexivity|]).
  split; [apply TransportSpec.ws_teardown|].
  split; [apply TransportSpec.wire_teardown|apply TransportSpec.session_ends_teardown].
Qed.

(** The sample sessions are states of a life. *)
Lemma stt_active_reachable : reachable active_session.
Proof.
  apply (moved new_session); [apply made|].
  apply (started false (MessageRead (ready_frame "sess-1")) new_session). reflexivity.
Qed.

Lemma stt_lost_reachable : reachable lost_session.
Proof. apply (moved active_session); [exact stt_active_reachable|apply conn_moved]. Qed.

Lemma stt_after_error_reachable : reachable after_error.
Proof.
  unfold after_error. cbn [messageLoop].
  apply (moved _ _ (moved _ _ stt_active_reachable (looped _ _ _ _)) (looped _ _ _ _)).
Qed.

(** *** The message loop *)

Lemma stt_sendEvent_cases tie e s :
  sendEvent tie e s = s \/ sendEvent tie e s = with_events s (Chan.push e (eventsCh s)).
Proof.
  unfold sendEvent. destruct (Chan.has_room (eventsCh s)); [|auto].
  destruct (closeCh s && tie); auto.
Qed.

Lemma stt_sendEvent_room tie e s :
  Chan.has_room (eventsCh s) = true -> closeCh s && tie = false ->
  sendEvent tie e s = with_events s (Chan.push e (eventsCh s)).
Proof. intros Hroom Htie. unfold sendEvent. rewrite Hroom, Htie. reflexivity. Qed.

Lemma stt_sendEvent_full tie e s : Chan.has_room (eventsCh s) = false -> sendEvent tie e s = s.
Proof. intros Hroom. unfold sendEvent. rewrite Hroom. reflexivity. Qed.

(** A frame makes the loop push at most one event, never the closed
    event. *)
Lemma stt_handleMessage_cases tie data s :
  handleMessage tie data s = s
  \/ exists ev, Type_ ev <> EventClosed
                /\ handleMessage tie data s = with_events s (Chan.push ev (eventsCh s)).
Proof.
  assert (Hsend : forall ev, Type_ ev <> EventClosed ->
            sendEvent tie ev s = s
            \/ exists ev', Type_ ev' <> EventClosed
                 /\ sendEvent tie ev s = with_events s (Chan.push ev' (eventsCh s))).
  { intros ev Hev. destruct (stt_sendEvent_cases tie ev s); [auto|]. right. exists ev. auto. }
  unfold handleMessage, handlePartial, handleFinal, handleError.
  destruct (ParseMessageType data) as [t|]; [|auto].
  repeat match goal with
  | |- (if ?b then _ else _) = _ \/ _ => destruct b
  | |- match ParseMessage data with _ => _ end = _ \/ _ =>
      destruct (ParseMessage data) as [[]|]
  end; auto; apply Hsend; discriminate.
Qed.

Lemma stt_handleMessage_error tie data e s :
  ParseMessage data = Ok (MErrorMessage e) ->
  handleMessage tie data s
  = sendEvent tie (NewErrorEvent (server_error (Code e) (Message e))) s.
Proof.
  intros Hp. unfold handleMessage.
  rewrite (CodecSpec.ParseMessage_variant _ _ Hp). cbn [tag_of].
  replace (String.eqb MessageTypeError MessageTypeTranscriptPartial) with false
    by (vm_compute; reflexivity).
  replace (String.eqb MessageTypeError MessageTypeTranscriptFinal) with false
    by (vm_compute; reflexivity).
  replace (String.eqb MessageTypeError MessageTypeInputDone) with false
    by (vm_compute; reflexivity).
  replace (String.eqb MessageTypeError MessageTypeProcessing) with false
    by (vm_compute; reflexivity).
  replace (String.eqb MessageTypeError MessageTypeError) with true
    by (vm_compute; reflexivity).
  unfold handleError. rewrite Hp. reflexivity.
Qed.

Lemma stt_handleMessage_skips tie data s :
  (forall tag, ParseMessageType data = Ok tag -> ~ In tag dispatches) ->
  handleMessage tie data s = s.
Proof.
  intros Hn. unfold handleMessage.
  destruct (ParseMessageType data) as [tag|]; [|reflexivity].
  specialize (Hn tag eq_refl). unfold dispatches in Hn. cbn [In] in Hn.
  repeat match goal with
  | |- (if String.eqb tag ?t then _ else _) = _ =>
      destruct (String.eqb_spec tag t); [exfalso; apply Hn; subst; tauto|]
  end.
  reflexivity.
Qed.

Lemma stt_loop_exit_stops tie s :
  loop (loop_exit tie s) = Stopped /\ Chan.closed (eventsCh (loop_exit tie s)) = true.
Proof. unfold loop_exit. split; reflexivity. Qed.

Lemma stt_loop_exit_room tie s :
  Chan.has_room (eventsCh s) = true -> closeCh s && tie = false ->
  Chan.buf (eventsCh (loop_exit tie s)) = Chan.buf (eventsCh s) ++ [NewClosedEvent].
Proof.
  intros Hroom Htie. unfold loop_exit. rewrite (stt_sendEvent_room _ _ _ Hroom Htie).
  reflexivity.
Qed.

(** C4, as the code has it.  An error frame handled by the message loop
    of a recognition session pushes exactly one error event, which carries
    the frame's code and message, when the event buffer has room (and the
    send does not lose a race against a closed session); with a full buffer
    the event is dropped.  The loop keeps running in both cases: a frame
    never stops it, never closes the event stream and never produces the
    closed event, and the next frames are handled as before.  The loop
    stops, and closes the event stream, only when its select yields the
    cancellation, the close signal or a read error of the connection;
    the closed event is then the last event pushed, after the error event
    of the read error if that is what stopped the loop. *)
Theorem error_frame_reported :
  (forall tie tie' data e s,
     loop s = Looping -> ParseMessage data = Ok (MErrorMessage e) ->
     Chan.has_room (eventsCh s) = true -> closeCh s && tie = false ->
     loop_turn tie tie' (Inbound data) s
     = with_events s
         (Chan.push (NewErrorEvent (server_error (Code e) (Message e))) (eventsCh s)))
  /\ (forall tie tie' data e s,
        loop s = Looping -> ParseMessage data = Ok (MErrorMessage e) ->
        Chan.has_room (eventsCh s) = false ->
        loop_turn tie tie' (Inbound data) s = s)
  /\ (forall tie tie' data s,
        loop s = Looping ->
        loop (loop_turn tie tie' (Inbound data) s) = Looping
        /\ Chan.closed (eventsCh (loop_turn tie tie' (Inbound data) s))
           = Chan.closed (eventsCh s)
        /\ (Chan.buf (eventsCh (loop_turn tie tie' (Inbound data) s)) = Chan.buf (eventsCh s)
            \/ exists ev,
                 Type_ ev <> EventClosed
                 /\ Chan.buf (eventsCh (loop_turn tie tie' (Inbound data) s))
                    = Chan.buf (eventsCh s) ++ [ev])
        /\ forall rest,
             messageLoop ((tie, tie', Inbound data) :: rest) s
             = messageLoop rest (loop_turn tie tie' (Inbound data) s))
  /\ (forall tie tie' sel s,
        loop s = Looping -> (forall data, sel <> Inbound data) ->
        loop (loop_turn tie tie' sel s) = Stopped
        /\ Chan.closed (eventsCh (loop_turn tie tie' sel s)) = true)
  /\ (forall tie tie' sel s,
        loop s = Looping -> sel = Done \/ sel = CloseSig ->
        Chan.has_room (eventsCh s) = true -> closeCh s && tie = false ->
        Chan.buf (eventsCh (loop_turn tie tie' sel s))
        = Chan.buf (eventsCh s) ++ [NewClosedEvent])
  /\ (forall tie tie' e s,
        loop s = Looping -> closeCh s = false ->
        (length (Chan.buf (eventsCh s)) + 2 <= Chan.cap (eventsCh s))%nat ->
        Chan.buf (eventsCh (loop_turn tie tie' (ConnError e) s))
        = Chan.buf (eventsCh s) ++ [NewErrorEvent e; NewClosedEvent]).
Proof.
  split; [|split; [|split; [|split; [|split]]]].
  - intros tie tie' data e s Hl Hp Hroom Htie. unfold loop_turn. rewrite Hl.
    rewrite (stt_handleMessage_error tie data e s Hp). apply stt_sendEvent_room; assumption.
  - intros tie tie' data e s Hl Hp Hroom. unfold loop_turn. rewrite Hl.
    rewrite (stt_handleMessage_error tie data e s Hp). apply stt_sendEvent_full. exact Hroom.
  - intros tie tie' data s Hl.
    assert (Ht : loop_turn tie tie' (Inbound data) s = handleMessage tie data s)
      by (unfold loop_turn; rewrite Hl; reflexivity).
    split; [|split; [|split; [|intros rest; reflexivity]]]; rewrite Ht;
      destruct (stt_handleMessage_cases tie data s) as [->|(ev & Hev & ->)];
      try reflexivity; try exact Hl.
    + left. reflexivity.
    + right. exists ev. split; [exact Hev|reflexivity].
  - intros tie tie' sel s Hl Hsel. unfold loop_turn. rewrite Hl.
    destruct sel as [| |e|data]; try apply stt_loop_exit_stops.
    destruct (Hsel data eq_refl).
  - intros tie tie' sel s Hl [->| ->] Hroom Htie; unfold loop_turn; rewrite Hl;
      apply stt_loop_exit_room; assumption.
  - intros tie tie' e s Hl Hch Hcap. unfold loop_turn. rewrite Hl.
    assert (Hroom : Chan.has_room (eventsCh s) = true)
      by (unfold Chan.has_room; apply Nat.ltb_lt; lia).
    rewrite (stt_sendEvent_room tie (NewErrorEvent e) s Hroom) by (rewrite Hch; reflexivity).
    rewrite stt_loop_exit_room.
    + cbn [eventsCh with_events Chan.push Chan.buf]. rewrite <- app_assoc. reflexivity.
    + unfold Chan.has_room. cbn [eventsCh with_events Chan.push Chan.buf Chan.cap].
      apply Nat.ltb_lt. rewrite length_app. cbn [length]. lia.
    + cbn [closeCh with_events]. rewrite Hch. reflexivity.
Qed.

Lemma error_frame_reported_witness :
  loop_turn false false (Inbound (error_frame "AUTH_ERROR" "invalid api key")) active_session
  = with_events active_session
      (Chan.push (NewErrorEvent (server_error "AUTH_ERROR" "invalid api key"))
         (eventsCh active_session)).
Proof.
  apply (proj1 error_frame_reported false false
           (error_frame "AUTH_ERROR" "invalid api key")
           {| ErrorMessage_Type := MessageTypeError; Code := "AUTH_ERROR";
              Message := "invalid api key" |} active_session).
  - reflexivity.
  - reflexivity.
  - reflexivity.
  - reflexivity.
Defined.

(** C4, the claim as written fails: after an error frame with the code
    AUTH_ERROR the loop handles the next frame, a partial transcript; the
    events are the ready event, the error event and the partial event, no
    closed event follows the error event, the event stream is open and the
    loop is running. *)
Lemma error_frame_does_not_end_stream :
  reachable after_error
  /\ map Type_ (Chan.buf (eventsCh after_error)) = [EventReady; EventError; EventPartial]
  /\ map Error (Chan.buf (eventsCh after_error))
     = [None; Some (Errorf "[AUTH_ERROR] invalid api key"); None]
  /\ Chan.closed (eventsCh after_error) = false
  /\ loop after_error = Looping.
Proof. split; [exact stt_after_error_reachable|]. vm_compute. repeat split; reflexivity. Qed.

End SttSessionSpec.

(** ** The synthesis session *)

Module TtsSessionSpec.
Import Json Protocol Codec Transport TtsStream Tts TtsLife.

Lemma tts_pushChunk_once tie c st st' : pushChunk tie c st = Pushed st' -> TtsStream.closeOnce st' = TtsStream.closeOnce st.
Proof.
  unfold pushChunk. destruct (chunkChClosed st); [discriminate|].
  destruct (Chan.has_room _); [destruct (_ && _); [discriminate|]|destruct (TtsStream.closeCh st); discriminate].
  intros [= <-]. reflexivity.
Qed.

Lemma tts_Read_once n st p e st' : Read n st = ReadReturns p e st' -> TtsStream.closeOnce st' = TtsStream.closeOnce st.
Proof.
  unfold Read. destruct (Nat.ltb _ _).
  - destruct (buffer_Read n (buffer st)) as [[? ?] ?]. intros [= _ _ <-]. reflexivity.
  - destruct (TtsStream.closed st); [intros [= _ _ <-]; reflexivity|].
    destruct (Chan.recv _) as [c ch| |]; [|intros [= _ _ <-]; reflexivity|discriminate].
    destruct (IsDone c); [intros [= _ _ <-]; reflexivity|].
    destruct (TtsStream.Error c); [intros [= _ _ <-]; reflexivity|].
    destruct (buffer_Read _ _) as [[? ?] ?]. intros [= _ _ <-]. reflexivity.
Qed.

Lemma tts_pushDone_once st : TtsStream.closeOnce (pushDone st) <> Fresh.
Proof. unfold pushDone. destruct (TtsStream.closeOnce st) eqn:H; cbn; congruence. Qed.
Lemma tts_pushError_once e st : TtsStream.closeOnce (pushError e st) <> Fresh.
Proof. unfold pushError. cbn [TtsStream.closeOnce]. destruct (TtsStream.closeOnce st) eqn:H; cbn; congruence. Qed.
Lemma tts_Close_once st : TtsStream.closeOnce (TtsStream.Close st) <> Fresh.
Proof.
  unfold TtsStream.Close, TtsStream.Close_from.
  destruct (TtsStream.closeOnce st) eqn:H; cbn; congruence.
Qed.

Lemma tts_open_in_insert m h st h' :
  open_in (<[h := st]> m) h' -> (h' = h /\ TtsStream.closeOnce st = Fresh) \/ (h' <> h /\ open_in m h').
Proof.
  intros (st' & Hl & Ho). destruct (decide (h = h')) as [->|Hn].
  - rewrite lookup_insert_eq in Hl. injection Hl as <-. auto.
  - rewrite lookup_insert_ne in Hl by exact Hn. right. split; [congruence|]. exists st'. auto.
Qed.

Lemma tts_open_in_alter f m h h' :
  (forall st, TtsStream.closeOnce (f st) <> Fresh) ->
  open_in (alter f h m) h' -> h' <> h /\ open_in m h'.
Proof.
  intros Hf (st' & Hl & Ho). destruct (decide (h = h')) as [->|Hn].
  - rewrite lookup_alter_eq in Hl. destruct (m !! h') as [st|]; [|discriminate].
    cbn in Hl. injection Hl as <-. destruct (Hf st Ho).
  - rewrite lookup_alter_ne in Hl by exact Hn. split; [congruence|]. exists st'. auto.
Qed.

Lemma tts_open_in_delete m h h' : open_in (delete h m) h' -> h' <> h /\ open_in m h'.
Proof.
  intros (st' & Hl & Ho). destruct (decide (h = h')) as [->|Hn].
  - rewrite lookup_delete_eq in Hl. discriminate.
  - rewrite lookup_delete_ne in Hl by exact Hn. split; [congruence|]. exists st'. auto.
Qed.

(** What [handleMessage] may do to a session. *)
Lemma tts_handleAudioDelta_effect tie now data s s' :
  handleAudioDelta tie now data s = Some s' ->
  control_of s' = control_of s /\ loop s' = loop s /\ conn s' = conn s
  /\ currentStream s' = currentStream s /\ synthesizing s' = synthesizing s
  /\ roundCount s' = roundCount s
  /\ (streams s' = streams s
      \/ exists h st st', currentStream s = Some h /\ streams s !! h = Some st
           /\ TtsStream.closeOnce st' = TtsStream.closeOnce st
           /\ streams s' = <[h := st']> (streams s)).
Proof.
  unfold handleAudioDelta.
  set (s1 := match firstChunkReceivedAt s with None => _ | Some _ => _ end).
  assert (H1 : control_of s1 = control_of s /\ loop s1 = loop s /\ conn s1 = conn s
               /\ currentStream s1 = currentStream s /\ synthesizing s1 = synthesizing s
               /\ roundCount s1 = roundCount s /\ streams s1 = streams s).
  { unfold s1. destruct (firstChunkReceivedAt s); cbn; auto 10. }
  destruct H1 as (Hc & Hl & Hcn & Hcur & Hsy & Hrc & Hst).
  assert (Hsame : forall x, Some s1 = Some x ->
            control_of x = control_of s /\ loop x = loop s /\ conn x = conn s
            /\ currentStream x = currentStream s /\ synthesizing x = synthesizing s
            /\ roundCount x = roundCount s
            /\ (streams x = streams s
                \/ exists h st st', currentStream s = Some h /\ streams s !! h = Some st
                     /\ TtsStream.closeOnce st' = TtsStream.closeOnce st
                     /\ streams x = <[h := st']> (streams s))).
  { intros x [= <-]. auto 10. }
  destruct (ParseMessage data) as [[]|]; try exact (Hsame s').
  destruct (Base64.DecodeString _) as [audioData|]; [|exact (Hsame s')].
  cbn [with_seqNum currentStream streams seqNum].
  rewrite Hcur, Hst.
  destruct (currentStream s) as [h|] eqn:Hcs.
  2:{ intros [= <-]. cbn. auto 10. }
  destruct (streams s !! h) as [st|] eqn:Hh.
  2:{ intros [= <-]. cbn. auto 10. }
  destruct (pushData _ _ _ st) as [st'| |] eqn:Hp; [| |discriminate].
  - intros [= <-].
    split; [exact Hc|]. split; [exact Hl|]. split; [exact Hcn|]. split; [exact Hcur|].
    split; [exact Hsy|]. split; [exact Hrc|].
    right. exists h, st, st'.
    split; [reflexivity|]. split; [exact Hh|]. split; [|reflexivity].
    apply (tts_pushChunk_once _ _ _ _ Hp).
  - intros [= <-]. cbn. auto 10.
Qed.

Lemma tts_kept_refl s : kept s s.
Proof. unfold kept. auto. Qed.

Lemma tts_kept_fields s x :
  currentStream x = currentStream s -> synthesizing x = synthesizing s ->
  streams x = streams s -> kept s x.
Proof. unfold kept. auto. Qed.

Lemma tts_detach_effect f s :
  (forall st, TtsStream.closeOnce (f st) <> Fresh) ->
  control_of (detach f s) = control_of s /\ loop (detach f s) = loop s
  /\ conn (detach f s) = conn s /\ roundCount (detach f s) = roundCount s
  /\ synthesizing (detach f s) = false /\ detached s (detach f s).
Proof.
  intros Hf. unfold detach, detached. destruct (currentStream s) as [h|] eqn:Hc;
    (repeat (split; [reflexivity|])); exists f; (split; [exact Hf|]); reflexivity.
Qed.

Lemma tts_handleMessage_effect tie now data s s' :
  handleMessage tie now data s = Some s' ->
  control_of s' = control_of s /\ loop s' = loop s /\ conn s' = conn s
  /\ roundCount s' = roundCount s
  /\ (kept s s' \/ (synthesizing s' = false /\ detached s s')).
Proof.
  unfold handleMessage.
  destruct (ParseMessageType data) as [t|].
  2:{ intros [= <-]. repeat (split; [reflexivity|]). left. apply tts_kept_refl. }
  destruct (String.eqb t MessageTypeAudioDelta).
  { intros H. destruct (tts_handleAudioDelta_effect tie now data s s' H)
      as (Hc & Hl & Hcn & Hcur & Hsy & Hrc & Hst).
    repeat (split; [assumption|]). left. split; [exact Hcur|]. split; [exact Hsy|].
    destruct Hst as [Hst|(h & st & st' & _ & Hh & Ho & Hst)]; [left; exact Hst|].
    right. exists h, st, st'. auto. }
  destruct (String.eqb t MessageTypeAudioDone).
  { intros [= <-]. destruct (tts_detach_effect pushDone s tts_pushDone_once) as (? & ? & ? & ? & ? & ?).
    unfold handleAudioDone. auto 10. }
  destruct (String.eqb t MessageTypeError).
  { intros [= <-]. unfold handleError.
    destruct (ParseMessage data) as [[]|];
      try (repeat (split; [reflexivity|]); left; apply tts_kept_refl).
    destruct (tts_detach_effect (pushError (server_error (Code m) (Message m))) s
                (tts_pushError_once _)) as (? & ? & ? & ? & ? & ?). auto 10. }
  intros [= <-]. repeat (split; [reflexivity|]). left. apply tts_kept_refl.
Qed.

Lemma tts_loop_turn_effect tie now sel s s' :
  loop_turn tie now sel s = Some s' ->
  control_of s' = control_of s /\ (loop s = NotStarted -> loop s' = NotStarted)
  /\ conn s' = conn s /\ roundCount s' = roundCount s
  /\ (kept s s' \/ (synthesizing s' = false /\ detached s s')).
Proof.
  unfold loop_turn. destruct (loop s) eqn:Hl.
  - intros [= <-]. repeat (split; [auto|]). left. apply tts_kept_refl.
  - assert (Hsame : forall x, control_of x = control_of s -> conn x = conn s ->
              roundCount x = roundCount s ->
              (kept s x \/ (synthesizing x = false /\ detached s x)) ->
              control_of x = control_of s /\ (Looping = NotStarted -> loop x = NotStarted)
              /\ conn x = conn s /\ roundCount x = roundCount s
              /\ (kept s x \/ (synthesizing x = false /\ detached s x))).
    { intros x ? ? ? ?. repeat (split; [assumption|]). split; [discriminate|]. auto. }
    destruct sel as [| | |e|data].
    + intros [= <-]. apply Hsame; try reflexivity. left. apply tts_kept_fields; reflexivity.
    + intros [= <-]. apply Hsame; try reflexivity. left. apply tts_kept_fields; reflexivity.
    + intros [= <-]. apply Hsame; try reflexivity. left. apply tts_kept_fields; reflexivity.
    + intros [= <-].
      destruct (tts_detach_effect (pushError e) s (tts_pushError_once e)) as (Hc & _ & Hcn & Hrc & Hsy & Hd).
      unfold handleStreamError. apply Hsame; [exact Hc|exact Hcn|exact Hrc|].
      right. split; [exact Hsy|]. destruct Hd as [Hn Hf]. split; [exact Hn|exact Hf].
    + intros H. destruct (tts_handleMessage_effect tie now data s s' H) as (Hc & _ & Hcn & Hrc & Hk).
      apply Hsame; assumption.
  - intros [= <-]. repeat (split; [auto|]). discriminate. left. apply tts_kept_refl.
Qed.

Ltac fields :=
  unfold control_of, round_of;
  cbn [with_conn with_once with_loop with_streams with_firstChunk
       with_commitSentAt with_seqNum with_round note
       ID ready closed Tts.closeOnce Tts.closeCh history fault loop conn currentStream
       synthesizing streams roundCount allocated fst snd].

Lemma tts_SynthesizeStream_effect text now s :
  let s' := fst (SynthesizeStream text now s) in
  let r := snd (SynthesizeStream text now s) in
  control_of s' = control_of s /\ loop s' = loop s
  /\ ((s' = s /\ is_ok r = false)
      \/ (closed s = false /\ ready s = true /\ synthesizing s = false
          /\ ((exists h, r = Ok h /\ currentStream s' = Some h /\ synthesizing s' = true
                 /\ streams s' = <[h := newAudioStream]> (streams s)
                 /\ roundCount s' = wrap64 (roundCount s + 1))
              \/ (is_ok r = false /\ currentStream s' = None /\ synthesizing s' = false
                  /\ streams s' = delete (allocated s) (streams s))))).
Proof.
  unfold SynthesizeStream.
  destruct (closed s) eqn:Hcl; [cbn; auto 10|].
  destruct (ready s) eqn:Hr; cbn [negb]; [|cbn; auto 10].
  destruct (synthesizing s) eqn:Hsy; [cbn; auto 10|].
  destruct (SendJSON _ _) as [c [[]|e]].
  - destruct (SendJSON _ _) as [c' [[]|e]]; cbv zeta.
    + split; [fields; rewrite Hcl, Hr; reflexivity|]. split; [reflexivity|]. right.
      repeat (split; [reflexivity|]).
      left. exists (allocated s). repeat split.
    + split; [fields; rewrite Hcl, Hr; reflexivity|]. split; [reflexivity|]. right.
      repeat (split; [reflexivity|]).
      right. repeat (split; [reflexivity|]). fields. apply delete_insert_eq.
  - cbv zeta. split; [fields; rewrite Hcl, Hr; reflexivity|]. split; [reflexivity|]. right.
    repeat (split; [reflexivity|]). right. repeat (split; [reflexivity|]).
    fields. apply delete_insert_eq.
Qed.

Lemma tts_SendText_effect text s :
  control_of (fst (SendText text s)) = control_of s /\ loop (fst (SendText text s)) = loop s
  /\ kept s (fst (SendText text s)).
Proof.
  unfold SendText. destruct (closed s); [split; [|split]; auto using tts_kept_refl|].
  destruct (negb (ready s)); [split; [|split]; auto using tts_kept_refl|].
  destruct (SendJSON _ _). repeat split; left; reflexivity.
Qed.

Lemma tts_Commit_effect now s :
  control_of (fst (Commit now s)) = control_of s /\ loop (fst (Commit now s)) = loop s
  /\ kept s (fst (Commit now s)).
Proof.
  unfold Commit. destruct (closed s); [split; [|split]; auto using tts_kept_refl|].
  destruct (SendJSON _ _). repeat split; left; reflexivity.
Qed.

Lemma tts_stream_Read_effect h n s p e s' :
  stream_Read h n s = Some (p, e, s') ->
  control_of s' = control_of s /\ loop s' = loop s /\ kept s s'.
Proof.
  unfold stream_Read. destruct (streams s !! h) as [st|] eqn:Hh; [|discriminate].
  destruct (Read n st) as [|p0 e0 st'] eqn:Hr; [discriminate|]. intros [= <- <- <-].
  repeat split. right. exists h, st, st'. split; [exact Hh|].
  split; [apply (tts_Read_once _ _ _ _ _ Hr)|reflexivity].
Qed.

Lemma tts_waitReady_ok sel s s' :
  waitReady sel s = (s', Ok tt) ->
  exists data rdy, sel = MessageRead data
    /\ ParseMessageType data = Ok MessageTypeSessionReady
    /\ ParseMessage data = Ok (MSessionReady rdy)
    /\ ID s' = SessionID rdy /\ ready s' = true /\ loop s' = loop s
    /\ c_closed (control_of s') = closed s /\ Tts.closeOnce s' = Tts.closeOnce s
    /\ Tts.closeCh s' = Tts.closeCh s /\ history s' = history s /\ fault s' = fault s
    /\ round_of s' = round_of s.
Proof.
  unfold waitReady. destruct sel as [e| |e|data]; cbn [Receive]; try discriminate.
  destruct (ParseMessageType data) as [t|e] eqn:Ht; [|discriminate].
  destruct (String.eqb_spec t MessageTypeSessionReady) as [->|]; cbn [negb]; [|discriminate].
  destruct (ParseMessage data) as [[]|] eqn:Hp; try discriminate.
  intros [= <-]. exists data, m. repeat split; assumption.
Qed.

Lemma tts_waitReady_err sel s s' e : waitReady sel s = (s', Err e) -> s' = s.
Proof.
  unfold waitReady. destruct (Receive sel); [|intros [= <-]; reflexivity].
  destruct (ParseMessageType a); [|intros [= <-]; reflexivity].
  destruct (negb _); [intros [= <-]; reflexivity|].
  destruct (ParseMessage a) as [[]|]; intros [= <-]; reflexivity.
Qed.

Lemma tts_start_cases sel s :
  fst (start sel s) = s
  \/ exists data rdy, sel = MessageRead data
       /\ ParseMessageType data = Ok MessageTypeSessionReady
       /\ ParseMessage data = Ok (MSessionReady rdy)
       /\ ID (fst (start sel s)) = SessionID rdy /\ ready (fst (start sel s)) = true
       /\ closed (fst (start sel s)) = closed s
       /\ Tts.closeOnce (fst (start sel s)) = Tts.closeOnce s
       /\ Tts.closeCh (fst (start sel s)) = Tts.closeCh s
       /\ history (fst (start sel s)) = history s
       /\ fault (fst (start sel s)) = fault s
       /\ round_of (fst (start sel s)) = round_of s
       /\ (is_ok (snd (start sel s)) = true -> loop (fst (start sel s)) = Looping).
Proof.
  unfold start. destruct (waitReady sel s) as [s1 [[]|e]] eqn:Hw.
  - right. destruct (tts_waitReady_ok sel s s1 Hw)
      as (data & rdy & -> & Ht & Hp & Hid & Hr & Hl & Hcl & Ho & Hch & Hh & Hf & Hrd).
    exists data, rdy. split; [reflexivity|]. split; [exact Ht|]. split; [exact Hp|].
    unfold sendConfig. destruct (SendJSON _ _) as [c [[]|e]]; cbn [fst snd];
      repeat (split; [assumption|]); [reflexivity|discriminate].
  - left. apply tts_waitReady_err in Hw. subst. reflexivity.
Qed.

Lemma tts_control_with_once s o : control_of (with_once s o) = ctl_once o (control_of s).
Proof. reflexivity. Qed.
Lemma tts_control_mark_closed s :
  control_of (mark_closed s) = ctl_note MarkedClosed (ctl_closed (control_of s)).
Proof. reflexivity. Qed.
Lemma tts_control_send_end s : control_of (send_end s) = ctl_note SentSessionEnd (control_of s).
Proof. reflexivity. Qed.
Lemma tts_control_await_peer s : control_of (await_peer s) = ctl_note WaitedForPeer (control_of s).
Proof. reflexivity. Qed.
Lemma tts_control_cancel s : control_of (cancel s) = ctl_note Cancelled (control_of s).
Proof. reflexivity. Qed.
Lemma tts_control_close_closeCh s :
  control_of (close_closeCh s) = ctl_note ClosedCloseCh (ctl_closeCh (control_of s)).
Proof. reflexivity. Qed.
Lemma tts_control_close_conn s : control_of (close_conn s) = ctl_note ClosedConn (control_of s).
Proof. reflexivity. Qed.
Lemma tts_control_release_stream s :
  control_of (release_stream s) = ctl_note ReleasedStream (control_of s).
Proof. unfold release_stream. destruct (currentStream s); reflexivity. Qed.

Lemma tts_rest_with_once s o : rest_of (with_once s o) = rest_of s.
Proof. reflexivity. Qed.
Lemma tts_rest_mark_closed s : rest_of (mark_closed s) = rest_of s.
Proof. reflexivity. Qed.
Lemma tts_rest_send_end s : rest_of (send_end s) = rest_of s.
Proof. reflexivity. Qed.
Lemma tts_rest_await_peer s : rest_of (await_peer s) = rest_of s.
Proof. reflexivity. Qed.
Lemma tts_rest_cancel s : rest_of (cancel s) = rest_of s.
Proof. reflexivity. Qed.
Lemma tts_rest_close_closeCh s : rest_of (close_closeCh s) = rest_of s.
Proof. reflexivity. Qed.
Lemma tts_rest_close_conn s : rest_of (close_conn s) = rest_of s.
Proof. reflexivity. Qed.
Lemma tts_rest_release_stream s :
  rest_of (release_stream s)
  = ({| r_current := None; r_synthesizing := synthesizing s;
        r_streams := match currentStream s with
                     | Some h => alter pushDone h (streams s)
                     | None => streams s
                     end |}, loop s, roundCount s).
Proof.
  unfold release_stream, rest_of, round_of. destruct (currentStream s) eqn:H; [reflexivity|].
  cbn [note currentStream synthesizing streams loop roundCount]. rewrite H. reflexivity.
Qed.

Lemma tts_rest_Close s :
  Tts.closeOnce s = Fresh ->
  rest_of (Tts.Close s)
  = ({| r_current := None; r_synthesizing := synthesizing s;
        r_streams := match currentStream s with
                     | Some h => alter pushDone h (streams s)
                     | None => streams s
                     end |}, loop s, roundCount s).
Proof.
  intros H. unfold Tts.Close. rewrite H. cbn [fold_left teardown_steps].
  rewrite tts_rest_with_once, tts_rest_release_stream.
  set (x := close_conn _).
  assert (Hx : rest_of x = rest_of s).
  { unfold x. rewrite tts_rest_close_conn, tts_rest_close_closeCh, tts_rest_cancel, tts_rest_await_peer,
      tts_rest_send_end, tts_rest_mark_closed, tts_rest_with_once. reflexivity. }
  clearbody x. unfold rest_of, round_of in Hx. injection Hx as Hcur Hsy Hst Hl Hrc.
  rewrite Hcur, Hsy, Hst, Hl, Hrc. reflexivity.
Qed.

Lemma tts_Close_fresh s :
  Tts.closeOnce s = Fresh ->
  control_of (Tts.Close s)
  = {| c_ID := ID s; c_ready := ready s; c_closed := true; c_closeOnce := Spent;
       c_closeCh := true; c_history := history s ++ teardown_log;
       c_fault := fault s || Tts.closeCh s |}
  /\ loop (Tts.Close s) = loop s
  /\ synthesizing (Tts.Close s) = synthesizing s
  /\ roundCount (Tts.Close s) = roundCount s
  /\ detached s (Tts.Close s).
Proof.
  intros H. pose proof (tts_rest_Close s H) as Hrest.
  assert (Hx : forall x, rest_of x = rest_of (Tts.Close s) ->
             loop x = loop s /\ synthesizing x = synthesizing s /\ roundCount x = roundCount s
             /\ detached s x).
  { intros x Hx. rewrite Hrest in Hx. unfold rest_of, round_of in Hx.
    injection Hx as Hcur Hsy Hst Hl Hrc.
    split; [exact Hl|]. split; [exact Hsy|]. split; [exact Hrc|].
    split; [exact Hcur|]. exists pushDone. split; [exact tts_pushDone_once|exact Hst]. }
  destruct (Hx (Tts.Close s) eq_refl) as (Hl & Hsy & Hrc & Hd).
  split; [|split; [exact Hl|split; [exact Hsy|split; [exact Hrc|exact Hd]]]].
  unfold Tts.Close. rewrite H. cbn [fold_left teardown_steps].
  rewrite tts_control_with_once, tts_control_release_stream, tts_control_close_conn,
    tts_control_close_closeCh, tts_control_cancel, tts_control_await_peer, tts_control_send_end,
    tts_control_mark_closed, tts_control_with_once.
  change (ID s) with (c_ID (control_of s)). change (ready s) with (c_ready (control_of s)).
  change (history s) with (c_history (control_of s)).
  change (fault s) with (c_fault (control_of s)).
  change (Tts.closeCh s) with (c_closeCh (control_of s)).
  generalize (control_of s) as c. intros c. destruct c as [i r cl o ch hi f].
  cbv [ctl_once ctl_note ctl_closed ctl_closeCh c_ID c_ready c_closed c_closeOnce c_closeCh
       c_history c_fault teardown_log].
  rewrite <- !app_assoc. reflexivity.
Qed.

Lemma tts_Close_again s : Tts.closeOnce s <> Fresh -> Tts.Close s = s.
Proof. unfold Tts.Close. destruct (Tts.closeOnce s); congruence. Qed.

Lemma tts_sound_kept s s' :
  control_of s' = control_of s -> (loop s = NotStarted -> loop s' = NotStarted) ->
  kept s s' -> sound s -> sound s'.
Proof.
  intros Hc Hl (Hcur & Hsy & Hst) [Hclose Hun Hcurrent Hopen].
  injection Hc as Hid Hr Hcl Ho Hch Hh Hf.
  constructor.
  - rewrite Ho, Hch, Hf, Hh, Hcl. exact Hclose.
  - rewrite Hr, Hid. intros H. destruct (Hun H). auto.
  - rewrite Hcur, Hsy, Hcl, Hr. exact Hcurrent.
  - intros h Ho'. rewrite Hcur. apply Hopen. unfold open_stream in *.
    destruct Hst as [Hst|(h0 & st & st' & Hh0 & Honce & Hst)]; rewrite Hst in Ho'; [exact Ho'|].
    destruct (tts_open_in_insert _ _ _ _ Ho') as [[-> Hfresh]|[_ Hold]]; [|exact Hold].
    exists st. split; [exact Hh0|congruence].
Qed.

Lemma tts_sound_detached s s' :
  control_of s' = control_of s \/
    (c_ID (control_of s') = ID s /\ c_ready (control_of s') = ready s
     /\ Tts.closeOnce s' = Spent /\ Tts.closeCh s' = true /\ fault s' = false
     /\ history s' = teardown_log /\ closed s' = true) ->
  (loop s = NotStarted -> loop s' = NotStarted) ->
  detached s s' -> sound s -> sound s'.
Proof.
  intros Hc Hl (Hcur & f & Hf & Hst) [Hclose Hun Hcurrent Hopen].
  constructor.
  - destruct Hc as [Hc|(_ & _ & Ho & Hch & Hfa & Hh & Hcl)].
    + injection Hc as Hid Hr Hcl Ho Hch Hh Hfa. rewrite Ho, Hch, Hfa, Hh, Hcl. exact Hclose.
    + right. auto.
  - destruct Hc as [Hc|(Hid & Hr & _)].
    + injection Hc as Hid Hr _ _ _ _ _. rewrite Hr, Hid. intros H. destruct (Hun H). auto.
    + cbn in Hid, Hr. rewrite Hr, Hid. intros H. destruct (Hun H). auto.
  - intros h Hh. congruence.
  - intros h Ho'. exfalso. unfold open_stream in Ho'. rewrite Hst in Ho'.
    destruct (currentStream s) as [h0|] eqn:Hc0.
    + destruct (tts_open_in_alter f _ _ _ Hf Ho') as [Hne Hold].
      apply Hopen in Hold. congruence.
    + apply Hopen in Ho'. congruence.
Qed.

Lemma tts_step_sound s s' : step s s' -> sound s -> sound s'.
Proof.
  intros Hstep Hs.
  destruct Hstep as [sel s Hr|tie now sel s s' Hturn|text now s|text s|now s|s
                    |h n p e s s' Hread|h s|ev s].
  - destruct (tts_start_cases sel s)
      as [->|(data & rdy & _ & _ & _ & Hid & Hrd & Hcl & Ho & Hch & Hh & Hf & Hround & _)];
      [exact Hs|].
    destruct Hs as [Hclose Hun Hcurrent Hopen].
    unfold round_of in Hround. injection Hround as Hcur Hsy Hst.
    constructor.
    + rewrite Ho, Hch, Hf, Hh, Hcl. exact Hclose.
    + rewrite Hrd. discriminate.
    + intros h Hh'. rewrite Hcur in Hh'. destruct (Hcurrent h Hh') as (_ & _ & Hready).
      congruence.
    + intros h Hopen'. unfold open_stream in Hopen'. rewrite Hst in Hopen'. rewrite Hcur.
      apply Hopen. exact Hopen'.
  - destruct (tts_loop_turn_effect tie now sel s s' Hturn) as (Hc & Hl & _ & _ & [Hk|[_ Hd]]).
    + apply (tts_sound_kept s s' Hc Hl Hk Hs).
    + apply (tts_sound_detached s s' (or_introl Hc) Hl Hd Hs).
  - pose proof (tts_SynthesizeStream_effect text now s) as Heff. cbv zeta in Heff.
    destruct Heff as (Hc & Hl & [[-> _]|(Hcl & Hr & Hsy & Hcase)]); [exact Hs|].
    destruct Hs as [Hclose Hun Hcurrent Hopen].
    assert (Hnone : forall h, ~ open_stream s h).
    { intros h Ho. apply Hopen in Ho. destruct (Hcurrent h Ho) as (Hsy' & _). congruence. }
    injection Hc as Hid' Hr' Hcl' Ho' Hch' Hh' Hf'.
    constructor.
    + rewrite Ho', Hch', Hf', Hh', Hcl'. exact Hclose.
    + rewrite Hr', Hid', Hl. exact Hun.
    + destruct Hcase as [(h & _ & Hcur & Hsy' & _)|(_ & Hcur & _)].
      * intros h' _. rewrite Hsy', Hcl', Hr'. auto.
      * intros h' Hx. congruence.
    + intros h' Hopen'. unfold open_stream in Hopen'.
      destruct Hcase as [(h & _ & Hcur & _ & Hst & _)|(_ & _ & _ & Hst)]; rewrite Hst in Hopen'.
      * destruct (tts_open_in_insert _ _ _ _ Hopen') as [[-> _]|[_ Hold]]; [exact Hcur|].
        destruct (Hnone h' Hold).
      * destruct (tts_open_in_delete _ _ _ Hopen') as [_ Hold]. destruct (Hnone h' Hold).
  - destruct (tts_SendText_effect text s) as (Hc & Hl & Hk).
    apply (tts_sound_kept s _ Hc ltac:(rewrite Hl; auto) Hk Hs).
  - destruct (tts_Commit_effect now s) as (Hc & Hl & Hk).
    apply (tts_sound_kept s _ Hc ltac:(rewrite Hl; auto) Hk Hs).
  - destruct (Tts.closeOnce s) eqn:Ho.
    + destruct (tts_Close_fresh s Ho) as (Hc & Hl & _ & _ & Hd).
      assert (Hf : fault s = false /\ Tts.closeCh s = false /\ history s = []).
      { destruct Hs as [[(_ & ? & ? & ? & _)|(Ho' & _)] _ _ _]; [auto|congruence]. }
      destruct Hf as (Hf & Hch & Hh).
      injection Hc as Hid' Hr' Hcl' Ho' Hch' Hh' Hf'.
      apply (tts_sound_detached s _); [right|rewrite Hl; auto|exact Hd|exact Hs].
      cbn [control_of c_ID c_ready]. rewrite Hh', Hf', Hh, Hf, Hch. auto 10.
    + rewrite tts_Close_again by (rewrite Ho; discriminate). exact Hs.
    + rewrite tts_Close_again by (rewrite Ho; discriminate). exact Hs.
  - destruct (tts_stream_Read_effect h n s p e s' Hread) as (Hc & Hl & Hk).
    apply (tts_sound_kept s _ Hc ltac:(rewrite Hl; auto) Hk Hs).
  - destruct Hs as [Hclose Hun Hcurrent Hopen]. constructor; try assumption.
    intros h' Hopen'. unfold open_stream, stream_Close in Hopen'.
    cbn [with_streams streams] in Hopen'.
    destruct (tts_open_in_alter _ _ _ _ tts_Close_once Hopen') as [_ Hold]. apply Hopen. exact Hold.
  - apply (tts_sound_kept s); [reflexivity|auto|apply tts_kept_fields; reflexivity|exact Hs].
Qed.

Lemma tts_reachable_sound s : reachable s -> sound s.
Proof.
  induction 1 as [c provider o|s s' _ IH Hstep].
  - constructor.
    + left. repeat split; reflexivity.
    + intros _. split; reflexivity.
    + intros h Hh. discriminate Hh.
    + intros h (st & Hl & _). cbn in Hl. rewrite lookup_empty in Hl. discriminate.
  - apply (tts_step_sound s s' Hstep IH).
Qed.








(** C3.  A synthesis session that has a current stream, which is the case
    whenever a stream of the session has not been signalled completion,
    an error or a close, refuses [SynthesizeStream] with the error of a
    round in progress: the session is returned as it was, so nothing is
    written on the connection and the current stream, the round counter
    and the synthesizing flag are the same.  Along the life of a session
    a stream that has not been signalled is the current stream, so two
    rounds are never in flight together, and a call of [SynthesizeStream]
    that starts a round finds no current stream and no such stream. *)
Theorem round_in_flight_rejected :
  (forall s h text now,
     reachable s -> currentStream s = Some h ->
     SynthesizeStream text now s = (s, Err errSynthesisInProgress)
     /\ wire (conn (fst (SynthesizeStream text now s))) = wire (conn s)
     /\ currentStream (fst (SynthesizeStream text now s)) = Some h
     /\ roundCount (fst (SynthesizeStream text now s)) = roundCount s
     /\ synthesizing (fst (SynthesizeStream text now s)) = true)
  /\ (forall s h, reachable s -> open_stream s h ->
        currentStream s = Some h /\ synthesizing s = true)
  /\ (forall s h h', reachable s -> open_stream s h -> open_stream s h' -> h = h')
  /\ (forall s text now h,
        reachable s -> snd (SynthesizeStream text now s) = Ok h ->
        currentStream s = None /\ synthesizing s = false
        /\ forall h', ~ open_stream s h').
Proof.
  split; [|split; [|split]].
  - intros s h text now Hreach Hcur.
    destruct (tts_reachable_sound s Hreach) as [_ _ Hcurrent _].
    destruct (Hcurrent h Hcur) as (Hsy & Hcl & Hr).
    assert (He : SynthesizeStream text now s = (s, Err errSynthesisInProgress))
      by (unfold SynthesizeStream; rewrite Hcl, Hr, Hsy; reflexivity).
    rewrite He. cbn [fst]. auto.
  - intros s h Hreach Ho. destruct (tts_reachable_sound s Hreach) as [_ _ Hcurrent Hopen].
    pose proof (Hopen h Ho) as Hcur. split; [exact Hcur|]. apply (Hcurrent h Hcur).
  - intros s h h' Hreach Ho Ho'. destruct (tts_reachable_sound s Hreach) as [_ _ _ Hopen].
    apply Hopen in Ho, Ho'. congruence.
  - intros s text now h Hreach Hok.
    destruct (tts_reachable_sound s Hreach) as [_ _ Hcurrent Hopen].
    pose proof (tts_SynthesizeStream_effect text now s) as Heff. cbv zeta in Heff.
    destruct Heff as (_ & _ & [[_ Hno]|(Hcl & Hr & Hsy & _)]).
    { rewrite Hok in Hno. discriminate Hno. }
    assert (Hnone : currentStream s = None).
    { destruct (currentStream s) as [h0|] eqn:Hc; [|reflexivity].
      destruct (Hcurrent h0 eq_refl) as (Hsy' & _). congruence. }
    split; [exact Hnone|]. split; [exact Hsy|].
    intros h' Ho. apply Hopen in Ho. congruence.
Qed.

Lemma round_in_flight_rejected_witness :
  SynthesizeStream "again" 9 busy_session = (busy_session, Err errSynthesisInProgress)
  /\ wire (conn (fst (SynthesizeStream "again" 9 busy_session))) = wire (conn busy_session)
  /\ currentStream (fst (SynthesizeStream "again" 9 busy_session)) = Some 0%nat
  /\ roundCount (fst (SynthesizeStream "again" 9 busy_session)) = roundCount busy_session
  /\ synthesizing (fst (SynthesizeStream "again" 9 busy_session)) = true.
Proof.
  apply (proj1 round_in_flight_rejected busy_session 0%nat "again" 9).
  - apply (moved idle_session).
    + apply (moved new_session).
      * apply made.
      * apply (started (MessageRead (ready_frame "sess-1")) new_session). reflexivity.
    + apply (synthesized "hello" 7 idle_session).
  - reflexivity.
Defined.

(** *** Close *)

Lemma tts_Close_iter n s : Nat.iter (S n) Tts.Close s = Tts.Close s.
Proof.
  induction n as [|n IH]; [reflexivity|].
  rewrite Nat.iter_succ, IH. apply tts_Close_again.
  destruct (Tts.closeOnce s) eqn:H.
  - destruct (tts_Close_fresh s H) as (Hc & _). injection Hc as _ _ _ -> _ _ _. discriminate.
  - rewrite tts_Close_again by (rewrite H; discriminate). rewrite H. discriminate.
  - rewrite tts_Close_again by (rewrite H; discriminate). rewrite H. discriminate.
Qed.

Lemma tts_conn_with_once s o : conn (with_once s o) = conn s.
Proof. reflexivity. Qed.
Lemma tts_conn_mark_closed s : conn (mark_closed s) = conn s.
Proof. reflexivity. Qed.
Lemma tts_conn_send_end s :
  conn (send_end s) = fst (SendJSON (MSessionEnd NewSessionEnd) (conn s)).
Proof. reflexivity. Qed.
Lemma tts_conn_await_peer s : conn (await_peer s) = conn s.
Proof. reflexivity. Qed.
Lemma tts_conn_cancel s : conn (cancel s) = conn s.
Proof. reflexivity. Qed.
Lemma tts_conn_close_closeCh s : conn (close_closeCh s) = conn s.
Proof. reflexivity. Qed.
Lemma tts_conn_close_conn s : conn (close_conn s) = Transport.Close (conn s).
Proof. reflexivity. Qed.
Lemma tts_conn_release_stream s : conn (release_stream s) = conn s.
Proof. unfold release_stream. destruct (currentStream s); reflexivity. Qed.

Lemma tts_conn_Close s :
  Tts.closeOnce s = Fresh ->
  conn (Tts.Close s) = Transport.Close (fst (SendJSON (MSessionEnd NewSessionEnd) (conn s))).
Proof.
  intros H. unfold Tts.Close. rewrite H. cbn [fold_left teardown_steps].
  rewrite tts_conn_with_once, tts_conn_release_stream, tts_conn_close_conn,
    tts_conn_close_closeCh, tts_conn_cancel, tts_conn_await_peer, tts_conn_send_end,
    tts_conn_mark_closed, tts_conn_with_once.
  reflexivity.
Qed.

Lemma tts_Close_is_Do s :
  Tts.Close s = Concurrent.Do Tts.closeOnce with_once teardown_steps s.
Proof. reflexivity. Qed.

Lemma tts_body_keeps_once :
  Forall (fun f : Session -> Session => forall s, Tts.closeOnce (f s) = Tts.closeOnce s)
    teardown_steps.
Proof.
  do 6 (constructor; [intros s; reflexivity|]).
  constructor; [|constructor].
  intros s. unfold release_stream. destruct (currentStream s); reflexivity.
Qed.

(** The teardown after its first [k] statements. *)
Lemma tts_teardown_prefix k s :
  (k <= length teardown_steps)%nat ->
  history (Concurrent.run_body (take k teardown_steps) (with_once s Busy))
  = history s ++ take k teardown_log
  /\ (Tts.closeCh s = false ->
      fault (Concurrent.run_body (take k teardown_steps) (with_once s Busy)) = fault s).
Proof.
  intros Hk.
  change (history s) with (c_history (control_of s)).
  change (fault s) with (c_fault (control_of s)).
  change (Tts.closeCh s) with (c_closeCh (control_of s)).
  change (history ?x) with (c_history (control_of x)).
  change (fault ?x) with (c_fault (control_of x)).
  do 8 (destruct k as [|k]; [
    cbn [take teardown_steps teardown_log Concurrent.run_body fold_left];
    rewrite ?tts_control_release_stream, ?tts_control_close_conn,
      ?tts_control_close_closeCh, ?tts_control_cancel, ?tts_control_await_peer,
      ?tts_control_send_end, ?tts_control_mark_closed, ?tts_control_with_once;
    generalize (control_of s) as c; intros c; destruct c as [i r cl o ch hi f];
    cbv [ctl_once ctl_note ctl_closed ctl_closeCh c_ID c_ready c_closed c_closeOnce c_closeCh
         c_history c_fault];
    rewrite <- ?app_assoc, ?app_nil_r; split; [reflexivity|];
    intros ->; rewrite ?orb_false_r; reflexivity |]).
  cbn in Hk. lia.
Qed.

(** Whatever the schedule of [n] callers of [Close] on a session that
    was not closed before: no statement of the teardown is taken twice,
    nothing faults, the callers can all return, and when they have the
    session is the one that a single call of [Close] leaves. *)
Lemma tts_Close_concurrent n sched s :
  reachable s -> Tts.closeOnce s = Fresh ->
  (exists k, history (Concurrent.state (Close_by n sched s)) = take k teardown_log)
  /\ fault (Concurrent.state (Close_by n sched s)) = false
  /\ ((0 < n)%nat -> Concurrent.all_returned (Close_by n sched s) = true ->
      Concurrent.state (Close_by n sched s) = Tts.Close s)
  /\ exists sched', Concurrent.all_returned (Close_by n (sched ++ sched') s) = true.
Proof.
  intros Hreach Hfresh.
  assert (Hinv : Concurrent.inv Tts.closeOnce with_once teardown_steps s n
                   (Close_by n sched s)).
  { apply ConcurrentSpec.run_inv;
      [reflexivity|exact tts_body_keeps_once|exact Hfresh|constructor]. }
  destruct (tts_reachable_sound s Hreach) as [[(_ & Hch & Hf & Hh & _)|(Ho & _)] _ _ _];
    [|congruence].
  assert (Hdone : history (Tts.Close s) = teardown_log /\ fault (Tts.Close s) = false).
  { destruct (tts_Close_fresh s Hfresh) as (Hc & _). injection Hc as _ _ _ _ _ Hh' Hf'.
    rewrite Hh', Hf', Hh, Hf, Hch. auto. }
  split; [|split; [|split]].
  - destruct (ConcurrentSpec.inv_state _ _ _ _ _ _ _ Hinv) as [ -> | [ (k & Hk & ->) | -> ] ].
    + exists 0%nat. exact Hh.
    + exists k. rewrite (proj1 (tts_teardown_prefix k s Hk)), Hh. reflexivity.
    + exists (length teardown_log). rewrite <- tts_Close_is_Do. apply Hdone.
  - destruct (ConcurrentSpec.inv_state _ _ _ _ _ _ _ Hinv) as [ -> | [ (k & Hk & ->) | -> ] ].
    + exact Hf.
    + rewrite (proj2 (tts_teardown_prefix k s Hk) Hch). exact Hf.
    + rewrite <- tts_Close_is_Do. apply Hdone.
  - intros Hn Hall. rewrite tts_Close_is_Do.
    apply (ConcurrentSpec.inv_returned _ _ _ _ s n _ Hn Hinv Hall).
  - destruct (ConcurrentSpec.completes _ Tts.closeOnce with_once teardown_steps
                ltac:(reflexivity) tts_body_keeps_once s n _ Hfresh Hinv) as [sched' Hs].
    exists sched'. unfold Close_by. rewrite ConcurrentSpec.run_app. exact Hs.
Qed.

Lemma tts_closed_state s :
  reachable s ->
  fault s = false
  /\ ((Tts.closeOnce s = Fresh /\ history s = [] /\ closed s = false)
      \/ (Tts.closeOnce s = Spent /\ history s = teardown_log /\ closed s = true
          /\ Tts.Close s = s)).
Proof.
  intros Hreach.
  destruct (tts_reachable_sound s Hreach)
    as [[(Ho & Hch & Hf & Hh & Hcl)|(Ho & Hch & Hf & Hh & Hcl)] _ _ _].
  - auto 10.
  - split; [exact Hf|]. right. repeat (split; [assumption|]).
    apply tts_Close_again. congruence.
Qed.

(** The first call of [Close]. *)
Lemma tts_Close_result s :
  reachable s -> Tts.closeOnce s = Fresh ->
  history (Tts.Close s) = teardown_log /\ fault (Tts.Close s) = false
  /\ closed (Tts.Close s) = true /\ Tts.closeCh (Tts.Close s) = true
  /\ Tts.closeOnce (Tts.Close s) = Spent
  /\ ws (conn (Tts.Close s)) = None
  /\ wire (conn (Tts.Close s)) = wire (conn s) ++ teardown_frames (conn s)
  /\ session_ends (wire (conn (Tts.Close s)))
     = (session_ends (wire (conn s)) + if live (conn s) then 1 else 0)%nat
  /\ currentStream (Tts.Close s) = None
  /\ forall h, ~ open_stream (Tts.Close s) h.
Proof.
  intros Hreach Hfresh.
  pose proof (tts_reachable_sound _ (moved s _ Hreach (session_closed s))) as Hsound.
  destruct (tts_reachable_sound s Hreach) as [[(_ & Hch & Hf & Hh & _)|(Ho & _)] _ _ _];
    [|congruence].
  destruct (tts_Close_fresh s Hfresh) as (Hc & _ & _ & _ & Hcur & _).
  injection Hc as _ _ Hcl' Ho' Hch' Hh' Hf'.
  rewrite Hh', Hf', Hcl', Ho', Hch', Hh, Hf, Hch, (tts_conn_Close s Hfresh).
  repeat (split; [reflexivity|]).
  split; [apply TransportSpec.ws_teardown|].
  split; [apply TransportSpec.wire_teardown|].
  split; [apply TransportSpec.session_ends_teardown|].
  split; [exact Hcur|].
  intros h Ho. apply (sound_open _ Hsound) in Ho. congruence.
Qed.

(** The sample sessions are states of a life. *)
Lemma tts_busy_reachable : reachable busy_session.
Proof.
  apply (moved idle_session); [|apply (synthesized "hello" 7 idle_session)].
  apply (moved new_session); [apply made|].
  apply (started (MessageRead (ready_frame "sess-1")) new_session). reflexivity.
Qed.

Lemma tts_lost_reachable : reachable lost_session.
Proof.
  apply (moved idle_session); [|apply conn_moved].
  apply (moved new_session); [apply made|].
  apply (started (MessageRead (ready_frame "sess-1")) new_session). reflexivity.
Qed.

(** *** Frames that the message loop passes over *)

Lemma tts_handleMessage_skips tie now data s :
  (forall tag, ParseMessageType data = Ok tag -> ~ In tag dispatches) ->
  handleMessage tie now data s = Some s.
Proof.
  intros Hn. unfold handleMessage.
  destruct (ParseMessageType data) as [tag|]; [|reflexivity].
  specialize (Hn tag eq_refl). unfold dispatches in Hn. cbn [In] in Hn.
  repeat match goal with
  | |- (if String.eqb tag ?t then _ else _) = _ =>
      destruct (String.eqb_spec tag t); [exfalso; apply Hn; subst; tauto|]
  end.
  reflexivity.
Qed.

Lemma tts_delta_undecodable tie now data s :
  ParseMessageType data = Ok MessageTypeAudioDelta ->
  is_ok (ParseMessage data) = false
  \/ (exists d, ParseMessage data = Ok (MAudioDelta d)
                /\ is_ok (Base64.DecodeString (AudioDelta_Audio d)) = false) ->
  handleMessage tie now data s
  = Some match firstChunkReceivedAt s with
         | None => with_firstChunk s (Some now)
         | Some _ => s
         end.
Proof.
  intros Ht Hbad. unfold handleMessage. rewrite Ht.
  replace (String.eqb MessageTypeAudioDelta MessageTypeAudioDelta) with true
    by (vm_compute; reflexivity).
  unfold handleAudioDelta.
  destruct Hbad as [Hp|(d & Hp & Hd)].
  - destruct (ParseMessage data) as [m|]; [discriminate Hp|reflexivity].
  - rewrite Hp. destruct (Base64.DecodeString _); [discriminate Hd|reflexivity].
Qed.

End TtsSessionSpec.

(** ** Both sessions: the handshake, the teardown, frames passed over *)

Module SessionSpec.
Import Json Protocol Codec Transport.



(** [Close] called on the session itself, along the moves of [SttLife]
    and [TtsLife].  In both sessions any number of calls of [Close], one
    after the other or interleaved in any way, run the teardown once.
    Calling [Close] again changes nothing.  Along such a life nothing has
    faulted and the teardown has not run or has run once, each statement
    once and in order.  The first call marks the
    session closed, closes its close channel once, releases the socket and
    writes on the connection the frames of one teardown: the session.end
    frame if the connection is still connected and its socket takes the
    write, and none if the connection was lost before, so session.end is
    sent at most once.  With [n] callers under any schedule no statement
    of the teardown is taken twice, nothing faults, the callers can all
    return, and when they have the session is the one that a single call
    leaves. *)
Theorem Close_runs_teardown_once :
  ((forall s n, Nat.iter (S n) Stt.Close s = Stt.Close s)
   /\ (forall s, SttLife.reachable s ->
         Stt.fault s = false
         /\ ((Stt.closeOnce s = Fresh /\ Stt.history s = [] /\ Stt.closed s = false)
             \/ (Stt.closeOnce s = Spent /\ Stt.history s = SttLife.teardown_log
                 /\ Stt.closed s = true /\ Stt.Close s = s)))
   /\ (forall s, SttLife.reachable s -> Stt.closeOnce s = Fresh ->
         Stt.history (Stt.Close s) = SttLife.teardown_log
         /\ Stt.fault (Stt.Close s) = false
         /\ Stt.closed (Stt.Close s) = true /\ Stt.closeCh (Stt.Close s) = true
         /\ Stt.closeOnce (Stt.Close s) = Spent
         /\ ws (Stt.conn (Stt.Close s)) = None
         /\ wire (Stt.conn (Stt.Close s))
            = wire (Stt.conn s) ++ teardown_frames (Stt.conn s)
         /\ session_ends (wire (Stt.conn (Stt.Close s)))
            = (session_ends (wire (Stt.conn s)) + if live (Stt.conn s) then 1 else 0)%nat)
   /\ (forall n sched s, SttLife.reachable s -> Stt.closeOnce s = Fresh ->
         (exists k, Stt.history (Concurrent.state (SttLife.Close_by n sched s))
                    = take k SttLife.teardown_log)
         /\ Stt.fault (Concurrent.state (SttLife.Close_by n sched s)) = false
         /\ ((0 < n)%nat -> Concurrent.all_returned (SttLife.Close_by n sched s) = true ->
             Concurrent.state (SttLife.Close_by n sched s) = Stt.Close s)
         /\ exists sched',
              Concurrent.all_returned (SttLife.Close_by n (sched ++ sched') s) = true))
  /\ ((forall s n, Nat.iter (S n) Tts.Close s = Tts.Close s)
      /\ (forall s, TtsLife.reachable s ->
            Tts.fault s = false
            /\ ((Tts.closeOnce s = Fresh /\ Tts.history s = [] /\ Tts.closed s = false)
                \/ (Tts.closeOnce s = Spent /\ Tts.history s = TtsLife.teardown_log
                    /\ Tts.closed s = true /\ Tts.Close s = s)))
      /\ (forall s, TtsLife.reachable s -> Tts.closeOnce s = Fresh ->
            Tts.history (Tts.Close s) = TtsLife.teardown_log
            /\ Tts.fault (Tts.Close s) = false
            /\ Tts.closed (Tts.Close s) = true /\ Tts.closeCh (Tts.Close s) = true
            /\ Tts.closeOnce (Tts.Close s) = Spent
            /\ ws (Tts.conn (Tts.Close s)) = None
            /\ wire (Tts.conn (Tts.Close s))
               = wire (Tts.conn s) ++ teardown_frames (Tts.conn s)
            /\ session_ends (wire (Tts.conn (Tts.Close s)))
               = (session_ends (wire (Tts.conn s)) + if live (Tts.conn s) then 1 else 0)%nat
            /\ Tts.currentStream (Tts.Close s) = None
            /\ forall h, ~ TtsLife.open_stream (Tts.Close s) h)
      /\ (forall n sched s, TtsLife.reachable s -> Tts.closeOnce s = Fresh ->
            (exists k, Tts.history (Concurrent.state (TtsLife.Close_by n sched s))
                       = take k TtsLife.teardown_log)
            /\ Tts.fault (Concurrent.state (TtsLife.Close_by n sched s)) = false
            /\ ((0 < n)%nat -> Concurrent.all_returned (TtsLife.Close_by n sched s) = true ->
                Concurrent.state (TtsLife.Close_by n sched s) = Tts.Close s)
            /\ exists sched',
                 Concurrent.all_returned (TtsLife.Close_by n (sched ++ sched') s) = true)).
Proof.
  split.
  - split; [intros s n; apply SttSessionSpec.stt_Close_iter|].
    split; [exact SttSessionSpec.stt_closed_state|].
    split; [exact SttSessionSpec.stt_Close_result|exact SttSessionSpec.stt_Close_concurrent].
  - split; [intros s n; apply TtsSessionSpec.tts_Close_iter|].
    split; [exact TtsSessionSpec.tts_closed_state|].
    split; [exact TtsSessionSpec.tts_Close_result|exact TtsSessionSpec.tts_Close_concurrent].
Qed.

Lemma Close_runs_teardown_once_witness :
  (exists k, Stt.history (Concurrent.state
                            (SttLife.Close_by 2 [0; 1; 0; 0; 1; 0]%nat SttLife.active_session))
             = take k SttLife.teardown_log)
  /\ Stt.fault (Concurrent.state
                  (SttLife.Close_by 2 [0; 1; 0; 0; 1; 0]%nat SttLife.active_session)) = false
  /\ ((0 < 2)%nat ->
      Concurrent.all_returned
        (SttLife.Close_by 2 [0; 1; 0; 0; 1; 0]%nat SttLife.active_session) = true ->
      Concurrent.state (SttLife.Close_by 2 [0; 1; 0; 0; 1; 0]%nat SttLife.active_session)
      = Stt.Close SttLife.active_session)
  /\ exists sched',
       Concurrent.all_returned
         (SttLife.Close_by 2 ([0; 1; 0; 0; 1; 0]%nat ++ sched') SttLife.active_session) = true.
Proof.
  apply (proj2 (proj2 (proj2 (proj1 Close_runs_teardown_once))) 2%nat [0; 1; 0; 0; 1; 0]%nat
           SttLife.active_session).
  - apply (SttLife.moved SttLife.new_session).
    + apply SttLife.made.
    + apply (SttLife.started false (MessageRead (ready_frame "sess-1")) SttLife.new_session).
      reflexivity.
  - reflexivity.
Defined.

(** On a session whose connection the peer has closed, [Close] runs its
    teardown once and no session.end frame reaches the wire, however
    often it is called; the send fails with [ErrNotConnected], which
    [Close] ignores. *)
Lemma Close_after_peer_close_sends_no_end :
  SttLife.reachable SttLife.lost_session
  /\ TtsLife.reachable TtsLife.lost_session
  /\ Stt.closeOnce SttLife.lost_session = Fresh
  /\ fst (SendJSON (MSessionEnd NewSessionEnd) (Stt.conn SttLife.lost_session))
     = Stt.conn SttLife.lost_session
  /\ snd (SendJSON (MSessionEnd NewSessionEnd) (Stt.conn SttLife.lost_session))
     = Err ErrNotConnected
  /\ Stt.history (Nat.iter 3 Stt.Close SttLife.lost_session) = SttLife.teardown_log
  /\ wire (Stt.conn (Nat.iter 3 Stt.Close SttLife.lost_session))
     = wire (Stt.conn SttLife.lost_session) ++ [CloseMessage]
  /\ session_ends (wire (Stt.conn (Nat.iter 3 Stt.Close SttLife.lost_session))) = 0%nat
  /\ Tts.closeOnce TtsLife.lost_session = Fresh
  /\ session_ends (wire (Tts.conn (Nat.iter 3 Tts.Close TtsLife.lost_session))) = 0%nat.
Proof.
  split; [exact SttSessionSpec.stt_lost_reachable|].
  split; [exact TtsSessionSpec.tts_lost_reachable|].
  vm_compute. repeat split; reflexivity.
Qed.

(** C10, as the code has it.  A frame handled by the message loop of a
    session whose JSON is malformed, or whose tag is not one the loop has a
    case for, is passed over: the turn of the loop returns the session as
    it was, so no event and no audio chunk is produced, nothing is
    reported, and the loop goes on with the frames that follow.  In a
    synthesis session an audio.delta frame whose body or whose base64
    payload does not decode produces no chunk either and leaves the
    streams, the sequence number, the round and the connection as they
    were, and the loop goes on; but the instant of its arrival is
    recorded as the arrival of the first chunk when none was recorded in
    the round, and only then is the session changed. *)
Theorem undecodable_frames_skipped :
  (forall tag, ParseMessageType Malformed <> Ok tag)
  /\ (forall tie tie' data s rest,
        Stt.loop s = Looping ->
        (forall tag, ParseMessageType data = Ok tag -> ~ In tag Stt.dispatches) ->
        Stt.loop_turn tie tie' (Stt.Inbound data) s = s
        /\ Stt.messageLoop ((tie, tie', Stt.Inbound data) :: rest) s = Stt.messageLoop rest s)
  /\ (forall tie now data s rest,
        Tts.loop s = Looping ->
        (forall tag, ParseMessageType data = Ok tag -> ~ In tag Tts.dispatches) ->
        Tts.loop_turn tie now (Tts.Inbound data) s = Some s
        /\ Tts.messageLoop ((tie, now, Tts.Inbound data) :: rest) s = Tts.messageLoop rest s)
  /\ (forall tie now data s rest,
        Tts.loop s = Looping ->
        ParseMessageType data = Ok MessageTypeAudioDelta ->
        is_ok (ParseMessage data) = false
        \/ (exists d, ParseMessage data = Ok (MAudioDelta d)
                      /\ is_ok (Base64.DecodeString (AudioDelta_Audio d)) = false) ->
        exists s',
          Tts.loop_turn tie now (Tts.Inbound data) s = Some s'
          /\ Tts.messageLoop ((tie, now, Tts.Inbound data) :: rest) s = Tts.messageLoop rest s'
          /\ s' = match Tts.firstChunkReceivedAt s with
                  | None => Tts.with_firstChunk s (Some now)
                  | Some _ => s
                  end
          /\ Tts.streams s' = Tts.streams s /\ Tts.seqNum s' = Tts.seqNum s
          /\ Tts.currentStream s' = Tts.currentStream s
          /\ Tts.synthesizing s' = Tts.synthesizing s
          /\ Tts.conn s' = Tts.conn s /\ Tts.loop s' = Looping).
Proof.
  split; [intros tag; discriminate|]. split; [|split].
  - intros tie tie' data s rest Hl Hn.
    assert (Ht : Stt.loop_turn tie tie' (Stt.Inbound data) s = s).
    { unfold Stt.loop_turn. rewrite Hl. apply SttSessionSpec.stt_handleMessage_skips, Hn. }
    split; [exact Ht|]. cbn [Stt.messageLoop]. rewrite Ht. reflexivity.
  - intros tie now data s rest Hl Hn.
    assert (Ht : Tts.loop_turn tie now (Tts.Inbound data) s = Some s).
    { unfold Tts.loop_turn. rewrite Hl. apply TtsSessionSpec.tts_handleMessage_skips, Hn. }
    split; [exact Ht|]. cbn [Tts.messageLoop]. rewrite Ht. reflexivity.
  - intros tie now data s rest Hl Htag Hbad.
    eexists. split; [|split; [|split; [reflexivity|]]].
    + unfold Tts.loop_turn. rewrite Hl.
      apply (TtsSessionSpec.tts_delta_undecodable tie now data s Htag Hbad).
    + cbn [Tts.messageLoop]. unfold Tts.loop_turn at 1. rewrite Hl.
      rewrite (TtsSessionSpec.tts_delta_undecodable tie now data s Htag Hbad). reflexivity.
    + destruct (Tts.firstChunkReceivedAt s); repeat split; assumption.
Qed.

Lemma undecodable_frames_skipped_witness :
  Stt.loop_turn false false (Stt.Inbound (Json (JObj [("type", JStr "session.config_done")])))
    SttLife.active_session
  = SttLife.active_session
  /\ Stt.messageLoop
       [(false, false, Stt.Inbound (Json (JObj [("type", JStr "session.config_done")])))]
       SttLife.active_session
     = Stt.messageLoop [] SttLife.active_session.
Proof.
  apply (proj1 (proj2 undecodable_frames_skipped) false false
           (Json (JObj [("type", JStr "session.config_done")])) SttLife.active_session []).
  - reflexivity.
  - intros tag H. vm_compute in H. injection H as <-. vm_compute. intuition discriminate.
Defined.

(** C10, the claim as written fails: a synthesis session with a round in
    flight handles an audio.delta frame whose payload is not base64.  No
    chunk is produced, but the session is not the one it was: the arrival
    of the first chunk is now recorded, and [TTFB] has gone from 0 to 250
    milliseconds. *)
Lemma undecodable_delta_stamps_first_chunk :
  TtsLife.reachable TtsLife.busy_session
  /\ Base64.DecodeString "!" = Err CorruptInputError
  /\ Tts.loop_turn false TtsLife.first_arrival (Tts.Inbound (Tts.delta_frame "!"))
       TtsLife.busy_session
     = Some TtsLife.stamped_session
  /\ Tts.streams TtsLife.stamped_session = Tts.streams TtsLife.busy_session
  /\ Tts.firstChunkReceivedAt TtsLife.busy_session = None
  /\ Tts.firstChunkReceivedAt TtsLife.stamped_session = Some TtsLife.first_arrival
  /\ Tts.TTFB TtsLife.busy_session = 0
  /\ Tts.TTFB TtsLife.stamped_session = 250.
Proof.
  split; [exact TtsSessionSpec.tts_busy_reachable|]. vm_compute. repeat split; reflexivity.
Qed.

End SessionSpec.

(** ** The audio stream: what else its code shows *)

Module TtsStreamMore.
Import Transport TtsStream TtsStreamSpec.

Lemma wrap64_small z : int64_min <= z <= int64_max -> wrap64 z = z.
Proof. unfold wrap64, int64_min, int64_max. intros H. rewrite Z.mod_small by lia. lia. Qed.

Lemma buffer_Read_split n b p e rest :
  buffer_Read n b = (p, e, rest) -> p ++ rest = b /\ (length p <= n)%nat.
Proof.
  unfold buffer_Read. destruct b as [|x b].
  - destruct (Nat.eqb n 0); intros H; injection H as <- <- <-; split; cbn; auto; lia.
  - intros H; injection H as <- <- <-. split; [apply firstn_skipn|]. apply firstn_le_length.
Qed.

Lemma queued_cons c cs s :
  Chan.buf (chunksCh s) = c :: cs ->
  queued s = Z.of_nat (length (Data c)) + Z.of_nat (length (concat (map Data cs))).
Proof. unfold queued. intros ->. cbn [map concat]. rewrite length_app. lia. Qed.

(** What one [Read] does to the count and the buffers. *)
Lemma Read_accounts n s p e s' :
  Read n s = ReadReturns p e s' ->
  0 <= totalSize s -> totalSize s + queued s <= int64_max ->
  totalSize s' - Z.of_nat (length (buffer s'))
  = totalSize s - Z.of_nat (length (buffer s)) + Z.of_nat (length p)
  /\ 0 <= totalSize s' /\ totalSize s' + queued s' <= totalSize s + queued s
  /\ (length p <= n)%nat.
Proof.
  unfold Read. intros Hread Hpos Hmax.
  destruct (Nat.ltb 0 (length (buffer s))) eqn:Hb.
  - destruct (buffer_Read n (buffer s)) as [[p0 e0] rest] eqn:Hbr.
    apply buffer_Read_split in Hbr. destruct Hbr as [Hsp Hle].
    injection Hread as <- <- <-. unfold queued. cbn [totalSize buffer with_buffer chunksCh].
    rewrite <- Hsp. rewrite length_app. repeat split; try lia.
  - apply Nat.ltb_ge in Hb.
    assert (Hnil : buffer s = []) by (destruct (buffer s); [reflexivity|cbn in Hb; lia]).
    destruct (closed s).
    { injection Hread as <- <- <-. cbn. repeat split; lia. }
    unfold Chan.recv in Hread. destruct (Chan.buf (chunksCh s)) as [|c cs] eqn:Hq.
    { destruct (Chan.closed (chunksCh s)); [|discriminate].
      injection Hread as <- <- <-. unfold queued. cbn [totalSize buffer mark_closed chunksCh].
      cbn. repeat split; lia. }
    pose proof (queued_cons _ _ _ Hq) as Hqc.
    assert (Hq0 : 0 <= Z.of_nat (length (concat (map Data cs)))) by lia.
    destruct (IsDone c).
    { injection Hread as <- <- <-. unfold queued in *.
      cbn [totalSize buffer mark_closed with_chunksCh chunksCh Chan.buf].
      rewrite Hnil. cbn [length]. repeat split; lia. }
    destruct (Error c).
    { injection Hread as <- <- <-. unfold queued in *.
      cbn [totalSize buffer mark_closed with_chunksCh chunksCh Chan.buf].
      rewrite Hnil. cbn [length]. repeat split; lia. }
    cbn [buffer with_chunksCh chunksCh totalSize closed closeCh closeOnce chunkChClosed err] in Hread.
    rewrite Hnil in Hread. cbn [app] in Hread.
    destruct (buffer_Read n (Data c)) as [[p0 e0] rest] eqn:Hbr.
    apply buffer_Read_split in Hbr. destruct Hbr as [Hsp Hle].
    injection Hread as <- <- <-. unfold queued in *.
    cbn [totalSize buffer with_buffer chunksCh Chan.buf].
    rewrite wrap64_small by (unfold int64_min; lia).
    rewrite Hnil. rewrite <- Hsp in *. rewrite length_app in *. cbn [length].
    repeat split; lia.
Qed.

Lemma pushData_accounts tie d seq s s' :
  pushData tie d seq s = Pushed s' ->
  totalSize s' = totalSize s /\ buffer s' = buffer s
  /\ queued s' = queued s + Z.of_nat (length d).
Proof.
  unfold pushData, pushChunk. intros H.
  destruct (chunkChClosed s); [discriminate|].
  destruct (Chan.has_room (chunksCh s)).
  - destruct (closeCh s && tie); [discriminate|]. injection H as <-.
    unfold queued. cbn. rewrite map_app, concat_app, length_app. cbn.
    rewrite app_nil_r. repeat split; lia.
  - destruct (closeCh s); discriminate.
Qed.

Lemma seal_accounts c s :
  Data c = [] ->
  totalSize (seal c s) = totalSize s /\ buffer (seal c s) = buffer s
  /\ queued (seal c s) = queued s.
Proof.
  intros Hd. unfold seal, queued. cbn [totalSize buffer chunksCh]. repeat split.
  destruct (chunkChClosed s); [reflexivity|].
  destruct (Chan.has_room (chunksCh s)); cbn; [|reflexivity].
  rewrite map_app, concat_app, length_app. cbn. rewrite Hd. cbn. lia.
Qed.

Lemma pushDone_accounts s :
  totalSize (pushDone s) = totalSize s /\ buffer (pushDone s) = buffer s
  /\ queued (pushDone s) = queued s.
Proof. unfold pushDone. destruct (closeOnce s); auto. apply seal_accounts. reflexivity. Qed.

Lemma pushError_accounts e s :
  totalSize (pushError e s) = totalSize s /\ buffer (pushError e s) = buffer s
  /\ queued (pushError e s) = queued s.
Proof.
  unfold pushError. cbn [closeOnce].
  destruct (closeOnce s); auto.
  match goal with |- context [seal ?c ?x] => destruct (seal_accounts c x eq_refl) as (H1 & H2 & H3) end.
  rewrite H1, H2, H3. auto.
Qed.

Lemma Close_accounts s :
  totalSize (Close s) = totalSize s /\ buffer (Close s) = buffer s
  /\ queued (Close s) = queued s.
Proof.
  unfold Close, Close_from, queued. destruct (closeOnce s); auto. cbn.
  destruct (chunkChClosed s); auto.
Qed.

Lemma run_ops_accounts : forall ops s rs s',
  run_ops ops s = Some (rs, s') ->
  0 <= totalSize s -> totalSize s + queued s + pushed ops <= int64_max ->
  totalSize s' - Z.of_nat (length (buffer s'))
  = totalSize s - Z.of_nat (length (buffer s)) + Z.of_nat (length (concat (map fst rs)))
  /\ 0 <= totalSize s'
  /\ totalSize s' + queued s' <= totalSize s + queued s + pushed ops.
Proof.
  assert (Hq : forall s, 0 <= queued s) by (intros; unfold queued; lia).
  assert (Hp : forall ops, 0 <= pushed ops).
  { induction ops as [|[]]; cbn; lia. }
  induction ops as [|op ops IH]; intros s rs s' Hrun Hpos Hmax.
  - injection Hrun as <- <-. cbn. repeat split; lia.
  - pose proof (Hp ops) as Hp0. destruct op as [n|tie d seq| |e|]; cbn [run_ops pushed] in *.
    + destruct (Read n s) as [|p e s1] eqn:Hr; [discriminate|].
      destruct (run_ops ops s1) as [[rs1 s2]|] eqn:Hrest; [|discriminate].
      injection Hrun as <- <-.
      apply Read_accounts in Hr; [|lia|lia]. destruct Hr as (H1 & H2 & H3 & _).
      apply IH in Hrest; [|lia|lia]. destruct Hrest as (H4 & H5 & H6).
      cbn [map fst concat]. rewrite length_app. repeat split; lia.
    + destruct (pushData tie d seq s) as [s1| |] eqn:Hpush; [| |discriminate].
      * apply pushData_accounts in Hpush. destruct Hpush as (H1 & H2 & H3).
        apply IH in Hrun; [|lia|lia]. destruct Hrun as (H4 & H5 & H6).
        rewrite H1, H2 in H4. repeat split; lia.
      * apply IH in Hrun; [|lia|lia]. destruct Hrun as (H4 & H5 & H6).
        repeat split; lia.
    + destruct (pushDone_accounts s) as (H1 & H2 & H3).
      apply IH in Hrun; [|lia|lia]. destruct Hrun as (H4 & H5 & H6).
      rewrite H1, H2 in H4. repeat split; lia.
    + destruct (pushError_accounts e s) as (H1 & H2 & H3).
      apply IH in Hrun; [|lia|lia]. destruct Hrun as (H4 & H5 & H6).
      rewrite H1, H2 in H4. repeat split; lia.
    + destruct (Close_accounts s) as (H1 & H2 & H3).
      apply IH in Hrun; [|lia|lia]. destruct Hrun as (H4 & H5 & H6).
      rewrite H1, H2 in H4. repeat split; lia.
Qed.

(** X7.  Whatever calls are made on a new stream, in whatever order
    (reads, pushes of audio, completion, error, close), as long as fewer
    than 2^63 bytes were pushed: [TotalSize] is the number of bytes that
    the reads have returned plus the bytes waiting in the read buffer.
    Audio that is still queued in the channel, or that was refused, is
    not counted, so [TotalSize] never exceeds the bytes pushed. *)
Theorem TotalSize_counts_taken_bytes :
  forall ops rs s,
    run_ops ops newAudioStream = Some (rs, s) ->
    pushed ops <= int64_max ->
    TotalSize s
    = Z.of_nat (length (concat (map fst rs))) + Z.of_nat (length (buffer s))
    /\ TotalSize s + queued s <= pushed ops.
Proof.
  intros ops rs s Hrun Hmax.
  assert (Hq : queued newAudioStream = 0) by reflexivity.
  assert (Ht : totalSize newAudioStream = 0) by reflexivity.
  assert (Hb : buffer newAudioStream = []) by reflexivity.
  apply run_ops_accounts in Hrun; [|lia|lia].
  unfold TotalSize. rewrite Hq, Ht, Hb in Hrun. cbn [length] in Hrun.
  destruct Hrun as (H1 & H2 & H3). split; lia.
Qed.


Lemma TotalSize_counts_taken_bytes_witness :
  exists rs s,
    run_ops [OpPush false [x01; x02; x03] 1; OpRead 2; OpPush false [x04] 2;
             OpDone; OpRead 8] newAudioStream = Some (rs, s)
    /\ TotalSize s = 3 /\ queued s = 1.
Proof.
  assert (Hrun : exists rs s,
             run_ops [OpPush false [x01; x02; x03] 1; OpRead 2; OpPush false [x04] 2;
                      OpDone; OpRead 8] newAudioStream = Some (rs, s))
    by (vm_compute; eexists; eexists; reflexivity).
  destruct Hrun as (rs & s & Hrun). exists rs, s. split; [exact Hrun|].
  assert (Hmax : pushed [OpPush false [x01; x02; x03] 1; OpRead 2; OpPush false [x04] 2;
                         OpDone; OpRead 8] <= int64_max) by (vm_compute; discriminate).
  pose proof (TotalSize_counts_taken_bytes _ _ _ Hrun Hmax) as [H1 H2].
  vm_compute in Hrun. injection Hrun as <- <-. split; reflexivity.
Defined.

Lemma streaming_pushData tie d seq arrived cs s :
  streaming arrived cs s -> (length cs < 100)%nat ->
  pushData tie d seq s
  = Pushed (with_chunksCh s
              {| Chan.cap := 100;
                 Chan.buf := cs ++ [{| Data := d; Sequence := seq; IsDone := false;
                                       Error := None |}];
                 Chan.closed := false |}).
Proof.
  intros [Hch Hdata (Hc & Hcc & Ho & Hk) Hcount H0] Hlen.
  unfold pushData, pushChunk. rewrite Hk, Hcc. unfold Chan.has_room, Chan.push. rewrite Hch.
  cbn [Chan.buf Chan.cap Chan.closed andb].
  replace (length cs <? 100)%nat with true by (symmetry; apply Nat.ltb_lt; exact Hlen).
  reflexivity.
Qed.

(** X8.  An audio chunk without bytes ends the reading early: on a
    stream whose round is going on, a [Read] that takes such a chunk
    returns no bytes and [io.EOF], although the stream is neither closed
    nor complete; audio pushed afterwards is still delivered by the next
    [Read]. *)
Theorem empty_chunk_reads_as_EOF :
  forall n tie seq seq' d arrived st,
    (0 < n)%nat -> streaming arrived [] st -> buffer st = [] ->
    arrived + Z.of_nat (length d) <= int64_max -> d <> [] ->
    exists st1 st2 st3 st4,
      pushData tie [] seq st = Pushed st1
      /\ Read n st1 = ReadReturns [] (Some EOF) st2
      /\ IsClosed st2 = false /\ chunksCh st2 = chunksCh st
      /\ pushData tie d seq' st2 = Pushed st3
      /\ Read n st3 = ReadReturns (firstn n d) None st4
      /\ TotalSize st4 = arrived + Z.of_nat (length d).
Proof.
  intros n tie seq seq' d arrived st Hn Hst Hbuf Hmax Hd.
  destruct Hst as [Hch Hdata (Hc & Hcc & Ho & Hk) Hcount H0].
  destruct st as [ch b c cc o k t e]. cbn in Hch, Hc, Hcc, Ho, Hk, Hcount, H0, Hbuf.
  rewrite Z.add_0_r in Hcount. subst.
  destruct n as [|n]; [lia|]. destruct d as [|x d]; [congruence|].
  assert (Hw0 : wrap64 (arrived + 0) = arrived)
    by (rewrite Z.add_0_r; apply wrap64_small; unfold int64_min; lia).
  assert (Hw1 : wrap64 (arrived + Z.of_nat (length (x :: d)))
                = arrived + Z.of_nat (length (x :: d)))
    by (apply wrap64_small; unfold int64_min; lia).
  unfold pushData, pushChunk, Read, IsClosed, TotalSize.
  cbn [chunkChClosed closeCh chunksCh Chan.has_room Chan.buf Chan.cap length Nat.ltb Nat.leb
       andb with_chunksCh Chan.push app Chan.closed buffer closed closeOnce totalSize err].
  eexists. eexists. eexists. eexists.
  split; [reflexivity|].
  cbn [chunkChClosed closeCh chunksCh Chan.has_room Chan.buf Chan.cap length Nat.ltb Nat.leb
       andb with_chunksCh Chan.push app Chan.closed buffer closed closeOnce totalSize err
       Chan.recv IsDone Error Data buffer_Read Nat.eqb with_buffer].
  change (Z.of_nat 0) with 0. rewrite Hw0.
  split; [reflexivity|].
  cbn [chunkChClosed closeCh chunksCh Chan.has_room Chan.buf Chan.cap length Nat.ltb Nat.leb
       andb with_chunksCh Chan.push app Chan.closed buffer closed closeOnce totalSize err
       Chan.recv IsDone Error Data buffer_Read Nat.eqb with_buffer].
  split; [reflexivity|]. split; [reflexivity|]. split; [reflexivity|].
  cbn [chunkChClosed closeCh chunksCh Chan.has_room Chan.buf Chan.cap length Nat.ltb Nat.leb
       andb with_chunksCh Chan.push app Chan.closed buffer closed closeOnce totalSize err
       Chan.recv IsDone Error Data buffer_Read Nat.eqb with_buffer].
  change (length (x :: d)) with (S (length d)) in Hw1.
  rewrite Hw1.
  split; reflexivity.
Qed.

Lemma empty_chunk_reads_as_EOF_witness :
  exists st1 st2 st3 st4,
    pushData false [] 1 newAudioStream = Pushed st1
    /\ Read 4 st1 = ReadReturns [] (Some EOF) st2
    /\ IsClosed st2 = false /\ chunksCh st2 = chunksCh newAudioStream
    /\ pushData false [x01; x02] 2 st2 = Pushed st3
    /\ Read 4 st3 = ReadReturns (firstn 4 [x01; x02]) None st4
    /\ TotalSize st4 = 0 + Z.of_nat (length [x01; x02]).
Proof.
  apply (empty_chunk_reads_as_EOF 4 false 1 2 [x01; x02] 0 newAudioStream).
  - lia.
  - exact streaming_new.
  - reflexivity.
  - vm_compute; discriminate.
  - discriminate.
Defined.


Lemma pushChunk_sealed tie c s : chunkChClosed s = true -> pushChunk tie c s = Refused.
Proof. unfold pushChunk. intros ->. reflexivity. Qed.

(** X9.  [pushError] on a stream whose round is going on: the error
    is recorded, the channel is closed and later pushes are refused.  The
    error chunk is queued behind the audio only if the channel has room:
    with 100 chunks queued it is dropped, and the reader will meet the end
    of the stream without an error.  A reader that reaches the error chunk
    gets the error once, with no bytes, and [io.EOF] from then on. *)
Theorem pushError_reaches_reader :
  forall e arrived cs st,
    streaming arrived cs st ->
    err (pushError e st) = Some e
    /\ Chan.closed (chunksCh (pushError e st)) = true
    /\ (forall tie c, pushChunk tie c (pushError e st) = Refused)
    /\ ((length cs < 100)%nat ->
        Chan.buf (chunksCh (pushError e st)) = cs ++ [error_chunk e])
    /\ ((100 <= length cs)%nat -> Chan.buf (chunksCh (pushError e st)) = cs)
    /\ (cs = [] -> buffer st = [] -> forall n m,
        exists st1 st2,
          Read n (pushError e st) = ReadReturns [] (Some e) st1
          /\ Read m st1 = ReadReturns [] (Some EOF) st2
          /\ IsClosed st1 = false /\ IsClosed st2 = true).
Proof.
  intros e arrived cs st [Hch Hdata (Hc & Hcc & Ho & Hk) Hcount H0].
  destruct st as [ch b c cc o k t e0]. cbn in Hch, Hc, Hcc, Ho, Hk, Hcount, H0. subst.
  unfold pushError, seal, Chan.has_room, error_chunk.
  cbn [closeOnce chunkChClosed chunksCh Chan.buf Chan.cap err buffer closed closeCh totalSize].
  split; [reflexivity|].
  split; [reflexivity|].
  split; [intros tie c; apply pushChunk_sealed; reflexivity|].
  split.
  { intros Hlen. replace (length cs <? 100)%nat with true
      by (symmetry; apply Nat.ltb_lt; exact Hlen). reflexivity. }
  split.
  { intros Hlen. replace (length cs <? 100)%nat with false
      by (symmetry; apply Nat.ltb_ge; exact Hlen). reflexivity. }
  intros -> Hb n m. cbn in Hb. subst b.
  eexists. eexists. unfold Read, IsClosed.
  cbn [length Nat.ltb Nat.leb buffer closed chunksCh Chan.close Chan.push Chan.buf app
       Chan.recv IsDone Error with_chunksCh Chan.cap Chan.closed closeCh closeOnce
       chunkChClosed totalSize err mark_closed].
  split; [reflexivity|].
  cbn [length Nat.ltb Nat.leb buffer closed chunksCh Chan.close Chan.push Chan.buf app
       Chan.recv IsDone Error with_chunksCh Chan.cap Chan.closed closeCh closeOnce
       chunkChClosed totalSize err mark_closed].
  split; [reflexivity|]. split; reflexivity.
Qed.

Lemma pushError_reaches_reader_witness :
  err (pushError (Errorf "boom") newAudioStream) = Some (Errorf "boom")
  /\ Chan.buf (chunksCh (pushError (Errorf "boom") newAudioStream))
     = [] ++ [error_chunk (Errorf "boom")].
Proof.
  pose proof (pushError_reaches_reader (Errorf "boom") 0 [] newAudioStream streaming_new)
    as (H1 & _ & _ & H4 & _).
  split; [exact H1|]. apply H4. cbn. lia.
Defined.

Lemma read_many_closed : forall ns s rs s',
  closed s = true -> read_many ns s = Some (rs, s') ->
  closed s' = true /\ chunksCh s' = chunksCh s
  /\ totalSize s' = totalSize s
  /\ concat (map fst rs) ++ buffer s' = buffer s
  /\ Forall (fun r => snd r = None \/ r = ([], Some EOF)) rs.
Proof.
  induction ns as [|n ns IH]; intros s rs s' Hc Hrun; cbn [read_many] in Hrun.
  - injection Hrun as <- <-. cbn. auto.
  - destruct (Read n s) as [|p e s1] eqn:Hr; [discriminate|].
    destruct (read_many ns s1) as [[rs1 s2]|] eqn:Hrest; [|discriminate].
    injection Hrun as <- <-.
    unfold Read in Hr. destruct (Nat.ltb 0 (length (buffer s))) eqn:Hb.
    + destruct (buffer_Read n (buffer s)) as [[p0 e0] rest] eqn:Hbr.
      injection Hr as <- <- <-.
      assert (He : e0 = None).
      { unfold buffer_Read in Hbr. destruct (buffer s); [cbn in Hb; discriminate|].
        injection Hbr as <- <- <-. reflexivity. }
      apply buffer_Read_split in Hbr. destruct Hbr as [Hsp _].
      apply IH in Hrest; [|exact Hc]. destruct Hrest as (H1 & H2 & H3 & H4 & H5).
      cbn [with_buffer closed chunksCh totalSize buffer] in *.
      split; [exact H1|]. split; [exact H2|]. split; [exact H3|]. split.
      * cbn [map fst concat]. rewrite <- app_assoc, H4. exact Hsp.
      * constructor; [left; exact He|exact H5].
    + rewrite Hc in Hr. injection Hr as <- <- <-.
      apply IH in Hrest; [|exact Hc]. destruct Hrest as (H1 & H2 & H3 & H4 & H5).
      split; [exact H1|]. split; [exact H2|]. split; [exact H3|]. split; [exact H4|].
      constructor; [right; reflexivity|exact H5].
Qed.

Lemma read_many_closed_runs : forall ns s,
  closed s = true -> exists rs s', read_many ns s = Some (rs, s').
Proof.
  induction ns as [|n ns IH]; intros s Hc; cbn [read_many].
  - eauto.
  - assert (Hr : exists p e s1, Read n s = ReadReturns p e s1 /\ closed s1 = true).
    { unfold Read. destruct (Nat.ltb 0 (length (buffer s))).
      - destruct (buffer_Read n (buffer s)) as [[p0 e0] rest]. eauto 6.
      - rewrite Hc. eauto 6. }
    destruct Hr as (p & e & s1 & -> & Hc1).
    destruct (IH s1 Hc1) as (rs & s' & ->). eauto.
Qed.

(** X10.  [Close] on a stream that was neither completed nor closed
    before.  Without a session closer the call returns, and the audio
    queued in the channel is never read: however many reads follow, none
    waits, they return only what was already in the read buffer and then
    [io.EOF], the channel keeps its chunks and [TotalSize] does not move.
    A push begun afterwards is refused, but a push that was parked in
    [pushChunk] when [Close] closed the channel panics.  A second [Close],
    with or without closer, [pushDone] or [pushError] adds nothing.  With
    the closer set the same is done to the stream, and the closer is then
    called while the [Once] of the stream is busy. *)
Theorem Close_discards_queued_audio :
  forall st,
    closeOnce st = Fresh ->
    Close_from false st = Closed (Close st)
    /\ (exists st1,
          Close_from true st = CallsCloser st1
          /\ closeOnce st1 = Busy /\ closer_returned st1 = Close st
          /\ (chunkChClosed st = false -> forall tie c, wake tie c st1 = (st1, Panicked)))
    /\ IsClosed (Close st) = true
    /\ Chan.buf (chunksCh (Close st)) = Chan.buf (chunksCh st)
    /\ (forall ns, exists rs st',
          read_many ns (Close st) = Some (rs, st')
          /\ concat (map fst rs) ++ buffer st' = buffer st
          /\ Forall (fun r => snd r = None \/ r = ([], Some EOF)) rs
          /\ chunksCh st' = chunksCh (Close st)
          /\ TotalSize st' = TotalSize st)
    /\ (forall tie c, pushChunk tie c (Close st) = Refused)
    /\ (chunkChClosed st = false -> forall tie c, wake tie c (Close st) = (Close st, Panicked))
    /\ (forall closer, Close_from closer (Close st) = Closed (Close st))
    /\ Close (Close st) = Close st
    /\ pushDone (Close st) = Close st
    /\ (forall e, chunksCh (pushError e (Close st)) = chunksCh (Close st)).
Proof.
  intros st Ho.
  assert (Hc : closed (Close st) = true) by (unfold Close, Close_from; rewrite Ho; reflexivity).
  assert (Hk : chunkChClosed (Close st) = true) by (unfold Close, Close_from; rewrite Ho; reflexivity).
  assert (Hs : closeOnce (Close st) = Spent) by (unfold Close, Close_from; rewrite Ho; reflexivity).
  assert (Hb : buffer (Close st) = buffer st) by (unfold Close, Close_from; rewrite Ho; reflexivity).
  assert (Ht : totalSize (Close st) = totalSize st) by (unfold Close, Close_from; rewrite Ho; reflexivity).
  split; [unfold Close, Close_from; rewrite Ho; reflexivity|].
  split.
  { eexists. split; [unfold Close_from; rewrite Ho; reflexivity|].
    split; [reflexivity|].
    split; [unfold closer_returned, with_closeOnce, Close, Close_from; rewrite Ho; reflexivity|].
    intros Hopen tie c. unfold wake. cbn [chunksCh]. rewrite Hopen. reflexivity. }
  split; [exact Hc|].
  split; [unfold Close, Close_from; rewrite Ho; cbn; destruct (chunkChClosed st); reflexivity|].
  split.
  { intros ns. destruct (read_many_closed_runs ns _ Hc) as (rs & st' & Hrun).
    exists rs, st'. split; [exact Hrun|].
    apply read_many_closed in Hrun; [|exact Hc].
    destruct Hrun as (H1 & H2 & H3 & H4 & H5). unfold TotalSize.
    rewrite Hb in H4. rewrite Ht in H3. auto. }
  split; [intros tie c; apply pushChunk_sealed; exact Hk|].
  split.
  { intros Hopen tie c. unfold wake, Close, Close_from. rewrite Ho. cbn [chunksCh]. rewrite Hopen.
    reflexivity. }
  split; [intros closer; unfold Close_from; rewrite Hs; reflexivity|].
  split; [unfold Close at 1, Close_from; rewrite Hs; reflexivity|].
  split; [unfold pushDone; rewrite Hs; reflexivity|].
  intros e. unfold pushError. cbn [closeOnce]. rewrite Hs. reflexivity.
Qed.

Lemma Close_discards_queued_audio_witness :
  Close_from false full_stream = Closed (Close full_stream)
  /\ IsClosed (Close full_stream) = true
  /\ (forall tie c, pushChunk tie c (Close full_stream) = Refused)
  /\ (forall tie c, wake tie c (Close full_stream) = (Close full_stream, Panicked)).
Proof.
  pose proof (Close_discards_queued_audio full_stream eq_refl)
    as (H1 & _ & H3 & _ & _ & H6 & H7 & _).
  split; [exact H1|]. split; [exact H3|]. split; [exact H6|]. apply H7. reflexivity.
Defined.

(** X11.  Once a round was completed by [pushDone], [Close] does
    nothing at all: the stream is not marked closed, and reads go on
    delivering all the audio that was queued, up to [io.EOF]. *)
Theorem Close_after_completion_is_void :
  forall arrived cs st ns,
    streaming arrived cs st -> (length cs < 100)%nat -> arrived <= int64_max ->
    Forall (fun n => (1 <= n)%nat) ns ->
    Close (pushDone st) = pushDone st
    /\ IsClosed (Close (pushDone st)) = false
    /\ exists rs st',
         read_many ns (Close (pushDone st)) = Some (rs, st')
         /\ drained (buffer st ++ concat (map Data cs)) rs
         /\ (at_eof rs -> concat (map fst rs) = buffer st ++ concat (map Data cs)).
Proof.
  intros arrived cs st ns Hst Hlen Hmax Hns.
  destruct (streaming_seal _ _ _ Hst Hlen Hmax) as [Hsealed Hbuf].
  assert (Hvoid : Close (pushDone st) = pushDone st).
  { unfold pushDone. destruct (closeOnce st) eqn:Ho; [reflexivity| |];
      unfold Close, Close_from; rewrite Ho; reflexivity. }
  rewrite Hvoid. split; [reflexivity|].
  split; [exact (sealed_open _ _ _ Hsealed)|].
  destruct (read_many_sealed arrived ns cs _ Hns Hsealed) as (rs & st' & Hrun & Hd & _).
  exists rs, st'. unfold pending in Hd. rewrite Hbuf in Hd.
  split; [exact Hrun|]. split; [exact Hd|].
  intros He. apply drained_all; assumption.
Qed.

Lemma Close_after_completion_is_void_witness :
  Close (pushDone newAudioStream) = pushDone newAudioStream
  /\ IsClosed (Close (pushDone newAudioStream)) = false.
Proof.
  assert (H1 : (length (@nil AudioChunk) < 100)%nat) by (cbn; lia).
  assert (H2 : 0 <= int64_max) by (vm_compute; discriminate).
  pose proof (Close_after_completion_is_void 0 [] newAudioStream [] streaming_new H1 H2
                (List.Forall_nil _)) as (Ha & Hb & _).
  split; [exact Ha|exact Hb].
Defined.

(** X12.  With 100 chunks queued and nobody reading, a push of audio
    parks in the select of [pushChunk], and stays parked as long as nothing
    else happens.  When a [Read] then takes a chunk out of the channel, the
    parked send is completed: its chunk becomes the last of the queue,
    which is full again.  When instead [Close], [pushDone] or [pushError]
    is called, the channel is closed under the parked send, which panics;
    only a push begun after that is refused. *)
Theorem full_queue_blocks_push :
  forall tie d seq arrived cs st,
    streaming arrived cs st -> length cs = 100%nat ->
    pushData tie d seq st = PushWaits
    /\ (forall tie', wake tie' (data_chunk d seq) st = (st, Parked (data_chunk d seq)))
    /\ (forall tie' n p e st',
          buffer st = [] -> Read n st = ReadReturns p e st' ->
          wake tie' (data_chunk d seq) st'
          = (with_chunksCh st' (Chan.push (data_chunk d seq) (chunksCh st')), Sent)
          /\ Chan.buf (Chan.push (data_chunk d seq) (chunksCh st'))
             = tl cs ++ [data_chunk d seq]
          /\ Chan.has_room (Chan.push (data_chunk d seq) (chunksCh st')) = false)
    /\ (forall tie' closer,
          match Close_from closer st with
          | Closed st' | CallsCloser st' => wake tie' (data_chunk d seq) st' = (st', Panicked)
          | CloseWaits => False
          end)
    /\ (forall tie', wake tie' (data_chunk d seq) (pushDone st) = (pushDone st, Panicked))
    /\ (forall tie' e,
          wake tie' (data_chunk d seq) (pushError e st) = (pushError e st, Panicked))
    /\ pushData tie d seq (Close st) = Refused
    /\ pushData tie d seq (pushDone st) = Refused
    /\ (forall e, pushData tie d seq (pushError e st) = Refused).
Proof.
  intros tie d seq arrived cs st [Hch Hdata (Hc & Hcc & Ho & Hk) Hcount H0] Hlen.
  destruct st as [ch b c cc o k t e0]. cbn in Hch, Hc, Hcc, Ho, Hk, Hcount, H0. subst.
  split.
  { unfold pushData, pushChunk, Chan.has_room. cbn [chunkChClosed chunksCh Chan.buf Chan.cap closeCh].
    rewrite Hlen. reflexivity. }
  split.
  { intros tie'. unfold wake, Chan.has_room.
    cbn [chunksCh Chan.closed Chan.buf Chan.cap closeCh]. rewrite Hlen. reflexivity. }
  split.
  { intros tie' n p e st' Hb Hr. cbn in Hb. subst b.
    destruct cs as [|c cs]; [discriminate|]. cbn [length] in Hlen.
    assert (Hroom : (length cs <? 100)%nat = true) by (apply Nat.ltb_lt; lia).
    inversion Hdata as [|? ? (Hd1 & Hd2 & Hd3) _]; subst.
    unfold Read in Hr.
    cbn [length Nat.ltb Nat.leb buffer closed chunksCh Chan.recv Chan.buf with_chunksCh
         Chan.cap Chan.closed closeCh closeOnce chunkChClosed totalSize err app] in Hr.
    rewrite Hd1, Hd2 in Hr.
    destruct (buffer_Read n (Data c)) as [[p0 e1] rest]. injection Hr as <- <- <-.
    split; [|split].
    - unfold wake, Chan.has_room.
      cbn [with_buffer chunksCh Chan.closed Chan.buf Chan.cap closeCh andb].
      rewrite Hroom. reflexivity.
    - reflexivity.
    - unfold Chan.has_room, Chan.push.
      cbn [with_buffer chunksCh Chan.closed Chan.buf Chan.cap].
      rewrite length_app. cbn [length]. apply Nat.ltb_ge. lia. }
  split; [intros tie' [|]; reflexivity|].
  split; [intros tie'; reflexivity|].
  split; [intros tie' e; reflexivity|].
  split; [apply pushChunk_sealed; reflexivity|].
  split; [apply pushChunk_sealed; reflexivity|].
  intros e. apply pushChunk_sealed. reflexivity.
Qed.

Lemma full_stream_streaming : streaming 100 (Chan.buf (chunksCh full_stream)) full_stream.
Proof.
  constructor.
  - reflexivity.
  - cbn [full_stream with_chunksCh chunksCh Chan.buf]. apply List.Forall_forall. intros c Hc.
    apply repeat_spec in Hc. subst c. cbn. repeat split; discriminate.
  - repeat split; reflexivity.
  - vm_compute. reflexivity.
  - vm_compute. discriminate.
Qed.

Lemma full_queue_blocks_push_witness :
  pushData false [x02] 101 full_stream = PushWaits
  /\ wake false (data_chunk [x02] 101) (pushDone full_stream) = (pushDone full_stream, Panicked)
  /\ pushData false [x02] 101 (Close full_stream) = Refused.
Proof.
  pose proof (full_queue_blocks_push false [x02] 101 100 _ full_stream
                full_stream_streaming eq_refl) as (Ha & _ & _ & _ & Hb & _ & Hc & _).
  split; [exact Ha|]. split; [apply Hb|exact Hc].
Defined.

End TtsStreamMore.

(** ** The recognition session: what else its code shows *)

Module SttSessionMore.
Import Json Protocol Codec Transport Stt SttLife SttSessionSpec.

Lemma SendJSON_dead v c : ws c = None -> SendJSON v c = (c, Err ErrNotConnected).
Proof. intros H. unfold SendJSON. rewrite H. destruct (connected c); reflexivity. Qed.

Lemma SendJSON_wire v c :
  wire (fst (SendJSON v c)) = wire c
  \/ exists j, Marshal v = Ok j /\ live c = true
               /\ wire (fst (SendJSON v c)) = wire c ++ [TextMessage j].
Proof.
  unfold SendJSON, live, writable. destruct (connected c); [|auto].
  destruct (ws c) as [w|]; [|auto]. destruct (broken w); [auto|].
  destruct (Marshal v) as [j|]; [|auto]. right. exists j. auto.
Qed.

Lemma SendJSON_keeps v c :
  ws (fst (SendJSON v c)) = ws c /\ connected (fst (SendJSON v c)) = connected c
  /\ Transport.closeCh (fst (SendJSON v c)) = Transport.closeCh c
  /\ Transport.closeOnce (fst (SendJSON v c)) = Transport.closeOnce c.
Proof.
  unfold SendJSON. destruct c as [cfg [[b]|] ch co [|] t0 t1 w]; cbn; auto.
  destruct b; cbn; auto. destruct (Marshal v); cbn; auto.
Qed.

Lemma stt_loop_turn_conn tie tie' sel s : conn (loop_turn tie tie' sel s) = conn s.
Proof.
  unfold loop_turn. destruct (loop s); try reflexivity.
  destruct sel; unfold loop_exit;
    repeat match goal with
    | |- context [sendEvent ?t ?e ?x] =>
        let ch := fresh "ch" in let H := fresh "H" in
        destruct (stt_sendEvent_footprint t e x) as [ch H]; rewrite H; clear H
    end; try reflexivity.
  destruct (stt_handleMessage_footprint tie data s) as [ch ->]. reflexivity.
Qed.

Lemma conn_change_keeps ev c :
  wire (conn_change ev c) = wire c /\ (ws c = None -> ws (conn_change ev c) = None).
Proof. destruct ev; cbn; split; auto. intros ->. reflexivity. Qed.

(** A move other than the first [Close] keeps the [Once] of the session,
    and on a connection without a socket it writes nothing. *)
Lemma stt_step_shape s s' :
  step s s' ->
  (closeOnce s = Fresh /\ s' = Close s)
  \/ (closeOnce s' = closeOnce s
      /\ (ws (conn s) = None -> ws (conn s') = None /\ wire (conn s') = wire (conn s))).
Proof.
  intros Hstep.
  assert (Hsend : forall v, ws (conn s) = None ->
            ws (fst (SendJSON v (conn s))) = None
            /\ wire (fst (SendJSON v (conn s))) = wire (conn s)).
  { intros v H. rewrite (SendJSON_dead v _ H). auto. }
  destruct Hstep as [tie sel s Hr|tie tie' sel s|audio s|s|s|s|ev s].
  - right. unfold start. destruct (waitReady tie sel s) as [s1 [[]|e]] eqn:Hw.
    + assert (Hk : closeOnce s1 = closeOnce s /\ conn s1 = conn s).
      { revert Hw. unfold waitReady. destruct sel as [e| |e|data]; cbn [Receive]; try discriminate.
        destruct (ParseMessageType data); [|discriminate]. destruct (negb _); [discriminate|].
        destruct (ParseMessage data) as [[]|]; try discriminate. intros [= <-].
        match goal with
        | |- context [sendEvent ?t ?e ?x] => destruct (stt_sendEvent_footprint t e x) as [ch ->]
        end.
        cbn. auto. }
      destruct Hk as [Hko Hkc].
      unfold sendConfig. destruct (SendJSON _ (conn s1)) as [c r] eqn:Hs.
      assert (Hc : c = fst (SendJSON (MSessionConfig (NewSessionConfig
                 {| Protocol.Provider := Provider s1; Protocol.Language := Language (opts s1);
                    Protocol.SampleRate := SampleRate (opts s1);
                    Protocol.AudioFormat := AudioFormat (opts s1); VoiceID := "";
                    Speed := zero_float; Pitch := zero_float; Volume := zero_float |}))
                 (conn s1))) by (rewrite Hs; reflexivity).
      rewrite Hkc in Hc.
      destruct r as [[]|e]; cbn [fst conn closeOnce with_conn with_loop]; rewrite Hko;
        (split; [reflexivity|]); intros H; rewrite Hc; apply Hsend, H.
    + apply stt_waitReady_err in Hw. subst s1. cbn [fst]. auto.
  - right. rewrite stt_loop_turn_conn.
    pose proof (stt_loop_turn_control tie tie' sel s) as H. injection H as _ _ _ H _ _ _. auto.
  - right. unfold Send. destruct (closed s); [auto|]. destruct (negb (ready s)); [auto|].
    destruct (SendJSON _ (conn s)) as [c r] eqn:Hs. cbn [fst conn closeOnce with_conn].
    split; [reflexivity|]. intros H.
    match type of Hs with SendJSON ?v _ = _ => specialize (Hsend v H) end.
    rewrite Hs in Hsend. exact Hsend.
  - right. unfold Commit. destruct (closed s); [auto|].
    destruct (SendJSON _ (conn s)) as [c r] eqn:Hs. cbn [fst conn closeOnce with_conn].
    split; [reflexivity|]. intros H.
    match type of Hs with SendJSON ?v _ = _ => specialize (Hsend v H) end.
    rewrite Hs in Hsend. exact Hsend.
  - destruct (closeOnce s) eqn:Ho.
    + left. auto.
    + right. rewrite stt_Close_again by (rewrite Ho; discriminate). auto.
    + right. rewrite stt_Close_again by (rewrite Ho; discriminate). auto.
  - right. unfold take_event. destruct (Chan.recv _); cbn; auto.
  - right. cbn [closeOnce conn with_conn]. split; [reflexivity|]. intros H.
    destruct (conn_change_keeps ev (conn s)) as [Hw Hn]. auto.
Qed.

(** A session that was closed holds no socket. *)
Lemma stt_closed_no_socket s : reachable s -> closeOnce s = Spent -> ws (conn s) = None.
Proof.
  induction 1 as [c cfg o|s s' Hreach IH Hstep]; [discriminate|].
  intros Ho. destruct (stt_step_shape s s' Hstep) as [[Hf ->]|[Hsame Hq]].
  - rewrite (stt_conn_Close s Hf). apply TransportSpec.ws_teardown.
  - rewrite Hsame in Ho. apply Hq, IH, Ho.
Qed.


(** After [Close] no move writes on the connection, and the calls that
    send are refused. *)
Lemma stt_closed_quiet s s' :
  reachable s -> closeOnce s = Spent -> step s s' ->
  closeOnce s' = Spent /\ wire (conn s') = wire (conn s).
Proof.
  intros Hreach Ho Hstep. destruct (stt_step_shape s s' Hstep) as [[Hf _]|[Hsame Hq]].
  - congruence.
  - split; [congruence|]. apply Hq, stt_closed_no_socket; assumption.
Qed.

Lemma stt_closed_refuses s audio :
  reachable s -> closeOnce s = Spent ->
  Send audio s = (s, Err (Errorf "session closed"))
  /\ Commit s = (s, Err (Errorf "session closed"))
  /\ Close s = s.
Proof.
  intros Hreach Ho.
  destruct (stt_closed_state s Hreach) as (_ & [(Hfr & _)|(_ & _ & Hcl & Hc)]); [congruence|].
  unfold Send, Commit. rewrite Hcl. auto.
Qed.

(** *** The event channel *)

Lemma stt_sendEvent_ok tie e s :
  Chan.cap (eventsCh s) = 100%nat -> (length (Chan.buf (eventsCh s)) <= 100)%nat ->
  Chan.cap (eventsCh (sendEvent tie e s)) = 100%nat
  /\ (length (Chan.buf (eventsCh (sendEvent tie e s))) <= 100)%nat
  /\ Chan.closed (eventsCh (sendEvent tie e s)) = Chan.closed (eventsCh s)
  /\ loop (sendEvent tie e s) = loop s /\ ready (sendEvent tie e s) = ready s.
Proof.
  intros Hcap Hlen. unfold sendEvent. destruct (Chan.has_room (eventsCh s)) eqn:Hroom; [|auto].
  destruct (closeCh s && tie); [auto|].
  cbn [eventsCh with_events Chan.push Chan.cap Chan.buf Chan.closed loop ready].
  repeat split; try assumption.
  unfold Chan.has_room in Hroom. apply Nat.ltb_lt in Hroom.
  rewrite length_app. cbn [length]. lia.
Qed.

Lemma stt_handleMessage_ok tie data s :
  Chan.cap (eventsCh s) = 100%nat -> (length (Chan.buf (eventsCh s)) <= 100)%nat ->
  Chan.cap (eventsCh (handleMessage tie data s)) = 100%nat
  /\ (length (Chan.buf (eventsCh (handleMessage tie data s))) <= 100)%nat
  /\ Chan.closed (eventsCh (handleMessage tie data s)) = Chan.closed (eventsCh s)
  /\ loop (handleMessage tie data s) = loop s /\ ready (handleMessage tie data s) = ready s.
Proof.
  intros Hcap Hlen.
  unfold handleMessage, handlePartial, handleFinal, handleError.
  destruct (ParseMessageType data) as [t|]; [|auto].
  repeat match goal with
  | |- context [if ?b then _ else _] => destruct b
  | |- context [match ParseMessage data with _ => _ end] =>
      destruct (ParseMessage data) as [[]|]
  end; auto; apply stt_sendEvent_ok; assumption.
Qed.

Lemma stt_loop_exit_ok tie s :
  Chan.cap (eventsCh s) = 100%nat -> (length (Chan.buf (eventsCh s)) <= 100)%nat ->
  Chan.cap (eventsCh (loop_exit tie s)) = 100%nat
  /\ (length (Chan.buf (eventsCh (loop_exit tie s))) <= 100)%nat
  /\ Chan.closed (eventsCh (loop_exit tie s)) = true
  /\ loop (loop_exit tie s) = Stopped /\ ready (loop_exit tie s) = ready s.
Proof.
  intros Hcap Hlen. destruct (stt_sendEvent_ok tie NewClosedEvent s Hcap Hlen)
    as (H1 & H2 & _ & _ & H5).
  unfold loop_exit. cbn [eventsCh with_events with_loop Chan.close Chan.cap Chan.buf
                          Chan.closed loop ready]. auto.
Qed.

Lemma stt_step_events s s' : reachable s -> step s s' -> events_ok s -> events_ok s'.
Proof.
  intros Hreach Hstep [Hcap Hlen Hcl Hst].
  assert (Hsame : forall x, eventsCh x = eventsCh s -> loop x = loop s -> ready x = ready s ->
            events_ok x).
  { intros x He Hl Hr. constructor; rewrite ?He, ?Hl, ?Hr; assumption. }
  destruct Hstep as [tie sel s Hr|tie tie' sel s|audio s|s|s|s|ev s].
  - destruct (stt_reachable_sound s Hreach) as [_ Hun]. destruct (Hun Hr) as [_ Hl].
    assert (Hopen : Chan.closed (eventsCh s) = false).
    { destruct (Chan.closed (eventsCh s)); [|reflexivity].
      destruct Hcl as [Hcl _]. rewrite (Hcl eq_refl) in Hl. discriminate. }
    unfold start. destruct (waitReady tie sel s) as [s1 [[]|e]] eqn:Hw.
    + assert (Hk : Chan.cap (eventsCh s1) = 100%nat
                   /\ (length (Chan.buf (eventsCh s1)) <= 100)%nat
                   /\ Chan.closed (eventsCh s1) = false /\ loop s1 = NotStarted
                   /\ ready s1 = true).
      { revert Hw. unfold waitReady. destruct sel as [e| |e|data]; cbn [Receive]; try discriminate.
        destruct (ParseMessageType data); [|discriminate]. destruct (negb _); [discriminate|].
        destruct (ParseMessage data) as [[]|]; try discriminate. intros [= <-].
        match goal with
        | |- context [sendEvent ?t ?e ?x] =>
            destruct (stt_sendEvent_ok t e x Hcap Hlen) as (H1 & H2 & H3 & H4 & H5)
        end.
        cbn [eventsCh Chan.closed loop ready] in H3, H4, H5. rewrite H3, H4, H5. auto. }
      destruct Hk as (K1 & K2 & K3 & K4 & K5).
      unfold sendConfig. destruct (SendJSON _ (conn s1)) as [c [[]|e]];
        cbn [fst]; constructor;
        cbn [eventsCh with_conn with_loop loop ready]; try assumption;
        rewrite ?K3, ?K4; try (split; discriminate); auto.
    + apply stt_waitReady_err in Hw. subst s1. constructor; assumption.
  - unfold loop_turn.
    destruct (loop s) eqn:Hl;
      [constructor; rewrite ?Hl; assumption| |constructor; rewrite ?Hl; assumption].
    assert (Hr : ready s = true) by (apply Hst; discriminate).
    assert (Hopen : Chan.closed (eventsCh s) = false).
    { destruct (Chan.closed (eventsCh s)); [|reflexivity].
      destruct Hcl as [Hcl _]. discriminate (Hcl eq_refl). }
    assert (Hexit : forall t x, Chan.cap (eventsCh x) = 100%nat ->
              (length (Chan.buf (eventsCh x)) <= 100)%nat -> ready x = true ->
              events_ok (loop_exit t x)).
    { intros t x Hc Hn Hrx. destruct (stt_loop_exit_ok t x Hc Hn) as (H1 & H2 & H3 & H4 & H5).
      constructor; [exact H1|exact H2|rewrite H3, H4; tauto|intros _; congruence]. }
    destruct sel as [| |e|data].
    + apply Hexit; assumption.
    + apply Hexit; assumption.
    + destruct (stt_sendEvent_ok tie (NewErrorEvent e) s Hcap Hlen) as (H1 & H2 & _ & _ & H5).
      apply Hexit; congruence.
    + destruct (stt_handleMessage_ok tie data s Hcap Hlen) as (H1 & H2 & H3 & H4 & H5).
      constructor; [exact H1|exact H2|rewrite H3, H4, Hopen, Hl; split; discriminate|].
      intros _. congruence.
  - apply Hsame; unfold Send; destruct (closed s); try reflexivity;
      destruct (negb (ready s)); try reflexivity; destruct (SendJSON _ _); reflexivity.
  - apply Hsame; unfold Commit; destruct (closed s); try reflexivity;
      destruct (SendJSON _ _); reflexivity.
  - destruct (closeOnce s) eqn:Ho.
    + destruct (stt_Close_fresh s Ho) as (Hc & Hl & He).
      injection Hc as _ Hr _ _ _ _ _. apply Hsame; assumption.
    + rewrite stt_Close_again by (rewrite Ho; discriminate). constructor; assumption.
    + rewrite stt_Close_again by (rewrite Ho; discriminate). constructor; assumption.
  - unfold take_event. destruct (Chan.recv (eventsCh s)) as [x ch| |] eqn:Hrecv;
      try (constructor; assumption).
    unfold Chan.recv in Hrecv. destruct (Chan.buf (eventsCh s)) as [|y rest] eqn:Hb;
      [destruct (Chan.closed (eventsCh s)); discriminate|].
    injection Hrecv as <- <-.
    constructor; cbn [eventsCh with_events Chan.cap Chan.buf Chan.closed loop ready];
      try assumption.
    cbn [length] in Hlen. lia.
  - apply Hsame; reflexivity.
Qed.

Lemma stt_reachable_events s : reachable s -> events_ok s.
Proof.
  induction 1 as [c cfg o|s s' Hreach IH Hstep].
  - constructor; cbn; try lia; try reflexivity; [split; discriminate|congruence].
  - apply (stt_step_events s s' Hreach Hstep IH).
Qed.


(** X1.  Along the life of a recognition session the event channel
    never holds more than its 100 events, it is closed exactly when the
    message loop has stopped, and once it is closed no move sends on it:
    a move leaves its buffer as it is or takes its first event out. *)
Theorem events_channel_safe :
  (forall s, reachable s -> (length (Chan.buf (eventsCh s)) <= 100)%nat)
  /\ (forall s, reachable s -> (Chan.closed (eventsCh s) = true <-> loop s = Stopped))
  /\ (forall s s', reachable s -> step s s' -> Chan.closed (eventsCh s) = true ->
        Chan.closed (eventsCh s') = true
        /\ (Chan.buf (eventsCh s') = Chan.buf (eventsCh s)
            \/ exists e, Chan.buf (eventsCh s) = e :: Chan.buf (eventsCh s'))).
Proof.
  split; [|split].
  - intros s Hreach. apply (events_len s (stt_reachable_events s Hreach)).
  - intros s Hreach. apply (events_closed s (stt_reachable_events s Hreach)).
  - intros s s' Hreach Hstep Hclosed.
    destruct (stt_reachable_events s Hreach) as [_ _ Hcl Hst].
    assert (Hl : loop s = Stopped) by (apply Hcl, Hclosed).
    assert (Hr : ready s = true) by (apply Hst; rewrite Hl; discriminate).
    assert (Hsame : forall x, eventsCh x = eventsCh s ->
              Chan.closed (eventsCh x) = true
              /\ (Chan.buf (eventsCh x) = Chan.buf (eventsCh s)
                  \/ exists e, Chan.buf (eventsCh s) = e :: Chan.buf (eventsCh x))).
    { intros x ->. auto. }
    destruct Hstep as [tie sel s Hr'|tie tie' sel s|audio s|s|s|s|ev s].
    + congruence.
    + apply Hsame. unfold loop_turn. rewrite Hl. reflexivity.
    + apply Hsame. unfold Send. destruct (closed s); [reflexivity|].
      destruct (negb (ready s)); [reflexivity|]. destruct (SendJSON _ _); reflexivity.
    + apply Hsame. unfold Commit. destruct (closed s); [reflexivity|].
      destruct (SendJSON _ _); reflexivity.
    + apply Hsame. destruct (closeOnce s) eqn:Ho.
      * apply (stt_Close_fresh s Ho).
      * rewrite stt_Close_again by (rewrite Ho; discriminate). reflexivity.
      * rewrite stt_Close_again by (rewrite Ho; discriminate). reflexivity.
    + unfold take_event, Chan.recv.
      destruct (Chan.buf (eventsCh s)) as [|y rest] eqn:Hb.
      * rewrite Hclosed. rewrite Hb. auto.
      * cbn [eventsCh with_events Chan.closed Chan.buf]. split; [exact Hclosed|].
        right. exists y. reflexivity.
    + apply Hsame. reflexivity.
Qed.

Lemma events_channel_safe_witness :
  (length (Chan.buf (eventsCh after_error)) <= 100)%nat.
Proof. apply (proj1 events_channel_safe after_error). exact stt_after_error_reachable. Defined.



Lemma stt_closed_silent s s' :
  reachable s -> closed s = true -> step s s' ->
  closed s' = true /\ wire (conn s') = wire (conn s).
Proof.
  intros Hreach Hcl Hstep.
  destruct (stt_closed_state s Hreach) as (_ & [(_ & _ & Hn)|(Ho & _)]); [congruence|].
  destruct (stt_closed_quiet s s' Hreach Ho Hstep) as [Ho' Hw]. split; [|exact Hw].
  destruct (stt_closed_state s' (moved s s' Hreach Hstep))
    as (_ & [(Hfr & _)|(_ & _ & Hcl' & _)]); [congruence|exact Hcl'].
Qed.

(** X3.  A recognition session that was closed stays silent:
    whatever is done with it afterwards (sends, commits, more calls of
    [Close], turns of the message loop, events taken, changes of the
    connection), it stays closed and nothing more is written to the
    connection; [Send] and [Commit] fail with "session closed" and leave the
    session as it is, [Close] returns without doing anything. *)
Theorem stt_closed_session_is_silent :
  forall s s' audio,
    reachable s -> closed s = true -> rtc step s s' ->
    closed s' = true
    /\ wire (conn s') = wire (conn s)
    /\ Send audio s' = (s', Err (Errorf "session closed"))
    /\ Commit s' = (s', Err (Errorf "session closed"))
    /\ Close s' = s'.
Proof.
  intros s s' audio Hreach Hcl Hsteps.
  assert (Hall : reachable s' /\ closed s' = true /\ wire (conn s') = wire (conn s)).
  { induction Hsteps as [s|s s1 s2 Hstep _ IH]; [auto|].
    destruct (stt_closed_silent s s1 Hreach Hcl Hstep) as [Hcl1 Hw1].
    destruct (IH (moved s s1 Hreach Hstep) Hcl1) as (Hr2 & Hcl2 & Hw2).
    split; [exact Hr2|]. split; [exact Hcl2|]. congruence. }
  destruct Hall as (Hr' & Hcl' & Hw'). split; [exact Hcl'|]. split; [exact Hw'|].
  destruct (stt_closed_state s' Hr') as (_ & [(_ & _ & Hn)|(Ho & _)]); [congruence|].
  apply (stt_closed_refuses s' audio Hr' Ho).
Qed.

Lemma stt_closed_session_is_silent_witness :
  closed (fst (Send [x01] (Close active_session))) = true
  /\ wire (conn (fst (Send [x01] (Close active_session))))
     = wire (conn (Close active_session)).
Proof.
  assert (Hr : reachable (Close active_session))
    by (apply (moved active_session); [exact stt_active_reachable|apply session_closed]).
  assert (Hc : closed (Close active_session) = true) by (vm_compute; reflexivity).
  assert (Hs : rtc step (Close active_session) (fst (Send [x01] (Close active_session))))
    by (apply rtc_once; apply sent).
  pose proof (stt_closed_session_is_silent _ _ [x01] Hr Hc Hs) as (H1 & H2 & _).
  split; [exact H1|exact H2].
Defined.

End SttSessionMore.

(** ** The synthesis session: what else its code shows *)

Module TtsSessionMore.
Import Json Protocol Codec Transport TtsStream Tts TtsLife TtsSessionSpec.

Lemma tts_detach_marks f s : marks_of (detach f s) = marks_of s.
Proof. unfold detach. destruct (currentStream s); reflexivity. Qed.

Lemma tts_handleAudioDelta_marks tie now data s s' :
  handleAudioDelta tie now data s = Some s' ->
  roundCount s' = roundCount s /\ commitSentAt s' = commitSentAt s /\ conn s' = conn s
  /\ firstChunkReceivedAt s'
     = Some match firstChunkReceivedAt s with Some t => t | None => now end.
Proof.
  unfold handleAudioDelta.
  set (s1 := match firstChunkReceivedAt s with None => _ | Some _ => _ end).
  assert (H1 : roundCount s1 = roundCount s /\ commitSentAt s1 = commitSentAt s
               /\ conn s1 = conn s
               /\ firstChunkReceivedAt s1
                  = Some match firstChunkReceivedAt s with Some t => t | None => now end).
  { unfold s1. destruct (firstChunkReceivedAt s) eqn:Hf; cbn; auto. }
  assert (Hsame : forall x, roundCount x = roundCount s1 -> commitSentAt x = commitSentAt s1 ->
            conn x = conn s1 -> firstChunkReceivedAt x = firstChunkReceivedAt s1 ->
            roundCount x = roundCount s /\ commitSentAt x = commitSentAt s /\ conn x = conn s
            /\ firstChunkReceivedAt x
               = Some match firstChunkReceivedAt s with Some t => t | None => now end).
  { intros x -> -> -> ->. exact H1. }
  clearbody s1.
  destruct (ParseMessage data) as [[]|]; try (intros [= <-]; exact H1).
  destruct (Base64.DecodeString _) as [audioData|]; [|intros [= <-]; exact H1].
  cbn [with_seqNum currentStream streams seqNum].
  destruct (currentStream s1) as [h|]; [|intros [= <-]; apply Hsame; reflexivity].
  destruct (streams s1 !! h) as [st|]; [|intros [= <-]; apply Hsame; reflexivity].
  destruct (pushData _ _ _ st) as [st'| |]; [| |discriminate];
    intros [= <-]; apply Hsame; reflexivity.
Qed.

Lemma tts_loop_turn_marks tie now sel s s' :
  loop_turn tie now sel s = Some s' ->
  roundCount s' = roundCount s /\ commitSentAt s' = commitSentAt s /\ conn s' = conn s
  /\ (firstChunkReceivedAt s' = firstChunkReceivedAt s
      \/ (firstChunkReceivedAt s = None /\ firstChunkReceivedAt s' = Some now
          /\ exists data, sel = Inbound data
                          /\ ParseMessageType data = Ok MessageTypeAudioDelta)).
Proof.
  assert (Hsame : forall x, marks_of x = marks_of s ->
            roundCount x = roundCount s /\ commitSentAt x = commitSentAt s /\ conn x = conn s
            /\ (firstChunkReceivedAt x = firstChunkReceivedAt s
                \/ (firstChunkReceivedAt s = None /\ firstChunkReceivedAt x = Some now
                    /\ exists data, sel = Inbound data
                                    /\ ParseMessageType data = Ok MessageTypeAudioDelta))).
  { intros x Hx. injection Hx as -> -> -> ->. auto. }
  unfold loop_turn. destruct (loop s); [intros [= <-]; apply Hsame; reflexivity| |
                                        intros [= <-]; apply Hsame; reflexivity].
  destruct sel as [| | |e|data]; try (intros [= <-]; apply Hsame; reflexivity).
  - intros [= <-]. apply Hsame. unfold handleStreamError.
    change (marks_of (with_loop ?x Stopped)) with (marks_of x). apply tts_detach_marks.
  - unfold handleMessage. destruct (ParseMessageType data) as [t|] eqn:Ht;
      [|intros [= <-]; apply Hsame; reflexivity].
    destruct (String.eqb_spec t MessageTypeAudioDelta) as [->|_].
    { intros H. destruct (tts_handleAudioDelta_marks tie now data s s' H) as (H1 & H2 & H3 & H4).
      repeat (split; [assumption|]).
      destruct (firstChunkReceivedAt s) as [t|]; [left; exact H4|].
      right. split; [reflexivity|]. split; [exact H4|]. exists data. auto. }
    destruct (String.eqb t MessageTypeAudioDone).
    { intros [= <-]. apply Hsame. apply tts_detach_marks. }
    destruct (String.eqb t MessageTypeError); [|intros [= <-]; apply Hsame; reflexivity].
    intros [= <-]. apply Hsame. unfold handleError.
    destruct (ParseMessage data) as [[]|]; try reflexivity. apply tts_detach_marks.
Qed.


Lemma tts_stamps_with_once s o : stamps_of (with_once s o) = stamps_of s.
Proof. reflexivity. Qed.
Lemma tts_stamps_mark_closed s : stamps_of (mark_closed s) = stamps_of s.
Proof. reflexivity. Qed.
Lemma tts_stamps_send_end s : stamps_of (send_end s) = stamps_of s.
Proof. reflexivity. Qed.
Lemma tts_stamps_await_peer s : stamps_of (await_peer s) = stamps_of s.
Proof. reflexivity. Qed.
Lemma tts_stamps_cancel s : stamps_of (cancel s) = stamps_of s.
Proof. reflexivity. Qed.
Lemma tts_stamps_close_closeCh s : stamps_of (close_closeCh s) = stamps_of s.
Proof. reflexivity. Qed.
Lemma tts_stamps_close_conn s : stamps_of (close_conn s) = stamps_of s.
Proof. reflexivity. Qed.
Lemma tts_stamps_release_stream s : stamps_of (release_stream s) = stamps_of s.
Proof. unfold release_stream. destruct (currentStream s); reflexivity. Qed.

Lemma tts_stamps_Close s : stamps_of (Tts.Close s) = stamps_of s.
Proof.
  unfold Tts.Close. destruct (Tts.closeOnce s); try reflexivity.
  cbn [fold_left teardown_steps].
  rewrite tts_stamps_with_once, tts_stamps_release_stream, tts_stamps_close_conn,
    tts_stamps_close_closeCh, tts_stamps_cancel, tts_stamps_await_peer, tts_stamps_send_end,
    tts_stamps_mark_closed, tts_stamps_with_once.
  reflexivity.
Qed.

Lemma tts_start_stamps sel s : stamps_of (fst (start sel s)) = stamps_of s.
Proof.
  unfold start. destruct (waitReady sel s) as [s1 [[]|e]] eqn:Hw.
  - assert (H1 : stamps_of s1 = stamps_of s).
    { revert Hw. unfold waitReady. destruct (Receive sel); [|discriminate].
      destruct (ParseMessageType a); [|discriminate]. destruct (negb _); [discriminate|].
      destruct (ParseMessage a) as [[]|]; try discriminate. intros [= <-]. reflexivity. }
    unfold sendConfig. destruct (SendJSON _ _) as [c [[]|e]]; cbn [fst]; rewrite <- H1;
      reflexivity.
  - apply tts_waitReady_err in Hw. subst. reflexivity.
Qed.

(** What [SynthesizeStream] does to the round counter and the stamps. *)
Lemma tts_SynthesizeStream_stamps text now s :
  (closed s = false /\ ready s = true /\ synthesizing s = false
   /\ roundCount (fst (SynthesizeStream text now s)) = wrap64 (roundCount s + 1)
   /\ firstChunkReceivedAt (fst (SynthesizeStream text now s)) = None
   /\ (is_ok (snd (SynthesizeStream text now s)) = true ->
       commitSentAt (fst (SynthesizeStream text now s)) = Some now)
   /\ (is_ok (snd (SynthesizeStream text now s)) = false ->
       synthesizing (fst (SynthesizeStream text now s)) = false
       /\ currentStream (fst (SynthesizeStream text now s)) = None))
  \/ ((closed s = true \/ ready s = false \/ synthesizing s = true)
      /\ SynthesizeStream text now s
         = (s, Err (if closed s then Errorf "session closed"
                    else if negb (ready s) then Errorf "session not ready"
                    else errSynthesisInProgress))).
Proof.
  unfold SynthesizeStream.
  destruct (closed s) eqn:Hcl; [right; auto|].
  destruct (ready s) eqn:Hr; cbn [negb]; [|right; auto].
  destruct (synthesizing s) eqn:Hsy; [right; auto 6|].
  left. do 3 (split; [reflexivity|]).
  destruct (SendJSON _ _) as [c [[]|e]].
  - destruct (SendJSON _ _) as [c' [[]|e]]; cbn; repeat split; auto; discriminate.
  - cbn. repeat split; auto; discriminate.
Qed.

Lemma tts_SendJSON_not_live v c : live c = false -> is_ok (snd (SendJSON v c)) = false.
Proof.
  unfold live, writable, SendJSON. destruct (connected c); [|reflexivity].
  destruct (ws c) as [w|]; [|reflexivity]. destruct (broken w); [reflexivity|discriminate].
Qed.

Lemma tts_SynthesizeStream_not_live text now s :
  live (conn s) = false -> is_ok (snd (SynthesizeStream text now s)) = false.
Proof.
  intros Hlive. unfold SynthesizeStream.
  destruct (closed s); [reflexivity|]. destruct (negb (ready s)); [reflexivity|].
  destruct (synthesizing s); [reflexivity|]. cbn [conn].
  pose proof (tts_SendJSON_not_live (MTextAppend (NewTextAppend text)) (conn s) Hlive) as H.
  destruct (SendJSON _ (conn s)) as [c [[]|e]]; [discriminate H|reflexivity].
Qed.

(** What a move does to the round counter and the stamps. *)
Lemma tts_step_stamps s s' :
  step s s' ->
  (exists text now, s' = fst (SynthesizeStream text now s))
  \/ (exists now, s' = fst (Commit now s))
  \/ (exists tie now sel, loop_turn tie now sel s = Some s')
  \/ stamps_of s' = stamps_of s.
Proof.
  intros Hstep.
  destruct Hstep as [sel s Hr|tie now sel s s' Hturn|text now s|text s|now s|s
                    |h n p e s s' Hread|h s|ev s].
  - right. right. right. apply tts_start_stamps.
  - right. right. left. eauto.
  - left. eauto.
  - right. right. right. unfold SendText. destruct (closed s); [reflexivity|].
    destruct (negb (ready s)); [reflexivity|]. destruct (SendJSON _ _). reflexivity.
  - right. left. eauto.
  - right. right. right. apply tts_stamps_Close.
  - right. right. right. unfold stream_Read in Hread.
    destruct (streams s !! h); [|discriminate]. destruct (Read n a); [discriminate|].
    injection Hread as _ _ <-. reflexivity.
  - right. right. right. reflexivity.
  - right. right. right. reflexivity.
Qed.

(** X4.  [RoundCount] counts the rounds that [SynthesizeStream]
    began, not the rounds that were completed.  A call that passes the
    three guards (not closed, ready, no round in progress) adds one to the
    counter, in 64 bits, whether or not its two frames could be sent; when
    they could not, for instance on a connection that is not live, the
    session is idle again but the number of the round is used up.  A call
    refused by a guard, and every other move of the session, leaves the
    counter as it is. *)
Theorem RoundCount_counts_attempts :
  (forall text now s,
     closed s = false -> ready s = true -> synthesizing s = false ->
     RoundCount (fst (SynthesizeStream text now s)) = wrap64 (RoundCount s + 1)
     /\ (live (conn s) = false ->
         is_ok (snd (SynthesizeStream text now s)) = false
         /\ IsSynthesizing (fst (SynthesizeStream text now s)) = false
         /\ currentStream (fst (SynthesizeStream text now s)) = None))
  /\ (forall text now s,
        closed s = true \/ ready s = false \/ synthesizing s = true ->
        RoundCount (fst (SynthesizeStream text now s)) = RoundCount s)
  /\ (forall s s',
        step s s' ->
        RoundCount s' = RoundCount s
        \/ (exists text now,
              s' = fst (SynthesizeStream text now s)
              /\ closed s = false /\ ready s = true /\ synthesizing s = false
              /\ RoundCount s' = wrap64 (RoundCount s + 1))).
Proof.
  unfold RoundCount, IsSynthesizing. split; [|split].
  - intros text now s Hcl Hr Hsy.
    destruct (tts_SynthesizeStream_stamps text now s)
      as [(_ & _ & _ & Hrc & _ & _ & Hfail)|([H|[H|H]] & _)]; try congruence.
    split; [exact Hrc|]. intros Hlive.
    pose proof (tts_SynthesizeStream_not_live text now s Hlive) as Hno.
    split; [exact Hno|]. apply Hfail, Hno.
  - intros text now s Hg.
    destruct (tts_SynthesizeStream_stamps text now s)
      as [(Hcl & Hr & Hsy & _)|(_ & ->)]; [|reflexivity].
    destruct Hg as [H|[H|H]]; congruence.
  - intros s s' Hstep.
    destruct (tts_step_stamps s s' Hstep)
      as [(text & now & ->)|[(now & ->)|[(tie & now & sel & Hturn)|Hst]]].
    + destruct (tts_SynthesizeStream_stamps text now s)
        as [(Hcl & Hr & Hsy & Hrc & _)|(_ & ->)]; [|left; reflexivity].
      right. exists text, now. auto.
    + left. unfold Commit. destruct (closed s); [reflexivity|].
      destruct (SendJSON _ _). reflexivity.
    + left. apply (tts_loop_turn_marks tie now sel s s' Hturn).
    + left. injection Hst as -> _ _. reflexivity.
Qed.

Lemma RoundCount_counts_attempts_witness :
  RoundCount (fst (SynthesizeStream "hello" 7 lost_session))
  = wrap64 (RoundCount lost_session + 1)
  /\ (live (conn lost_session) = false ->
      is_ok (snd (SynthesizeStream "hello" 7 lost_session)) = false
      /\ IsSynthesizing (fst (SynthesizeStream "hello" 7 lost_session)) = false
      /\ currentStream (fst (SynthesizeStream "hello" 7 lost_session)) = None).
Proof.
  apply (proj1 RoundCount_counts_attempts "hello" 7 lost_session); reflexivity.
Defined.

(** X5.  The first audio.delta frame that the message loop handles
    after [SynthesizeStream] stamps the arrival of the first chunk, and no
    later turn of the loop moves that stamp or the stamp of the commit:
    after a round was begun at [t0] and the loop has handled an
    audio.delta frame at [t1] and then any frames, the stamps are [t0]
    and [t1], and [TTFB] is the whole milliseconds between them (for
    instants whose distance is a [Duration]). *)
Theorem first_chunk_stamp :
  (forall text t0 s h,
     snd (SynthesizeStream text t0 s) = Ok h ->
     commitSentAt (fst (SynthesizeStream text t0 s)) = Some t0
     /\ firstChunkReceivedAt (fst (SynthesizeStream text t0 s)) = None
     /\ TTFB (fst (SynthesizeStream text t0 s)) = 0)
  /\ (forall tie t1 data s s',
        firstChunkReceivedAt s = None -> loop s = Looping ->
        ParseMessageType data = Ok MessageTypeAudioDelta ->
        loop_turn tie t1 (Inbound data) s = Some s' ->
        firstChunkReceivedAt s' = Some t1 /\ commitSentAt s' = commitSentAt s)
  /\ (forall sels s s' t0 t1,
        commitSentAt s = Some t0 -> firstChunkReceivedAt s = Some t1 ->
        int64_min <= t1 - t0 <= int64_max ->
        messageLoop sels s = Some s' ->
        commitSentAt s' = Some t0 /\ firstChunkReceivedAt s' = Some t1
        /\ TTFB s' = Z.quot (t1 - t0) Millisecond).
Proof.
  split; [|split].
  - intros text t0 s h Hok.
    destruct (tts_SynthesizeStream_stamps text t0 s)
      as [(_ & _ & _ & _ & Hf & Hc & _)|(_ & He)].
    + rewrite Hok in Hc. specialize (Hc eq_refl). unfold TTFB. rewrite Hc, Hf. auto.
    + rewrite He in Hok. discriminate Hok.
  - intros tie t1 data s s' Hnone Hl Ht Hturn.
    destruct (tts_loop_turn_marks tie t1 (Inbound data) s s' Hturn) as (_ & Hc & _ & _).
    split; [|exact Hc].
    unfold loop_turn in Hturn. rewrite Hl in Hturn. unfold handleMessage in Hturn.
    rewrite Ht in Hturn.
    replace (String.eqb MessageTypeAudioDelta MessageTypeAudioDelta) with true in Hturn
      by (vm_compute; reflexivity).
    destruct (tts_handleAudioDelta_marks tie t1 data s s' Hturn) as (_ & _ & _ & Hf).
    rewrite Hnone in Hf. exact Hf.
  - intros sels. induction sels as [|[[tie now] sel] rest IH]; intros s s' t0 t1 Hc Hf Hrg Hrun.
    + injection Hrun as <-. unfold TTFB. rewrite Hc, Hf. auto.
    + cbn [messageLoop] in Hrun.
      destruct (loop_turn tie now sel s) as [s1|] eqn:Hturn; [|discriminate].
      destruct (tts_loop_turn_marks tie now sel s s1 Hturn) as (_ & Hc1 & _ & [Hf1|(Hn & _)]).
      * apply (IH s1 s' t0 t1); congruence.
      * congruence.
Qed.

Lemma first_chunk_stamp_witness :
  commitSentAt (fst (SynthesizeStream "hello" 7 idle_session)) = Some 7
  /\ firstChunkReceivedAt (fst (SynthesizeStream "hello" 7 idle_session)) = None
  /\ TTFB (fst (SynthesizeStream "hello" 7 idle_session)) = 0.
Proof.
  apply (proj1 first_chunk_stamp "hello" 7 idle_session 0%nat). reflexivity.
Defined.


(** *** After Close *)

Lemma tts_step_once s s' :
  step s s' -> Tts.closeOnce s' = Tts.closeOnce s \/ (Tts.closeOnce s = Fresh /\ s' = Tts.Close s).
Proof.
  intros Hstep.
  assert (Hsame : forall x, control_of x = control_of s -> Tts.closeOnce x = Tts.closeOnce s).
  { intros x Hc. injection Hc as _ _ _ -> _ _ _. reflexivity. }
  destruct Hstep as [sel s Hr|tie now sel s s' Hturn|text now s|text s|now s|s
                    |h n p e s s' Hread|h s|ev s].
  - left. destruct (tts_start_cases sel s) as [->|(_ & _ & _ & _ & _ & _ & _ & _ & H & _)];
      [reflexivity|exact H].
  - left. apply Hsame, (tts_loop_turn_effect tie now sel s s' Hturn).
  - left. apply Hsame. pose proof (tts_SynthesizeStream_effect text now s) as H.
    cbv zeta in H. apply H.
  - left. apply Hsame, tts_SendText_effect.
  - left. apply Hsame, tts_Commit_effect.
  - destruct (Tts.closeOnce s) eqn:Ho.
    + right. auto.
    + left. rewrite tts_Close_again by (rewrite Ho; discriminate). exact Ho.
    + left. rewrite tts_Close_again by (rewrite Ho; discriminate). exact Ho.
  - left. apply Hsame, (tts_stream_Read_effect h n s p e s' Hread).
  - left. reflexivity.
  - left. reflexivity.
Qed.

Lemma tts_start_conn sel s :
  conn (fst (start sel s)) = conn s
  \/ exists v, conn (fst (start sel s)) = fst (SendJSON v (conn s)).
Proof.
  unfold start. destruct (waitReady sel s) as [s1 [[]|e]] eqn:Hw.
  - assert (H1 : conn s1 = conn s).
    { revert Hw. unfold waitReady. destruct (Receive sel); [|discriminate].
      destruct (ParseMessageType a); [|discriminate]. destruct (negb _); [discriminate|].
      destruct (ParseMessage a) as [[]|]; try discriminate. intros [= <-]. reflexivity. }
    right. unfold sendConfig. rewrite H1.
    match goal with |- context [SendJSON ?v (conn s)] => exists v end.
    destruct (SendJSON _ (conn s)) as [c [[]|e]]; reflexivity.
  - left. apply tts_waitReady_err in Hw. subst. reflexivity.
Qed.

(** On a closed session without a socket no move writes. *)
Lemma tts_closed_step s s' :
  closed s = true -> ws (conn s) = None -> Tts.closeOnce s = Spent -> step s s' ->
  ws (conn s') = None /\ wire (conn s') = wire (conn s).
Proof.
  intros Hcl Hws Ho Hstep.
  destruct Hstep as [sel s Hr|tie now sel s s' Hturn|text now s|text s|now s|s
                    |h n p e s s' Hread|h s|ev s].
  - destruct (tts_start_conn sel s) as [->|(v & ->)]; [auto|].
    rewrite (SttSessionMore.SendJSON_dead v _ Hws). auto.
  - destruct (tts_loop_turn_effect tie now sel s s' Hturn) as (_ & _ & -> & _). auto.
  - unfold SynthesizeStream. rewrite Hcl. auto.
  - unfold SendText. rewrite Hcl. auto.
  - unfold Commit. rewrite Hcl. auto.
  - rewrite tts_Close_again by (rewrite Ho; discriminate). auto.
  - unfold stream_Read in Hread. destruct (streams s !! h); [|discriminate].
    destruct (Read n a); [discriminate|]. injection Hread as _ _ <-. auto.
  - auto.
  - cbn [conn with_conn]. destruct (SttSessionMore.conn_change_keeps ev (conn s)) as [Hw Hn].
    auto.
Qed.

Lemma tts_closed_no_socket s :
  reachable s -> Tts.closeOnce s = Spent -> ws (conn s) = None.
Proof.
  induction 1 as [c provider o|s s' Hreach IH Hstep]; [discriminate|].
  intros Ho. destruct (tts_step_once s s' Hstep) as [Hsame|[Hf ->]].
  - rewrite Hsame in Ho.
    destruct (tts_closed_state s Hreach) as (_ & [(Hfr & _)|(_ & _ & Hcl & _)]); [congruence|].
    apply (tts_closed_step s s' Hcl (IH Ho) Ho Hstep).
  - rewrite (tts_conn_Close s Hf). apply TransportSpec.ws_teardown.
Qed.

Lemma tts_closed_quiet s s' :
  reachable s -> closed s = true -> step s s' ->
  closed s' = true /\ wire (conn s') = wire (conn s).
Proof.
  intros Hreach Hcl Hstep.
  destruct (tts_closed_state s Hreach) as (_ & [(_ & _ & Hn)|(Ho & _)]); [congruence|].
  split.
  - destruct (tts_closed_state s' (moved s s' Hreach Hstep))
      as (_ & [(Hfr & _)|(_ & _ & Hcl' & _)]); [|exact Hcl'].
    destruct (tts_step_once s s' Hstep) as [Hsame|[Hf _]]; congruence.
  - apply (tts_closed_step s s' Hcl (tts_closed_no_socket s Hreach Ho) Ho Hstep).
Qed.

Lemma tts_closed_refuses s text now :
  closed s = true ->
  SynthesizeStream text now s = (s, Err (Errorf "session closed"))
  /\ SendText text s = (s, Err (Errorf "session closed"))
  /\ Commit now s = (s, Err (Errorf "session closed")).
Proof. intros Hcl. unfold SynthesizeStream, SendText, Commit. rewrite Hcl. auto. Qed.

(** X6.  A synthesis session that was closed stays silent:
    whatever is done with it afterwards (rounds asked for, text sent,
    commits, more calls of [Close], turns of the message loop, reads and
    closes of its streams, changes of the connection), it stays closed and
    nothing more is written to the connection; [SynthesizeStream],
    [SendText] and [Commit] fail with "session closed" and leave the
    session as it is. *)
Theorem tts_closed_session_is_silent :
  forall s s' text now,
    reachable s -> closed s = true -> rtc step s s' ->
    closed s' = true
    /\ wire (conn s') = wire (conn s)
    /\ SynthesizeStream text now s' = (s', Err (Errorf "session closed"))
    /\ SendText text s' = (s', Err (Errorf "session closed"))
    /\ Commit now s' = (s', Err (Errorf "session closed"))
    /\ Close s' = s'.
Proof.
  intros s s' text now Hreach Hcl Hsteps.
  assert (Hall : reachable s' /\ closed s' = true /\ wire (conn s') = wire (conn s)).
  { induction Hsteps as [s|s s1 s2 Hstep _ IH]; [auto|].
    destruct (tts_closed_quiet s s1 Hreach Hcl Hstep) as [Hcl1 Hw1].
    destruct (IH (moved s s1 Hreach Hstep) Hcl1) as (Hr2 & Hcl2 & Hw2).
    split; [exact Hr2|]. split; [exact Hcl2|]. congruence. }
  destruct Hall as (Hr' & Hcl' & Hw'). split; [exact Hcl'|]. split; [exact Hw'|].
  destruct (tts_closed_refuses s' text now Hcl') as (H1 & H2 & H3).
  split; [exact H1|]. split; [exact H2|]. split; [exact H3|].
  destruct (tts_closed_state s' Hr') as (_ & [(_ & _ & Hn)|(Ho & _)]); [congruence|].
  unfold Close. rewrite Ho. reflexivity.
Qed.

Lemma tts_closed_session_is_silent_witness :
  closed (fst (SendText "more" (Close busy_session))) = true
  /\ wire (conn (fst (SendText "more" (Close busy_session))))
     = wire (conn (Close busy_session)).
Proof.
  assert (Hr : reachable (Close busy_session))
    by (apply (moved busy_session); [exact tts_busy_reachable|apply session_closed]).
  assert (Hc : closed (Close busy_session) = true) by (vm_compute; reflexivity).
  assert (Hs : rtc step (Close busy_session) (fst (SendText "more" (Close busy_session))))
    by (apply rtc_once; apply text_sent).
  pose proof (tts_closed_session_is_silent _ _ "more" 0 Hr Hc Hs) as (H1 & H2 & _).
  split; [exact H1|exact H2].
Defined.

End TtsSessionMore.

(** ** The codec: what else its code shows *)

Module CodecMore.
Import Json Protocol Codec.

Lemma parse_body_cases {T} (fs : fields T) zero (inj : T -> message) data :
  (exists x, parse_body fs zero inj data = Ok (inj x) /\ Unmarshal fs zero data = Ok x)
  \/ (exists e, parse_body fs zero inj data = Err (Wrap "parse message body" e)).
Proof.
  unfold parse_body. destruct (Unmarshal fs zero data) as [x|e]; [left|right]; eauto.
Qed.

Ltac tag_test t X :=
  let H := fresh "Htag" in
  destruct (String.eqb t X) eqn:H;
  [apply String.eqb_eq in H; subst t|].

Ltac accepted fs zero inj data :=
  split; [reflexivity|]; split; [first [discriminate|reflexivity]|];
  cbn [orb];
  let x := fresh "x" in
  destruct (parse_body_cases fs zero inj data) as [(x & -> & _)|(? & ->)];
  [left; exists (inj x); split; reflexivity|right; eauto].

(** X13.  The tag of a frame is never classified both as a server
    and as a client message, and [ParseMessage] accepts exactly the
    classified tags: for a classified tag it returns a message of that tag
    or fails on the body, for any other tag (session.config_done among
    them) it fails with "unknown message type". *)
Theorem ParseMessage_accepts_classified_tags :
  forall data t,
    ParseMessageType data = Ok t ->
    IsServerMessage t && IsClientMessage t = false
    /\ (IsErrorMessage t = true -> IsServerMessage t = true)
    /\ (if IsServerMessage t || IsClientMessage t
        then (exists m, ParseMessage data = Ok m /\ tag_of m = t)
             \/ (exists e, ParseMessage data = Err (Wrap "parse message body" e))
        else ParseMessage data = Err (Errorf ("unknown message type: " +:+ t))).
Proof.
  intros data t Ht. unfold ParseMessage. rewrite Ht. clear Ht.
  unfold IsServerMessage, IsClientMessage, IsErrorMessage.
  tag_test t MessageTypeSessionReady.
  { accepted SessionReady_fields {| SessionReady_Type := ""; SessionID := "" |}
      MSessionReady data. }
  tag_test t MessageTypeTranscriptPartial.
  { accepted TranscriptPartial_fields
      {| TranscriptPartial_Type := ""; TranscriptPartial_Text := "" |}
      MTranscriptPartial data. }
  tag_test t MessageTypeTranscriptFinal.
  { accepted TranscriptFinal_fields
      {| TranscriptFinal_Type := ""; TranscriptFinal_Text := ""; StartTime := 0; EndTime := 0 |}
      MTranscriptFinal data. }
  tag_test t MessageTypeAudioDelta.
  { accepted AudioDelta_fields {| AudioDelta_Type := ""; AudioDelta_Audio := "" |}
      MAudioDelta data. }
  tag_test t MessageTypeAudioDone.
  { accepted AudioDone_fields {| AudioDone_Type := "" |} MAudioDone data. }
  tag_test t MessageTypeInputDone.
  { accepted InputDone_fields {| InputDone_Type := "" |} MInputDone data. }
  tag_test t MessageTypeProcessing.
  { accepted Processing_fields {| Processing_Type := "" |} MProcessing data. }
  tag_test t MessageTypeError.
  { accepted ErrorMessage_fields {| ErrorMessage_Type := ""; Code := ""; Message := "" |}
      MErrorMessage data. }
  tag_test t MessageTypeSessionConfig.
  { accepted SessionConfig_fields
      {| SessionConfig_Type := ""; SessionConfig_Session := zero_SessionParams |}
      MSessionConfig data. }
  tag_test t MessageTypeAudioAppend.
  { accepted AudioAppend_fields {| AudioAppend_Type := ""; AudioAppend_Audio := "" |}
      MAudioAppend data. }
  tag_test t MessageTypeTextAppend.
  { accepted TextAppend_fields {| TextAppend_Type := ""; TextAppend_Text := "" |}
      MTextAppend data. }
  tag_test t MessageTypeInputCommit.
  { accepted InputCommit_fields {| InputCommit_Type := "" |} MInputCommit data. }
  tag_test t MessageTypeSessionEnd.
  { accepted SessionEnd_fields {| SessionEnd_Type := "" |} MSessionEnd data. }
  cbn [orb andb]. split; [reflexivity|]. split; [discriminate|reflexivity].
Qed.

Lemma ParseMessage_accepts_classified_tags_witness :
  IsServerMessage "session.config_done" && IsClientMessage "session.config_done" = false
  /\ ParseMessage (Json (JObj [("type", JStr "session.config_done")]))
     = Err (Errorf ("unknown message type: " +:+ "session.config_done")).
Proof.
  assert (Ht : ParseMessageType (Json (JObj [("type", JStr "session.config_done")]))
               = Ok "session.config_done") by reflexivity.
  pose proof (ParseMessage_accepts_classified_tags _ _ Ht) as (H1 & _ & H3).
  split; [exact H1|exact H3].
Defined.

Lemma find_field_Message k v :
  find_field Message_fields k =
  if names_type (k, v) then Some (set_string (fun t _ => {| Message_Type := t |}))
  else None.
Proof. reflexivity. Qed.

Lemma decode_Message kvs acc :
  decode_members Message_fields kvs acc =
  if forallb string_or_null (type_members kvs)
  then Some {| Message_Type := last_string (type_members kvs) (Message_Type acc) |}
  else None.
Proof.
  revert acc. induction kvs as [|[k v] kvs IH]; intros acc.
  - destruct acc; reflexivity.
  - cbn [decode_members]. rewrite (find_field_Message k v).
    unfold type_members. cbn [List.filter].
    destruct (names_type (k, v)).
    + cbn [map forallb snd last_string].
      destruct v; cbn [string_or_null set_string andb]; try reflexivity;
        rewrite IH; reflexivity.
    + apply IH.
Qed.

(** [protocol.ParseMessage] reads the tag as [ParseMessageType] does. *)
Lemma ParseMessage_tag data t :
  Protocol.ParseMessage data = Ok t <-> ParseMessageType data = Ok t.
Proof.
  unfold Protocol.ParseMessage, ParseMessageType, Unmarshal.
  destruct data as [|[| | | | |kvs]]; try (split; discriminate); [reflexivity|].
  rewrite decode_Message, CodecSpec.decode_raw.
  destruct (forallb string_or_null (type_members kvs)); [reflexivity|split; discriminate].
Qed.

(** X14.  The typed parsers of the protocol package agree with
    [ParseMessage]: on a frame that [ParseMessage] accepts,
    [protocol.ParseMessage] returns the tag of the message, and the parser
    of the variant ([ParseSessionConfig], [ParseAudioAppend],
    [ParseTextAppend]) returns the same value. *)
Theorem typed_parsers_agree :
  forall data m,
    Codec.ParseMessage data = Ok m ->
    Protocol.ParseMessage data = Ok (tag_of m)
    /\ match m with
       | MSessionConfig x => ParseSessionConfig data = Ok x
       | MAudioAppend x => ParseAudioAppend data = Ok x
       | MTextAppend x => ParseTextAppend data = Ok x
       | _ => True
       end.
Proof.
  intros data m Hm. split.
  - pose proof (CodecSpec.ParseMessage_variant data m Hm) as Ht.
    rewrite ParseMessage_tag. exact Ht.
  - unfold Codec.ParseMessage in Hm.
    destruct (ParseMessageType data) as [t|e]; [|discriminate].
    unfold parse_body, ParseSessionConfig, ParseAudioAppend, ParseTextAppend in *.
    repeat match type of Hm with
           | (if ?b then _ else _) = _ => destruct b
           end;
      try discriminate Hm;
      match type of Hm with
      | match ?u with _ => _ end = _ => destruct u; [|discriminate Hm]
      end;
      injection Hm as <-; reflexivity.
Qed.

Lemma typed_parsers_agree_witness :
  Protocol.ParseMessage (Json (JObj [("type", JStr "audio.append"); ("audio", JStr "AAEC")]))
  = Ok "audio.append"
  /\ ParseAudioAppend (Json (JObj [("type", JStr "audio.append"); ("audio", JStr "AAEC")]))
     = Ok (NewAudioAppend "AAEC").
Proof.
  apply (typed_parsers_agree
           (Json (JObj [("type", JStr "audio.append"); ("audio", JStr "AAEC")]))
           (MAudioAppend (NewAudioAppend "AAEC"))).
  reflexivity.
Defined.



End CodecMore.

(** ** base64 and the payloads on the wire *)

Module Base64Spec.
Import Json Protocol Codec Transport.

Lemma list_ind3 {A} (P : list A -> Prop) :
  P [] -> (forall x, P [x]) -> (forall x y, P [x; y]) ->
  (forall x y z l, P l -> P (x :: y :: z :: l)) ->
  forall l, P l.
Proof.
  intros H0 H1 H2 H3.
  fix IH 1. intros [|x [|y [|z l]]]; [exact H0|apply H1|apply H2|].
  apply H3. apply IH.
Qed.

Lemma sextets_ok :
  forallb (fun n =>
             match Base64.decode_char (Base64.encode_char n) with
             | Some m => N.eqb m n
             | None => false
             end
             && negb (Base64.is_pad (Base64.encode_char n))
             && negb (Base64.is_newline (Base64.encode_char n)))
    (map N.of_nat (seq 0 64)) = true.
Proof. vm_compute. reflexivity. Qed.

Lemma sextet n :
  (n < 64)%N ->
  Base64.decode_char (Base64.encode_char n) = Some n
  /\ Base64.is_pad (Base64.encode_char n) = false
  /\ Base64.is_newline (Base64.encode_char n) = false.
Proof.
  intros Hn. pose proof sextets_ok as H. rewrite forallb_forall in H.
  specialize (H n). assert (Hin : In n (map N.of_nat (seq 0 64))).
  { apply in_map_iff. exists (N.to_nat n). split; [apply N2Nat.id|].
    apply in_seq. lia. }
  specialize (H Hin). cbv beta in H.
  apply andb_true_iff in H as [H Hnl]. apply andb_true_iff in H as [Hd Hp].
  destruct (Base64.decode_char (Base64.encode_char n)) as [m|]; [|discriminate].
  apply N.eqb_eq in Hd. subst m.
  split; [reflexivity|]. split; [apply negb_true_iff; exact Hp|apply negb_true_iff; exact Hnl].
Qed.

Lemma byte_of_N_to_N n x : (n mod 256 = Byte.to_N x)%N -> Base64.byte_of_N n = x.
Proof. unfold Base64.byte_of_N. intros ->. rewrite Byte.of_to_N. reflexivity. Qed.

Lemma to_N_lt x : (Byte.to_N x < 256)%N.
Proof. pose proof (Byte.to_N_bounded x). lia. Qed.

Ltac sext H n :=
  let a := fresh "Hd" in let b := fresh "Hp" in let c := fresh "Hn" in
  destruct (sextet n H) as (a & b & c).

Ltac euclid := zify; Z.to_euclidean_division_equations; lia.

Lemma decode_encode_bytes : forall bs,
  Base64.decode_quanta (Base64.encode_bytes bs) = Some bs
  /\ List.filter (fun c => negb (Base64.is_newline c)) (Base64.encode_bytes bs)
     = Base64.encode_bytes bs.
Proof.
  assert (Hpad : Base64.is_pad "="%char = true) by reflexivity.
  assert (Hnl : Base64.is_newline "="%char = false) by reflexivity.
  induction bs as [|x|x y|x y z l [IHd IHf]] using list_ind3.
  - split; reflexivity.
  - pose proof (to_N_lt x) as Hx. cbn [Base64.encode_bytes].
    set (v := (Byte.to_N x * 65536)%N).
    assert (Ha : (v / 262144 < 64)%N) by (subst v; euclid).
    assert (Hb : (v / 4096 mod 64 < 64)%N) by (subst v; euclid).
    sext Ha (v / 262144)%N. sext Hb (v / 4096 mod 64)%N.
    split.
    + cbn [Base64.decode_quanta]. rewrite Hd, Hd0, Hpad. unfold Base64.quantum1.
      f_equal. f_equal. apply byte_of_N_to_N. subst v. euclid.
    + cbn [List.filter]. rewrite Hn, Hn0, Hnl. reflexivity.
  - pose proof (to_N_lt x) as Hx. pose proof (to_N_lt y) as Hy. cbn [Base64.encode_bytes].
    set (v := (Byte.to_N x * 65536 + Byte.to_N y * 256)%N).
    assert (Ha : (v / 262144 < 64)%N) by (subst v; euclid).
    assert (Hb : (v / 4096 mod 64 < 64)%N) by (subst v; euclid).
    assert (Hc : (v / 64 mod 64 < 64)%N) by (subst v; euclid).
    sext Ha (v / 262144)%N. sext Hb (v / 4096 mod 64)%N. sext Hc (v / 64 mod 64)%N.
    split.
    + cbn [Base64.decode_quanta]. rewrite Hd, Hd0, Hp1, Hd1, Hpad. unfold Base64.quantum2.
      f_equal. f_equal; [|f_equal]; apply byte_of_N_to_N; subst v; euclid.
    + cbn [List.filter]. rewrite Hn, Hn0, Hn1, Hnl. reflexivity.
  - pose proof (to_N_lt x) as Hx. pose proof (to_N_lt y) as Hy. pose proof (to_N_lt z) as Hz.
    cbn [Base64.encode_bytes].
    set (v := (Byte.to_N x * 65536 + Byte.to_N y * 256 + Byte.to_N z)%N).
    assert (Ha : (v / 262144 < 64)%N) by (subst v; euclid).
    assert (Hb : (v / 4096 mod 64 < 64)%N) by (subst v; euclid).
    assert (Hc : (v / 64 mod 64 < 64)%N) by (subst v; euclid).
    assert (He : (v mod 64 < 64)%N) by (subst v; euclid).
    sext Ha (v / 262144)%N. sext Hb (v / 4096 mod 64)%N. sext Hc (v / 64 mod 64)%N.
    sext He (v mod 64)%N.
    split.
    + cbn [Base64.decode_quanta]. rewrite Hd, Hd0, Hp1, Hd1, Hp2, Hd2, IHd.
      unfold Base64.quantum3. cbn [app].
      f_equal. f_equal; [|f_equal; [|f_equal]]; apply byte_of_N_to_N; subst v; euclid.
    + cbn [List.filter]. rewrite Hn, Hn0, Hn1, Hn2. cbn [negb]. rewrite IHf. reflexivity.
Qed.

(** Decoding what was encoded gives the bytes back. *)
Lemma DecodeString_EncodeToString bs :
  Base64.DecodeString (Base64.EncodeToString bs) = Ok bs.
Proof.
  unfold Base64.DecodeString, Base64.EncodeToString.
  rewrite list_ascii_of_string_of_list_ascii.
  destruct (decode_encode_bytes bs) as [Hd Hf]. rewrite Hf, Hd. reflexivity.
Qed.

(** [SendJSON] on a connection that is connected and whose socket takes
    writes. *)
Lemma SendJSON_live v j c :
  live c = true -> Marshal v = Ok j ->
  SendJSON v c = (with_wire c (wire c ++ [TextMessage j]), Ok tt)
  /\ live (with_wire c (wire c ++ [TextMessage j])) = true.
Proof.
  unfold live, writable, SendJSON. intros Hl Hj.
  destruct (connected c) eqn:Hc; [|discriminate]. destruct (ws c) as [w|] eqn:Hw; [|discriminate].
  cbn [andb] in Hl. apply negb_true_iff in Hl. rewrite Hl, Hj.
  split; [reflexivity|]. cbn [with_wire connected ws]. rewrite Hc, Hw, Hl. reflexivity.
Qed.

End Base64Spec.

Module SttPayloadSpec.
Import Json Protocol Codec Transport Stt.

(** X16.  [Send] on a ready session that is not closed and whose
    connection is live, for any audio (the empty slice included): it
    succeeds and writes one frame and nothing else changes; the frame is
    read by [ParseMessage] as an audio.append message whose payload
    [DecodeString] turns back into the bytes that were sent. *)
Theorem Send_frame_carries_audio :
  forall audio s,
    closed s = false -> ready s = true -> live (conn s) = true ->
    exists j m,
      Send audio s
      = (with_conn s (with_wire (conn s) (wire (conn s) ++ [TextMessage j])), Ok tt)
      /\ ParseMessage (Json j) = Ok (MAudioAppend m)
      /\ Protocol.ParseAudioAppend (Json j) = Ok m
      /\ Base64.DecodeString (AudioAppend_Audio m) = Ok audio.
Proof.
  intros audio s Hc Hr Hl.
  exists (JObj [("type", JStr MessageTypeAudioAppend);
                ("audio", JStr (Base64.EncodeToString audio))]).
  exists (NewAudioAppend (Base64.EncodeToString audio)).
  split.
  - unfold Send. rewrite Hc, Hr. cbn [negb].
    destruct (Base64Spec.SendJSON_live
                (MAudioAppend (NewAudioAppend (Base64.EncodeToString audio))) _ (conn s) Hl
                eq_refl) as [-> _].
    reflexivity.
  - split; [reflexivity|]. split; [reflexivity|].
    apply Base64Spec.DecodeString_EncodeToString.
Qed.

Lemma Send_frame_carries_audio_witness :
  exists j m,
    Send [x01; x02; x03] SttLife.active_session
    = (with_conn SttLife.active_session
         (with_wire (conn SttLife.active_session)
            (wire (conn SttLife.active_session) ++ [TextMessage j])), Ok tt)
    /\ ParseMessage (Json j) = Ok (MAudioAppend m)
    /\ Protocol.ParseAudioAppend (Json j) = Ok m
    /\ Base64.DecodeString (AudioAppend_Audio m) = Ok [x01; x02; x03].
Proof.
  apply (Send_frame_carries_audio [x01; x02; x03] SttLife.active_session); reflexivity.
Defined.

End SttPayloadSpec.

Module TtsPayloadSpec.
Import Json Protocol Codec Transport TtsStream Tts TtsStreamSpec TtsRoundSpec.



(** X18.  In a round, an audio.delta frame that the server wrote for
    the bytes [d] (encoded with [EncodeToString]) adds exactly [d] to what
    the reader of the stream will get, as one chunk behind those already
    queued. *)
Theorem audio_delta_delivers_payload :
  forall tie now d h arrived cs s,
    in_round h arrived cs s -> d <> [] -> (length cs < 100)%nat ->
    exists f s' c,
      EncodeMessage (MAudioDelta (NewAudioDelta (Base64.EncodeToString d))) = Ok f
      /\ loop_turn tie now (Inbound f) s = Some s'
      /\ Data c = d
      /\ in_round h (arrived + Z.of_nat (length d)) (cs ++ [c]) s'
      /\ stream_pending h (cs ++ [c]) s' = stream_pending h cs s ++ d.
Proof.
  intros tie now d h arrived cs s Hin Hd Hlen.
  exists (delta_frame (Base64.EncodeToString d)).
  destruct (frame_delta tie now (Base64.EncodeToString d) d h arrived cs s Hin
              (Base64Spec.DecodeString_EncodeToString d) Hd Hlen)
    as (s' & c & H1 & H2 & H3 & H4).
  exists s', c. split; [reflexivity|]. auto.
Qed.

Lemma audio_delta_delivers_payload_witness :
  exists f s' c,
    EncodeMessage (MAudioDelta (NewAudioDelta (Base64.EncodeToString [x01; x02]))) = Ok f
    /\ loop_turn false 9 (Inbound f) TtsLife.busy_session = Some s'
    /\ Data c = [x01; x02]
    /\ in_round 0 (0 + Z.of_nat (length [x01; x02])) ([] ++ [c]) s'
    /\ stream_pending 0 ([] ++ [c]) s' = stream_pending 0 [] TtsLife.busy_session ++ [x01; x02].
Proof.
  apply (audio_delta_delivers_payload false 9 [x01; x02] 0 0 [] TtsLife.busy_session).
  - split; [reflexivity|]. split; [reflexivity|].
    exists newAudioStream. split; [vm_compute; reflexivity|exact streaming_new].
  - discriminate.
  - cbn. lia.
Defined.

End TtsPayloadSpec.

(** ** The connection: what else its code shows *)

Module TransportMore.
Import Json Protocol Codec Transport TransportSpec.

Lemma dials_snoc_Dialed log : dials (log ++ [Dialed]) = S (dials log).
Proof. rewrite dials_app. cbn. lia. Qed.

Lemma dials_snoc_Waited log d : dials (log ++ [Waited d]) = dials log.
Proof. rewrite dials_app. cbn. lia. Qed.

Lemma retry_loop_stamps env : forall i b last c log c' r log',
  connected c = false -> connectedAt c = None ->
  retry_loop env i b last c log = (c', r, log') ->
  match r with
  | Returned None =>
      exists k a,
        dials log' = (dials log + S k)%nat /\ nth_error env k = Some a /\ dial a = DialOk
        /\ connected c' = true /\ connectStartAt c' = Some (at_start a)
        /\ connectedAt c' = Some (at_end a)
  | _ => connected c' = false /\ connectedAt c' = None
  end.
Proof.
  induction env as [|a env IH]; intros i b last c log c' r log' Hc Hat Hrun;
    cbn [retry_loop] in Hrun.
  - destruct (i <=? MaxReconnects (config c)); injection Hrun as <- <- <-;
      [auto|destruct last; auto].
  - destruct (i <=? MaxReconnects (config c)).
    2:{ injection Hrun as <- <- <-. destruct last; auto. }
    assert (Hstep : forall b1 log1,
               dials log1 = dials log ->
               match Connect (at_start a) (at_end a) (dial a) c with
               | (c1, Ok _) => (c1, Returned None, log1 ++ [Dialed])
               | (c1, Err e) =>
                   retry_loop env (wrap64 (i + 1)) b1 (Some e) c1 (log1 ++ [Dialed])
               end = (c', r, log') ->
               match r with
               | Returned None =>
                   exists k a0,
                     dials log' = (dials log + S k)%nat /\ nth_error (a :: env) k = Some a0
                     /\ dial a0 = DialOk /\ connected c' = true
                     /\ connectStartAt c' = Some (at_start a0)
                     /\ connectedAt c' = Some (at_end a0)
               | _ => connected c' = false /\ connectedAt c' = None
               end).
    { intros b1 log1 Hd Hgo. unfold Connect in Hgo. rewrite Hc in Hgo.
      destruct (dial a) as [|e st] eqn:Hdial.
      - injection Hgo as <- <- <-. exists 0%nat, a. rewrite dials_snoc_Dialed, Hd.
        repeat split; try reflexivity; [lia|exact Hdial].
      - assert (Hrec : exists c1 e1,
                   retry_loop env (wrap64 (i + 1)) b1 (Some e1) c1 (log1 ++ [Dialed])
                   = (c', r, log')
                   /\ connected c1 = false /\ connectedAt c1 = None).
        { destruct st as [st|]; eexists; eexists; (split; [exact Hgo|]); cbn; auto. }
        destruct Hrec as (c1 & e1 & Hrec & Hc1 & Hat1).
        specialize (IH _ _ _ _ _ _ _ _ Hc1 Hat1 Hrec).
        destruct r as [[e2|]|]; try exact IH.
        destruct IH as (k & a0 & Hk & Hn & Hrest).
        exists (S k), a0. rewrite dials_snoc_Dialed, Hd in Hk.
        split; [lia|]. split; [exact Hn|exact Hrest]. }
    destruct (0 <? i).
    + destruct (cancel a) as [e|].
      * injection Hrun as <- <- <-. auto.
      * apply (Hstep _ _ (dials_snoc_Waited log b) Hrun).
    + apply (Hstep _ _ eq_refl Hrun).
Qed.

(** What the retry loop leaves of the connection it was given. *)
Lemma retry_loop_shape env : forall i b last c log c' r log',
  connected c = false ->
  retry_loop env i b last c log = (c', r, log') ->
  config c' = config c /\ wire c' = wire c /\ closeCh c' = closeCh c
  /\ closeOnce c' = closeOnce c
  /\ match r with
     | Returned None => connected c' = true /\ ws c' = Some {| broken := false |}
     | _ => connected c' = false /\ ws c' = ws c
     end.
Proof.
  induction env as [|a env IH]; intros i b last c log c' r log' Hc Hrun;
    cbn [retry_loop] in Hrun.
  - destruct (i <=? MaxReconnects (config c)); injection Hrun as <- <- <-;
      [auto 6|destruct last; auto 6].
  - destruct (i <=? MaxReconnects (config c)).
    2:{ injection Hrun as <- <- <-. destruct last; auto 6. }
    assert (Hstep : forall b1 log1,
               match Connect (at_start a) (at_end a) (dial a) c with
               | (c1, Ok _) => (c1, Returned None, log1 ++ [Dialed])
               | (c1, Err e) =>
                   retry_loop env (wrap64 (i + 1)) b1 (Some e) c1 (log1 ++ [Dialed])
               end = (c', r, log') ->
               config c' = config c /\ wire c' = wire c /\ closeCh c' = closeCh c
               /\ closeOnce c' = closeOnce c
               /\ match r with
                  | Returned None => connected c' = true /\ ws c' = Some {| broken := false |}
                  | _ => connected c' = false /\ ws c' = ws c
                  end).
    { intros b1 log1 Hgo. unfold Connect in Hgo. rewrite Hc in Hgo.
      destruct (dial a) as [|e st] eqn:Hdial.
      - injection Hgo as <- <- <-. cbn. auto 6.
      - assert (Hrec : exists c1 e1,
                   retry_loop env (wrap64 (i + 1)) b1 (Some e1) c1 (log1 ++ [Dialed])
                   = (c', r, log')
                   /\ connected c1 = false /\ config c1 = config c /\ wire c1 = wire c
                   /\ closeCh c1 = closeCh c /\ closeOnce c1 = closeOnce c /\ ws c1 = ws c).
        { destruct st as [st|]; eexists; eexists; (split; [exact Hgo|]); cbn; auto 8. }
        destruct Hrec as (c1 & e1 & Hrec & Hc1 & H1 & H2 & H3 & H4 & H5).
        specialize (IH _ _ _ _ _ _ _ _ Hc1 Hrec).
        destruct IH as (I1 & I2 & I3 & I4 & I5).
        rewrite I1, I2, I3, I4, H1, H2, H3, H4. repeat split.
        rewrite H5 in I5. exact I5. }
    destruct (0 <? i).
    + destruct (cancel a) as [e|].
      * injection Hrun as <- <- <-. auto 6.
      * apply (Hstep _ _ Hrun).
    + apply (Hstep _ _ Hrun).
Qed.

(** X19.  After [ConnectWithRetry] on a new connection:
    if it returned nil, the connection is connected and
    [ConnectDuration] is the time of the one dial that was accepted, from
    its start to its end (held at the ends of [Duration]); the failed
    dials and the waits before it are not counted.  If it returned an
    error, or is still waiting, the connection is not connected and
    [ConnectDuration] is 0. *)
Theorem ConnectDuration_of_accepted_dial :
  forall env cfg c r log,
    ConnectWithRetry env (NewConn cfg) = (c, r, log) ->
    match r with
    | Returned None =>
        exists a,
          nth_error env (dials log - 1) = Some a /\ dial a = DialOk
          /\ IsConnected c = true /\ ConnectedAt c = Some (at_end a)
          /\ ConnectDuration c = Time_Sub (at_end a) (at_start a)
    | _ => IsConnected c = false /\ ConnectedAt c = None /\ ConnectDuration c = 0
    end.
Proof.
  intros env cfg c r log Hrun. unfold ConnectWithRetry in Hrun.
  apply retry_loop_stamps in Hrun; [|reflexivity|reflexivity].
  unfold IsConnected, ConnectedAt, ConnectDuration.
  destruct r as [[e|]|].
  - destruct Hrun as [-> ->]. auto.
  - destruct Hrun as (k & a & Hk & Hn & Hd & Hc & Hs & He).
    exists a. rewrite Hk, Hs, He. cbn [dials length List.filter Nat.add].
    replace (S k - 1)%nat with k by lia. auto.
  - destruct Hrun as [-> ->]. auto.
Qed.

Lemma ConnectDuration_of_accepted_dial_witness :
  exists a,
    nth_error [refused; accepted]
      (dials (snd (ConnectWithRetry [refused; accepted] (NewConn DefaultConfig))) - 1) = Some a
    /\ dial a = DialOk
    /\ IsConnected (fst (fst (ConnectWithRetry [refused; accepted] (NewConn DefaultConfig))))
       = true
    /\ ConnectedAt (fst (fst (ConnectWithRetry [refused; accepted] (NewConn DefaultConfig))))
       = Some (at_end a)
    /\ ConnectDuration (fst (fst (ConnectWithRetry [refused; accepted] (NewConn DefaultConfig))))
       = Time_Sub (at_end a) (at_start a).
Proof.
  apply (ConnectDuration_of_accepted_dial [refused; accepted] DefaultConfig
           (fst (fst (ConnectWithRetry [refused; accepted] (NewConn DefaultConfig))))
           (Returned None)
           (snd (ConnectWithRetry [refused; accepted] (NewConn DefaultConfig)))).
  vm_compute. reflexivity.
Defined.

Lemma conn_after_keeps k c :
  ws c = None ->
  ws (conn_after k c) = None /\ wire (conn_after k c) = wire c
  /\ closeCh (conn_after k c) = (closeCh c || negb (closeOnce c)
                                 && match k with
                                    | CallSendJSON _ => false
                                    | CallClose => true
                                    | ReadLoopEnds normal => normal
                                    end).
Proof.
  intros Hw. destruct k as [v| |normal]; cbn [conn_after].
  - unfold SendJSON. rewrite Hw. destruct (connected c); cbn [fst].
    + rewrite Hw, andb_false_r, orb_false_r. auto.
    + rewrite Hw, andb_false_r, orb_false_r. auto.
  - unfold Close. rewrite Hw. cbn [ws wire closeCh].
    destruct (closeOnce c), (closeCh c); auto.
  - unfold readLoop_exit. cbn [ws wire closeCh]. split; [exact Hw|]. split; [reflexivity|].
    destruct normal, (closeOnce c), (closeCh c); reflexivity.
Qed.

(** X20.  [Close] of a connection is final until the next
    [Connect]: it releases the socket, writes the close message if and
    only if the socket was held and took writes, and closes the close
    channel (also when the read loop had closed it already).  Whatever
    calls follow (sends, more calls of [Close], the end of the read
    loop), the socket stays released, nothing more is written, and every
    [SendJSON] fails with [ErrNotConnected]. *)
Theorem Conn_Close_is_final :
  forall c calls,
    closeOnce c = closeCh c ->
    let c1 := fold_left (fun acc k => conn_after k acc) calls (Close c) in
    wire (Close c) = wire c ++ (if writable c then [CloseMessage] else [])
    /\ closeCh (Close c) = true
    /\ ws c1 = None /\ wire c1 = wire (Close c) /\ closeCh c1 = true
    /\ (forall v, SendJSON v c1 = (c1, Err ErrNotConnected)).
Proof.
  intros c calls Hinv c1.
  assert (H0 : ws (Close c) = None /\ closeCh (Close c) = true
               /\ wire (Close c) = wire c ++ (if writable c then [CloseMessage] else [])).
  { unfold Close, writable. destruct (ws c) as [[b]|]; cbn [ws closeCh wire broken negb].
    - rewrite Hinv. destruct b, (closeCh c); rewrite ?app_nil_r; auto.
    - rewrite Hinv, app_nil_r. destruct (closeCh c); auto. }
  destruct H0 as (Hw & Hch & Hwire).
  split; [exact Hwire|]. split; [exact Hch|].
  assert (Hall : ws c1 = None /\ wire c1 = wire (Close c) /\ closeCh c1 = true).
  { subst c1. generalize (Close c) Hw Hch. clear.
    induction calls as [|k calls IH]; intros c Hw Hch; cbn [fold_left]; [auto|].
    destruct (conn_after_keeps k c Hw) as (Hw1 & Hwire1 & Hch1).
    rewrite Hch in Hch1. cbn [orb] in Hch1.
    destruct (IH _ Hw1 Hch1) as (H1 & H2 & H3). rewrite H2, Hwire1. auto. }
  destruct Hall as (H1 & H2 & H3). split; [exact H1|]. split; [exact H2|]. split; [exact H3|].
  intros v. unfold SendJSON. rewrite H1. destruct (connected c1); reflexivity.
Qed.

Lemma Conn_Close_is_final_witness :
  wire (Close live_conn) = wire live_conn ++ (if writable live_conn then [CloseMessage] else [])
  /\ closeCh (Close live_conn) = true.
Proof.
  assert (Hinv : closeOnce live_conn = closeCh live_conn) by reflexivity.
  pose proof (Conn_Close_is_final live_conn [CallClose] Hinv) as (H1 & H2 & _).
  split; [exact H1|exact H2].
Defined.

End TransportMore.

(** ** The recognition client *)

Module SttApiSpec.
Import Json Protocol Codec Transport Stt SttClient SttApi.



(** [Send] and [Commit] on a ready session that is not closed and whose
    connection is live. *)
Lemma stt_Send_live audio s :
  closed s = false -> ready s = true -> live (conn s) = true ->
  Send audio s
  = (with_conn s (with_wire (conn s) (wire (conn s) ++ [audio_frame audio])), Ok tt).
Proof.
  intros Hc Hr Hl. unfold Send. rewrite Hc, Hr. cbn [negb].
  destruct (Base64Spec.SendJSON_live
              (MAudioAppend (NewAudioAppend (Base64.EncodeToString audio))) _ (conn s) Hl
              eq_refl) as [-> _].
  reflexivity.
Qed.

Lemma stt_Commit_live s :
  closed s = false -> live (conn s) = true ->
  Commit s = (with_conn s (with_wire (conn s) (wire (conn s) ++ [commit_frame])), Ok tt).
Proof.
  intros Hc Hl. unfold Commit. rewrite Hc.
  destruct (Base64Spec.SendJSON_live (MInputCommit NewInputCommit) _ (conn s) Hl eq_refl)
    as [-> _].
  reflexivity.
Qed.

Lemma live_with_wire c w : live (with_wire c w) = live c.
Proof. reflexivity. Qed.

Lemma wrap64_fits z : int64_min <= z <= int64_max -> wrap64 z = z.
Proof. unfold wrap64, int64_min, int64_max. intros H. rewrite Z.mod_small by lia. lia. Qed.

Lemma concat_nonempty {A} (ls : list (list A)) :
  Forall (fun l => l <> []) ls -> ls <> [] -> concat ls <> [].
Proof.
  intros Hf Hn. destruct ls as [|l ls]; [congruence|].
  inversion Hf as [|? ? Hl _]; subst. cbn. destruct l; [congruence|discriminate].
Qed.

Lemma send_chunks_ok size audio : forall turns i s,
  0 < size -> 0 <= i -> Z.of_nat (length audio) + size <= int64_max ->
  closed s = false -> ready s = true -> live (conn s) = true ->
  Z.max 0 (Z.of_nat (length audio) - i) < Z.of_nat turns ->
  exists chunks s',
    send_chunks turns size i audio s = Delivered s' (Ok tt)
    /\ wire (conn s') = wire (conn s) ++ map audio_frame chunks ++ [commit_frame]
    /\ concat chunks = skipn (Z.to_nat i) audio
    /\ Forall (fun c => c <> [] /\ Z.of_nat (length c) <= size) chunks
    /\ Forall (fun c => Z.of_nat (length c) = size) (removelast chunks).
Proof.
  induction turns as [|turns IH]; intros i s Hsize Hi Hmax Hc Hr Hl Hturns; [lia|].
  cbn [send_chunks]. destruct (Z.ltb_spec i (Z.of_nat (length audio))) as [Hlt|Hge].
  - rewrite (wrap64_fits (i + size)) by (unfold int64_min; lia).
    set (e := if i + size >? Z.of_nat (length audio) then Z.of_nat (length audio)
              else i + size).
    assert (He : i < e <= Z.of_nat (length audio) /\ e <= i + size
                 /\ (i + size <= Z.of_nat (length audio) -> e = i + size)
                 /\ (Z.of_nat (length audio) < i + size -> e = Z.of_nat (length audio))).
    { unfold e. destruct (Z.gtb_spec (i + size) (Z.of_nat (length audio))); lia. }
    destruct He as (He1 & He2 & He3 & He4).
    unfold slice.
    replace ((0 <=? i) && (i <=? e) && (e <=? Z.of_nat (length audio))) with true
      by (symmetry; rewrite !andb_true_iff, !Z.leb_le; lia).
    set (chunk := firstn (Z.to_nat (e - i)) (skipn (Z.to_nat i) audio)).
    assert (Hlen : Z.of_nat (length chunk) = e - i).
    { unfold chunk. rewrite length_firstn, length_skipn. lia. }
    rewrite (stt_Send_live chunk s Hc Hr Hl).
    set (s1 := with_conn s _).
    assert (Hc1 : closed s1 = false) by exact Hc.
    assert (Hr1 : ready s1 = true) by exact Hr.
    assert (Hl1 : live (conn s1) = true) by exact Hl.
    assert (Ht1 : Z.max 0 (Z.of_nat (length audio) - (i + size)) < Z.of_nat turns) by lia.
    destruct (IH (i + size) s1 Hsize ltac:(lia) Hmax Hc1 Hr1 Hl1 Ht1)
      as (chunks & s' & Hrun & Hwire & Hcat & Hall & Hfull).
    exists (chunk :: chunks), s'. split; [exact Hrun|]. split.
    { rewrite Hwire. unfold s1. cbn [with_conn conn with_wire wire map app].
      rewrite <- app_assoc. reflexivity. }
    assert (Hne : forall l, Forall (fun c : list byte => c <> [] /\ Z.of_nat (length c) <= size) l ->
                           Forall (fun c : list byte => c <> []) l).
    { intros l Hf. eapply Forall_impl; [exact Hf|]. cbn. intros a [Ha _]. exact Ha. }
    split.
    { cbn [concat]. rewrite Hcat. unfold chunk.
      destruct (Z.le_gt_cases (i + size) (Z.of_nat (length audio))) as [Hfit|Hover].
      - rewrite He3 by exact Hfit.
        replace (Z.to_nat (i + size - i)) with (Z.to_nat size) by lia.
        replace (Z.to_nat (i + size)) with (Z.to_nat size + Z.to_nat i)%nat by lia.
        rewrite <- skipn_skipn. apply firstn_skipn.
      - rewrite (skipn_all2 (n := Z.to_nat (i + size))) by lia.
        rewrite app_nil_r. apply firstn_all2. rewrite length_skipn, He4 by exact Hover. lia. }
    split.
    { constructor; [|exact Hall]. split; [|lia].
      intros Hnil. rewrite Hnil in Hlen. cbn in Hlen. lia. }
    destruct chunks as [|c2 chunks]; [constructor|].
    cbn [removelast] in *. constructor; [|exact Hfull].
    assert (Hrest : skipn (Z.to_nat (i + size)) audio <> []).
    { rewrite <- Hcat. apply concat_nonempty; [apply Hne; exact Hall|discriminate]. }
    assert (Hfit : i + size < Z.of_nat (length audio)).
    { destruct (Z.lt_ge_cases (i + size) (Z.of_nat (length audio))) as [H|H]; [exact H|].
      exfalso. apply Hrest. apply skipn_all2. lia. }
    rewrite Hlen, He3; lia.
  - rewrite (stt_Commit_live s Hc Hl). exists [], (with_conn s
      (with_wire (conn s) (wire (conn s) ++ [commit_frame]))).
    split; [reflexivity|]. split; [reflexivity|].
    split; [symmetry; apply skipn_all2; lia|]. split; constructor.
Qed.

(** X22.  The sender of [RecognizeBytes], on a ready session that is
    not closed and whose connection is live, with a chunk size above 0:
    it sends the audio in frames whose chunks, put end to end, are the
    audio; no chunk is empty, every chunk but the last has the chunk
    size, the last has at most that; then it sends the commit frame and
    reports success.  For empty audio only the commit is sent.  The chunk
    size is a fifth of the sample rate. *)
Theorem RecognizeBytes_chunks :
  forall cfg audio s turns,
    0 < chunkSize cfg ->
    Z.of_nat (length audio) + chunkSize cfg <= int64_max ->
    closed s = false -> ready s = true -> live (conn s) = true ->
    (length audio < turns)%nat ->
    (0 <= Config_SampleRate cfg <= 4611686018427387903 ->
     chunkSize cfg = Config_SampleRate cfg / 5)
    /\ exists chunks s',
         send_chunks turns (chunkSize cfg) 0 audio s = Delivered s' (Ok tt)
         /\ wire (conn s') = wire (conn s) ++ map audio_frame chunks ++ [commit_frame]
         /\ concat chunks = audio
         /\ Forall (fun c => c <> [] /\ Z.of_nat (length c) <= chunkSize cfg) chunks
         /\ Forall (fun c => Z.of_nat (length c) = chunkSize cfg) (removelast chunks).
Proof.
  intros cfg audio s turns Hsize Hmax Hc Hr Hl Hturns. split.
  - intros Hrate. unfold chunkSize.
    rewrite wrap64_fits by (unfold int64_min, int64_max; lia).
    rewrite Z.quot_div_nonneg by lia.
    rewrite <- (Z.div_mul_cancel_r (Config_SampleRate cfg) 5 2) by lia. reflexivity.
  - destruct (send_chunks_ok (chunkSize cfg) audio turns 0 s) as (chunks & s' & H);
      try assumption; try lia.
    exists chunks, s'. exact H.
Qed.

Lemma RecognizeBytes_chunks_witness :
  exists chunks s',
    send_chunks 8 (chunkSize {| GatewayURL := "ws://localhost:8080";
                                Config_Provider := "tengen"; APIKey := "";
                                Config_Language := "zh-CN"; Config_SampleRate := 10;
                                Config_AudioFormat := "pcm"; ConnectTimeout := 0;
                                ReadTimeout := 0; WriteTimeout := 0; ReconnectBackoff := 0;
                                MaxReconnects := 0 |})
      0 [x01; x02; x03; x04; x05] SttLife.active_session = Delivered s' (Ok tt)
    /\ wire (conn s')
       = wire (conn SttLife.active_session) ++ map audio_frame chunks ++ [commit_frame]
    /\ concat chunks = [x01; x02; x03; x04; x05]
    /\ Forall (fun c => c <> [] /\ Z.of_nat (length c) <= 2) chunks
    /\ Forall (fun c => Z.of_nat (length c) = 2) (removelast chunks).
Proof.
  refine (proj2 (RecognizeBytes_chunks
                   {| GatewayURL := "ws://localhost:8080";
                      Config_Provider := "tengen"; APIKey := "";
                      Config_Language := "zh-CN"; Config_SampleRate := 10;
                      Config_AudioFormat := "pcm"; ConnectTimeout := 0;
                      ReadTimeout := 0; WriteTimeout := 0; ReconnectBackoff := 0;
                      MaxReconnects := 0 |}
                   [x01; x02; x03; x04; x05] SttLife.active_session 8 _ _ _ _ _ _)).
  - vm_compute. reflexivity.
  - vm_compute. discriminate.
  - reflexivity.
  - reflexivity.
  - reflexivity.
  - cbn. lia.
Defined.

(** X23.  A sample rate from 1 to 4 passes [Validate] unchanged
    and makes the chunk size 0.  The sender of [RecognizeBytes] then never
    reaches the commit for audio that is not empty: on a ready session
    that is not closed and whose connection is live, each turn of its loop
    sends one more audio.append frame with an empty payload. *)
Theorem zero_chunk_size_never_commits :
  forall cfg audio s turns,
    1 <= Config_SampleRate cfg <= 4 -> audio <> [] ->
    closed s = false -> ready s = true -> live (conn s) = true ->
    Config_SampleRate (fst (Validate cfg)) = Config_SampleRate cfg
    /\ chunkSize cfg = 0
    /\ exists s',
         send_chunks turns (chunkSize cfg) 0 audio s = Sending s'
         /\ wire (conn s') = wire (conn s) ++ repeat (audio_frame []) turns.
Proof.
  intros cfg audio s turns Hrate Hne Hc Hr Hl.
  assert (Hsize : chunkSize cfg = 0).
  { unfold chunkSize. rewrite wrap64_fits by (unfold int64_min, int64_max; lia).
    apply Z.quot_small. lia. }
  split.
  { unfold Validate. destruct (String.eqb (GatewayURL cfg) ""); [reflexivity|].
    destruct (String.eqb (Config_Provider cfg) ""); [reflexivity|]. cbn [fst Config_SampleRate].
    destruct (Z.leb_spec (Config_SampleRate cfg) 0); [lia|reflexivity]. }
  split; [exact Hsize|]. rewrite Hsize.
  assert (Hlen : 0 < Z.of_nat (length audio)) by (destruct audio; [congruence|cbn; lia]).
  revert s Hc Hr Hl. induction turns as [|turns IH]; intros s Hc Hr Hl.
  - exists s. split; [reflexivity|]. cbn. rewrite app_nil_r. reflexivity.
  - cbn [send_chunks].
    replace (0 <? Z.of_nat (length audio)) with true by (symmetry; apply Z.ltb_lt; lia).
    change (wrap64 (0 + 0)) with 0.
    replace (0 >? Z.of_nat (length audio)) with false
      by (destruct (Z.gtb_spec 0 (Z.of_nat (length audio))); [lia|reflexivity]).
    unfold slice.
    replace ((0 <=? 0) && (0 <=? 0) && (0 <=? Z.of_nat (length audio))) with true
      by (symmetry; rewrite !andb_true_iff, !Z.leb_le; lia).
    change (Z.to_nat (0 - 0)) with 0%nat.
    change (firstn 0 (skipn (Z.to_nat 0) audio)) with (@nil byte).
    rewrite (stt_Send_live [] s Hc Hr Hl).
    destruct (IH (with_conn s (with_wire (conn s) (wire (conn s) ++ [audio_frame []]))))
      as (s' & Hrun & Hwire); try assumption; try reflexivity.
    exists s'. split; [exact Hrun|]. rewrite Hwire.
    cbn [with_conn conn with_wire wire repeat]. rewrite <- app_assoc. reflexivity.
Qed.

Lemma zero_chunk_size_never_commits_witness :
  chunkSize {| GatewayURL := "ws://localhost:8080"; Config_Provider := "tengen";
               APIKey := ""; Config_Language := "zh-CN"; Config_SampleRate := 4;
               Config_AudioFormat := "pcm"; ConnectTimeout := 0; ReadTimeout := 0;
               WriteTimeout := 0; ReconnectBackoff := 0; MaxReconnects := 0 |} = 0.
Proof.
  refine (proj1 (proj2 (zero_chunk_size_never_commits
                          {| GatewayURL := "ws://localhost:8080"; Config_Provider := "tengen";
                             APIKey := ""; Config_Language := "zh-CN"; Config_SampleRate := 4;
                             Config_AudioFormat := "pcm"; ConnectTimeout := 0;
                             ReadTimeout := 0; WriteTimeout := 0; ReconnectBackoff := 0;
                             MaxReconnects := 0 |}
                          [x01] SttLife.active_session 3 _ _ _ _ _))).
  - cbn. lia.
  - discriminate.
  - reflexivity.
  - reflexivity.
  - reflexivity.
Defined.

End SttApiSpec.

(** ** The event loop of the recognition client: the other ways out *)

Module SttClientMore.
Import Transport Stt SttClient SttClientSpec.

(** The loop after the events [pre], the commit and the events [post]. *)
Lemma recognize_after_commit start tc pre post rest :
  Forall (fun te => keeps_going (snd te) = true) pre ->
  Forall (fun te => keeps_going (snd te) = true) post ->
  exists st,
    recognize_loop start (as_script pre ++ (tc, SendDone None) :: as_script post ++ rest)
      loop_init
    = recognize_loop start rest st
    /\ (forall t, finish start t st
                  = (recognized start t (pre ++ post), error_after (pre ++ post) None))
    /\ committed st = true /\ sendDoneCh st = false.
Proof.
  intros Hpre Hpost. rewrite recognize_absorbs by exact Hpre.
  cbn [recognize_loop loop_turn absorbed sendDoneCh loop_init].
  match goal with |- context [recognize_loop _ _ (arm tc ?s)] => set (st := s) end.
  rewrite recognize_absorbs by exact Hpost.
  exists (absorbed post (arm tc st)). split; [reflexivity|]. split; [|split; reflexivity].
  intros t. unfold finish, recognized, st, absorbed, arm.
  cbn [committed sendDoneCh idleTimer texts result Result_Text Segments Result_Duration
       Result_Error app].
  rewrite finals_app, error_after_app, !map_app. reflexivity.
Qed.

Lemma recognize_before_commit start pre rest :
  Forall (fun te => keeps_going (snd te) = true) pre ->
  recognize_loop start (as_script pre ++ rest) loop_init
  = recognize_loop start rest (absorbed pre loop_init)
  /\ (forall t, finish start t (absorbed pre loop_init)
                = (recognized start t pre, error_after pre None))
  /\ sendDoneCh (absorbed pre loop_init) = true.
Proof.
  intros Hpre. rewrite recognize_absorbs by exact Hpre.
  split; [reflexivity|]. split; [|reflexivity]. intros t. reflexivity.
Qed.

(** X24.  The other ways out of the event loop of [RecognizeFile] and
    [RecognizeBytes], after events that keep it going.  When the caller's
    context ends, before or after the commit, the call returns the
    segments and the text gathered so far, and its error is that of the
    last error event: the context's error is not returned, and without an
    error event the cancelled call succeeds.  An input-done or closed
    event, and the closing of the event channel, end the call in the same
    way.  When the sender reports a failure, the call returns no result
    and the error wrapped in "send audio", whatever was recognised
    before. *)
Theorem recognize_other_exits :
  forall start t tc pre post rest,
    Forall (fun te => keeps_going (snd te) = true) pre ->
    Forall (fun te => keeps_going (snd te) = true) post ->
    recognize_loop start (as_script pre ++ (t, CtxDone) :: rest) loop_init
    = Returned (Some (recognized start t pre)) (error_after pre None)
    /\ recognize_loop start
         (as_script pre ++ (tc, SendDone None) :: as_script post ++ (t, CtxDone) :: rest)
         loop_init
       = Returned (Some (recognized start t (pre ++ post))) (error_after (pre ++ post) None)
    /\ (forall e, keeps_going e = false ->
          recognize_loop start
            (as_script pre ++ (tc, SendDone None) :: as_script post ++ (t, Event e) :: rest)
            loop_init
          = Returned (Some (recognized start t (pre ++ post)))
              (error_after (pre ++ post) None))
    /\ recognize_loop start
         (as_script pre ++ (tc, SendDone None) :: as_script post ++ (t, EventsClosed) :: rest)
         loop_init
       = Returned (Some (recognized start t (pre ++ post))) (error_after (pre ++ post) None)
    /\ (forall err,
          recognize_loop start (as_script pre ++ (t, SendDone (Some err)) :: rest) loop_init
          = Returned None (Some (Wrap "send audio" err))).
Proof.
  intros start t tc pre post rest Hpre Hpost.
  destruct (recognize_before_commit start pre ((t, CtxDone) :: rest) Hpre) as (H1 & Hf1 & _).
  split.
  { rewrite H1. cbn [recognize_loop loop_turn]. rewrite Hf1. reflexivity. }
  split.
  { destruct (recognize_after_commit start tc pre post ((t, CtxDone) :: rest) Hpre Hpost)
      as (st & -> & Hf & _).
    cbn [recognize_loop loop_turn]. rewrite Hf. reflexivity. }
  split.
  { intros e He.
    destruct (recognize_after_commit start tc pre post ((t, Event e) :: rest) Hpre Hpost)
      as (st & -> & Hf & Hc & _).
    cbn [recognize_loop loop_turn]. rewrite Hc. unfold on_event.
    unfold keeps_going in He.
    assert (Harm : finish start t (arm t st) = finish start t st) by reflexivity.
    destruct (Type_ e); try discriminate He; rewrite Harm, Hf; reflexivity. }
  split.
  { destruct (recognize_after_commit start tc pre post ((t, EventsClosed) :: rest) Hpre Hpost)
      as (st & -> & Hf & _).
    cbn [recognize_loop loop_turn]. rewrite Hf. reflexivity. }
  intros err.
  destruct (recognize_before_commit start pre ((t, SendDone (Some err)) :: rest) Hpre)
    as (-> & _ & Hs).
  cbn [recognize_loop loop_turn]. rewrite Hs. reflexivity.
Qed.

Lemma recognize_other_exits_witness :
  recognize_loop 0
    (as_script [(1, NewFinalEvent "hello" 0 0)] ++ (2, CtxDone) :: []) loop_init
  = Returned (Some (recognized 0 2 [(1, NewFinalEvent "hello" 0 0)]))
      (error_after [(1, NewFinalEvent "hello" 0 0)] None).
Proof.
  refine (proj1 (recognize_other_exits 0 2 0 [(1, NewFinalEvent "hello" 0 0)] [] [] _ _)).
  - constructor; [reflexivity|constructor].
  - constructor.
Defined.

End SttClientMore.

(** ** Closing a stream that closes its session *)

Module TtsTeardownSpec.
Import Json Protocol Codec Transport TtsStream Tts TtsApi.

(** The teardown of [Session.Close] up to the release of the current
    stream. *)
Lemma teardown_head_effect s :
  let s1 := fold_left (fun acc f => f acc) teardown_head (with_once s Busy) in
  currentStream s1 = currentStream s /\ streams s1 = streams s
  /\ Tts.closeOnce s1 = Busy /\ Tts.closed s1 = true /\ Tts.closeCh s1 = true
  /\ history s1
     = history s ++ [MarkedClosed; SentSessionEnd; WaitedForPeer; Cancelled; ClosedCloseCh;
                     ClosedConn]
  /\ conn s1 = Transport.Close (fst (SendJSON (MSessionEnd NewSessionEnd) (conn s))).
Proof.
  cbn. rewrite <- !app_assoc. repeat split; reflexivity.
Qed.

Lemma has_closer_set h p : has_closer h (setSessionCloser h p) = true.
Proof. unfold has_closer, setSessionCloser. cbn. rewrite Nat.eqb_refl. reflexivity. Qed.

(** The turn of the loop is the one of [Tts.loop_turn] when that
    returns. *)
Lemma loop_turn_returns tie now sel p s' :
  pushing p = NoPush -> Tts.loop_turn tie now sel (session p) = Some s' ->
  loop_turn tie now sel p = with_session p s'.
Proof. intros Hp Ht. unfold loop_turn. rewrite Hp, Ht. reflexivity. Qed.

(** When it does not, the loop is parked with its chunk on the current
    stream, which has no room. *)
Lemma loop_turn_parks tie now sel p :
  pushing p = NoPush -> Tts.loop_turn tie now sel (session p) = None ->
  exists h chunk st,
    pushing (loop_turn tie now sel p) = ParkedOn h chunk
    /\ closers (loop_turn tie now sel p) = closers p
    /\ currentStream (session (loop_turn tie now sel p)) = Some h
    /\ streams (session (loop_turn tie now sel p)) = streams (session p)
    /\ streams (session p) !! h = Some st
    /\ pushChunk tie chunk st = PushWaits.
Proof.
  intros Hp Ht. unfold loop_turn. rewrite Hp, Ht.
  unfold Tts.loop_turn in Ht. destruct (loop (session p)); try discriminate Ht.
  destruct sel as [| | |e|data]; try discriminate Ht.
  unfold handleMessage in Ht. destruct (ParseMessageType data) as [t|]; [|discriminate Ht].
  destruct (String.eqb t MessageTypeAudioDelta);
    [|destruct (String.eqb t MessageTypeAudioDone); [discriminate Ht|];
      destruct (String.eqb t MessageTypeError); discriminate Ht].
  unfold Tts.handleAudioDelta in Ht. unfold handleAudioDelta.
  destruct (ParseMessage data) as [[]|]; try discriminate Ht.
  destruct (Base64.DecodeString _) as [audio|]; [|discriminate Ht].
  cbv zeta in Ht |- *.
  match type of Ht with
  | match currentStream ?x with _ => _ end = None => set (s2 := x) in *
  end.
  destruct (currentStream s2) as [h|] eqn:Hcur; [|discriminate Ht].
  destruct (streams s2 !! h) as [st|] eqn:Hst; [|discriminate Ht].
  destruct (pushData tie audio (seqNum s2) st) eqn:Hpush; try discriminate Ht.
  exists h, (data_chunk audio (seqNum s2)), st. cbn [pushing closers session].
  split; [reflexivity|]. split; [reflexivity|]. split; [exact Hcur|].
  assert (Hs2 : streams s2 = streams (session p)).
  { unfold s2. destruct (firstChunkReceivedAt (session p)); reflexivity. }
  split; [exact Hs2|]. split; [rewrite <- Hs2; exact Hst|exact Hpush].
Qed.

(** [Session.Close] on a session whose streams have no closer and whose
    loop is not parked is [Tts.Close]. *)
Lemma Session_Close_bare tie s :
  Tts.closeOnce s <> Busy ->
  (forall h st, streams s !! h = Some st -> TtsStream.closeOnce st <> Busy) ->
  Session_Close tie (bare s) = Returns (bare (Tts.Close s)).
Proof.
  intros Hb Hst. unfold Session_Close, Tts.Close. cbn [session bare].
  destruct (Tts.closeOnce s) eqn:Ho; [|congruence|reflexivity].
  destruct (teardown_head_effect s) as (H1 & H2 & _).
  set (s1 := fold_left (fun acc f => f acc) teardown_head (with_once s Busy)) in *.
  assert (Hw : match currentStream s1 with
               | Some h =>
                   match streams s1 !! h with
                   | Some st => match TtsStream.closeOnce st with Busy => true | _ => false end
                   | None => false
                   end
               | None => false
               end = false).
  { destruct (currentStream s1) as [h|]; [|reflexivity]. rewrite H2.
    destruct (streams s !! h) as [st|] eqn:Hl; [|reflexivity].
    specialize (Hst h st Hl). destruct (TtsStream.closeOnce st); congruence. }
  rewrite Hw. reflexivity.
Qed.

(** The stream that the client returns. *)
Lemma synthesize_with_stream env sel now text c opts h p :
  synthesize_with env sel now text c opts = Stream h p ->
  TtsLife.reachable (session p)
  /\ has_closer h p = true /\ pushing p = NoPush
  /\ currentStream (session p) = Some h
  /\ streams (session p) !! h = Some newAudioStream
  /\ Tts.closeOnce (session p) = Fresh.
Proof.
  unfold synthesize_with, createSession.
  destruct (ConnectWithRetry env (NewConn (connConfig (Client_config c)))) as [[c1 r] log].
  destruct r as [[e|]|]; try discriminate.
  set (s0 := newSession c1 (Config_Provider (Client_config c)) opts).
  destruct (start sel s0) as [s1 [[]|e]] eqn:Hstart; [|discriminate].
  assert (Hr1 : TtsLife.reachable s1).
  { replace s1 with (fst (start sel s0)) by (rewrite Hstart; reflexivity).
    apply (TtsLife.moved s0); [apply TtsLife.made|]. apply TtsLife.started. reflexivity. }
  pose proof (TtsSessionSpec.tts_SynthesizeStream_effect text now s1) as Heff.
  destruct (SynthesizeStream text now s1) as [s2 [h'|e]] eqn:Hsyn; [|discriminate].
  intros [= <- <-].
  assert (Hr2 : TtsLife.reachable s2).
  { replace s2 with (fst (SynthesizeStream text now s1)) by (rewrite Hsyn; reflexivity).
    apply (TtsLife.moved s1); [exact Hr1|apply TtsLife.synthesized]. }
  cbn [fst snd] in Heff. destruct Heff as (_ & _ & [[_ Hno]|(_ & _ & _ & Hok)]);
    [discriminate Hno|].
  destruct Hok as [(h & [= <-] & Hcur & _ & Hst & _)|(Hno & _)]; [|discriminate Hno].
  cbn [session setSessionCloser bare pushing].
  split; [exact Hr2|]. split; [apply has_closer_set|]. split; [reflexivity|].
  split; [exact Hcur|]. split; [rewrite Hst; apply lookup_insert_eq|].
  destruct (TtsSessionSpec.tts_reachable_sound s2 Hr2) as [Hclose _ Hcurrent _].
  destruct (Hcurrent _ Hcur) as (_ & Hopen & _).
  destruct Hclose as [(Ho & _)|(_ & _ & _ & _ & Hcl)]; [exact Ho|congruence].
Qed.

(** [Close] of a stream that has the session as closer and is the
    current stream. *)
Lemma AudioStream_Close_blocks tie h p st :
  streams (session p) !! h = Some st -> TtsStream.closeOnce st = Fresh ->
  has_closer h p = true -> currentStream (session p) = Some h ->
  Tts.closeOnce (session p) = Fresh -> pushing p = NoPush ->
  exists p',
    AudioStream_Close tie h p = Blocks p'
    /\ Tts.closeOnce (session p') = Busy
    /\ Tts.closed (session p') = true
    /\ history (session p')
       = history (session p)
         ++ [MarkedClosed; SentSessionEnd; WaitedForPeer; Cancelled; ClosedCloseCh; ClosedConn]
    /\ wire (conn (session p')) = wire (conn (session p)) ++ teardown_frames (conn (session p))
    /\ session_ends (wire (conn (session p')))
       = (session_ends (wire (conn (session p)))
          + if live (conn (session p)) then 1 else 0)%nat
    /\ ws (conn (session p')) = None
    /\ currentStream (session p') = Some h
    /\ (exists st',
          streams (session p') !! h = Some st'
          /\ TtsStream.closeOnce st' = Busy /\ closer_returned st' = TtsStream.Close st)
    /\ (forall tie', Session_Close tie' p' = Blocks p')
    /\ (forall tie', AudioStream_Close tie' h p' = Blocks p').
Proof.
  intros Hst Ho Hcl Hcur Hfresh Hpush.
  unfold AudioStream_Close. rewrite Hst, Hcl. unfold Close_from. rewrite Ho.
  set (st1 := {| chunksCh := _ |}).
  set (s0 := with_streams (session p) (<[h:=st1]> (streams (session p)))).
  assert (Hp1 : with_stream h st1 p = with_session p s0) by reflexivity.
  assert (Hw : wake_loop tie (with_session p s0) = with_session p s0).
  { unfold wake_loop. cbn [with_session pushing]. rewrite Hpush. reflexivity. }
  rewrite Hp1, Hw.
  assert (Hpush1 : pushing (with_session p s0) = NoPush) by exact Hpush.
  rewrite Hpush1.
  destruct (teardown_head_effect s0) as (H1 & H2 & H3 & H4 & H5 & H6 & H7).
  set (s1 := fold_left (fun acc f => f acc) teardown_head (with_once s0 Busy)) in *.
  assert (Hl : streams s1 !! h = Some st1).
  { rewrite H2. unfold s0. cbn [streams with_streams]. apply lookup_insert_eq. }
  assert (Hc1 : currentStream s1 = Some h) by (rewrite H1; exact Hcur).
  assert (Hsc : Session_Close tie (with_session p s0) = Blocks (with_session p s1)).
  { unfold Session_Close. cbn [session with_session].
    change (Tts.closeOnce s0) with (Tts.closeOnce (session p)). rewrite Hfresh.
    fold s1. rewrite Hc1, Hl. reflexivity. }
  rewrite Hsc.
  eexists. split; [reflexivity|]. cbn [session with_session].
  split; [exact H3|]. split; [exact H4|]. split; [exact H6|].
  split; [rewrite H7; apply TransportSpec.wire_teardown|].
  split; [rewrite H7; apply TransportSpec.session_ends_teardown|].
  split; [rewrite H7; apply TransportSpec.ws_teardown|].
  split; [exact Hc1|].
  split.
  { exists st1. split; [exact Hl|]. split; [reflexivity|].
    unfold closer_returned, with_closeOnce, TtsStream.Close, Close_from. rewrite Ho.
    reflexivity. }
  split.
  - intros tie'. unfold Session_Close. cbn [session with_session]. rewrite H3. reflexivity.
  - intros tie'. unfold AudioStream_Close. cbn [session with_session]. rewrite Hl.
    unfold Close_from. reflexivity.
Qed.

(** [Session.Close] while the message loop is parked in [pushChunk] on
    the current stream. *)
Lemma Session_Close_crashes tie h chunk p st :
  pushing p = ParkedOn h chunk -> currentStream (session p) = Some h ->
  streams (session p) !! h = Some st ->
  pushChunk tie chunk st = PushWaits -> TtsStream.closeOnce st = Fresh ->
  Tts.closeOnce (session p) = Fresh ->
  exists p',
    Session_Close tie p = Crashes p' /\ pushing p' = LoopPanicked
    /\ streams (session p') !! h = Some (pushDone st)
    /\ Chan.closed (chunksCh (pushDone st)) = true.
Proof.
  intros Hpush Hcur Hst Hpark Ho Hfresh.
  assert (Hk : chunkChClosed st = false).
  { unfold pushChunk in Hpark. destruct (chunkChClosed st); [discriminate|reflexivity]. }
  assert (Hclosed : Chan.closed (chunksCh (pushDone st)) = true).
  { unfold pushDone. rewrite Ho. unfold seal. rewrite Hk. reflexivity. }
  unfold Session_Close. rewrite Hfresh.
  destruct (teardown_head_effect (session p)) as (H1 & H2 & H3 & H4 & H5 & H6 & H7).
  set (s1 := fold_left (fun acc f => f acc) teardown_head (with_once (session p) Busy)) in *.
  rewrite H1, Hcur, H2, Hst, Ho.
  assert (Hrel : streams (with_once (release_stream s1) Spent) !! h = Some (pushDone st)).
  { unfold release_stream. rewrite H1, Hcur. cbn [with_once note streams with_streams].
    rewrite H2, lookup_alter_eq, Hst. reflexivity. }
  unfold wake_loop. cbn [with_session pushing session]. rewrite Hpush, Hrel.
  unfold wake. rewrite Hclosed. cbn [with_pushing outcome pushing].
  eexists. split; [reflexivity|]. cbn [pushing session].
  split; [reflexivity|]. split; [exact Hrel|reflexivity].
Qed.

(** C2, a fault of the code.  A stream that the client's
    [SynthesizeStream] returns has the session as its closer, is the
    current stream of the session and no [Close] was called yet.  [Close]
    on a stream in that state runs [Session.Close] inside the function
    guarded by the [Once] of the stream.  The teardown marks the session
    closed, writes the frames of a teardown, closes the close channel and
    the connection, and then calls [pushDone] on the current stream, which
    is the stream being closed: [pushDone] waits on the [Once] whose
    function is running.  So the teardown stops before its last statement:
    the stream is not released, the [Once] of the session stays busy, the
    call does not return, and every later [Close] of the session or of the
    stream waits as well.  And when the message loop is parked in
    [pushChunk] on the current stream, whose queue is full, the [pushDone]
    of the teardown closes the channel under the parked send: the loop
    panics. *)
Theorem stream_Close_stops_teardown :
  (forall env sel now text c opts h p,
      synthesize_with env sel now text c opts = Stream h p ->
      TtsLife.reachable (session p)
      /\ has_closer h p = true /\ pushing p = NoPush
      /\ currentStream (session p) = Some h
      /\ streams (session p) !! h = Some newAudioStream
      /\ Tts.closeOnce (session p) = Fresh)
  /\ (forall tie h p st,
        streams (session p) !! h = Some st -> TtsStream.closeOnce st = Fresh ->
        has_closer h p = true -> currentStream (session p) = Some h ->
        Tts.closeOnce (session p) = Fresh -> pushing p = NoPush ->
        exists p',
          AudioStream_Close tie h p = Blocks p'
          /\ Tts.closeOnce (session p') = Busy
          /\ Tts.closed (session p') = true
          /\ history (session p')
             = history (session p)
               ++ [MarkedClosed; SentSessionEnd; WaitedForPeer; Cancelled; ClosedCloseCh;
                   ClosedConn]
          /\ wire (conn (session p'))
             = wire (conn (session p)) ++ teardown_frames (conn (session p))
          /\ session_ends (wire (conn (session p')))
             = (session_ends (wire (conn (session p)))
                + if live (conn (session p)) then 1 else 0)%nat
          /\ ws (conn (session p')) = None
          /\ currentStream (session p') = Some h
          /\ (exists st',
                streams (session p') !! h = Some st'
                /\ TtsStream.closeOnce st' = Busy
                /\ closer_returned st' = TtsStream.Close st)
          /\ (forall tie', Session_Close tie' p' = Blocks p')
          /\ (forall tie', AudioStream_Close tie' h p' = Blocks p'))
  /\ (forall tie h chunk p st,
        pushing p = ParkedOn h chunk -> currentStream (session p) = Some h ->
        streams (session p) !! h = Some st ->
        pushChunk tie chunk st = PushWaits -> TtsStream.closeOnce st = Fresh ->
        Tts.closeOnce (session p) = Fresh ->
        exists p',
          Session_Close tie p = Crashes p' /\ pushing p' = LoopPanicked
          /\ streams (session p') !! h = Some (pushDone st)
          /\ Chan.closed (chunksCh (pushDone st)) = true).
Proof.
  split; [exact synthesize_with_stream|].
  split; [exact AudioStream_Close_blocks|exact Session_Close_crashes].
Qed.

Lemma stream_Close_stops_teardown_witness :
  (exists h p p',
     Client_SynthesizeStream [accepted] (MessageRead (ready_frame "sess-1")) 7 "hello"
       sample_client = Stream h p
     /\ AudioStream_Close false h p = Blocks p'
     /\ Tts.closeOnce (session p') = Busy
     /\ Session_Close false p' = Blocks p')
  /\ exists p',
       Session_Close false flooded = Crashes p' /\ pushing p' = LoopPanicked.
Proof.
  pose proof stream_Close_stops_teardown as (HA & HB & HC).
  split.
  - assert (Hrun : exists p,
              synthesize_with [accepted] (MessageRead (ready_frame "sess-1")) 7 "hello"
                sample_client (config_options (Client_config sample_client))
              = Stream 0%nat p).
    { eexists. vm_compute. reflexivity. }
    destruct Hrun as (p & Hrun).
    destruct (HA _ _ _ _ _ _ _ _ Hrun) as (_ & Hcl & Hpush & Hcur & Hst & Hfresh).
    destruct (HB false 0%nat p newAudioStream Hst eq_refl Hcl Hcur Hfresh Hpush)
      as (p' & Hb & Ho & _ & _ & _ & _ & _ & _ & _ & Hs & _).
    exists 0%nat, p, p'. split; [exact Hrun|]. split; [exact Hb|]. split; [exact Ho|].
    apply Hs.
  - assert (Hst : exists st,
              streams (session flooded) !! 0%nat = Some st
              /\ pushChunk false (data_chunk (silence 1) 101) st = PushWaits
              /\ TtsStream.closeOnce st = Fresh).
    { eexists. split; [vm_compute; reflexivity|]. split; vm_compute; reflexivity. }
    destruct Hst as (st & Hst & Hpark & Ho).
    destruct (HC false 0%nat (data_chunk (silence 1) 101) flooded st) as (p' & Hc & Hp & _);
      [vm_compute; reflexivity|vm_compute; reflexivity|exact Hst|exact Hpark|exact Ho
      |vm_compute; reflexivity|].
    exists p'. split; [exact Hc|exact Hp].
Defined.

End TtsTeardownSpec.

(** ** The synthesis client *)

Module TtsApiSpec.
Import Json Protocol Codec Transport TtsStream Tts TtsApi.

(** The parameters that [sendConfig] sends for a provider and options. *)
Lemma tts_sendConfig_live s j :
  live (conn s) = true ->
  Marshal (MSessionConfig (NewSessionConfig
    {| Protocol.Provider := Provider s; Protocol.VoiceID := VoiceID (opts s);
       Protocol.Language := Language (opts s); Protocol.Speed := Speed (opts s);
       Protocol.Pitch := Pitch (opts s); Protocol.Volume := Volume (opts s);
       Protocol.SampleRate := SampleRate (opts s);
       Protocol.AudioFormat := AudioFormat (opts s) |})) = Ok j ->
  sendConfig s = (with_conn s (with_wire (conn s) (wire (conn s) ++ [TextMessage j])), Ok tt).
Proof.
  intros Hl Hj. unfold sendConfig.
  destruct (Base64Spec.SendJSON_live _ j (conn s) Hl Hj) as [-> _]. reflexivity.
Qed.

Lemma tts_sendConfig_unsupported s e :
  live (conn s) = true ->
  Marshal (MSessionConfig (NewSessionConfig
    {| Protocol.Provider := Provider s; Protocol.VoiceID := VoiceID (opts s);
       Protocol.Language := Language (opts s); Protocol.Speed := Speed (opts s);
       Protocol.Pitch := Pitch (opts s); Protocol.Volume := Volume (opts s);
       Protocol.SampleRate := SampleRate (opts s);
       Protocol.AudioFormat := AudioFormat (opts s) |})) = Err e ->
  sendConfig s = (s, Err e).
Proof.
  intros Hl Hj. unfold sendConfig, SendJSON. unfold live, writable in Hl.
  destruct (connected (conn s)); [|discriminate]. destruct (ws (conn s)) as [w|]; [|discriminate].
  cbn [andb] in Hl. apply negb_true_iff in Hl. rewrite Hl, Hj.
  destruct s; reflexivity.
Qed.

(** What [createSession] does, when nothing happens to the socket between
    the dial and the handshake. *)
Lemma createSession_cases env sel c o :
  match createSession env sel c o with
  | Created s =>
      exists data rdy j,
        sel = MessageRead data /\ SttLife.handshake data rdy
        /\ Marshal (MSessionConfig (NewSessionConfig
             {| Protocol.Provider := Config_Provider (Client_config c);
                Protocol.VoiceID := VoiceID o; Protocol.Language := Language o;
                Protocol.Speed := Speed o; Protocol.Pitch := Pitch o;
                Protocol.Volume := Volume o; Protocol.SampleRate := SampleRate o;
                Protocol.AudioFormat := AudioFormat o |})) = Ok j
        /\ exists c1,
             live c1 = true /\ wire c1 = [TextMessage j]
             /\ Transport.config c1 = connConfig (Client_config c)
             /\ s = {| ID := SessionID rdy; Provider := Config_Provider (Client_config c);
                       conn := c1; opts := o; Tts.closeCh := false; Tts.closeOnce := Fresh;
                       ready := true; Tts.closed := false; seqNum := 0; ctxDone := false;
                       currentStream := None; roundCount := 0; synthesizing := false;
                       commitSentAt := None; firstChunkReceivedAt := None;
                       streams := ∅; allocated := 0; loop := Looping; history := [];
                       fault := false |}
  | Refused c' e =>
      IsConnected c' = false
      /\ ((exists cause, e = Wrap "connect to gateway" cause) /\ wire c' = []
          \/ (exists cause, e = Wrap "start session" cause)
             /\ ws c' = None /\ wire c' = [CloseMessage])
  | Connecting => True
  end.
Proof.
  unfold createSession.
  destruct (ConnectWithRetry env (NewConn (connConfig (Client_config c))))
    as [[c1 r] log] eqn:Hretry.
  unfold ConnectWithRetry in Hretry.
  apply TransportMore.retry_loop_shape in Hretry; [|reflexivity].
  destruct Hretry as (Hcfg & Hwire & Hch & Ho & Hr).
  cbn [NewConn Transport.config wire Transport.closeCh Transport.closeOnce ws] in *.
  destruct r as [[e|]|]; [| |exact I].
  - destruct Hr as [Hc _]. split; [exact Hc|]. left. split; [eauto|exact Hwire].
  - destruct Hr as [Hc Hws].
    assert (Hlive : live c1 = true).
    { unfold live, writable. rewrite Hc, Hws. reflexivity. }
    set (s0 := newSession c1 (Config_Provider (Client_config c)) o).
    assert (Hclose : IsConnected (Transport.Close c1) = false
                     /\ ws (Transport.Close c1) = None
                     /\ wire (Transport.Close c1) = [CloseMessage]).
    { unfold IsConnected, Transport.Close. rewrite Hws. cbn [connected ws wire broken].
      rewrite Hwire. auto. }
    unfold start. destruct (waitReady sel s0) as [s1 [[]|e]] eqn:Hw.
    + destruct (TtsSessionSpec.tts_waitReady_ok sel s0 s1 Hw)
        as (data & rdy & -> & Ht & Hp & _).
      assert (Hs1 : s1 = {| ID := SessionID rdy; Provider := Config_Provider (Client_config c);
                            conn := c1; opts := o; Tts.closeCh := false;
                            Tts.closeOnce := Fresh; ready := true; Tts.closed := false;
                            seqNum := 0; ctxDone := false; currentStream := None;
                            roundCount := 0; synthesizing := false; commitSentAt := None;
                            firstChunkReceivedAt := None; streams := ∅; allocated := 0;
                            loop := NotStarted; history := []; fault := false |}).
      { revert Hw. unfold waitReady. cbn [Receive]. rewrite Ht.
        change (negb (String.eqb MessageTypeSessionReady MessageTypeSessionReady)) with false.
        cbv iota. rewrite Hp. intros [= <-]. reflexivity. }
      destruct (Marshal (MSessionConfig (NewSessionConfig
                  {| Protocol.Provider := Config_Provider (Client_config c);
                     Protocol.VoiceID := VoiceID o; Protocol.Language := Language o;
                     Protocol.Speed := Speed o; Protocol.Pitch := Pitch o;
                     Protocol.Volume := Volume o; Protocol.SampleRate := SampleRate o;
                     Protocol.AudioFormat := AudioFormat o |}))) as [j|e] eqn:Hj.
      * rewrite (tts_sendConfig_live s1 j);
          [|rewrite Hs1; exact Hlive|rewrite Hs1; exact Hj].
        exists data, rdy, j. split; [reflexivity|]. split; [split; assumption|].
        split; [reflexivity|].
        exists (with_wire c1 (wire c1 ++ [TextMessage j])).
        split; [exact Hlive|]. split; [cbn; rewrite Hwire; reflexivity|].
        split; [exact Hcfg|]. rewrite Hs1. reflexivity.
      * rewrite (tts_sendConfig_unsupported s1 e);
          [|rewrite Hs1; exact Hlive|rewrite Hs1; exact Hj].
        rewrite Hs1. cbn [conn]. destruct Hclose as (H1 & H2 & H3).
        split; [exact H1|]. right. split; [|auto]. exists e. reflexivity.
    + apply TtsSessionSpec.tts_waitReady_err in Hw as Hs. subst s1. cbn [s0 newSession conn].
      destruct Hclose as (H1 & H2 & H3). split; [exact H1|]. right. split; [|auto].
      exists e. reflexivity.
Qed.




Lemma Marshal_nonfinite (p : SessionParams) t :
  float_is_finite (Protocol.Speed p) && float_is_finite (Protocol.Pitch p)
  && float_is_finite (Protocol.Volume p) = false ->
  Marshal (MSessionConfig {| SessionConfig_Type := t; SessionConfig_Session := p |})
  = Err UnsupportedValueError.
Proof.
  intros H. cbn [Marshal SessionConfig_Session]. unfold Marshal_SessionParams, omit_float.
  destruct (Protocol.Speed p) as [[|]|[|]| |], (Protocol.Pitch p) as [[|]|[|]| |],
    (Protocol.Volume p) as [[|]|[|]| |];
    cbn in H |- *; try discriminate H; reflexivity.
Qed.

(** X26.  [Validate] lets through a speed or a volume that is a
    NaN or the positive infinity, and any pitch.  With such a value in its
    configuration the client never gets a stream: the session.config frame
    cannot be encoded, so when the gateway accepts the dial and sends
    session.ready the call fails with "start session" wrapping json's
    unsupported-value error, and the connection is closed. *)
Theorem nonfinite_setting_blocks_synthesis :
  forall cfg env sel now text,
    String.eqb (GatewayURL cfg) "" = false -> String.eqb (Config_Provider cfg) "" = false ->
    (Config_Speed cfg = S754_nan \/ Config_Speed cfg = S754_infinity false
     \/ float_is_finite (Config_Pitch cfg) = false
     \/ Config_Volume cfg = S754_nan \/ Config_Volume cfg = S754_infinity false) ->
    exists c,
      NewClient (Some cfg) = Ok c
      /\ (forall h p, Client_SynthesizeStream env sel now text c <> Stream h p)
      /\ (forall c1 log data rdy,
            ConnectWithRetry env (NewConn (connConfig (Client_config c)))
            = (c1, Returned None, log) ->
            sel = MessageRead data -> SttLife.handshake data rdy ->
            Client_SynthesizeStream env sel now text c
            = StreamRefused (Transport.Close c1) (Wrap "start session" UnsupportedValueError)
            /\ IsConnected (Transport.Close c1) = false).
Proof.
  intros cfg env sel now text Hurl Hprov Hbad.
  unfold NewClient, Validate. rewrite Hurl, Hprov. eexists. split; [reflexivity|].
  set (cfg' := {| GatewayURL := GatewayURL cfg |}).
  assert (Hnf : float_is_finite (Config_Speed cfg') && float_is_finite (Config_Pitch cfg')
                && float_is_finite (Config_Volume cfg') = false).
  { unfold cfg'. cbn [Config_Speed Config_Pitch Config_Volume].
    destruct Hbad as [H|[H|[H|[H|H]]]]; try rewrite H; cbn [not_positive SFleb SFcompare];
      cbn [float_is_finite andb]; rewrite ?andb_false_r; reflexivity. }
  assert (Hm : Marshal (MSessionConfig (NewSessionConfig
            {| Protocol.Provider := Config_Provider cfg';
               Protocol.VoiceID := Config_VoiceID cfg'; Protocol.Language := "";
               Protocol.Speed := Config_Speed cfg'; Protocol.Pitch := Config_Pitch cfg';
               Protocol.Volume := Config_Volume cfg';
               Protocol.SampleRate := Config_SampleRate cfg';
               Protocol.AudioFormat := Config_AudioFormat cfg' |}))
            = Err UnsupportedValueError).
  { apply Marshal_nonfinite. exact Hnf. }
  split.
  - intros h p Hrun. unfold Client_SynthesizeStream, synthesize_with in Hrun.
    pose proof (createSession_cases env sel {| Client_config := cfg' |}
                  (config_options cfg')) as Hcs.
    cbn [Client_config] in Hrun.
    destruct (createSession env sel {| Client_config := cfg' |} (config_options cfg'))
      as [|c' e|s0]; try discriminate Hrun.
    destruct Hcs as (data & rdy & j & _ & _ & Hj & _).
    cbn [Client_config config_options VoiceID Language Speed Pitch Volume SampleRate
         AudioFormat] in Hj.
    rewrite Hm in Hj. discriminate Hj.
  - intros c1 log data rdy Hretry -> [Ht Hp].
    cbn [Client_config] in Hretry.
    assert (Hshape := Hretry). unfold ConnectWithRetry in Hshape.
    apply TransportMore.retry_loop_shape in Hshape; [|reflexivity].
    destruct Hshape as (Hcfg & Hwire & Hch & Ho & Hc & Hws).
    cbn [NewConn wire] in Hwire.
    assert (Hlive : live c1 = true).
    { unfold live, writable. rewrite Hc, Hws. reflexivity. }
    unfold Client_SynthesizeStream, synthesize_with, createSession.
    cbn [Client_config]. rewrite Hretry.
    unfold start, waitReady. cbn [Receive]. rewrite Ht.
    change (negb (String.eqb MessageTypeSessionReady MessageTypeSessionReady)) with false.
    cbv iota. rewrite Hp.
    match goal with
    | |- context [sendConfig ?x] =>
        rewrite (tts_sendConfig_unsupported x UnsupportedValueError Hlive Hm)
    end.
    cbn [conn newSession]. split; [reflexivity|].
    unfold IsConnected, Transport.Close. rewrite Hws. reflexivity.
Qed.

Lemma nonfinite_setting_blocks_synthesis_witness :
  exists c,
    NewClient (Some nan_config) = Ok c
    /\ forall h p,
         Client_SynthesizeStream [accepted] (MessageRead (ready_frame "sess-1")) 7 "hello" c
         <> Stream h p.
Proof.
  destruct (nonfinite_setting_blocks_synthesis nan_config [accepted]
              (MessageRead (ready_frame "sess-1")) 7 "hello" eq_refl eq_refl
              (or_introl eq_refl)) as (c & H1 & H2 & _).
  exists c. split; [exact H1|exact H2].
Defined.

Lemma with_stream_same h st p :
  streams (session p) !! h = Some st -> with_stream h st p = p.
Proof.
  intros Hst. unfold with_stream, with_session. rewrite (insert_id _ _ _ Hst).
  destruct p as [s c l]. cbn [session closers pushing]. destruct s. reflexivity.
Qed.

(** X27.  [Close] on a stream whose round was completed does not
    close the session.  Once [pushDone] has spent the [Once] of the
    stream, [Close] returns without running its function, so the closer
    is not called and the program is left exactly as it was.  That is the
    state after the message loop has handled audio.done for the current
    stream: the stream is completed and detached, and the session is as
    open as before, with its connection untouched, however often the
    stream is closed afterwards. *)
Theorem Close_after_round_leaves_session_open :
  (forall tie h p st,
      streams (session p) !! h = Some st -> TtsStream.closeOnce st = Spent ->
      pushing p = NoPush ->
      AudioStream_Close tie h p = Returns p)
  /\ (forall tie now h p st,
        pushing p = NoPush -> loop (session p) = Looping ->
        currentStream (session p) = Some h -> streams (session p) !! h = Some st ->
        TtsStream.closeOnce st = Fresh ->
        streams (session (loop_turn tie now (Inbound done_frame) p)) !! h = Some (pushDone st)
        /\ TtsStream.closeOnce (pushDone st) = Spent
        /\ currentStream (session (loop_turn tie now (Inbound done_frame) p)) = None
        /\ IsSynthesizing (session (loop_turn tie now (Inbound done_frame) p)) = false
        /\ (forall tie',
              AudioStream_Close tie' h (loop_turn tie now (Inbound done_frame) p)
              = Returns (loop_turn tie now (Inbound done_frame) p))
        /\ Tts.closed (session (loop_turn tie now (Inbound done_frame) p))
           = Tts.closed (session p)
        /\ Tts.closeOnce (session (loop_turn tie now (Inbound done_frame) p))
           = Tts.closeOnce (session p)
        /\ conn (session (loop_turn tie now (Inbound done_frame) p)) = conn (session p)
        /\ loop (session (loop_turn tie now (Inbound done_frame) p)) = Looping).
Proof.
  assert (Hvoid : forall tie h p st,
             streams (session p) !! h = Some st -> TtsStream.closeOnce st = Spent ->
             pushing p = NoPush -> AudioStream_Close tie h p = Returns p).
  { intros tie h p st Hst Ho Hp. unfold AudioStream_Close. rewrite Hst.
    unfold Close_from. rewrite Ho. rewrite (with_stream_same h st p Hst).
    unfold wake_loop, outcome. rewrite Hp. cbn. rewrite Hp. reflexivity. }
  split; [exact Hvoid|].
  intros tie now h p st Hp Hl Hcur Hst Ho.
  assert (Ht : loop_turn tie now (Inbound done_frame) p
               = with_session p (handleAudioDone (session p))).
  { apply TtsTeardownSpec.loop_turn_returns; [exact Hp|].
    unfold Tts.loop_turn. rewrite Hl. reflexivity. }
  rewrite Ht. cbn [session with_session].
  assert (Hst' : streams (handleAudioDone (session p)) !! h = Some (pushDone st)).
  { unfold handleAudioDone, detach. rewrite Hcur. cbn [streams with_streams with_round].
    rewrite lookup_alter_eq, Hst. reflexivity. }
  assert (Hsp : TtsStream.closeOnce (pushDone st) = Spent).
  { unfold pushDone. rewrite Ho. reflexivity. }
  split; [exact Hst'|]. split; [exact Hsp|].
  split; [unfold handleAudioDone, detach; rewrite Hcur; reflexivity|].
  split; [unfold handleAudioDone, detach; rewrite Hcur; reflexivity|].
  split.
  { intros tie'. apply (Hvoid tie' h _ (pushDone st)); [exact Hst'|exact Hsp|exact Hp]. }
  unfold handleAudioDone, detach. rewrite Hcur. cbn. rewrite Hl. auto.
Qed.

Lemma Close_after_round_leaves_session_open_witness :
  AudioStream_Close false 0
    (loop_turn false 300 (Inbound done_frame) (setSessionCloser 0 (bare TtsLife.busy_session)))
  = Returns
      (loop_turn false 300 (Inbound done_frame) (setSessionCloser 0 (bare TtsLife.busy_session)))
  /\ Tts.closed
       (session (loop_turn false 300 (Inbound done_frame)
                   (setSessionCloser 0 (bare TtsLife.busy_session)))) = false.
Proof.
  destruct (proj2 Close_after_round_leaves_session_open false 300 0%nat
              (setSessionCloser 0 (bare TtsLife.busy_session)) newAudioStream)
    as (_ & _ & _ & _ & Hc & Hcl & _);
    [reflexivity|reflexivity|reflexivity|reflexivity|reflexivity|].
  split; [apply Hc|]. rewrite Hcl. reflexivity.
Defined.

End TtsApiSpec.
